(** * Connection pools of the gocql driver: [policyConnPool] and [hostConnPool]

    A shallow embedding of the two-level connection pool
    (file [path_intermediate.go], package [gocql]) and the proofs of its
    specified properties.

    The Go code mutates pool objects through pointers, appends to and
    re-slices a backing array, and hands slices to the connection selection
    policy.  The embedding therefore keeps an explicit store: a heap of
    backing arrays, a table of [hostConnPool] objects addressed by pointer,
    and a counter of the dials made so far.  Every method is a function in
    a small state, output and panic monad; the output is the list of
    externally visible events (lock operations, dials, policy calls, [go]
    statements, closed connections) in program order. *)

From Stdlib Require Import ZArith Lia.
From stdpp Require Import base list gmap strings.

Set Default Proof Using "Type".

(** ** Values *)

(** A [*Conn] is a pointer: [None] is [nil], [Some n] is the connection made
    by the [n]-th call of [session.connect]. *)
Abbreviation Conn := (option nat).

(** A pointer to a [hostConnPool] object. *)
Abbreviation ptr := nat.

(** A [*Query], opaque to the pools. *)
Abbreviation Query := nat.

(** Go's [error] values, as far as [logConnectErr] tells them apart:
    a [*net.OpError] with its [Op] field, or anything else. *)
Inductive error : Type :=
| OpError (op : string)
| OtherError (msg : string).

(** [HostInfo], read through [Peer()], [Port()] and [IsUp()]. *)
Record HostInfo : Type := mkHostInfo {
  Peer : string;
  Port : Z;
  IsUp : bool
}.

(** A [SelectedHost] yielded by the host selection policy; [Info()] may be
    [nil]. *)
Record SelectedHost : Type := mkSelectedHost { Info : option HostInfo }.

#[global] Instance error_eq_dec : EqDecision error.
Proof. solve_decision. Defined.
#[global] Instance HostInfo_eq_dec : EqDecision HostInfo.
Proof. solve_decision. Defined.
#[global] Instance SelectedHost_eq_dec : EqDecision SelectedHost.
Proof. solve_decision. Defined.

(** ** Go slices over a heap of backing arrays *)

(** A slice header: [SliceNil] is the nil slice, [Slice a len cap] views the
    first [len] cells of backing array [a], of which [cap] may be used.  The
    code never slices with a non-zero low bound, so no offset is kept. *)
Inductive slice : Type :=
| SliceNil
| Slice (arr : nat) (len cap : nat).

#[global] Instance slice_eq_dec : EqDecision slice.
Proof. solve_decision. Defined.

Definition slen (s : slice) : nat :=
  match s with SliceNil => 0 | Slice _ n _ => n end.

Definition scap (s : slice) : nat :=
  match s with SliceNil => 0 | Slice _ _ c => c end.

Definition array (h : list (list Conn)) (a : nat) : list Conn :=
  default [] (h !! a).

(** The elements a slice shows: what [range] iterates over. *)
Definition elems (h : list (list Conn)) (s : slice) : list Conn :=
  match s with
  | SliceNil => []
  | Slice a n _ => take n (array h a)
  end.

(** Two slices alias when they view the same backing array. *)
Definition aliases (s t : slice) : Prop :=
  match s, t with
  | Slice a _ _, Slice b _ _ => a = b
  | _, _ => False
  end.

(** ** Pool objects *)

(** The state of a [ConnSelectionPolicy] instance: the slice it was last
    given by [SetConns] and the number of [Pick] calls it has served. *)
Record ConnSelectionPolicy : Type := mkPolicy {
  pc_conns : slice;
  pc_picks : nat
}.

(** [hostConnPool].  The [session] pointer is shared by all pools and is
    represented by the calls made through it; [mu] is represented by the
    lock events. *)
Record hostConnPool : Type := mkHostConnPool {
  host : HostInfo;
  port : Z;
  addr : string;
  size : Z;
  keyspace : string;
  policy : ConnSelectionPolicy;
  conns : slice;
  closed : bool;
  filling : bool
}.

Definition set_conns (s : slice) (p : hostConnPool) : hostConnPool :=
  mkHostConnPool (host p) (port p) (addr p) (size p) (keyspace p)
                 (policy p) s (closed p) (filling p).

Definition set_closed (b : bool) (p : hostConnPool) : hostConnPool :=
  mkHostConnPool (host p) (port p) (addr p) (size p) (keyspace p)
                 (policy p) (conns p) b (filling p).

Definition set_filling (b : bool) (p : hostConnPool) : hostConnPool :=
  mkHostConnPool (host p) (port p) (addr p) (size p) (keyspace p)
                 (policy p) (conns p) (closed p) b.

Definition set_policy (c : ConnSelectionPolicy) (p : hostConnPool) : hostConnPool :=
  mkHostConnPool (host p) (port p) (addr p) (size p) (keyspace p)
                 c (conns p) (closed p) (filling p).

(** ** The store *)

Record world : Type := mkWorld {
  heap : list (list Conn);      (* backing arrays, by address *)
  pools : list hostConnPool;    (* hostConnPool objects, by pointer *)
  ndials : nat                  (* calls of session.connect so far *)
}.

(** ** Events *)

Inductive mutex : Type :=
| PoolMu (pool : ptr)           (* hostConnPool.mu *)
| PolicyMu.                     (* policyConnPool.mu *)

(** What a [go] statement starts. *)
Inductive task : Type :=
| TFill (pool : ptr)                       (* go pool.fill() *)
| TDrain (pool : ptr)                      (* go pool.drain() *)
| TFillRest (pool : ptr) (fillCount : Z)   (* go func() { connectMany; fillingStopped } *)
| TConnect (pool : ptr)                    (* a dialer of connectMany *)
| TNewPool (h : HostInfo)                  (* a pool creator of SetHosts *)
| THandleNodeDown (peer : string) (port : Z).  (* go session.handleNodeDown(..) *)

Inductive event : Type :=
| Lock (m : mutex)
| Unlock (m : mutex)
| RLock (m : mutex)
| RUnlock (m : mutex)
| Dial (addr : string)                     (* session.connect(addr, pool) *)
| UseKeyspace (c : Conn) (ks : string)     (* conn.UseKeyspace(ks) *)
| ConnClose (c : Conn)                     (* conn.Close() *)
| SetConns (pool : ptr) (s : slice)        (* pool.policy.SetConns(s) *)
| PolicyPick (pool : ptr) (q : Query)      (* pool.policy.Pick(q) *)
| LogPrintf (addr : string) (e : error)    (* log.Printf in logConnectErr *)
| Sleep                                    (* time.Sleep in fillingStopped *)
| Go (t : task)                            (* a go statement *)
| WaitGroupWait                            (* wg.Wait() *)
| HostPolicyPick (q : Query)               (* p.hostPolicy.Pick(q) *)
| HostPolicySetHosts (hosts : list HostInfo)
| HostPolicyAddHost (h : HostInfo)
| HostPolicyRemoveHost (addr : string).

#[global] Instance mutex_eq_dec : EqDecision mutex.
Proof. solve_decision. Defined.
#[global] Instance task_eq_dec : EqDecision task.
Proof. solve_decision. Defined.
#[global] Instance event_eq_dec : EqDecision event.
Proof. solve_decision. Defined.

(** ** The monad *)

Inductive panic : Type :=
| NilDereference        (* a pointer that denotes no object *)
| IndexOutOfRange       (* slice index or bound out of range *)
| MakeOutOfRange        (* makeslice: len or cap out of range *)
| NegativeWaitGroup     (* sync: negative WaitGroup counter *)
| NoHostInfo.           (* the explicit panic of policyConnPool.Pick *)

Inductive result (A : Type) : Type :=
| Ok (a : A) (w : world) (tr : list event)
| Panics (e : panic) (tr : list event).
Arguments Ok {A} a w tr.
Arguments Panics {A} e tr.

Definition M (A : Type) : Type := world -> result A.

Definition ret {A} (a : A) : M A := fun w => Ok a w [].

(** What happened before [r]: [t] comes first in its trace. *)
Definition prefix {A} (t : list event) (r : result A) : result A :=
  match r with
  | Ok a w t2 => Ok a w (t ++ t2)
  | Panics e t2 => Panics e (t ++ t2)
  end.

Definition bind {A B} (m : M A) (f : A -> M B) : M B :=
  fun w =>
    match m w with
    | Ok a w1 t1 => prefix t1 (f a w1)
    | Panics e t1 => Panics e t1
    end.

Declare Scope go_scope.
Delimit Scope go_scope with go.
Notation "'let*' x := m 'in' k" := (bind m (fun x => k))
  (at level 10, x name, m at level 100, k at level 200) : go_scope.
Notation "m ;;; k" := (bind m (fun _ => k))
  (at level 100, k at level 200, right associativity) : go_scope.
Open Scope go_scope.

Definition throw {A} (e : panic) : M A := fun _ => Panics e [].

Definition emit (ev : event) : M unit := fun w => Ok tt w [ev].

Definition go (t : task) : M unit := emit (Go t).

Definition get_world : M world := fun w => Ok w w [].

Definition put_heap (h : list (list Conn)) : M unit :=
  fun w => Ok tt (mkWorld h (pools w) (ndials w)) [].

(** Reading through a [*hostConnPool]. *)
Definition get_pool (pool : ptr) : M hostConnPool :=
  fun w =>
    match pools w !! pool with
    | Some p => Ok p w []
    | None => Panics NilDereference []
    end.

(** Writing fields through a [*hostConnPool]. *)
Definition modify_pool (pool : ptr) (f : hostConnPool -> hostConnPool) : M unit :=
  fun w =>
    match pools w !! pool with
    | Some p => Ok tt (mkWorld (heap w) (<[pool := f p]> (pools w)) (ndials w)) []
    | None => Panics NilDereference []
    end.

(** [&hostConnPool{...}]: a fresh object. *)
Definition new_pool (p : hostConnPool) : M ptr :=
  fun w => Ok (length (pools w)) (mkWorld (heap w) (pools w ++ [p]) (ndials w)) [].

(** *** Slice operations *)

(** [make([]*Conn, len, cap)]: a fresh zeroed array. *)
Definition go_make (len cap : Z) : M slice :=
  fun w =>
    if ((len <? 0) || (cap <? len))%Z then Panics MakeOutOfRange []
    else Ok (Slice (length (heap w)) (Z.to_nat len) (Z.to_nat cap))
            (mkWorld (heap w ++ [replicate (Z.to_nat cap) None]) (pools w) (ndials w))
            [].

(** [s[i]]. *)
Definition go_index (s : slice) (i : Z) : M Conn :=
  fun w =>
    if ((i <? 0) || (Z.of_nat (slen s) <=? i))%Z then Panics IndexOutOfRange []
    else match elems (heap w) s !! Z.to_nat i with
         | Some c => Ok c w []
         | None => Panics IndexOutOfRange []
         end.

(** [s[i] = c]: writes the backing array in place. *)
Definition go_index_set (s : slice) (i : Z) (c : Conn) : M unit :=
  fun w =>
    if ((i <? 0) || (Z.of_nat (slen s) <=? i))%Z then Panics IndexOutOfRange []
    else match s with
         | SliceNil => Panics IndexOutOfRange []
         | Slice a _ _ =>
             Ok tt (mkWorld (<[a := <[Z.to_nat i := c]> (array (heap w) a)]> (heap w))
                            (pools w) (ndials w)) []
         end.

(** [s[:hi]]: the same array, another length. *)
Definition go_reslice (s : slice) (hi : Z) : M slice :=
  if ((hi <? 0) || (Z.of_nat (scap s) <? hi))%Z then throw IndexOutOfRange
  else match s with
       | SliceNil => ret SliceNil
       | Slice a _ c => ret (Slice a (Z.to_nat hi) c)
       end.

(** [s[:0:0]]: the same array, length and capacity zero. *)
Definition go_reslice_0_0 (s : slice) : M slice :=
  match s with
  | SliceNil => ret SliceNil
  | Slice a _ _ => ret (Slice a 0 0)
  end.

(** [append(s, c)] on a heap: in place while the capacity lasts, otherwise
    into a fresh, larger array (the runtime picks the new capacity; twice
    the old one is used here). *)
Definition append_to (h : list (list Conn)) (s : slice) (c : Conn)
    : list (list Conn) * slice :=
  match s with
  | Slice a n cp =>
      if n <? cp then
        (<[a := <[n := c]> (array h a)]> h, Slice a (S n) cp)
      else
        let cp' := Nat.max 1 (2 * cp) in
        (h ++ [take n (array h a) ++ c :: replicate (cp' - S n) None],
         Slice (length h) (S n) cp')
  | SliceNil => (h ++ [[c]], Slice (length h) 1 1)
  end.

Definition go_append (s : slice) (c : Conn) : M slice :=
  fun w =>
    let r := append_to (heap w) s c in
    Ok (snd r) (mkWorld (fst r) (pools w) (ndials w)) [].

(** [copy(dst, src)]: the first [min(len(dst), len(src))] elements. *)
Definition go_copy (dst src : slice) : M unit :=
  fun w =>
    match dst with
    | SliceNil => Ok tt w []
    | Slice a n _ =>
        let k := Nat.min n (slen src) in
        let old := array (heap w) a in
        Ok tt (mkWorld (<[a := take k (elems (heap w) src) ++ drop k old]> (heap w))
                       (pools w) (ndials w)) []
    end.

(** The elements [range s] visits. *)
Definition go_range (s : slice) : M (list Conn) :=
  fun w => Ok (elems (heap w) s) w [].

(** ** The collaborators *)

Section Pool.

(** Code outside this file, taken as parameters: [JoinHostPort]; the outcome
    of the [n]-th call of [session.connect] when it dials [addr] ([None] is
    success, and the connection it returns is the fresh pointer [Some n]);
    the outcome of [conn.UseKeyspace]; the choice of a connection selection
    policy among the connections it was last given, which may depend on the
    number of picks it has served; and the candidate hosts a host selection
    policy yields for a query, in order, before its iterator returns [nil]. *)
Variable JoinHostPort : string -> Z -> string.
Variable session_connect : string -> nat -> option error.
Variable conn_UseKeyspace : Conn -> string -> option error.
Variable connPolicy_Pick : list Conn -> nat -> Query -> Conn.
Variable hostPolicy_Pick : Query -> list SelectedHost.

(** ** hostConnPool *)

(** [pool.policy.SetConns(s)]. *)
Definition policy_SetConns (pool : ptr) (s : slice) : M unit :=
  emit (SetConns pool s);;;
  modify_pool pool (fun p => set_policy (mkPolicy s (pc_picks (policy p))) p).

(** [pool.policy.Pick(qry)]. *)
Definition policy_Pick (pool : ptr) (qry : Query) : M Conn :=
  emit (PolicyPick pool qry);;;
  let* p := get_pool pool in
  let* w := get_world in
  modify_pool pool (fun p => set_policy (mkPolicy (pc_conns (policy p)) (S (pc_picks (policy p)))) p);;;
  ret (connPolicy_Pick (elems (heap w) (pc_conns (policy p))) (pc_picks (policy p)) qry).

(** [hostConnPool.Pick]. *)
Definition hostConnPool_Pick (pool : ptr) (qry : Query) : M Conn :=
  emit (RLock (PoolMu pool));;;
  let* p := get_pool pool in
  if closed p then
    emit (RUnlock (PoolMu pool));;;
    ret None
  else
    let size_ := Z.of_nat (slen (conns p)) in
    emit (RUnlock (PoolMu pool));;;
    let* early :=
      (if (size_ <? size p)%Z then
         (* try to fill the pool *)
         go (TFill pool);;;
         ret (size_ =? 0)%Z
       else ret false) in
    if (early : bool) then ret None
    else policy_Pick pool qry.

(** [hostConnPool.Size]. *)
Definition hostConnPool_Size (pool : ptr) : M Z :=
  emit (RLock (PoolMu pool));;;
  let* p := get_pool pool in
  emit (RUnlock (PoolMu pool));;;
  ret (Z.of_nat (slen (conns p))).

(** [hostConnPool.Close]. *)
Definition hostConnPool_Close (pool : ptr) : M unit :=
  emit (Lock (PoolMu pool));;;
  let* p := get_pool pool in
  if closed p then
    emit (Unlock (PoolMu pool))
  else
    modify_pool pool (set_closed true);;;
    (* drain, but don't wait *)
    go (TDrain pool);;;
    emit (Unlock (PoolMu pool)).

(** [hostConnPool.logConnectErr]. *)
Definition logConnectErr (pool : ptr) (err : option error) : M unit :=
  match err with
  | Some (OpError op) =>
      if bool_decide (op = "dial" \/ op = "read") then ret tt
      else let* p := get_pool pool in emit (LogPrintf (addr p) (OpError op))
  | Some e => let* p := get_pool pool in emit (LogPrintf (addr p) e)
  | None => ret tt
  end.

(** [hostConnPool.fillingStopped]. *)
Definition fillingStopped (pool : ptr) : M unit :=
  emit Sleep;;;
  emit (Lock (PoolMu pool));;;
  modify_pool pool (set_filling false);;;
  emit (Unlock (PoolMu pool)).

(** [session.connect(pool.addr, pool)]: the next dial. *)
Definition do_session_connect (a : string) : M (Conn * option error) :=
  fun w =>
    let n := ndials w in
    let w' := mkWorld (heap w) (pools w) (S n) in
    match session_connect a n with
    | Some e => Ok (None, Some e) w' [Dial a]
    | None => Ok (Some n, None) w' [Dial a]
    end.

(** The critical section of [connect], from [pool.mu.Lock()] on. *)
Definition connect_add (pool : ptr) (conn : Conn) : M (option error) :=
  (* add the Conn to the pool *)
  emit (Lock (PoolMu pool));;;
  let* p := get_pool pool in
  if closed p then
    emit (ConnClose conn);;;
    emit (Unlock (PoolMu pool));;;
    ret None
  else
    let* s := go_append (conns p) conn in
    modify_pool pool (set_conns s);;;
    let* conns_ := go_make (Z.of_nat (slen s)) (Z.of_nat (slen s)) in
    go_copy conns_ s;;;
    policy_SetConns pool conns_;;;
    emit (Unlock (PoolMu pool));;;
    ret None.

(** [hostConnPool.connect]. *)
Definition connect (pool : ptr) : M (option error) :=
  let* p := get_pool pool in
  (* try to connect *)
  let* r := do_session_connect (addr p) in
  match r with
  | (_, Some err) => ret (Some err)
  | (conn, None) =>
      let* kerr :=
        (if bool_decide (keyspace p <> "") then
           (* set the keyspace *)
           emit (UseKeyspace conn (keyspace p));;;
           ret (conn_UseKeyspace conn (keyspace p))
         else ret None) in
      match kerr with
      | Some err =>
          emit (ConnClose conn);;;
          ret (Some err)
      | None => connect_add pool conn
      end
  end.

(** The body of one dialer of [connectMany]. *)
Definition connect_and_log (pool : ptr) : M unit :=
  let* err := connect pool in
  logConnectErr pool err.

Fixpoint connectMany_loop (pool : ptr) (n : nat) : M unit :=
  match n with
  | O => ret tt
  | S n' =>
      go (TConnect pool);;;
      connect_and_log pool;;;
      connectMany_loop pool n'
  end.

(** [hostConnPool.connectMany]: [count] dialers are started with [go] and
    awaited; run alone, they are run here one after the other. *)
Definition connectMany (pool : ptr) (count : Z) : M unit :=
  if (count =? 0)%Z then ret tt
  else if (count <? 0)%Z then throw NegativeWaitGroup
  else
    connectMany_loop pool (Z.to_nat count);;;
    (* wait for all connections are done *)
    emit WaitGroupWait.

(** The read-locked first check of [fill]; [true] when filling goes on. *)
Definition fill_check (pool : ptr) : M bool :=
  emit (RLock (PoolMu pool));;;
  let* p := get_pool pool in
  (* avoid filling a closed pool, or concurrent filling *)
  if closed p || filling p then
    emit (RUnlock (PoolMu pool));;;
    ret false
  else
    (* determine the filling work to be done *)
    let startCount := Z.of_nat (slen (conns p)) in
    let fillCount := (size p - startCount)%Z in
    (* avoid filling a full (or overfull) pool *)
    if (fillCount <=? 0)%Z then
      emit (RUnlock (PoolMu pool));;;
      ret false
    else
      emit (RUnlock (PoolMu pool));;;
      ret true.

(** The write-locked second check of [fill]; [Some (startCount, fillCount)]
    when this caller is the one that fills. *)
Definition fill_begin (pool : ptr) : M (option (Z * Z)) :=
  emit (Lock (PoolMu pool));;;
  let* p := get_pool pool in
  (* double check everything since the lock was released *)
  let startCount := Z.of_nat (slen (conns p)) in
  let fillCount := (size p - startCount)%Z in
  if closed p || filling p || (fillCount <=? 0)%Z then
    emit (Unlock (PoolMu pool));;;
    ret None
  else
    (* ok fill the pool *)
    modify_pool pool (set_filling true);;;
    (* allow others to access the pool while filling *)
    emit (Unlock (PoolMu pool));;;
    ret (Some (startCount, fillCount)).

(** What [fill] does once it holds the filling flag. *)
Definition fill_work (pool : ptr) (startCount fillCount : Z) : M unit :=
  (* fill only the first connection synchronously *)
  if (startCount =? 0)%Z then
    let* err := connect pool in
    logConnectErr pool err;;;
    match err with
    | Some _ =>
        (* probably unreachable host *)
        fillingStopped pool;;;
        let* p := get_pool pool in
        go (THandleNodeDown (Peer (host p)) (port p))
    | None =>
        (* filled one; connect all remaining connections to this host *)
        connectMany pool (fillCount - 1);;;
        fillingStopped pool
    end
  else
    (* fill the rest of the pool asynchronously *)
    go (TFillRest pool fillCount).

(** [hostConnPool.fill]. *)
Definition fill (pool : ptr) : M unit :=
  let* goon := fill_check pool in
  if (goon : bool) then
    let* r := fill_begin pool in
    match r with
    | Some (startCount, fillCount) => fill_work pool startCount fillCount
    | None => ret tt
    end
  else ret tt.

(** The goroutine [fill] starts when the pool already had connections. *)
Definition fill_rest (pool : ptr) (fillCount : Z) : M unit :=
  connectMany pool fillCount;;;
  (* mark the end of filling *)
  fillingStopped pool.

(** The body of the [range] loop of [HandleError] at index [i], over the
    candidates not yet visited. *)
Fixpoint HandleError_range (pool : ptr) (conn : Conn) (i : nat)
    (candidates : list Conn) : M unit :=
  match candidates with
  | [] => ret tt
  | candidate :: rest =>
      if bool_decide (candidate = conn) then
        (* remove the connection, not preserving order *)
        let* p := get_pool pool in
        let s := conns p in
        let* last := go_index s (Z.of_nat (slen s) - 1) in
        let* s' := go_reslice s (Z.of_nat (slen s) - 1) in
        go_index_set s (Z.of_nat i) last;;;
        modify_pool pool (set_conns s');;;
        (* update the policy *)
        let* conns_ := go_make (Z.of_nat (slen s')) (Z.of_nat (slen s')) in
        go_copy conns_ s';;;
        policy_SetConns pool conns_;;;
        (* lost a connection, so fill the pool *)
        go (TFill pool)
        (* break *)
      else HandleError_range pool conn (S i) rest
  end.

(** [hostConnPool.HandleError]. *)
Definition HandleError (pool : ptr) (conn : Conn) (err : error) (closed_ : bool) : M unit :=
  if negb closed_ then
    (* still an open connection, so continue using it *)
    ret tt
  else
    emit (Lock (PoolMu pool));;;
    let* p := get_pool pool in
    if closed p then
      (* pool closed *)
      emit (Unlock (PoolMu pool))
    else
      (* find the connection index *)
      let* candidates := go_range (conns p) in
      HandleError_range pool conn 0 candidates;;;
      emit (Unlock (PoolMu pool)).

Fixpoint close_all (cs : list Conn) : M unit :=
  match cs with
  | [] => ret tt
  | conn :: rest => emit (ConnClose conn);;; close_all rest
  end.

(** [hostConnPool.drain]. *)
Definition drain (pool : ptr) : M unit :=
  emit (Lock (PoolMu pool));;;
  let* p := get_pool pool in
  (* empty the pool *)
  let conns_ := conns p in
  let* s := go_reslice_0_0 (conns p) in
  modify_pool pool (set_conns s);;;
  (* update the policy *)
  policy_SetConns pool SliceNil;;;
  (* close the connections *)
  let* cs := go_range conns_ in
  close_all cs;;;
  emit (Unlock (PoolMu pool)).

(** The composite literal of [newHostConnPool]: the object before [fill]. *)
Definition alloc_hostConnPool (host_ : HostInfo) (port_ size_ : Z) (keyspace_ : string)
    (policy_ : ConnSelectionPolicy) : M ptr :=
  let* conns_ := go_make 0 size_ in
  new_pool (mkHostConnPool host_ port_ (JoinHostPort (Peer host_) port_)
              size_ keyspace_ policy_ conns_ false false).

(** [newHostConnPool]. *)
Definition newHostConnPool (host_ : HostInfo) (port_ size_ : Z) (keyspace_ : string)
    (policy_ : ConnSelectionPolicy) : M ptr :=
  let* pool := alloc_hostConnPool host_ port_ size_ keyspace_ policy_ in
  (* fill the pool with the initial connections before returning *)
  fill pool;;;
  ret pool.

(** ** policyConnPool *)

(** [policyConnPool]: the configuration it copies from the session and the
    map from host address to pool.  Its methods take the object and return
    it; the pools it points to live in the store. *)
Record policyConnPool : Type := mkPolicyConnPool {
  pport : Z;
  numConns : Z;
  pkeyspace : string;
  hostConnPools : gmap string ptr
}.

Definition set_hostConnPools (m : gmap string ptr) (p : policyConnPool) : policyConnPool :=
  mkPolicyConnPool (pport p) (numConns p) (pkeyspace p) m.

(** [p.connPolicy()]: a policy instance that has been given no connections. *)
Definition connPolicy : ConnSelectionPolicy := mkPolicy SliceNil 0.

(** [newPolicyConnPool]. *)
Definition newPolicyConnPool (port_ numConns_ : Z) (keyspace_ : string) : policyConnPool :=
  mkPolicyConnPool port_ numConns_ keyspace_ ∅.

(** First loop of [SetHosts]: which tracked addresses to remove, and which
    hosts get a creator goroutine. *)
Fixpoint SetHosts_scan (p : policyConnPool) (hosts : list HostInfo)
    (toRemove : gset string) (created : list HostInfo) : M (gset string * list HostInfo) :=
  match hosts with
  | [] => ret (toRemove, created)
  | host_ :: rest =>
      if negb (IsUp host_) then
        (* don't create a connection pool for a down host *)
        SetHosts_scan p rest toRemove created
      else if bool_decide (is_Some (hostConnPools p !! Peer host_)) then
        (* still have this host, so don't remove it *)
        SetHosts_scan p rest (toRemove ∖ {[Peer host_]}) created
      else
        go (TNewPool host_);;;
        SetHosts_scan p rest toRemove (created ++ [host_])
  end.

(** Second loop of [SetHosts]: the creators run and their pools are
    received, here in the order in which they were started. *)
Fixpoint SetHosts_receive (p : policyConnPool) (created : list HostInfo) : M policyConnPool :=
  match created with
  | [] => ret p
  | host_ :: rest =>
      let* pool := newHostConnPool host_ (pport p) (numConns p) (pkeyspace p) connPolicy in
      let* n := hostConnPool_Size pool in
      let* q := get_pool pool in
      let p' := if (0 <? n)%Z
                then (* add pool onyl if there a connections available *)
                  set_hostConnPools (<[Peer (host q) := pool]> (hostConnPools p)) p
                else p in
      SetHosts_receive p' rest
  end.

(** Third loop of [SetHosts]. *)
Fixpoint SetHosts_remove (p : policyConnPool) (toRemove : list string) : M policyConnPool :=
  match toRemove with
  | [] => ret p
  | a :: rest =>
      match hostConnPools p !! a with
      | Some pool =>
          let p' := set_hostConnPools (delete a (hostConnPools p)) p in
          hostConnPool_Close pool;;;
          SetHosts_remove p' rest
      | None => throw NilDereference
      end
  end.

(** [policyConnPool.SetHosts]. *)
Definition SetHosts (p : policyConnPool) (hosts : list HostInfo) : M policyConnPool :=
  emit (Lock PolicyMu);;;
  let toRemove := dom (hostConnPools p) in
  let* sc := SetHosts_scan p hosts toRemove [] in
  (* add created pools *)
  let* p1 := SetHosts_receive p (snd sc) in
  let* p2 := SetHosts_remove p1 (elements (fst sc)) in
  (* update the policy *)
  emit (HostPolicySetHosts hosts);;;
  emit (Unlock PolicyMu);;;
  ret p2.

Fixpoint Size_loop (entries : list (string * ptr)) (count : Z) : M Z :=
  match entries with
  | [] => ret count
  | (_, pool) :: rest =>
      let* n := hostConnPool_Size pool in
      Size_loop rest (count + n)%Z
  end.

(** [policyConnPool.Size]. *)
Definition policyConnPool_Size (p : policyConnPool) : M Z :=
  emit (RLock PolicyMu);;;
  let* count := Size_loop (map_to_list (hostConnPools p)) 0 in
  emit (RUnlock PolicyMu);;;
  ret count.

(** The loop of [policyConnPool.Pick] over the hosts the iterator yields. *)
Fixpoint Pick_loop (p : policyConnPool) (qry : Query) (nextHost : list SelectedHost)
    : M (option SelectedHost * Conn) :=
  match nextHost with
  | [] => (* host == nil *) ret (None, None)
  | host_ :: rest =>
      match Info host_ with
      | None =>
          (* the deferred RUnlock runs, then the panic goes on *)
          emit (RUnlock PolicyMu);;;
          throw NoHostInfo
      | Some info =>
          match hostConnPools p !! Peer info with
          | None => (* continue *) Pick_loop p qry rest
          | Some pool =>
              let* conn := hostConnPool_Pick pool qry in
              match conn with
              | None => Pick_loop p qry rest
              | Some _ => ret (Some host_, conn)
              end
          end
      end
  end.

(** [policyConnPool.Pick]. *)
Definition policyConnPool_Pick (p : policyConnPool) (qry : Query)
    : M (option SelectedHost * Conn) :=
  emit (HostPolicyPick qry);;;
  emit (RLock PolicyMu);;;
  let* r := Pick_loop p qry (hostPolicy_Pick qry) in
  emit (RUnlock PolicyMu);;;
  ret r.

Fixpoint Close_loop (p : policyConnPool) (entries : list (string * ptr)) : M policyConnPool :=
  match entries with
  | [] => ret p
  | (a, pool) :: rest =>
      let p' := set_hostConnPools (delete a (hostConnPools p)) p in
      hostConnPool_Close pool;;;
      Close_loop p' rest
  end.

(** [policyConnPool.Close]. *)
Definition policyConnPool_Close (p : policyConnPool) : M policyConnPool :=
  emit (Lock PolicyMu);;;
  (* remove the hosts from the policy *)
  emit (HostPolicySetHosts []);;;
  (* close the pools *)
  let* p' := Close_loop p (map_to_list (hostConnPools p)) in
  emit (Unlock PolicyMu);;;
  ret p'.

(** [policyConnPool.addHost]. *)
Definition addHost (p : policyConnPool) (host_ : HostInfo) : M policyConnPool :=
  emit (Lock PolicyMu);;;
  match hostConnPools p !! Peer host_ with
  | Some pool =>
      go (TFill pool);;;
      emit (Unlock PolicyMu);;;
      ret p
  | None =>
      let* pool := newHostConnPool host_ (Port host_) (numConns p) (pkeyspace p) connPolicy in
      let p' := set_hostConnPools (<[Peer host_ := pool]> (hostConnPools p)) p in
      (* update policy *)
      emit (HostPolicyAddHost host_);;;
      emit (Unlock PolicyMu);;;
      ret p'
  end.

(** [policyConnPool.removeHost]. *)
Definition removeHost (p : policyConnPool) (a : string) : M policyConnPool :=
  emit (HostPolicyRemoveHost a);;;
  emit (Lock PolicyMu);;;
  match hostConnPools p !! a with
  | None =>
      emit (Unlock PolicyMu);;;
      ret p
  | Some pool =>
      let p' := set_hostConnPools (delete a (hostConnPools p)) p in
      emit (Unlock PolicyMu);;;
      hostConnPool_Close pool;;;
      ret p'
  end.

(** [policyConnPool.hostUp]. *)
Definition hostUp (p : policyConnPool) (host_ : HostInfo) : M policyConnPool :=
  addHost p host_.

(** [policyConnPool.hostDown]. *)
Definition hostDown (p : policyConnPool) (a : string) : M policyConnPool :=
  removeHost p a.

(** ** One pool under concurrent use

    The methods of one [hostConnPool] run concurrently: any number of
    callers, the goroutines started with [go], and the dialers of
    [connectMany].  What they do to the pool is serialised by [pool.mu], so
    an execution is an interleaving of their critical sections.  A [thread]
    is a goroutine inside [fill] or [drain], at one of the points where it
    does not hold the lock. *)

Inductive thread : Type :=
| CallFill                    (* at the entry of fill *)
| FillChecked                 (* fill, past its read-locked check *)
| FillFirst (fillCount : Z)   (* fill holds the flag; the first dial is next *)
| FillMany (left : nat)       (* connectMany with [left] dialers still to run,
                                 fillingStopped after them *)
| FillFailed                  (* the first dial failed; fillingStopped is next *)
| Drain.                      (* at the entry of drain *)

(** The next critical section of a thread, and where it stands afterwards
    ([None]: it has returned). *)
Definition thread_step (pool : ptr) (t : thread) : M (option thread) :=
  match t with
  | CallFill =>
      let* goon := fill_check pool in
      ret (if (goon : bool) then Some FillChecked else None)
  | FillChecked =>
      let* r := fill_begin pool in
      match r with
      | None => ret None
      | Some (startCount, fillCount) =>
          if (startCount =? 0)%Z then ret (Some (FillFirst fillCount))
          else
            go (TFillRest pool fillCount);;;
            ret (Some (FillMany (Z.to_nat fillCount)))
      end
  | FillFirst fillCount =>
      let* err := connect pool in
      logConnectErr pool err;;;
      match err with
      | Some _ => ret (Some FillFailed)
      | None => ret (Some (FillMany (Z.to_nat (fillCount - 1))))
      end
  | FillMany (S n) =>
      go (TConnect pool);;;
      connect_and_log pool;;;
      ret (Some (FillMany n))
  | FillMany O =>
      fillingStopped pool;;;
      ret None
  | FillFailed =>
      fillingStopped pool;;;
      let* p := get_pool pool in
      go (THandleNodeDown (Peer (host p)) (port p));;;
      ret None
  | Drain =>
      drain pool;;;
      ret None
  end.

(** A call of an exported method, or of [fill], from outside. *)
Inductive call : Type :=
| CPick (qry : Query)
| CSize
| CClose
| CHandleError (conn : Conn) (err : error) (closed_ : bool)
| CFill.

Definition run_call (pool : ptr) (c : call) : M unit :=
  match c with
  | CPick qry => let* _ := hostConnPool_Pick pool qry in ret tt
  | CSize => let* _ := hostConnPool_Size pool in ret tt
  | CClose => hostConnPool_Close pool
  | CHandleError conn err closed_ => HandleError pool conn err closed_
  | CFill => go (TFill pool)
  end.

(** The threads the [go] statements of a trace start on this pool. *)
Fixpoint spawned (pool : ptr) (tr : list event) : list thread :=
  match tr with
  | [] => []
  | Go (TFill q) :: tr' =>
      if bool_decide (q = pool) then CallFill :: spawned pool tr' else spawned pool tr'
  | Go (TDrain q) :: tr' =>
      if bool_decide (q = pool) then Drain :: spawned pool tr' else spawned pool tr'
  | _ :: tr' => spawned pool tr'
  end.

Record config : Type := mkConfig {
  cw : world;
  threads : list thread
}.

Inductive step (pool : ptr) : config -> config -> Prop :=
| step_call c w ths w' tr :
    run_call pool c w = Ok tt w' tr ->
    step pool (mkConfig w ths) (mkConfig w' (ths ++ spawned pool tr))
| step_thread t w l1 l2 next w' tr :
    thread_step pool t w = Ok next w' tr ->
    step pool (mkConfig w (l1 ++ t :: l2))
              (mkConfig w' (l1 ++ option_list next ++ l2 ++ spawned pool tr)).

(** The pool as [newHostConnPool] has just built it, about to call [fill]. *)
Definition initial (pool : ptr) (c : config) : Prop :=
  exists w0 host_ port_ size_ keyspace_ policy_ tr,
    alloc_hostConnPool host_ port_ size_ keyspace_ policy_ w0 = Ok pool (cw c) tr /\
    threads c = [CallFill].

Definition reachable (pool : ptr) (c : config) : Prop :=
  exists c0, initial pool c0 /\ rtc (step pool) c0 c.

End Pool.

(** ** Reading traces *)

Definition is_ConnClose (ev : event) : bool :=
  match ev with ConnClose _ => true | _ => false end.

Definition is_SetConns (ev : event) : bool :=
  match ev with SetConns _ _ => true | _ => false end.

Definition is_Go (ev : event) : bool :=
  match ev with Go _ => true | _ => false end.

Definition is_PolicyPick (ev : event) : bool :=
  match ev with PolicyPick _ _ => true | _ => false end.

Definition is_Dial (ev : event) : bool :=
  match ev with Dial _ => true | _ => false end.

(** [locked_at m held tr sel]: whether every event of [tr] that [sel]
    selects happens while [m] is write-locked, [held] telling whether it is
    locked when [tr] starts. *)
Fixpoint all_while_locked (m : mutex) (sel : event -> bool) (held : bool)
    (tr : list event) : bool :=
  match tr with
  | [] => true
  | ev :: tr' =>
      let held' :=
        match ev with
        | Lock m' => if bool_decide (m' = m) then true else held
        | Unlock m' => if bool_decide (m' = m) then false else held
        | _ => held
        end in
      (if sel ev then held else true) && all_while_locked m sel held' tr'
  end.

(** The same for events that happen while [m] is not write-locked. *)
Fixpoint all_while_unlocked (m : mutex) (sel : event -> bool) (held : bool)
    (tr : list event) : bool :=
  match tr with
  | [] => true
  | ev :: tr' =>
      let held' :=
        match ev with
        | Lock m' => if bool_decide (m' = m) then true else held
        | Unlock m' => if bool_decide (m' = m) then false else held
        | _ => held
        end in
      (if sel ev then negb held else true) && all_while_unlocked m sel held' tr'
  end.

Definition count (sel : event -> bool) (tr : list event) : nat :=
  length (filter (fun ev => sel ev = true) tr).

(** ** Reading the store *)

(** The connections pool [pool] holds. *)
Definition pool_conns (w : world) (pool : ptr) : list Conn :=
  match pools w !! pool with
  | Some p => elems (heap w) (conns p)
  | None => []
  end.

(** The snapshot the connection selection policy of [pool] holds. *)
Definition policy_conns (w : world) (pool : ptr) : list Conn :=
  match pools w !! pool with
  | Some p => elems (heap w) (pc_conns (policy p))
  | None => []
  end.

(** A slice lies within its backing array. *)
Definition slice_ok (h : list (list Conn)) (s : slice) : Prop :=
  match s with
  | SliceNil => True
  | Slice a n cp => n <= cp /\ cp <= length (array h a)
  end.

(** The slice [conns] lies within its backing array, and no connection
    occurs in it twice (every dial returns a new pointer). *)
Definition conns_ok (w : world) (p : hostConnPool) : Prop :=
  slice_ok (heap w) (conns p) /\
  NoDup (elems (heap w) (conns p)).

(** Removing the element at [i] by overwriting it with the last one and
    cutting the last one off. *)
Definition swap_remove (i : nat) (l : list Conn) : list Conn :=
  take (length l - 1) (<[i := default None (last l)]> l).

(** The position of the first element equal to [c]. *)
Fixpoint index_of (c : Conn) (l : list Conn) : option nat :=
  match l with
  | [] => None
  | x :: l' => if bool_decide (x = c) then Some 0 else S <$> index_of c l'
  end.

(** ** Concrete collaborators and stores

    Used to run the code on explicit inputs. *)

Definition join_plain (peer : string) (port_ : Z) : string := peer.


(** Only host ["A"] accepts connections. *)
Definition dial_only_A (a : string) (n : nat) : option error :=
  if bool_decide (a = "A") then None else Some (OpError "dial").

Definition keyspace_ok (c : Conn) (ks : string) : option error := None.

(** A policy that picks the first connection it was given. *)
Definition pick_first (l : list Conn) (n : nat) (q : Query) : Conn :=
  default None (head l).

Definition hostA : HostInfo := mkHostInfo "A" 9042 true.
Definition hostB : HostInfo := mkHostInfo "B" 9042 true.

Definition empty_world : world := mkWorld [] [] 0.

Definition world_of {A} (r : result A) : world :=
  match r with Ok _ w _ => w | Panics _ _ => empty_world end.

(** The store after [newHostConnPool] has built a pool of two connections
    to ["A"], at pointer 0. *)
Definition world_A2 : world :=
  Eval vm_compute in
    world_of (newHostConnPool join_plain dial_only_A keyspace_ok hostA 9042 2 "" connPolicy
                empty_world).

(** The store after [newHostConnPool] has built a pool of target size zero,
    at pointer 0. *)
Definition world_A0 : world :=
  Eval vm_compute in
    world_of (newHostConnPool join_plain dial_only_A keyspace_ok hostA 9042 0 "" connPolicy
                empty_world).

(** The store after [newHostConnPool] has tried to build a pool of two
    connections to the unreachable ["B"], at pointer 0. *)
Definition world_B2 : world :=
  Eval vm_compute in
    world_of (newHostConnPool join_plain dial_only_A keyspace_ok hostB 9042 2 "" connPolicy
                empty_world).

(** [world_A2] after [Close] on its pool. *)
Definition world_A2_closed : world :=
  Eval vm_compute in world_of (hostConnPool_Close 0 world_A2).

(** ** Reading the outcome of a dial *)

(** The store after one more dial. *)
Definition dialed (w : world) : world :=
  mkWorld (heap w) (pools w) (S (ndials w)).

(** What [connect] gets from [UseKeyspace], which it calls only for a
    non-empty keyspace, and the event of the call. *)
Definition useKeyspace_result (uk : Conn -> string -> option error)
    (p : hostConnPool) (c : Conn) : option error :=
  if bool_decide (keyspace p <> "") then uk c (keyspace p) else None.

Definition useKeyspace_events (p : hostConnPool) (c : Conn) : list event :=
  if bool_decide (keyspace p <> "") then [UseKeyspace c (keyspace p)] else [].

(** What [logConnectErr] prints. *)
Definition log_events (a : string) (err : option error) : list event :=
  match err with
  | Some (OpError op) =>
      if bool_decide (op = "dial" \/ op = "read") then [] else [LogPrintf a (OpError op)]
  | Some e => [LogPrintf a e]
  | None => []
  end.

(** The fields of a pool that no method assigns. *)
Definition same_config (p p' : hostConnPool) : Prop :=
  host p' = host p /\ port p' = port p /\ addr p' = addr p /\
  size p' = size p /\ keyspace p' = keyspace p.

(** No pool object but [pool] differs between two stores, and none has been
    added. *)
Definition others_untouched (pool : ptr) (w w' : world) : Prop :=
  length (pools w') = length (pools w) /\
  forall q, q <> pool -> pools w' !! q = pools w !! q.

(** The heap after [make] of a slice as long as [s] and [copy] of [s] into
    it: one more array, holding what [s] shows. *)
Definition snapshot_heap (h : list (list Conn)) (s : slice) : list (list Conn) :=
  h ++ [take (slen s) (elems (h ++ [replicate (slen s) None]) s)].

Definition snapshot_slice (h : list (list Conn)) (s : slice) : slice :=
  Slice (length h) (slen s) (slen s).

Definition is_GoConnect (pool : ptr) (ev : event) : bool :=
  bool_decide (ev = Go (TConnect pool)).

Definition is_GoNodeDown (ev : event) : bool :=
  match ev with Go (THandleNodeDown _ _) => true | _ => false end.

(** What [k] calls of [connect] leave of the pool that was [p] in store [w]:
    the same flags and configuration, between none and [k] more connections,
    and none more if the pool is closed. *)
Definition after_dials (pool : ptr) (p : hostConnPool) (w : world) (k : nat)
    (w' : world) : Prop :=
  exists p',
    pools w' !! pool = Some p' /\
    same_config p p' /\
    closed p' = closed p /\ filling p' = filling p /\
    others_untouched pool w w' /\
    ndials w' = ndials w + k /\
    slen (conns p) <= slen (conns p') <= slen (conns p) + k /\
    (closed p = true -> conns p' = conns p /\ heap w' = heap w).

(** The trace of [k] dialers: [k] dials, nothing started with [go] but
    [g] dialers themselves. *)
Definition dial_trace (pool : ptr) (k g : nat) (tr : list event) : Prop :=
  count is_Dial tr = k /\
  count (is_GoConnect pool) tr = g /\
  count is_Go tr = g.

(** Whether [fill] goes on past its checks: the pool is open, nobody is
    filling it, and it is below its target size. *)
Definition wants_fill (p : hostConnPool) : bool :=
  negb (closed p || filling p || (size p - Z.of_nat (slen (conns p)) <=? 0)%Z).

(** The store in which [fill] has taken the filling flag of [pool]. *)
Definition filling_set (b : bool) (pool : ptr) (w : world) : world :=
  match pools w !! pool with
  | Some p => mkWorld (heap w) (<[pool := set_filling b p]> (pools w)) (ndials w)
  | None => w
  end.

(** The stores in which [newHostConnPool] has built the pool object for
    ["A"], and for ["B"], of target size two, and is about to call [fill]. *)
Definition world_alloc_A2 : world :=
  Eval vm_compute in
    world_of (alloc_hostConnPool join_plain hostA 9042 2 "" connPolicy empty_world).

Definition world_alloc_B2 : world :=
  Eval vm_compute in
    world_of (alloc_hostConnPool join_plain hostB 9042 2 "" connPolicy empty_world).

(** ** The invariant of a pool under concurrent use *)

(** The dials a thread may still make. *)
Definition budget (t : thread) : Z :=
  match t with
  | FillFirst fillCount => Z.max 1 fillCount
  | FillMany n => Z.of_nat n
  | _ => 0
  end.

(** Whether a thread holds the filling flag. *)
Definition active (t : thread) : bool :=
  match t with
  | FillFirst _ | FillMany _ | FillFailed => true
  | _ => false
  end.

Fixpoint budgets (ths : list thread) : Z :=
  match ths with
  | [] => 0
  | t :: ths' => budget t + budgets ths'
  end.

Fixpoint actives (ths : list thread) : nat :=
  match ths with
  | [] => 0
  | t :: ths' => (if active t then 1 else 0) + actives ths'
  end.

(** Every connection the pool holds came from a dial already made. *)
Definition conns_dialed (w : world) (p : hostConnPool) : Prop :=
  forall x, x ∈ elems (heap w) (conns p) -> exists k, x = Some k /\ k < ndials w.

(** The connections held and the dials still allowed never exceed the
    target size together; at most one thread holds the filling flag, and
    none does when the flag is down. *)
Definition pool_inv (pool : ptr) (c : config) : Prop :=
  exists p,
    pools (cw c) !! pool = Some p /\
    conns_ok (cw c) p /\
    conns_dialed (cw c) p /\
    (Z.of_nat (slen (conns p)) + budgets (threads c) <= size p)%Z /\
    actives (threads c) <= 1 /\
    (filling p = false -> actives (threads c) = 0).

(** What one critical section makes of the pool: the invariant is kept,
    the target size and a raised closed flag stay, and a closed pool keeps
    its connections or loses them all. *)
Definition kept (pool : ptr) (c c' : config) : Prop :=
  pool_inv pool c' /\
  forall p, pools (cw c) !! pool = Some p ->
    exists p', pools (cw c') !! pool = Some p' /\
      size p' = size p /\
      (closed p = true ->
       closed p' = true /\
       (pool_conns (cw c') pool = pool_conns (cw c) pool \/ pool_conns (cw c') pool = [])).

(** The stores between the critical sections of that [fill]: the flag
    taken, and the first connection made. *)
Definition world_A2_flag : world :=
  Eval vm_compute in filling_set true 0 world_alloc_A2.

Definition world_A2_one : world :=
  Eval vm_compute in world_of (connect dial_only_A keyspace_ok 0 world_A2_flag).

Definition world_A2_two : world :=
  Eval vm_compute in world_of (connect dial_only_A keyspace_ok 0 world_A2_one).

(** ** Reading a policyConnPool *)

(** Every pool the map tracks is an allocated object. *)
Definition tracked_ok (w : world) (p : policyConnPool) : Prop :=
  forall a pool, hostConnPools p !! a = Some pool -> pool < length (pools w).

(** The pool the map has for a candidate host. *)
Definition pool_of (p : policyConnPool) (h : SelectedHost) : option ptr :=
  match Info h with
  | Some info => hostConnPools p !! Peer info
  | None => None
  end.

(** The pools whose [Pick] a trace shows, in order: each takes the read lock
    of its pool once, first thing. *)
Fixpoint consulted (tr : list event) : list ptr :=
  match tr with
  | [] => []
  | RLock (PoolMu q) :: tr' => q :: consulted tr'
  | _ :: tr' => consulted tr'
  end.

Section PickSpec.
Variable connPolicy_Pick : list Conn -> nat -> Query -> Conn.

(** What the specification says of [policyConnPool.Pick]: the candidates are
    taken in order; one without a tracked pool is passed over; one whose
    pool yields no connection is passed over; the first whose pool yields a
    connection is returned with it; when none is left, nothing is returned.
    [asked] lists the hosts that have been taken. *)
Inductive Pick_spec (p : policyConnPool) (qry : Query) :
    list SelectedHost -> world -> list SelectedHost ->
    option SelectedHost * Conn -> world -> Prop :=
| Pick_exhausted w :
    Pick_spec p qry [] w [] (None, None) w
| Pick_untracked h rest w asked r w' :
    Info h <> None ->
    pool_of p h = None ->
    Pick_spec p qry rest w asked r w' ->
    Pick_spec p qry (h :: rest) w (h :: asked) r w'
| Pick_no_conn h pool rest w w1 tr asked r w' :
    pool_of p h = Some pool ->
    hostConnPool_Pick connPolicy_Pick pool qry w = Ok None w1 tr ->
    Pick_spec p qry rest w1 asked r w' ->
    Pick_spec p qry (h :: rest) w (h :: asked) r w'
| Pick_found h pool rest w c w1 tr :
    pool_of p h = Some pool ->
    hostConnPool_Pick connPolicy_Pick pool qry w = Ok (Some c) w1 tr ->
    Pick_spec p qry (h :: rest) w [h] (Some h, Some c) w1.

End PickSpec.

(** A policyConnPool that tracks the pool of [world_A2] for host ["A"], and
    a host policy that proposes ["B"], then ["A"]. *)
Definition pcp_A : policyConnPool := mkPolicyConnPool 9042 2 "" {["A" := 0]}.

Definition propose_B_A (q : Query) : list SelectedHost :=
  [mkSelectedHost (Some hostB); mkSelectedHost (Some hostA)].

(** The hosts of a new topology for which [SetHosts] starts a creator: up
    and not tracked, in order and with repetitions. *)
Fixpoint created_hosts (p : policyConnPool) (hosts : list HostInfo) : list HostInfo :=
  match hosts with
  | [] => []
  | h :: rest =>
      if IsUp h && negb (bool_decide (is_Some (hostConnPools p !! Peer h)))
      then h :: created_hosts p rest
      else created_hosts p rest
  end.

(** The tracked addresses [SetHosts] takes out of [toRemove]: those of the
    hosts that are up. *)
Fixpoint kept_addrs (p : policyConnPool) (hosts : list HostInfo) : gset string :=
  match hosts with
  | [] => ∅
  | h :: rest =>
      if IsUp h && bool_decide (is_Some (hostConnPools p !! Peer h))
      then {[Peer h]} ∪ kept_addrs p rest
      else kept_addrs p rest
  end.

(** A host address is reachable when every dial to it succeeds and the
    keyspace, if any, can be set; unreachable when every dial fails. *)
Definition reachable_addr (session_connect : string -> nat -> option error)
    (conn_UseKeyspace : Conn -> string -> option error) (a ks : string) : Prop :=
  (forall n, session_connect a n = None) /\
  (ks = "" \/ forall c, conn_UseKeyspace c ks = None).

Definition unreachable_addr (session_connect : string -> nat -> option error)
    (a : string) : Prop :=
  forall n, is_Some (session_connect a n).

(** The map has no entry for a pool that holds no connection. *)
Definition no_empty_entry (w : world) (p : policyConnPool) : Prop :=
  forall a pool q,
    hostConnPools p !! a = Some pool -> pools w !! pool = Some q ->
    0 < slen (conns q).

(** Nothing that was allocated in [w] differs in [w']. *)
Definition extends (w w' : world) : Prop :=
  length (pools w) <= length (pools w') /\
  forall i, i < length (pools w) -> pools w' !! i = pools w !! i.

(** The map after the second loop of [SetHosts], read off the store it
    leaves: the pools made by the creators are the objects from pointer
    [base] on, one for each created host in order, and each is entered
    under the address of its host if it holds a connection. *)
Fixpoint registered (w : world) (base : nat) (created : list HostInfo)
    (m : gmap string ptr) : gmap string ptr :=
  match created with
  | [] => m
  | _ :: rest =>
      registered w (S base) rest
        match pools w !! base with
        | Some q => if 0 <? slen (conns q) then <[Peer (host q) := base]> m else m
        | None => m
        end
  end.

(** ** More concrete stores *)

(** The pool object of [world_A2]. *)
Definition pool_A2 : hostConnPool :=
  mkHostConnPool hostA 9042 "A" 2 "" (mkPolicy (Slice 2 2 2) 0) (Slice 0 2 2) false false.

(** [world_A2] after [HandleError] has taken connection 0 out of the pool,
    and the pool object it has then. *)
Definition world_A2_lost : world :=
  Eval vm_compute in world_of (HandleError 0 (Some 0) (OpError "read") true world_A2).

Definition pool_A2_lost : hostConnPool :=
  mkHostConnPool hostA 9042 "A" 2 "" (mkPolicy (Slice 3 1 1) 0) (Slice 0 1 2) false false.

(** What [s[:0:0]] is: the slice [drain] leaves in [conns]. *)
Definition reslice_0_0 (s : slice) : slice :=
  match s with
  | SliceNil => SliceNil
  | Slice a _ _ => Slice a 0 0
  end.

(** The connection selection policy of [pool] holds the connections the
    pool holds. *)
Definition in_sync (pool : ptr) (w : world) : Prop :=
  policy_conns w pool = pool_conns w pool.

(** ** Counting over a policyConnPool *)

(** What [pool.Size()] returns in store [w]. *)
Definition pool_len (w : world) (pool : ptr) : Z :=
  match pools w !! pool with
  | Some p => Z.of_nat (slen (conns p))
  | None => 0
  end.

(** The connections of all pools of a map together. *)
Definition total_conns (w : world) (m : gmap string ptr) : Z :=
  map_fold (fun _ pool acc => (pool_len w pool + acc)%Z) 0%Z m.

(** The lock events of one [hostConnPool.Size] per entry. *)
Definition size_events (entries : list (string * ptr)) : list event :=
  entries ≫= (fun e => [RLock (PoolMu e.2); RUnlock (PoolMu e.2)]).

Definition is_GoDrain (pool : ptr) (ev : event) : bool :=
  bool_decide (ev = Go (TDrain pool)).

(** The events of [hostConnPool.Close] on a pool object. *)
Definition close_events (pool : ptr) (q : hostConnPool) : list event :=
  if closed q then [Lock (PoolMu pool); Unlock (PoolMu pool)]
  else [Lock (PoolMu pool); Go (TDrain pool); Unlock (PoolMu pool)].

(** Pool [i] is the pool of some address of the map. *)
Definition tracked (m : gmap string ptr) (i : ptr) : Prop :=
  exists a, m !! a = Some i.

(** A host selection policy that yields ["B"], then a host without
    information, then ["A"]. *)
Definition propose_B_none_A (q : Query) : list SelectedHost :=
  [mkSelectedHost (Some hostB); mkSelectedHost None; mkSelectedHost (Some hostA)].

(** * TLS options of the session: [setupTLSConfig]

    The function works on a [*SslOptions], which embeds a [tls.Config],
    and returns a pointer to that embedded [Config]: it is a function from
    the options object to the options object it leaves and the error it
    returns ([None] is [nil]).  On success the [*tls.Config] returned is
    the [Config] of the object returned here.  An error is represented by
    its message, a string. *)

Section TLS.

(** Types and functions of the standard library, taken as parameters: the
    contents of an [x509.CertPool] and a [tls.Certificate];
    [x509.NewCertPool()]; [ioutil.ReadFile]; [AppendCertsFromPEM], which
    gives the pool it leaves and whether a certificate was parsed; and
    [tls.LoadX509KeyPair]. *)
Variable CertPool : Type.
Variable Certificate : Type.
Variable NewCertPool : CertPool.
Variable ReadFile : string -> list Byte.byte + string.
Variable AppendCertsFromPEM : CertPool -> list Byte.byte -> CertPool * bool.
Variable LoadX509KeyPair : string -> string -> Certificate + string.

(** The fields of [tls.Config] the function reads or writes. *)
Record tls_Config : Type := mkTlsConfig {
  RootCAs : option CertPool;
  Certificates : list Certificate;
  InsecureSkipVerify : bool
}.

(** [SslOptions]. *)
Record SslOptions : Type := mkSslOptions {
  Config : tls_Config;
  CertPath : string;
  KeyPath : string;
  CaPath : string;
  EnableHostVerification : bool
}.

Definition set_Config (c : tls_Config) (o : SslOptions) : SslOptions :=
  mkSslOptions c (CertPath o) (KeyPath o) (CaPath o) (EnableHostVerification o).

Definition set_RootCAs (r : option CertPool) (o : SslOptions) : SslOptions :=
  set_Config (mkTlsConfig r (Certificates (Config o)) (InsecureSkipVerify (Config o))) o.

Definition set_Certificates (cs : list Certificate) (o : SslOptions) : SslOptions :=
  set_Config (mkTlsConfig (RootCAs (Config o)) cs (InsecureSkipVerify (Config o))) o.

Definition set_InsecureSkipVerify (b : bool) (o : SslOptions) : SslOptions :=
  set_Config (mkTlsConfig (RootCAs (Config o)) (Certificates (Config o)) b) o.

(** [fmt.Errorf(format + ": %v", err)]. *)
Definition Errorf (msg : string) (err : string) : string :=
  String.append msg (String.append ": " err).

(** The first [if] of [setupTLSConfig]: the CA certificates. *)
Definition setup_ca (sslOpts : SslOptions) : SslOptions * option string :=
  (* ca cert is optional *)
  if bool_decide (CaPath sslOpts <> "") then
    let pool := match RootCAs (Config sslOpts) with
                | None => NewCertPool
                | Some pool => pool
                end in
    let sslOpts := set_RootCAs (Some pool) sslOpts in
    match ReadFile (CaPath sslOpts) with
    | inr err => (sslOpts, Some (Errorf "connectionpool: unable to open CA certs" err))
    | inl pem =>
        let r := AppendCertsFromPEM pool pem in
        let sslOpts := set_RootCAs (Some (fst r)) sslOpts in
        if snd r then (sslOpts, None)
        else (sslOpts, Some "connectionpool: failed parsing or CA certs")
    end
  else (sslOpts, None).

(** The second [if]: the key pair of the client. *)
Definition setup_keypair (sslOpts : SslOptions) : SslOptions * option string :=
  if bool_decide (CertPath sslOpts <> "" \/ KeyPath sslOpts <> "") then
    match LoadX509KeyPair (CertPath sslOpts) (KeyPath sslOpts) with
    | inr err => (sslOpts, Some (Errorf "connectionpool: unable to load X509 key pair" err))
    | inl mycert =>
        (set_Certificates (Certificates (Config sslOpts) ++ [mycert]) sslOpts, None)
    end
  else (sslOpts, None).

(** [setupTLSConfig]. *)
Definition setupTLSConfig (sslOpts : SslOptions) : SslOptions * option string :=
  match setup_ca sslOpts with
  | (sslOpts, Some err) => (sslOpts, Some err)
  | (sslOpts, None) =>
      match setup_keypair sslOpts with
      | (sslOpts, Some err) => (sslOpts, Some err)
      | (sslOpts, None) =>
          (set_InsecureSkipVerify (negb (EnableHostVerification sslOpts)) sslOpts, None)
      end
  end.

(** [n] calls in a row on the same options object, stopping at the first
    error. *)
Fixpoint setupTLSConfig_times (n : nat) (sslOpts : SslOptions)
    : SslOptions * option string :=
  match n with
  | O => (sslOpts, None)
  | S n' =>
      match setupTLSConfig sslOpts with
      | (sslOpts, Some err) => (sslOpts, Some err)
      | (sslOpts, None) => setupTLSConfig_times n' sslOpts
      end
  end.

End TLS.

Arguments RootCAs {CertPool Certificate} _.
Arguments Certificates {CertPool Certificate} _.
Arguments InsecureSkipVerify {CertPool Certificate} _.
Arguments mkTlsConfig {CertPool Certificate} _ _ _.
Arguments Config {CertPool Certificate} _.
Arguments CertPath {CertPool Certificate} _.
Arguments KeyPath {CertPool Certificate} _.
Arguments CaPath {CertPool Certificate} _.
Arguments EnableHostVerification {CertPool Certificate} _.
Arguments mkSslOptions {CertPool Certificate} _ _ _ _ _.
Arguments set_Config {CertPool Certificate} _ _.
Arguments set_RootCAs {CertPool Certificate} _ _.
Arguments set_Certificates {CertPool Certificate} _ _.
Arguments set_InsecureSkipVerify {CertPool Certificate} _ _.
Arguments setup_ca {CertPool Certificate} _ _ _ _.
Arguments setup_keypair {CertPool Certificate} _ _.
Arguments setupTLSConfig {CertPool Certificate} _ _ _ _ _.
Arguments setupTLSConfig_times {CertPool Certificate} _ _ _ _ _ _.

(** Concrete collaborators: certificates are named by strings, a pool is
    the list of its certificates; the only file is ["ca.pem"], which holds
    the certificate ["root"]; the only key pair is ["cert.pem"],
    ["key.pem"]. *)
Definition read_ca_only (path : string) : list Byte.byte + string :=
  if bool_decide (path = "ca.pem") then inl [Byte.x2d] else inr "no such file".

Definition append_root (pool : list string) (pem : list Byte.byte) : list string * bool :=
  match pem with
  | [] => (pool, false)
  | _ => (pool ++ ["root"], true)
  end.

Definition load_client_pair (cert key : string) : string + string :=
  if bool_decide (cert = "cert.pem" /\ key = "key.pem") then inl "client"
  else inr "open: no such file".

Definition ssl_plain : SslOptions (list string) string :=
  mkSslOptions (mkTlsConfig None [] true) "" "" "" true.

Definition ssl_client : SslOptions (list string) string :=
  mkSslOptions (mkTlsConfig None [] false) "cert.pem" "key.pem" "ca.pem" false.

Definition ssl_missing_ca : SslOptions (list string) string :=
  mkSslOptions (mkTlsConfig None [] false) "" "" "missing.pem" false.

(** * The PKI backend: intermediate CA paths (package pki)

    [pathGenerateIntermediate] and [pathSetSignedIntermediate] are
    callbacks of the logical backend.  They call into [certutil], the
    request's storage and the standard library; those are parameters here.
    A callback is a function from the storage it is given to the storage it
    leaves and what it returns: a response, an error, or a panic. *)

Module pki.

(** Errors, as far as the callbacks tell them apart in their type
    switches: [certutil.UserError], [certutil.InternalError], or any other
    error value; each with what [Error()] returns. *)
Inductive error : Type :=
| UserError (msg : string)
| InternalError (msg : string)
| OtherError (msg : string).

Definition Error (e : error) : string :=
  match e with
  | UserError msg | InternalError msg | OtherError msg => msg
  end.

(** [fmt.Errorf]: a new error value. *)
Definition Errorf (msg : string) : error := OtherError msg.

(** [*logical.Response]: [logical.ErrorResponse(msg)], or a response with
    the entries of [Data] (the values the callbacks store are strings). *)
Inductive Response : Type :=
| ErrorResponse (msg : string)
| DataResponse (Data : gmap string string).

(** [logical.StorageEntry]. *)
Record StorageEntry : Type := mkStorageEntry {
  Key : string;
  Value : list Byte.byte
}.

(** What a callback returns: [(resp, err)], or it panics on a nil
    pointer. *)
Inductive outcome : Type :=
| Returns (resp : option Response) (err : option error)
| PanicsNil.

Section Backend.

(** The storage behind [req.Storage], in any state of type [Storage].
    [Put] takes the key and the value the entry has when it is called: the
    callbacks write to the fields of an entry again after they have put it,
    and a storage that kept the pointer would see that. *)
Variable Storage : Type.
Variable Storage_Get : Storage -> string -> option StorageEntry + error.
Variable Storage_Put : Storage -> StorageEntry -> Storage * option error.

(** Values that are opaque to the callbacks: a parsed [x509.Certificate],
    a public key, a private key ([crypto.Signer]), a role entry, the field
    data of the request, and the fields of a [certutil.CertBundle] that the
    callbacks never touch, with their zero value. *)
Variable X509 : Type.
Variable PublicKey_t : Type.
Variable Signer : Type.
Variable roleEntry : Type.
Variable FieldData : Type.
Variable BundleRest : Type.
Variable zeroRest : BundleRest.

(** [cert.PublicKey], [cert.IsCA], [key.Public()]. *)
Variable PublicKey : X509 -> PublicKey_t.
Variable IsCA : X509 -> bool.
Variable Public : Signer -> PublicKey_t.

(** [certutil.CertBundle], as the callbacks use it. *)
Record CertBundle : Type := mkCertBundle {
  cb_PrivateKey : string;
  cb_PrivateKeyType : string;
  cb_rest : BundleRest
}.

(** [certutil.ParsedCertBundle]. *)
Record ParsedCertBundle : Type := mkParsedCertBundle {
  PrivateKeyType : string;
  PrivateKeyBytes : list Byte.byte;
  PrivateKey : option Signer;
  IssuingCABytes : list Byte.byte;
  IssuingCA : option X509;
  CertificateBytes : list Byte.byte;
  Certificate : option X509
}.

(** [certutil.ParsedCSRBundle] and [certutil.CSRBundle], as far as read. *)
Record ParsedCSRBundle : Type := mkParsedCSRBundle {
  csr_PrivateKeyBytes : list Byte.byte;
  CSRBytes : list Byte.byte
}.

Record CSRBundle : Type := mkCSRBundle {
  csrb_PrivateKeyType : string;
  CSR : string;
  csrb_PrivateKey : string
}.

(** The functions of [certutil], [logical] and the backend that the
    callbacks call.  [generateIntermediateCSR] reads the request and
    returns a pointer, which may be nil, with its error; [ToCSRBundle] is
    called through that pointer, and the [*CSRBundle] it returns with a nil
    error is not nil. *)
Variable ParsePEMBundle : string -> ParsedCertBundle + error.
Variable DecodeJSON : StorageEntry -> CertBundle + error.
Variable ToParsedCertBundle : CertBundle -> ParsedCertBundle + error.
Variable ComparePublicKeys : PublicKey_t -> PublicKey_t -> bool + error.
Variable ToCertBundle : ParsedCertBundle -> CertBundle + error.
Variable StorageEntryJSON : string -> CertBundle -> StorageEntry + error.
Variable buildCRL : Storage -> Storage * option error.
Variable getGenerationParams : FieldData -> bool * string * roleEntry * option Response.
Variable generateIntermediateCSR :
  Storage -> roleEntry -> FieldData -> option ParsedCSRBundle * option error.
Variable ToCSRBundle : option ParsedCSRBundle -> CSRBundle + error.
Variable base64_EncodeToString : list Byte.byte -> string.

Definition quote : string := String (Ascii.ascii_of_nat 34) EmptyString.

(** The [switch format] of [pathGenerateIntermediate]: the entries of
    [resp.Data], or a nil dereference of [parsedBundle]. *)
Definition generate_data (format : string) (exported : bool)
    (parsedBundle : option ParsedCSRBundle) (csrb : CSRBundle)
    : option (gmap string string) :=
  if bool_decide (format = "pem") then
    let d := <["csr" := CSR csrb]> (∅ : gmap string string) in
    Some (if exported then
            <["private_key_type" := csrb_PrivateKeyType csrb]>
              (<["private_key" := csrb_PrivateKey csrb]> d)
          else d)
  else if bool_decide (format = "der") then
    match parsedBundle with
    | None => None
    | Some pb =>
        let d := <["csr" := base64_EncodeToString (CSRBytes pb)]> (∅ : gmap string string) in
        Some (if exported then
                <["private_key_type" := csrb_PrivateKeyType csrb]>
                  (<["private_key" := base64_EncodeToString (csr_PrivateKeyBytes pb)]> d)
              else d)
    end
  else Some ∅.

(** [pathGenerateIntermediate], from [csrb, err := parsedBundle.ToCSRBundle()]
    on. *)
Definition generate_store (s : Storage) (format : string) (exported : bool)
    (parsedBundle : option ParsedCSRBundle) : Storage * outcome :=
  match ToCSRBundle parsedBundle with
  | inr err =>
      (s, Returns None
            (Some (Errorf (String.append
                             "Error converting raw CSR bundle to CSR bundle: " (Error err)))))
  | inl csrb =>
      match generate_data format exported parsedBundle csrb with
      | None => (s, PanicsNil)
      | Some data =>
          let cb := mkCertBundle (csrb_PrivateKey csrb) (csrb_PrivateKeyType csrb) zeroRest in
          match StorageEntryJSON "config/ca_bundle" cb with
          | inr err => (s, Returns None (Some err))
          | inl entry =>
              match Storage_Put s entry with
              | (s, Some err) => (s, Returns None (Some err))
              | (s, None) => (s, Returns (Some (DataResponse data)) None)
              end
          end
      end
  end.

(** [pathGenerateIntermediate]. *)
Definition pathGenerateIntermediate (s : Storage) (data : FieldData) : Storage * outcome :=
  match getGenerationParams data with
  | (_, _, _, Some errorResp) => (s, Returns (Some errorResp) None)
  | (exported, format, role, None) =>
      match generateIntermediateCSR s role data with
      | (_, Some (UserError msg)) =>
          (s, Returns (Some (ErrorResponse (Error (UserError msg)))) None)
      | (_, Some (InternalError msg)) => (s, Returns None (Some (InternalError msg)))
      | (parsedBundle, _) =>
          (* no error, or an error of another type: the switch has no case for it *)
          generate_store s format exported parsedBundle
      end
  end.

(** If only one certificate is provided and it's a CA the parsing will
    assign it to the IssuingCA, so move it over. *)
Definition move_issuing_ca (b : ParsedCertBundle) : ParsedCertBundle :=
  match Certificate b, IssuingCA b with
  | None, Some ca =>
      mkParsedCertBundle (PrivateKeyType b) (PrivateKeyBytes b) (PrivateKey b)
        [] None (IssuingCABytes b) (Some ca)
  | _, _ => b
  end.

(** [pathSetSignedIntermediate], from [cb, err = inputBundle.ToCertBundle()]
    on: the writes. *)
Definition set_signed_store (s : Storage) (inputBundle : ParsedCertBundle)
    : Storage * outcome :=
  match ToCertBundle inputBundle with
  | inr err =>
      (s, Returns None
            (Some (Errorf (String.append
                             "error converting raw values into cert bundle: " (Error err)))))
  | inl cb =>
      match StorageEntryJSON "config/ca_bundle" cb with
      | inr err => (s, Returns None (Some err))
      | inl entry =>
          match Storage_Put s entry with
          | (s, Some err) => (s, Returns None (Some err))
          | (s, None) =>
              (* For ease of later use, also store just the certificate at a
                 known location *)
              let entry := mkStorageEntry "ca" (CertificateBytes inputBundle) in
              match Storage_Put s entry with
              | (s, Some err) => (s, Returns None (Some err))
              | (s, None) =>
                  (* Build a fresh CRL *)
                  let r := buildCRL s in
                  (fst r, Returns None (snd r))
              end
          end
      end
  end.

(** [pathSetSignedIntermediate], from the lookup of the stored key on: the
    checks against the stored private key. *)
Definition set_signed_check (s : Storage) (inputBundle : ParsedCertBundle)
    (certificate : X509) : Storage * outcome :=
  match Storage_Get s "config/ca_bundle" with
  | inr err => (s, Returns None (Some err))
  | inl None =>
      (s, Returns (Some (ErrorResponse
                           "could not find any existing entry with a private key")) None)
  | inl (Some entry) =>
      match DecodeJSON entry with
      | inr err => (s, Returns None (Some err))
      | inl cb =>
          if bool_decide (cb_PrivateKey cb = "" \/ cb_PrivateKeyType cb = "") then
            (s, Returns (Some (ErrorResponse "could not find an existing privat key")) None)
          else
            match ToParsedCertBundle cb with
            | inr err => (s, Returns None (Some err))
            | inl parsedCB =>
                match PrivateKey parsedCB with
                | None =>
                    (s, Returns None
                          (Some (Errorf "saved key could not be parsed successfully")))
                | Some key =>
                    match ComparePublicKeys (Public key) (PublicKey certificate) with
                    | inr err =>
                        (s, Returns (Some (ErrorResponse
                                             (String.append "error matching public keys: "
                                                (Error err)))) None)
                    | inl false =>
                        (s, Returns (Some (ErrorResponse
                                             "key in certificate does not match stored key"))
                              None)
                    | inl true =>
                        let inputBundle :=
                          mkParsedCertBundle (PrivateKeyType parsedCB)
                            (PrivateKeyBytes parsedCB) (PrivateKey parsedCB)
                            (IssuingCABytes inputBundle) (IssuingCA inputBundle)
                            (CertificateBytes inputBundle) (Certificate inputBundle) in
                        if negb (IsCA certificate) then
                          (s, Returns (Some (ErrorResponse
                            "the given certificate is not marked for CA use and cannot be used with this backend"))
                                None)
                        else set_signed_store s inputBundle
                    end
                end
            end
      end
  end.

(** [pathSetSignedIntermediate]; [cert] is [data.Get("certificate")]. *)
Definition pathSetSignedIntermediate (s : Storage) (cert : string) : Storage * outcome :=
  if bool_decide (cert = "") then
    (s, Returns (Some (ErrorResponse
                         (String.append "no certificate provided in the "
                            (String.append quote
                               (String.append "certficate"
                                  (String.append quote " parameter")))))) None)
  else
    match ParsePEMBundle cert with
    | inr (InternalError msg) => (s, Returns None (Some (InternalError msg)))
    | inr err => (s, Returns (Some (ErrorResponse (Error err))) None)
    | inl inputBundle =>
        let inputBundle := move_issuing_ca inputBundle in
        match Certificate inputBundle with
        | None =>
            (s, Returns (Some (ErrorResponse
                                 "supplied certificate could not be successfully parsed"))
                  None)
        | Some certificate => set_signed_check s inputBundle certificate
        end
    end.

(** What the checks of [pathSetSignedIntermediate] have established when
    it reaches its writes with the bundle [b]. *)
Definition validated (s : Storage) (cert : string) (b : ParsedCertBundle) : Prop :=
  exists bundle certificate entry cb parsedCB key,
    cert <> "" /\
    ParsePEMBundle cert = inl bundle /\
    Certificate (move_issuing_ca bundle) = Some certificate /\
    IsCA certificate = true /\
    Storage_Get s "config/ca_bundle" = inl (Some entry) /\
    DecodeJSON entry = inl cb /\
    cb_PrivateKey cb <> "" /\ cb_PrivateKeyType cb <> "" /\
    ToParsedCertBundle cb = inl parsedCB /\
    PrivateKey parsedCB = Some key /\
    ComparePublicKeys (Public key) (PublicKey certificate) = inl true /\
    CertificateBytes b = CertificateBytes (move_issuing_ca bundle) /\
    PrivateKey b = Some key.

End Backend.

End pki.

(** An instance of the parameters of [pki]: the storage is the log of the
    entries put, newest first; a certificate is its public key and its CA
    flag; a private key is a number that is its own public key; bundles are
    stored by the text of their private key. *)
Module pki_inmem.

Definition Storage : Type := list pki.StorageEntry.

Definition Storage_Get (s : Storage) (key : string) : option pki.StorageEntry + pki.error :=
  inl (find (fun e => bool_decide (pki.Key e = key)) s).

Definition Storage_Put (s : Storage) (e : pki.StorageEntry) : Storage * option pki.error :=
  (e :: s, None).

Record X509 : Type := mkX509 { x_PublicKey : nat; x_IsCA : bool }.

Definition Public (key : nat) : nat := key.

Definition ParsedCertBundle : Type := pki.ParsedCertBundle X509 nat.
Definition CertBundle : Type := pki.CertBundle string.

(** Two PEM texts parse: a CA certificate and a leaf certificate, both
    for the public key 7, both found as the issuing CA. *)
Definition ParsePEMBundle (cert : string) : ParsedCertBundle + pki.error :=
  if bool_decide (cert = "ca-7") then
    inl (pki.mkParsedCertBundle X509 nat "" [] None
           (String.list_byte_of_string "ca-7") (Some (mkX509 7 true)) [] None)
  else if bool_decide (cert = "leaf-7") then
    inl (pki.mkParsedCertBundle X509 nat "" [] None
           (String.list_byte_of_string "leaf-7") (Some (mkX509 7 false)) [] None)
  else inr (pki.UserError "no PEM data").

Definition DecodeJSON (e : pki.StorageEntry) : CertBundle + pki.error :=
  inl (pki.mkCertBundle string (String.string_of_list_byte (pki.Value e)) "rsa" "").

Definition StorageEntryJSON (key : string) (cb : CertBundle) : pki.StorageEntry + pki.error :=
  inl (pki.mkStorageEntry key (String.list_byte_of_string (pki.cb_PrivateKey string cb))).

(** The private key is the length of its text. *)
Definition ToParsedCertBundle (cb : CertBundle) : ParsedCertBundle + pki.error :=
  inl (pki.mkParsedCertBundle X509 nat (pki.cb_PrivateKeyType string cb)
         (String.list_byte_of_string (pki.cb_PrivateKey string cb))
         (Some (String.length (pki.cb_PrivateKey string cb))) [] None [] None).

Definition ComparePublicKeys (a b : nat) : bool + pki.error := inl (bool_decide (a = b)).

Definition ToCertBundle (b : ParsedCertBundle) : CertBundle + pki.error :=
  inl (pki.mkCertBundle string (String.string_of_list_byte (pki.PrivateKeyBytes X509 nat b))
         (pki.PrivateKeyType X509 nat b)
         (String.string_of_list_byte (pki.CertificateBytes X509 nat b))).

Definition buildCRL (s : Storage) : Storage * option pki.error :=
  (pki.mkStorageEntry "crl" [] :: s, None).

(** The field data of a request: [exported] and [format]. *)
Definition getGenerationParams (data : bool * string)
    : bool * string * unit * option pki.Response :=
  (data.1, data.2, tt, None).

Definition generateIntermediateCSR (s : Storage) (role : unit) (data : bool * string)
    : option pki.ParsedCSRBundle * option pki.error :=
  (Some (pki.mkParsedCSRBundle (String.list_byte_of_string "1234567") (String.list_byte_of_string "csr-7")),
   None).

Definition ToCSRBundle (pb : option pki.ParsedCSRBundle) : pki.CSRBundle + pki.error :=
  match pb with
  | Some pb =>
      inl (pki.mkCSRBundle "rsa" (String.string_of_list_byte (pki.CSRBytes pb))
             (String.string_of_list_byte (pki.csr_PrivateKeyBytes pb)))
  | None => inr (pki.OtherError "nil bundle")
  end.

Definition base64_EncodeToString (b : list Byte.byte) : string :=
  String.append "b64:" (String.string_of_list_byte b).

Definition pathSetSignedIntermediate : Storage -> string -> Storage * pki.outcome :=
  pki.pathSetSignedIntermediate Storage Storage_Get Storage_Put X509 nat nat string
    x_PublicKey x_IsCA Public ParsePEMBundle DecodeJSON ToParsedCertBundle
    ComparePublicKeys ToCertBundle StorageEntryJSON buildCRL.

Definition pathGenerateIntermediate : Storage -> bool * string -> Storage * pki.outcome :=
  pki.pathGenerateIntermediate Storage Storage_Put unit (bool * string) string ""
    StorageEntryJSON getGenerationParams generateIntermediateCSR ToCSRBundle
    base64_EncodeToString.

Definition validated : Storage -> string -> ParsedCertBundle -> Prop :=
  pki.validated Storage Storage_Get X509 nat nat string x_PublicKey x_IsCA Public
    ParsePEMBundle DecodeJSON ToParsedCertBundle ComparePublicKeys.

(** The storage after [pathGenerateIntermediate]: the key ["1234567"]. *)
Definition with_key : Storage :=
  [pki.mkStorageEntry "config/ca_bundle" (String.list_byte_of_string "1234567")].

(** What a request for an exported key in DER form is answered. *)
Definition exported_der : gmap string string :=
  <["private_key_type" := "rsa"]>
    (<["private_key" := "b64:1234567"]> (<["csr" := "b64:csr-7"]> ∅)).

End pki_inmem.

(** * The PostgreSQL backend: revoking credentials (package postgresql)

    [secretCredsRevoke] talks to the database through [database/sql].
    The database is a parameter: a state of type [DB], and what each call
    does to it and returns.  The function is modelled with the calls it
    makes, in order, each with the error it got. *)

Module postgresql.

(** A value of [req.Secret.InternalData]: a string, or anything else. *)
Inductive value : Type :=
| VString (s : string)
| VOther.

(** [logical.ErrorResponse(msg)], the only response of the function. *)
Inductive Response : Type :=
| ErrorResponse (msg : string).

(** The rows of a query, as the function uses them: it iterates them at
    once with [Next], calling [Scan] on each, so they are what the
    [Scan]s gave, in order, and what [rows.Err()] is after the last. *)
Record Rows : Type := mkRows {
  scans : list (string + string);
  rows_Err : option string
}.

Definition dquote : string := String (Ascii.ascii_of_nat 34) EmptyString.

Section Backend.

(** The database and its prepared statements; an error is its message.
    The errors of the two [Close] methods are dropped by the function. *)
Variable DB : Type.
Variable Stmt : Type.
Variable Prepare : DB -> string -> DB * (Stmt + string).
Variable Query : DB -> Stmt -> DB * (Rows + string).
Variable Exec : DB -> Stmt -> DB * option string.
Variable Stmt_Close : DB -> Stmt -> DB.
Variable Rows_Close : DB -> DB.

(** [pq.QuoteIdentifier]. *)
Variable QuoteIdentifier : string -> string.

(** The calls to the database, with the error each one returned. *)
Inductive event : Type :=
| EvPrepare (query : string) (err : option string)
| EvQuery (stmt : Stmt) (err : option string)
| EvExec (stmt : Stmt) (err : option string)
| EvRowsErr (err : option string)
| EvRowsClose
| EvStmtClose (stmt : Stmt).

(** The database after a part of the function, the calls made, and what
    is returned: [(resp, err)]. *)
Definition ret : Type := DB * list event * (option Response * option string).

Definition select_query (username : string) : string :=
  String.append
    "SELECT DISTINCT table_schema FROM information_schema.role_column_grants WHERE grantee='"
    (String.append username "';").

Definition revoke_query (schema username : string) : string :=
  String.append "REVOKE ALL PRIVILEGES ON ALL TABLES IN SCHEMA "
    (String.append schema
       (String.append " FROM " (String.append (QuoteIdentifier username) ";"))).

Definition drop_query (username : string) : string :=
  String.append "DROP ROLE IF EXISTS " (String.append (QuoteIdentifier username) ";").

(** The loop [for rows.Next()]: a row that does not scan is skipped. *)
Definition revocationStmts (username : string) (rows : Rows) : list string :=
  omap (fun r : string + string =>
          match r with
          | inl schema => Some (revoke_query schema username)
          | inr _ => None
          end) (scans rows).

(** The loop [for _, query := range revocationStmts]; the statements it
    prepares are not closed. *)
Fixpoint revoke_loop (queries : list string) (db : DB) (lastStmtError : option string)
    : DB * list event * option string :=
  match queries with
  | [] => (db, [], lastStmtError)
  | query :: queries =>
      match Prepare db query with
      | (db, inr err) =>
          let '(db', tr, l) := revoke_loop queries db (Some err) in
          (db', EvPrepare query (Some err) :: tr, l)
      | (db, inl stmt) =>
          let '(db, e) := Exec db stmt in
          let lastStmtError :=
            match e with
            | Some err => Some err
            | None => lastStmtError
            end in
          let '(db', tr, l) := revoke_loop queries db lastStmtError in
          (db', EvPrepare query None :: EvExec stmt e :: tr, l)
      end
  end.

(** From [// Drop this user] on, with its deferred [stmt.Close()]. *)
Definition drop_role (username : string) (db : DB) : ret :=
  let query := drop_query username in
  match Prepare db query with
  | (db, inr err) => (db, [EvPrepare query (Some err)], (None, Some err))
  | (db, inl stmt) =>
      let '(db, e) := Exec db stmt in
      (Stmt_Close db stmt, [EvPrepare query None; EvExec stmt e; EvStmtClose stmt],
       (None, e))
  end.

(** From the loop over the revocation statements on; [rows.Err()] is
    called again for the message when it is not nil. *)
Definition revoke_and_drop (username : string) (rows : Rows) (db : DB) : ret :=
  let '(db, tr, lastStmtError) := revoke_loop (revocationStmts username rows) db None in
  match rows_Err rows with
  | Some e =>
      (db, tr ++ [EvRowsErr (Some e); EvRowsErr (Some e)],
       (Some (ErrorResponse
                (String.append "could not generate revocation statements for all rows: " e)),
        None))
  | None =>
      match lastStmtError with
      | Some e =>
          (db, tr ++ [EvRowsErr None],
           (Some (ErrorResponse
                    (String.append "could not perform all revocation statements: " e)),
            None))
      | None =>
          let '(db, tr', out) := drop_role username db in
          (db, tr ++ EvRowsErr None :: tr', out)
      end
  end.

(** From [stmt.Query()] on, with the deferred [rows.Close()]. *)
Definition query_and_revoke (username : string) (stmt : Stmt) (db : DB) : ret :=
  match Query db stmt with
  | (db, inr err) => (db, [EvQuery stmt (Some err)], (None, Some err))
  | (db, inl rows) =>
      let '(db, tr, out) := revoke_and_drop username rows db in
      (Rows_Close db, EvQuery stmt None :: tr ++ [EvRowsClose], out)
  end.

(** From the first [db.Prepare] on, with the deferred [stmt.Close()] of
    the statement of the SELECT. *)
Definition revoke_user (username : string) (db : DB) : ret :=
  let query := select_query username in
  match Prepare db query with
  | (db, inr err) => (db, [EvPrepare query (Some err)], (None, Some err))
  | (db, inl stmt) =>
      let '(db, tr, out) := query_and_revoke username stmt db in
      (Stmt_Close db stmt, EvPrepare query None :: tr ++ [EvStmtClose stmt], out)
  end.

(** [username, ok := usernameRaw.(string)]: [ok] is not looked at, and the
    user name of a value that is not a string is the empty string. *)
Definition username_of (usernameRaw : value) : string :=
  match usernameRaw with
  | VString s => s
  | VOther => ""
  end.

(** [secretCredsRevoke]; [b_DB] is what [b.DB(req.Storage)] returns.  The
    result has the database only when there is a connection. *)
Definition secretCredsRevoke (InternalData : gmap string value) (b_DB : DB + string)
    : option DB * list event * (option Response * option string) :=
  match InternalData !! "username" with
  | None => (None, [], (None, Some "secret is missing username internal data"))
  | Some usernameRaw =>
      match b_DB with
      | inr err => (None, [], (None, Some err))
      | inl db =>
          let '(db, tr, out) := revoke_user (username_of usernameRaw) db in
          (Some db, tr, out)
      end
  end.

(** The queries prepared, the errors returned, and the numbers of
    statements prepared and closed in a list of calls. *)
Definition prepared (tr : list event) : list string :=
  omap (fun ev => match ev with EvPrepare q _ => Some q | _ => None end) tr.

Definition event_err (ev : event) : option string :=
  match ev with
  | EvPrepare _ e | EvQuery _ e | EvExec _ e | EvRowsErr e => e
  | EvRowsClose | EvStmtClose _ => None
  end.

Definition failures (tr : list event) : list string := omap event_err tr.

Definition is_opened (ev : event) : bool :=
  match ev with
  | EvPrepare _ None => true
  | _ => false
  end.

Definition is_closed (ev : event) : bool :=
  match ev with
  | EvStmtClose _ => true
  | _ => false
  end.

Definition opened (tr : list event) : nat := length (List.filter is_opened tr).
Definition closed (tr : list event) : nat := length (List.filter is_closed tr).

End Backend.

Arguments EvPrepare {Stmt}.
Arguments EvQuery {Stmt}.
Arguments EvExec {Stmt}.
Arguments EvRowsErr {Stmt}.
Arguments EvRowsClose {Stmt}.
Arguments EvStmtClose {Stmt}.
Arguments prepared {Stmt}.
Arguments event_err {Stmt}.
Arguments failures {Stmt}.
Arguments is_opened {Stmt}.
Arguments is_closed {Stmt}.
Arguments opened {Stmt}.
Arguments closed {Stmt}.

End postgresql.

(** An instance of the parameters of [postgresql]: the database is the
    list of the statements it has executed, newest first; a prepared
    statement is its text; executing the statement [bad] fails; every
    query gives three rows, the second of which does not scan. *)
Module postgresql_inmem.

Definition DB : Type := list string.

Definition Prepare (db : DB) (query : string) : DB * (string + string) :=
  (db, if bool_decide (query = "") then inr "empty query" else inl query).

Definition Query (db : DB) (stmt : string) : DB * (postgresql.Rows + string) :=
  (db, inl (postgresql.mkRows [inl "public"; inr "scan failed"; inl "app"] None)).

Definition Exec (bad : string) (db : DB) (stmt : string) : DB * option string :=
  if bool_decide (stmt = bad) then (db, Some "permission denied") else (stmt :: db, None).

Definition Stmt_Close (db : DB) (stmt : string) : DB := db.
Definition Rows_Close (db : DB) : DB := db.

(** For a name that has no double quote in it. *)
Definition QuoteIdentifier (name : string) : string :=
  String.append postgresql.dquote (String.append name postgresql.dquote).

Definition secretCredsRevoke (bad : string)
    : gmap string postgresql.value -> DB + string ->
      option DB * list (postgresql.event string) * (option postgresql.Response * option string) :=
  postgresql.secretCredsRevoke DB string Prepare Query (Exec bad) Stmt_Close Rows_Close
    QuoteIdentifier.

Definition revoke_loop (bad : string)
    : list string -> DB -> option string ->
      DB * list (postgresql.event string) * option string :=
  postgresql.revoke_loop DB string Prepare (Exec bad).

Definition select_bob : string := postgresql.select_query "bob".
Definition revoke_bob (schema : string) : string :=
  postgresql.revoke_query QuoteIdentifier schema "bob".
Definition drop_bob : string := postgresql.drop_query QuoteIdentifier "bob".

Definition bob : gmap string postgresql.value := {["username" := postgresql.VString "bob"]}.

Definition bob_rows : postgresql.Rows :=
  postgresql.mkRows [inl "public"; inr "scan failed"; inl "app"] None.

End postgresql_inmem.

(** * Proofs *)

(** ** Running the monad *)

Lemma prefix_nil {A} (r : result A) : prefix [] r = r.
Proof. destruct r; reflexivity. Qed.

Lemma prefix_prefix {A} (t1 t2 : list event) (r : result A) :
  prefix t1 (prefix t2 r) = prefix (t1 ++ t2) r.
Proof. destruct r; simpl; rewrite app_assoc; reflexivity. Qed.

Lemma run_ret {A B} (a : A) (f : A -> M B) w : bind (ret a) f w = f a w.
Proof. unfold bind, ret. apply prefix_nil. Qed.

Lemma run_emit {B} ev (f : unit -> M B) w :
  bind (emit ev) f w = prefix [ev] (f tt w).
Proof. reflexivity. Qed.

Lemma run_go {B} t (f : unit -> M B) w :
  bind (go t) f w = prefix [Go t] (f tt w).
Proof. reflexivity. Qed.

Lemma run_assoc {A B C} (m : M A) (f : A -> M B) (g : B -> M C) w :
  bind (bind m f) g w = bind m (fun a => bind (f a) g) w.
Proof.
  unfold bind. destruct (m w) as [a w1 t1|e t1]; [|reflexivity].
  destruct (f a w1) as [b w2 t2|e t2]; simpl; [|reflexivity].
  rewrite prefix_prefix. reflexivity.
Qed.

Lemma run_get_pool {B} pool p (f : hostConnPool -> M B) w :
  pools w !! pool = Some p -> bind (get_pool pool) f w = f p w.
Proof. intros H. unfold bind, get_pool. rewrite H. apply prefix_nil. Qed.

Lemma run_modify_pool {B} pool p g (f : unit -> M B) w :
  pools w !! pool = Some p ->
  bind (modify_pool pool g) f w
  = f tt (mkWorld (heap w) (<[pool := g p]> (pools w)) (ndials w)).
Proof. intros H. unfold bind, modify_pool. rewrite H. apply prefix_nil. Qed.

Lemma run_get_world {B} (f : world -> M B) w : bind get_world f w = f w w.
Proof. unfold bind, get_world. apply prefix_nil. Qed.

Lemma run_bind_Ok {A B} (m : M A) (f : A -> M B) w a w1 t1 :
  m w = Ok a w1 t1 -> bind m f w = prefix t1 (f a w1).
Proof. intros H. unfold bind. rewrite H. reflexivity. Qed.

Lemma bind_Ok_inv {A B} (m : M A) (f : A -> M B) w b w2 t :
  bind m f w = Ok b w2 t ->
  exists a w1 t1 t2, m w = Ok a w1 t1 /\ f a w1 = Ok b w2 t2 /\ t = t1 ++ t2.
Proof.
  unfold bind. destruct (m w) as [a w1 t1|e t1]; [|discriminate].
  destruct (f a w1) as [b' w2' t2|e t2] eqn:Hf; simpl; [|discriminate].
  intros [= -> -> <-]. eauto 10.
Qed.

Lemma lookup_insert_pool (l : list hostConnPool) i p q :
  l !! i = Some p -> <[i := q]> l !! i = Some q.
Proof. intros H. apply list_lookup_insert_eq. eapply lookup_lt_Some; eauto. Qed.

Lemma close_all_trace cs w : close_all cs w = Ok tt w (map ConnClose cs).
Proof.
  induction cs as [|c cs IH]; simpl; [reflexivity|].
  rewrite run_emit, IH. reflexivity.
Qed.

Lemma run_close_all {B} cs (f : unit -> M B) w :
  bind (close_all cs) f w = prefix (map ConnClose cs) (f tt w).
Proof. unfold bind. rewrite close_all_trace. reflexivity. Qed.

Lemma all_while_locked_closes m cs tl :
  all_while_locked m is_ConnClose true (map ConnClose cs ++ tl)
  = all_while_locked m is_ConnClose true tl.
Proof. induction cs; simpl; auto. Qed.

(** ** [drain] *)

(** C5, as the code has it: [drain] takes the write lock, replaces [conns]
    by a slice of length and capacity zero, gives the policy the nil slice,
    closes every connection the pool held, in order, and only then releases
    the lock (the unlock is deferred): every [Close] happens while the lock
    is held.  Afterwards the pool holds no connection. *)
Theorem drain_detaches_and_closes_under_lock pool w p :
  pools w !! pool = Some p ->
  exists w1 p1 tr,
    drain pool w = Ok tt w1 tr /\
    tr = Lock (PoolMu pool) :: SetConns pool SliceNil ::
           map ConnClose (elems (heap w) (conns p)) ++ [Unlock (PoolMu pool)] /\
    heap w1 = heap w /\
    pools w1 !! pool = Some p1 /\
    slen (conns p1) = 0 /\ scap (conns p1) = 0 /\
    pc_conns (policy p1) = SliceNil /\
    closed p1 = closed p /\ filling p1 = filling p /\ size p1 = size p /\
    pool_conns w1 pool = [] /\
    all_while_locked (PoolMu pool) is_ConnClose false tr = true.
Proof.
  intros Hp. unfold drain, policy_SetConns, go_range.
  rewrite run_emit, (run_get_pool _ _ _ _ Hp).
  assert (exists s, go_reslice_0_0 (conns p) = ret s /\ slen s = 0 /\ scap s = 0 /\
                    forall h, elems h s = []) as (s & -> & Hl & Hc & He).
  { destruct (conns p); eexists; (split; [reflexivity|]); simpl; auto. }
  rewrite run_ret, (run_modify_pool _ _ _ _ _ Hp).
  rewrite run_assoc, run_emit.
  erewrite run_modify_pool by (simpl; eapply lookup_insert_pool; eauto).
  simpl. rewrite list_insert_insert_eq.
  unfold bind at 1. simpl. rewrite run_close_all. unfold emit. simpl.
  eexists _, _, _. split; [reflexivity|]. simpl.
  rewrite (lookup_insert_pool _ _ _ _ Hp).
  split; [reflexivity|]. split; [reflexivity|]. split; [reflexivity|].
  simpl. do 6 (split; [done|]).
  split.
  - unfold pool_conns. simpl. rewrite (lookup_insert_pool _ _ _ _ Hp). simpl. apply He.
  - case_bool_decide; [|done]. rewrite all_while_locked_closes. simpl. done.
Qed.

Lemma drain_detaches_and_closes_under_lock_witness :
  pools world_A2 !! 0 = Some (mkHostConnPool hostA 9042 "A" 2 "" (mkPolicy (Slice 2 2 2) 0)
                                (Slice 0 2 2) false false) /\
  exists w1 p1 tr,
    drain 0 world_A2 = Ok tt w1 tr /\
    tr = Lock (PoolMu 0) :: SetConns 0 SliceNil ::
           map ConnClose [Some 0; Some 1] ++ [Unlock (PoolMu 0)] /\
    heap w1 = heap world_A2 /\
    pools w1 !! 0 = Some p1 /\
    slen (conns p1) = 0 /\ scap (conns p1) = 0 /\
    pc_conns (policy p1) = SliceNil /\
    closed p1 = false /\ filling p1 = false /\ size p1 = 2%Z /\
    pool_conns w1 0 = [] /\
    all_while_locked (PoolMu 0) is_ConnClose false tr = true.
Proof.
  split; [reflexivity|].
  apply (drain_detaches_and_closes_under_lock 0 world_A2 _ eq_refl).
Defined.

(** C5 as stated fails: on a pool of two connections both are closed
    between [Lock] and [Unlock], none of them outside the lock. *)
Lemma drain_closes_outside_lock_counterexample :
  exists w1 tr,
    drain 0 world_A2 = Ok tt w1 tr /\
    tr = [Lock (PoolMu 0); SetConns 0 SliceNil; ConnClose (Some 0); ConnClose (Some 1);
          Unlock (PoolMu 0)] /\
    all_while_unlocked (PoolMu 0) is_ConnClose false tr = false.
Proof. eexists _, _. split; [reflexivity|]. split; reflexivity. Qed.

(** ** [Close] *)

Lemma Close_closed pool w p :
  pools w !! pool = Some p ->
  closed p = true ->
  hostConnPool_Close pool w = Ok tt w [Lock (PoolMu pool); Unlock (PoolMu pool)].
Proof.
  intros Hp Hc. unfold hostConnPool_Close.
  rewrite run_emit, (run_get_pool _ _ _ _ Hp), Hc. reflexivity.
Qed.

(** C9: the first [Close] sets [closed] and starts [drain] with [go], closing
    no connection itself; a [Close] on a closed pool only takes and releases
    the lock; so does the second of any two calls in a row, which starts no
    second [drain]. *)
Theorem Close_idempotent pool w p :
  pools w !! pool = Some p ->
  exists w1 tr1,
    hostConnPool_Close pool w = Ok tt w1 tr1 /\
    (closed p = false ->
       tr1 = [Lock (PoolMu pool); Go (TDrain pool); Unlock (PoolMu pool)] /\
       w1 = mkWorld (heap w) (<[pool := set_closed true p]> (pools w)) (ndials w) /\
       pool_conns w1 pool = pool_conns w pool) /\
    (closed p = true ->
       tr1 = [Lock (PoolMu pool); Unlock (PoolMu pool)] /\ w1 = w) /\
    hostConnPool_Close pool w1 = Ok tt w1 [Lock (PoolMu pool); Unlock (PoolMu pool)].
Proof.
  intros Hp.
  destruct (closed p) eqn:Hc.
  - rewrite (Close_closed _ _ _ Hp Hc).
    eexists _, _. split; [reflexivity|]. split; [discriminate|]. split; [done|].
    eapply Close_closed; eauto.
  - eexists _, _. split; [|split; [|split; [discriminate|]]].
    + unfold hostConnPool_Close.
      rewrite run_emit, (run_get_pool _ _ _ _ Hp), Hc.
      rewrite (run_modify_pool _ _ _ _ _ Hp), run_go. reflexivity.
    + intros _. split; [done|]. split; [done|].
      unfold pool_conns. simpl. rewrite (lookup_insert_pool _ _ _ _ Hp), Hp. done.
    + eapply Close_closed; [simpl; eapply lookup_insert_pool; eauto|reflexivity].
Qed.

Lemma Close_idempotent_witness :
  pools world_A2 !! 0 = Some (mkHostConnPool hostA 9042 "A" 2 "" (mkPolicy (Slice 2 2 2) 0)
                                (Slice 0 2 2) false false) /\
  exists w1 tr1,
    hostConnPool_Close 0 world_A2 = Ok tt w1 tr1 /\
    (false = false ->
       tr1 = [Lock (PoolMu 0); Go (TDrain 0); Unlock (PoolMu 0)] /\
       w1 = mkWorld (heap world_A2)
              (<[0 := set_closed true
                        (mkHostConnPool hostA 9042 "A" 2 "" (mkPolicy (Slice 2 2 2) 0)
                           (Slice 0 2 2) false false)]> (pools world_A2))
              (ndials world_A2) /\
       pool_conns w1 0 = pool_conns world_A2 0) /\
    (false = true -> tr1 = [Lock (PoolMu 0); Unlock (PoolMu 0)] /\ w1 = world_A2) /\
    hostConnPool_Close 0 w1 = Ok tt w1 [Lock (PoolMu 0); Unlock (PoolMu 0)].
Proof.
  split; [reflexivity|].
  apply (Close_idempotent 0 world_A2 _ eq_refl).
Defined.

(** ** [HandleError] on a closed pool *)

(** C10: on a closed pool [HandleError(conn, err, true)] takes and releases
    the lock and does nothing else, whether [conn] is in [conns] or not: the
    store is unchanged, the policy is given nothing, no [fill] is started. *)
Theorem HandleError_closed_pool_noop pool w p conn err :
  pools w !! pool = Some p ->
  closed p = true ->
  HandleError pool conn err true w
  = Ok tt w [Lock (PoolMu pool); Unlock (PoolMu pool)].
Proof.
  intros Hp Hc. unfold HandleError. cbn [negb].
  rewrite run_emit, (run_get_pool _ _ _ _ Hp), Hc. reflexivity.
Qed.

(** ** [hostConnPool.Pick] on an empty or closed pool *)

Section PickEmpty.
Variable connPolicy_Pick : list Conn -> nat -> Query -> Conn.

(** C8, as the code has it: on a pool that is not closed, holds no
    connection and has a positive target size, [Pick] returns nil without
    asking the policy and starts a [fill]; on a closed pool it returns nil
    and starts nothing. *)
Theorem Pick_empty_or_closed pool qry w p :
  pools w !! pool = Some p ->
  (closed p = false -> slen (conns p) = 0 -> (0 < size p)%Z ->
   hostConnPool_Pick connPolicy_Pick pool qry w
   = Ok None w [RLock (PoolMu pool); RUnlock (PoolMu pool); Go (TFill pool)]) /\
  (closed p = true ->
   hostConnPool_Pick connPolicy_Pick pool qry w
   = Ok None w [RLock (PoolMu pool); RUnlock (PoolMu pool)]).
Proof.
  intros Hp. unfold hostConnPool_Pick. split.
  - intros Hc Hl Hs.
    rewrite run_emit, (run_get_pool _ _ _ _ Hp), Hc, run_emit, Hl. simpl.
    change (Z.of_nat 0) with 0%Z.
    destruct (0 <? size p)%Z eqn:E; [|lia].
    rewrite run_assoc, run_go, run_ret. reflexivity.
  - intros Hc.
    rewrite run_emit, (run_get_pool _ _ _ _ Hp), Hc. reflexivity.
Qed.

End PickEmpty.

Lemma Pick_empty_or_closed_witness :
  (pools world_B2 !! 0
   = Some (mkHostConnPool hostB 9042 "B" 2 "" connPolicy (Slice 0 0 2) false false) /\
   hostConnPool_Pick pick_first 0 7 world_B2
   = Ok None world_B2 [RLock (PoolMu 0); RUnlock (PoolMu 0); Go (TFill 0)]) /\
  (pools world_A2_closed !! 0
   = Some (mkHostConnPool hostA 9042 "A" 2 "" (mkPolicy (Slice 2 2 2) 0)
             (Slice 0 2 2) true false) /\
   hostConnPool_Pick pick_first 0 7 world_A2_closed
   = Ok None world_A2_closed [RLock (PoolMu 0); RUnlock (PoolMu 0)]).
Proof.
  split; (split; [reflexivity|]).
  - apply (proj1 (Pick_empty_or_closed pick_first 0 7 world_B2 _ eq_refl));
      [reflexivity|reflexivity|reflexivity].
  - apply (proj2 (Pick_empty_or_closed pick_first 0 7 world_A2_closed _ eq_refl)).
    reflexivity.
Defined.

(** C8 as stated fails for a pool of target size zero, which
    [newHostConnPool] builds without complaint: it is not closed and holds
    no connection, yet [Pick] asks the policy and starts no [fill]. *)
Lemma Pick_empty_zero_size_counterexample :
  newHostConnPool join_plain dial_only_A keyspace_ok hostA 9042 0 "" connPolicy empty_world
  = Ok 0 world_A0 [RLock (PoolMu 0); RUnlock (PoolMu 0)] /\
  pools world_A0 !! 0
  = Some (mkHostConnPool hostA 9042 "A" 0 "" connPolicy (Slice 0 0 0) false false) /\
  exists w1,
    hostConnPool_Pick pick_first 0 7 world_A0
    = Ok None w1 [RLock (PoolMu 0); RUnlock (PoolMu 0); PolicyPick 0 7].
Proof. split; [reflexivity|]. split; [reflexivity|]. eexists. reflexivity. Qed.

Lemma HandleError_closed_pool_noop_witness :
  pools world_A2_closed !! 0
  = Some (mkHostConnPool hostA 9042 "A" 2 "" (mkPolicy (Slice 2 2 2) 0)
            (Slice 0 2 2) true false) /\
  pool_conns world_A2_closed 0 = [Some 0; Some 1] /\
  HandleError 0 (Some 1) (OtherError "EOF") true world_A2_closed
  = Ok tt world_A2_closed [Lock (PoolMu 0); Unlock (PoolMu 0)].
Proof.
  split; [reflexivity|]. split; [reflexivity|].
  apply (HandleError_closed_pool_noop 0 world_A2_closed _ (Some 1) (OtherError "EOF") eq_refl).
  reflexivity.
Defined.

(** ** Lists *)

Lemma index_of_Some c l i :
  index_of c l = Some i -> l !! i = Some c /\ c ∉ take i l.
Proof.
  revert i. induction l as [|x l IH]; intros i; simpl; [discriminate|].
  case_bool_decide as Hx.
  - intros [= <-]. subst. split; [reflexivity|]. simpl. apply not_elem_of_nil.
  - destruct (index_of c l) as [j|] eqn:Hj; simpl; [|discriminate].
    intros [= <-]. destruct (IH j eq_refl) as [H1 H2]. split; [exact H1|].
    simpl. rewrite not_elem_of_cons. split; [congruence|exact H2].
Qed.

Lemma index_of_elem c l : c ∈ l -> exists i, index_of c l = Some i.
Proof.
  induction l as [|x l IH]; [intros H; inversion H|].
  intros H. simpl. case_bool_decide as Hx; [eauto|].
  apply elem_of_cons in H as [->|H]; [done|].
  destruct (IH H) as [i ->]. simpl. eauto.
Qed.

Lemma index_of_None c l : c ∉ l -> index_of c l = None.
Proof.
  induction l as [|x l IH]; [reflexivity|].
  rewrite not_elem_of_cons. intros [H1 H2]. simpl.
  rewrite bool_decide_eq_false_2 by congruence. rewrite IH by done. reflexivity.
Qed.

Lemma swap_remove_perm (c : Conn) l i :
  l !! i = Some c -> l ≡ₚ c :: swap_remove i l.
Proof.
  intros Hi. unfold swap_remove.
  destruct (decide (l = [])) as [->|Hne]; [discriminate|].
  destruct (exists_last Hne) as [l0 [x Hl]]; subst l.
  rewrite last_snoc. simpl. rewrite length_app. simpl.
  replace (length l0 + 1 - 1) with (length l0) by lia.
  destruct (decide (i < length l0)) as [Hlt|Hge].
  - rewrite insert_app_l by done. rewrite take_app_length' by (rewrite length_insert; done).
    rewrite lookup_app_l in Hi by done.
    apply list_elem_of_split_length in Hi as (pre & post & -> & ->).
    rewrite insert_app_r_alt by lia. rewrite Nat.sub_diag. simpl.
    rewrite <- !app_assoc. simpl.
    rewrite <- Permutation_middle. f_equiv.
    rewrite (Permutation_app_comm post [x]). simpl.
    rewrite <- Permutation_middle. reflexivity.
  - assert (i = length l0) as ->.
    { apply lookup_lt_Some in Hi. rewrite length_app in Hi. simpl in Hi. lia. }
    rewrite list_lookup_middle in Hi by done. injection Hi as ->.
    rewrite insert_app_r_alt by lia. rewrite Nat.sub_diag. simpl.
    rewrite take_app_length. rewrite Permutation_app_comm. reflexivity.
Qed.

Lemma swap_remove_not_elem (c : Conn) l i :
  NoDup l -> l !! i = Some c -> c ∉ swap_remove i l.
Proof.
  intros Hnd Hi Hin.
  pose proof (swap_remove_perm c l i Hi) as Hp.
  rewrite Hp in Hnd. apply NoDup_cons in Hnd as [Hn _]. done.
Qed.

Lemma swap_remove_NoDup (c : Conn) l i :
  NoDup l -> l !! i = Some c -> NoDup (swap_remove i l).
Proof.
  intros Hnd Hi.
  pose proof (swap_remove_perm c l i Hi) as Hp.
  rewrite Hp in Hnd. apply NoDup_cons in Hnd as [_ Hn]. done.
Qed.

Lemma swap_remove_length l i : length (swap_remove i l) = length l - 1.
Proof. unfold swap_remove. rewrite length_take, length_insert. lia. Qed.

Lemma run_go_range {B} s (f : list Conn -> M B) w :
  bind (go_range s) f w = f (elems (heap w) s) w.
Proof. unfold bind, go_range. apply prefix_nil. Qed.

(** ** Slices and the heap *)

Lemma slice_ok_length h s : slice_ok h s -> length (elems h s) = slen s.
Proof.
  destruct s as [|a n cp]; simpl; [done|]. intros [H1 H2].
  rewrite length_take. lia.
Qed.

Lemma run_go_index {B} s i c (f : Conn -> M B) w :
  i < slen s ->
  elems (heap w) s !! i = Some c ->
  bind (go_index s (Z.of_nat i)) f w = f c w.
Proof.
  intros Hi Hc. unfold bind, go_index.
  destruct (_ || _)%Z eqn:E; [lia|].
  rewrite Nat2Z.id, Hc. apply prefix_nil.
Qed.

Lemma run_go_reslice {B} a n cp hi (f : slice -> M B) w :
  hi <= cp ->
  bind (go_reslice (Slice a n cp) (Z.of_nat hi)) f w = f (Slice a hi cp) w.
Proof.
  intros Hi. unfold go_reslice. simpl.
  destruct (_ || _)%Z eqn:E; [lia|].
  rewrite Nat2Z.id. apply run_ret.
Qed.

Lemma run_go_index_set {B} a n cp i c (f : unit -> M B) w :
  i < n ->
  bind (go_index_set (Slice a n cp) (Z.of_nat i) c) f w
  = f tt (mkWorld (<[a := <[i := c]> (array (heap w) a)]> (heap w)) (pools w) (ndials w)).
Proof.
  intros Hi. unfold bind, go_index_set. simpl.
  destruct (_ || _)%Z eqn:E; [lia|].
  rewrite Nat2Z.id. apply prefix_nil.
Qed.

Lemma run_go_make {B} n (f : slice -> M B) w :
  bind (go_make (Z.of_nat n) (Z.of_nat n)) f w
  = f (Slice (length (heap w)) n n)
      (mkWorld (heap w ++ [replicate n None]) (pools w) (ndials w)).
Proof.
  unfold bind, go_make.
  rewrite Z.ltb_irrefl, (proj2 (Z.ltb_ge _ _)) by lia. cbn [orb].
  rewrite Nat2Z.id. apply prefix_nil.
Qed.

Lemma run_go_copy {B} a n cp src (f : unit -> M B) w :
  bind (go_copy (Slice a n cp) src) f w
  = f tt (mkWorld (<[a := take (Nat.min n (slen src)) (elems (heap w) src)
                           ++ drop (Nat.min n (slen src)) (array (heap w) a)]> (heap w))
                  (pools w) (ndials w)).
Proof. unfold bind, go_copy. apply prefix_nil. Qed.

Lemma array_insert_eq h a l : a < length h -> array (<[a := l]> h) a = l.
Proof. intros H. unfold array. rewrite list_lookup_insert_eq by done. done. Qed.

Lemma array_insert_ne h a b l : a ≠ b -> array (<[a := l]> h) b = array h b.
Proof. intros H. unfold array. rewrite list_lookup_insert_ne by done. done. Qed.

Lemma array_app_l h h' a : a < length h -> array (h ++ h') a = array h a.
Proof. intros H. unfold array. rewrite lookup_app_l by done. done. Qed.

Lemma array_app_new h l : array (h ++ [l]) (length h) = l.
Proof. unfold array. rewrite list_lookup_middle by done. done. Qed.

Lemma array_valid h a : array h a ≠ [] -> a < length h.
Proof.
  unfold array. destruct (h !! a) eqn:E; simpl; [|done].
  intros _. eapply lookup_lt_Some; eauto.
Qed.

Lemma HandleError_range_miss pool c i cands w :
  c ∉ cands -> HandleError_range pool c i cands w = Ok tt w [].
Proof.
  revert i. induction cands as [|x cands IH]; intros i Hc; simpl; [reflexivity|].
  apply not_elem_of_cons in Hc as [H1 H2].
  rewrite bool_decide_eq_false_2 by congruence. apply IH. done.
Qed.

Lemma HandleError_range_skip pool c pre rest i w :
  c ∉ pre ->
  HandleError_range pool c i (pre ++ rest) w
  = HandleError_range pool c (i + length pre) rest w.
Proof.
  revert i. induction pre as [|x pre IH]; intros i Hc; simpl.
  - rewrite Nat.add_0_r. reflexivity.
  - apply not_elem_of_cons in Hc as [H1 H2].
    rewrite bool_decide_eq_false_2 by congruence. rewrite IH by done.
    f_equal. lia.
Qed.

Lemma HandleError_absent pool w p c err :
  pools w !! pool = Some p ->
  c ∉ elems (heap w) (conns p) ->
  HandleError pool c err true w = Ok tt w [Lock (PoolMu pool); Unlock (PoolMu pool)].
Proof.
  intros Hp Hc. unfold HandleError. cbn [negb].
  rewrite run_emit, (run_get_pool _ _ _ _ Hp).
  destruct (closed p); [reflexivity|].
  rewrite run_go_range. unfold bind. rewrite HandleError_range_miss by done.
  reflexivity.
Qed.

(** ** [HandleError] on a pool that is open *)

Lemma HandleError_range_at pool c (l : list Conn) i w :
  l !! i = Some c -> c ∉ take i l ->
  HandleError_range pool c 0 l w = HandleError_range pool c i (c :: drop (S i) l) w.
Proof.
  intros Hi Hpre.
  rewrite <- (take_drop_middle l i c Hi) at 1.
  rewrite HandleError_range_skip by done. cbn [Nat.add].
  rewrite length_take. apply lookup_lt_Some in Hi.
  replace (i `min` length l) with i by lia. reflexivity.
Qed.

Lemma take_pred_insert_take {A} (l : list A) n i x :
  take (n - 1) (<[i:=x]> (take n l)) = take (n - 1) (<[i:=x]> l).
Proof.
  rewrite !take_insert. case_decide.
  - rewrite take_take. f_equal. f_equal. lia.
  - rewrite take_take. f_equal. lia.
Qed.

Lemma HandleError_range_found pool w p c a n cp i :
  pools w !! pool = Some p ->
  conns p = Slice a n cp ->
  slice_ok (heap w) (conns p) ->
  index_of c (elems (heap w) (conns p)) = Some i ->
  exists h1,
    HandleError_range pool c 0 (elems (heap w) (conns p)) w
    = Ok tt (mkWorld h1
               (<[pool := set_policy (mkPolicy (Slice (length (heap w)) (n - 1) (n - 1))
                                        (pc_picks (policy p)))
                            (set_conns (Slice a (n - 1) cp) p)]> (pools w))
               (ndials w))
        [SetConns pool (Slice (length (heap w)) (n - 1) (n - 1)); Go (TFill pool)] /\
    length h1 = S (length (heap w)) /\
    elems h1 (Slice a (n - 1) cp) = swap_remove i (elems (heap w) (conns p)) /\
    elems h1 (Slice (length (heap w)) (n - 1) (n - 1))
    = swap_remove i (elems (heap w) (conns p)) /\
    slice_ok h1 (Slice a (n - 1) cp).
Proof.
  intros Hp Hs Hok Hi.
  pose proof (slice_ok_length _ _ Hok) as Hlen.
  destruct (index_of_Some _ _ _ Hi) as [Hli Hpre].
  remember (elems (heap w) (conns p)) as l eqn:Hl.
  rewrite Hs in Hok, Hlen, Hl. simpl in Hok, Hlen, Hl. destruct Hok as [Hncp Hcp].
  assert (i < n) as Hin by (rewrite <- Hlen; eapply lookup_lt_Some; eauto).
  assert (a < length (heap w)) as Ha.
  { apply array_valid. intros E. rewrite E in Hcp. simpl in Hcp. lia. }
  assert (exists lastv, l !! (n - 1) = Some lastv) as [lastv Hlast].
  { apply lookup_lt_is_Some. lia. }
  assert (last l = Some lastv) as Hlast'.
  { rewrite last_lookup. rewrite Hlen. replace (Nat.pred n) with (n - 1) by lia. done. }
  rewrite (HandleError_range_at _ _ _ _ _ Hli Hpre).
  cbn [HandleError_range]. rewrite bool_decide_eq_true_2 by done.
  rewrite (run_get_pool _ _ _ _ Hp), Hs. cbn [slen].
  replace (Z.of_nat n - 1)%Z with (Z.of_nat (n - 1)) by lia.
  rewrite (run_go_index _ (n - 1) lastv); [|simpl; lia|simpl; rewrite <- Hl; exact Hlast].
  rewrite run_go_reslice by lia.
  rewrite run_go_index_set by lia.
  erewrite run_modify_pool by (simpl; exact Hp).
  cbn [slen heap pools ndials].
  rewrite run_go_make. cbn [heap pools ndials].
  rewrite run_go_copy. cbn [heap pools ndials slen].
  unfold policy_SetConns. rewrite run_assoc, run_emit.
  erewrite run_modify_pool by (simpl; eapply lookup_insert_pool; eauto).
  cbn [heap pools ndials]. rewrite list_insert_insert_eq.
  unfold go, emit. cbn [prefix app].
  rewrite !(length_insert (heap w)).
  eexists. split; [reflexivity|].
  rewrite length_insert, length_app, length_insert. cbn [length].
  split; [lia|].
  assert (Hswap : take (n - 1) (<[i:=lastv]> (array (heap w) a)) = swap_remove i l).
  { unfold swap_remove. rewrite Hlast', Hlen. cbn [default from_option]. unfold id.
    rewrite Hl. rewrite take_pred_insert_take. reflexivity. }
  assert (Hsame : elems (<[a:=<[i:=lastv]> (array (heap w) a)]> (heap w)
                           ++ [replicate (n - 1) None]) (Slice a (n - 1) cp)
                  = swap_remove i l).
  { cbn [elems]. rewrite array_app_l by (rewrite length_insert; done).
    rewrite array_insert_eq by done. exact Hswap. }
  split; [|split].
  - cbn [elems]. rewrite array_insert_ne by lia.
    rewrite array_app_l by (rewrite length_insert; done).
    rewrite array_insert_eq by done. exact Hswap.
  - rewrite Hsame. cbn [elems].
    rewrite array_insert_eq by (rewrite length_app, length_insert; simpl; lia).
    rewrite Nat.min_id. rewrite take_app_length' by (rewrite length_take, swap_remove_length; lia).
    rewrite take_ge by (rewrite swap_remove_length; lia). reflexivity.
  - cbn [slice_ok]. split; [lia|].
    rewrite array_insert_ne by lia.
    rewrite array_app_l by (rewrite length_insert; done).
    rewrite array_insert_eq by done. rewrite length_insert. lia.
Qed.

(** C4: on a pool that is not closed and holds [c] (once, as every
    connection is held), [HandleError(c, err, true)] overwrites the first
    cell holding [c] with the last connection and cuts the last cell off, so
    that [c] is gone and the others remain; it gives the policy a slice over
    a fresh backing array with the same elements, and starts a [fill].  A
    second call for [c] in the store so reached changes nothing: it takes
    and releases the lock. *)
Theorem HandleError_removes_then_noop pool w p c err :
  pools w !! pool = Some p ->
  closed p = false ->
  conns_ok w p ->
  c ∈ elems (heap w) (conns p) ->
  exists i w1 p1 snap,
    index_of c (pool_conns w pool) = Some i /\
    HandleError pool c err true w
    = Ok tt w1 [Lock (PoolMu pool); SetConns pool snap; Go (TFill pool);
                Unlock (PoolMu pool)] /\
    pools w1 !! pool = Some p1 /\
    pool_conns w1 pool = swap_remove i (pool_conns w pool) /\
    (c ∉ pool_conns w1 pool) /\
    pool_conns w pool ≡ₚ c :: pool_conns w1 pool /\
    pc_conns (policy p1) = snap /\
    policy_conns w1 pool = pool_conns w1 pool /\
    (~ aliases snap (conns p1)) /\
    closed p1 = false /\ filling p1 = filling p /\ size p1 = size p /\
    conns_ok w1 p1 /\
    forall err',
      HandleError pool c err' true w1
      = Ok tt w1 [Lock (PoolMu pool); Unlock (PoolMu pool)].
Proof.
  intros Hp Hc [Hok Hnd] Hin.
  destruct (index_of_elem _ _ Hin) as [i Hi].
  destruct (index_of_Some _ _ _ Hi) as [Hli _].
  destruct (conns p) as [|a n cp] eqn:Hs; [inversion Hin|].
  rewrite <- Hs in Hok, Hnd, Hin, Hi, Hli.
  destruct (HandleError_range_found pool w p c a n cp i Hp Hs Hok Hi)
    as (h1 & Hrun & Hlen & He1 & He2 & Hok1).
  assert (a < length (heap w)) as Ha.
  { rewrite Hs in Hok, Hin. simpl in Hok, Hin. apply array_valid. intros E.
    rewrite E in Hin. rewrite take_nil in Hin. inversion Hin. }
  assert (Hpc : pool_conns w pool = elems (heap w) (conns p)).
  { unfold pool_conns. rewrite Hp. reflexivity. }
  eexists i, _, _, _.
  split; [rewrite Hpc; exact Hi|].
  split.
  { unfold HandleError. cbn [negb].
    rewrite run_emit, (run_get_pool _ _ _ _ Hp), Hc, run_go_range.
    rewrite (run_bind_Ok _ _ _ _ _ _ Hrun). reflexivity. }
  cbn [pools heap]. rewrite (lookup_insert_pool _ _ _ _ Hp).
  split; [reflexivity|].
  assert (Hpc1 : pool_conns
                   (mkWorld h1
                      (<[pool := set_policy (mkPolicy (Slice (length (heap w)) (n - 1) (n - 1))
                                               (pc_picks (policy p)))
                                   (set_conns (Slice a (n - 1) cp) p)]> (pools w))
                      (ndials w)) pool
                 = swap_remove i (elems (heap w) (conns p))).
  { unfold pool_conns. cbn [pools heap]. rewrite (lookup_insert_pool _ _ _ _ Hp).
    exact He1. }
  rewrite Hpc1, Hpc.
  split; [reflexivity|].
  split; [eapply swap_remove_not_elem; eauto|].
  split; [eapply swap_remove_perm; eauto|].
  split; [reflexivity|].
  split.
  { unfold policy_conns. cbn [pools heap]. rewrite (lookup_insert_pool _ _ _ _ Hp).
    exact He2. }
  split; [simpl; lia|].
  split; [exact Hc|]. split; [reflexivity|]. split; [reflexivity|].
  split.
  { split; [exact Hok1|]. cbn [heap conns set_policy set_conns]. rewrite He1.
    eapply swap_remove_NoDup; eauto. }
  intros err'. eapply HandleError_absent.
  - cbn [pools]. eapply lookup_insert_pool; eauto.
  - cbn [heap conns set_policy set_conns]. rewrite He1.
    eapply swap_remove_not_elem; eauto.
Qed.

Lemma HandleError_removes_then_noop_witness :
  (pools world_A2 !! 0
   = Some (mkHostConnPool hostA 9042 "A" 2 "" (mkPolicy (Slice 2 2 2) 0)
             (Slice 0 2 2) false false) /\
   pool_conns world_A2 0 = [Some 0; Some 1]) /\
  exists i w1 p1 snap,
    index_of (Some 0) (pool_conns world_A2 0) = Some i /\
    HandleError 0 (Some 0) (OtherError "EOF") true world_A2
    = Ok tt w1 [Lock (PoolMu 0); SetConns 0 snap; Go (TFill 0); Unlock (PoolMu 0)] /\
    pools w1 !! 0 = Some p1 /\
    pool_conns w1 0 = swap_remove i (pool_conns world_A2 0) /\
    (Some 0 ∉ pool_conns w1 0) /\
    pool_conns world_A2 0 ≡ₚ Some 0 :: pool_conns w1 0 /\
    pc_conns (policy p1) = snap /\
    policy_conns w1 0 = pool_conns w1 0 /\
    (~ aliases snap (conns p1)) /\
    closed p1 = false /\ filling p1 = false /\ size p1 = 2%Z /\
    conns_ok w1 p1 /\
    forall err',
      HandleError 0 (Some 0) err' true w1 = Ok tt w1 [Lock (PoolMu 0); Unlock (PoolMu 0)].
Proof.
  split; [split; reflexivity|].
  apply (HandleError_removes_then_noop 0 world_A2 _ (Some 0) (OtherError "EOF")
           eq_refl eq_refl).
  - split; [simpl; lia|]. compute_done.
  - compute_done.
Defined.

(** The same call run on the store: of the connections 0 and 1 of the pool,
    connection 1 is moved into the cell of connection 0, and the policy is
    given a one-element slice over the new array 4. *)
Example HandleError_on_two_connections :
  HandleError 0 (Some 0) (OtherError "EOF") true world_A2
  = Ok tt
      (mkWorld [[Some 1; Some 1]; [Some 0]; [Some 0; Some 1]; [Some 1]]
         [mkHostConnPool hostA 9042 "A" 2 "" (mkPolicy (Slice 3 1 1) 0)
            (Slice 0 1 2) false false] 2)
      [Lock (PoolMu 0); SetConns 0 (Slice 3 1 1); Go (TFill 0); Unlock (PoolMu 0)].
Proof. reflexivity. Qed.

(** ** Effects of the methods on one pool *)

Lemma same_config_refl p : same_config p p.
Proof. repeat split. Qed.

Lemma same_config_trans p1 p2 p3 :
  same_config p1 p2 -> same_config p2 p3 -> same_config p1 p3.
Proof. unfold same_config. intros (?&?&?&?&?) (?&?&?&?&?). repeat split; congruence. Qed.

Lemma others_untouched_refl pool w : others_untouched pool w w.
Proof. split; auto. Qed.

Lemma others_untouched_trans pool w1 w2 w3 :
  others_untouched pool w1 w2 -> others_untouched pool w2 w3 ->
  others_untouched pool w1 w3.
Proof.
  intros [H1 H2] [H3 H4]. split; [congruence|].
  intros q Hq. rewrite H4, H2 by done. done.
Qed.

Lemma others_untouched_insert pool w w' p :
  pools w' = <[pool := p]> (pools w) -> others_untouched pool w w'.
Proof.
  intros E. unfold others_untouched. rewrite E. split; [apply length_insert|].
  intros q Hq. apply list_lookup_insert_ne. done.
Qed.

Lemma others_untouched_same_pools pool w w' :
  pools w' = pools w -> others_untouched pool w w'.
Proof. intros E. unfold others_untouched. rewrite E. split; auto. Qed.

Lemma logConnectErr_run pool p err w :
  pools w !! pool = Some p ->
  logConnectErr pool err w = Ok tt w (log_events (addr p) err).
Proof.
  intros Hp. unfold logConnectErr, log_events.
  destruct err as [[op|msg]|]; [|rewrite (run_get_pool _ _ _ _ Hp); reflexivity|reflexivity].
  case_bool_decide; [reflexivity|].
  rewrite (run_get_pool _ _ _ _ Hp). reflexivity.
Qed.

Lemma fillingStopped_run pool p w :
  pools w !! pool = Some p ->
  fillingStopped pool w
  = Ok tt (mkWorld (heap w) (<[pool := set_filling false p]> (pools w)) (ndials w))
      [Sleep; Lock (PoolMu pool); Unlock (PoolMu pool)].
Proof.
  intros Hp. unfold fillingStopped.
  rewrite !run_emit. unfold bind. unfold modify_pool. rewrite Hp. reflexivity.
Qed.

Lemma append_to_slen h s c : slen (snd (append_to h s c)) = S (slen s).
Proof. destruct s as [|a n cp]; simpl; [done|]. destruct (n <? cp); done. Qed.

Lemma run_go_append {B} s c (f : slice -> M B) w :
  bind (go_append s c) f w
  = f (snd (append_to (heap w) s c))
      (mkWorld (fst (append_to (heap w) s c)) (pools w) (ndials w)).
Proof. unfold bind, go_append. apply prefix_nil. Qed.

Lemma run_snapshot {B} s (k : slice -> M B) w :
  bind (go_make (Z.of_nat (slen s)) (Z.of_nat (slen s)))
       (fun c => bind (go_copy c s) (fun _ => k c)) w
  = k (snapshot_slice (heap w) s)
      (mkWorld (snapshot_heap (heap w) s) (pools w) (ndials w)).
Proof.
  rewrite run_go_make, run_go_copy. cbn [heap pools ndials].
  unfold snapshot_slice. f_equal. f_equal. unfold snapshot_heap.
  rewrite Nat.min_id, array_app_new.
  rewrite drop_ge by (rewrite length_replicate; done).
  rewrite app_nil_r.
  rewrite <- (Nat.add_0_r (length (heap w))) at 1.
  rewrite insert_app_r. reflexivity.
Qed.

Lemma connect_add_closed pool p c w :
  pools w !! pool = Some p ->
  closed p = true ->
  connect_add pool c w
  = Ok None w [Lock (PoolMu pool); ConnClose c; Unlock (PoolMu pool)].
Proof.
  intros Hp Hc. unfold connect_add.
  rewrite run_emit, (run_get_pool _ _ _ _ Hp), Hc. reflexivity.
Qed.

Lemma connect_add_open pool p c w :
  pools w !! pool = Some p ->
  closed p = false ->
  connect_add pool c w
  = Ok None
      (mkWorld (snapshot_heap (fst (append_to (heap w) (conns p) c))
                              (snd (append_to (heap w) (conns p) c)))
         (<[pool := set_policy
                      (mkPolicy (snapshot_slice (fst (append_to (heap w) (conns p) c))
                                                (snd (append_to (heap w) (conns p) c)))
                                (pc_picks (policy p)))
                      (set_conns (snd (append_to (heap w) (conns p) c)) p)]> (pools w))
         (ndials w))
      [Lock (PoolMu pool);
       SetConns pool (snapshot_slice (fst (append_to (heap w) (conns p) c))
                                     (snd (append_to (heap w) (conns p) c)));
       Unlock (PoolMu pool)].
Proof.
  intros Hp Hc. unfold connect_add.
  rewrite run_emit, (run_get_pool _ _ _ _ Hp), Hc.
  rewrite run_go_append.
  erewrite run_modify_pool by (simpl; exact Hp). cbn [heap pools ndials].
  rewrite run_snapshot. cbn [heap pools ndials].
  unfold policy_SetConns. rewrite run_assoc, run_emit.
  erewrite run_modify_pool by (simpl; eapply lookup_insert_pool; eauto).
  cbn [heap pools ndials]. rewrite list_insert_insert_eq.
  reflexivity.
Qed.

Section ConnectRun.
Variable session_connect : string -> nat -> option error.
Variable conn_UseKeyspace : Conn -> string -> option error.

Lemma connect_run pool p w :
  pools w !! pool = Some p ->
  connect session_connect conn_UseKeyspace pool w
  = match session_connect (addr p) (ndials w) with
    | Some e => Ok (Some e) (dialed w) [Dial (addr p)]
    | None =>
        prefix (Dial (addr p) :: useKeyspace_events p (Some (ndials w)))
          match useKeyspace_result conn_UseKeyspace p (Some (ndials w)) with
          | Some e => Ok (Some e) (dialed w) [ConnClose (Some (ndials w))]
          | None => connect_add pool (Some (ndials w)) (dialed w)
          end
    end.
Proof.
  intros Hp. unfold connect.
  rewrite (run_get_pool _ _ _ _ Hp).
  unfold bind at 1. unfold do_session_connect.
  destruct (session_connect (addr p) (ndials w)) as [e|]; [reflexivity|].
  cbn [prefix]. unfold useKeyspace_result, useKeyspace_events.
  case_bool_decide.
  - rewrite run_assoc, run_emit, run_ret.
    destruct (conn_UseKeyspace _ _); [reflexivity|].
    rewrite !prefix_prefix. reflexivity.
  - rewrite run_ret. reflexivity.
Qed.

End ConnectRun.

(** ** Counting events *)

Lemma count_nil sel : count sel [] = 0.
Proof. reflexivity. Qed.

Lemma count_cons sel ev tr :
  count sel (ev :: tr) = (if sel ev then 1 else 0) + count sel tr.
Proof.
  unfold count. rewrite filter_cons.
  destruct (decide (sel ev = true)) as [H|H].
  - rewrite H. reflexivity.
  - destruct (sel ev); [done|reflexivity].
Qed.

Lemma count_app sel t1 t2 : count sel (t1 ++ t2) = count sel t1 + count sel t2.
Proof. unfold count. rewrite filter_app, length_app. reflexivity. Qed.

Lemma dial_trace_app pool k1 g1 k2 g2 t1 t2 :
  dial_trace pool k1 g1 t1 -> dial_trace pool k2 g2 t2 ->
  dial_trace pool (k1 + k2) (g1 + g2) (t1 ++ t2).
Proof.
  intros (H1 & H2 & H3) (H4 & H5 & H6). unfold dial_trace.
  rewrite !count_app. lia.
Qed.

Lemma dial_trace_log pool a err : dial_trace pool 0 0 (log_events a err).
Proof.
  unfold log_events. destruct err as [[op|msg]|]; try case_bool_decide; repeat split.
Qed.

Lemma dial_trace_useKeyspace pool p c : dial_trace pool 0 0 (useKeyspace_events p c).
Proof. unfold useKeyspace_events. case_bool_decide; repeat split. Qed.

Lemma after_dials_refl pool p w : pools w !! pool = Some p -> after_dials pool p w 0 w.
Proof.
  intros Hp. exists p. split; [done|]. split; [apply same_config_refl|].
  split; [done|]. split; [done|]. split; [apply others_untouched_refl|].
  split; [lia|]. split; [lia|]. auto.
Qed.

Lemma after_dials_trans pool p w k1 w1 p1 k2 w2 :
  after_dials pool p w k1 w1 ->
  pools w1 !! pool = Some p1 ->
  after_dials pool p1 w1 k2 w2 ->
  after_dials pool p w (k1 + k2) w2.
Proof.
  intros (p1' & Hp1 & Hcfg1 & Hc1 & Hf1 & Ho1 & Hn1 & Hl1 & Hcl1) Hp1'.
  rewrite Hp1 in Hp1'. injection Hp1' as ->.
  intros (p2 & Hp2 & Hcfg2 & Hc2 & Hf2 & Ho2 & Hn2 & Hl2 & Hcl2).
  exists p2. split; [done|]. split; [eapply same_config_trans; eauto|].
  split; [congruence|]. split; [congruence|].
  split; [eapply others_untouched_trans; eauto|].
  split; [lia|]. split; [lia|].
  intros Hc. destruct (Hcl1 Hc) as [E1 E2].
  destruct (Hcl2 (eq_trans Hc1 Hc)) as [E3 E4]. split; congruence.
Qed.

Lemma after_dials_dialed pool p w : pools w !! pool = Some p -> after_dials pool p w 1 (dialed w).
Proof.
  intros Hp. exists p. split; [done|]. split; [apply same_config_refl|].
  split; [done|]. split; [done|]. split; [apply others_untouched_same_pools; reflexivity|].
  split; [simpl; lia|]. split; [lia|]. auto.
Qed.

Section ConnectEffect.
Variable session_connect : string -> nat -> option error.
Variable conn_UseKeyspace : Conn -> string -> option error.

Lemma connect_effect pool p w :
  pools w !! pool = Some p ->
  exists err w' tr,
    connect session_connect conn_UseKeyspace pool w = Ok err w' tr /\
    after_dials pool p w 1 w' /\
    dial_trace pool 1 0 tr /\
    (is_Some err -> w' = dialed w).
Proof.
  intros Hp. rewrite (connect_run _ _ _ _ _ Hp).
  destruct (session_connect (addr p) (ndials w)) as [e|].
  { eexists _, _, _. split; [reflexivity|]. split; [apply after_dials_dialed; done|].
    split; [repeat split|]. done. }
  pose proof (dial_trace_useKeyspace pool p (Some (ndials w))) as Hks.
  destruct (useKeyspace_result _ _ _) as [e|].
  { eexists _, _, _. split; [reflexivity|]. split; [apply after_dials_dialed; done|].
    split; [|done].
    apply (dial_trace_app pool 1 0 0 0 [Dial (addr p)]); [repeat split|].
    apply (dial_trace_app pool 0 0 0 0); [done|repeat split]. }
  destruct (closed p) eqn:Hc.
  - erewrite connect_add_closed by (simpl; eauto).
    eexists _, _, _. split; [reflexivity|]. split; [apply after_dials_dialed; done|].
    split; [|intros [? [=]]].
    apply (dial_trace_app pool 1 0 0 0 [Dial (addr p)]); [repeat split|].
    apply (dial_trace_app pool 0 0 0 0); [done|repeat split].
  - erewrite connect_add_open by (simpl; eauto).
    eexists _, _, _. split; [reflexivity|]. split; [|split; [|intros [? [=]]]].
    + eexists. split; [simpl; eapply lookup_insert_pool; eauto|].
      split; [repeat split|]. split; [done|]. split; [done|].
      split; [eapply others_untouched_insert; reflexivity|].
      split; [simpl; lia|].
      split; [|congruence].
      cbn [conns set_policy set_conns heap dialed]. rewrite append_to_slen. lia.
    + apply (dial_trace_app pool 1 0 0 0 [Dial (addr p)]); [repeat split|].
      apply (dial_trace_app pool 0 0 0 0); [done|repeat split].
Qed.

Lemma connect_and_log_effect pool p w :
  pools w !! pool = Some p ->
  exists w' tr,
    connect_and_log session_connect conn_UseKeyspace pool w = Ok tt w' tr /\
    after_dials pool p w 1 w' /\
    dial_trace pool 1 0 tr.
Proof.
  intros Hp. destruct (connect_effect pool p w Hp) as (err & w' & tr & Hrun & Haft & Htr & _).
  unfold connect_and_log. rewrite (run_bind_Ok _ _ _ _ _ _ Hrun).
  destruct Haft as (p' & Hp' & Hrest).
  rewrite (logConnectErr_run _ _ _ _ Hp'). cbn [prefix].
  eexists _, _. split; [reflexivity|]. split; [exists p'; eauto|].
  apply (dial_trace_app pool 1 0 0 0); [done|apply dial_trace_log].
Qed.

Lemma connectMany_loop_effect pool n : forall p w,
  pools w !! pool = Some p ->
  exists w' tr,
    connectMany_loop session_connect conn_UseKeyspace pool n w = Ok tt w' tr /\
    after_dials pool p w n w' /\
    dial_trace pool n n tr.
Proof.
  induction n as [|n IH]; intros p w Hp.
  - eexists _, _. split; [reflexivity|]. split; [apply after_dials_refl; done|repeat split].
  - cbn [connectMany_loop]. rewrite run_go.
    destruct (connect_and_log_effect pool p w Hp) as (w1 & t1 & Hrun & Haft & Htr).
    rewrite (run_bind_Ok _ _ _ _ _ _ Hrun).
    pose proof Haft as (p1 & Hp1 & _).
    destruct (IH p1 w1 Hp1) as (w2 & t2 & Hrun2 & Haft2 & Htr2).
    rewrite Hrun2. cbn [prefix].
    eexists _, _. split; [reflexivity|].
    split; [apply (after_dials_trans pool p w 1 w1 p1 n w2); done|].
    apply (dial_trace_app pool 0 1 (S n) n [Go (TConnect pool)]).
    + split; [reflexivity|]. split; [|reflexivity].
      unfold is_GoConnect. rewrite count_cons, bool_decide_eq_true_2 by done. reflexivity.
    + apply (dial_trace_app pool 1 0 n n); done.
Qed.

Lemma connectMany_effect pool count_ p w :
  (0 <= count_)%Z ->
  pools w !! pool = Some p ->
  exists w' tr,
    connectMany session_connect conn_UseKeyspace pool count_ w = Ok tt w' tr /\
    after_dials pool p w (Z.to_nat count_) w' /\
    dial_trace pool (Z.to_nat count_) (Z.to_nat count_) tr.
Proof.
  intros Hn Hp. unfold connectMany.
  destruct (count_ =? 0)%Z eqn:E0.
  - apply Z.eqb_eq in E0. subst. eexists _, _. split; [reflexivity|].
    split; [apply after_dials_refl; done|repeat split].
  - destruct (count_ <? 0)%Z eqn:E1; [lia|].
    destruct (connectMany_loop_effect pool (Z.to_nat count_) p w Hp)
      as (w' & tr & Hrun & Haft & Htr).
    rewrite (run_bind_Ok _ _ _ _ _ _ Hrun). unfold emit. cbn [prefix].
    eexists _, _. split; [reflexivity|]. split; [done|].
    destruct Htr as (H1 & H2 & H3).
    assert (dial_trace pool 0 0 [WaitGroupWait]) as (H4 & H5 & H6) by (repeat split).
    unfold dial_trace. rewrite !count_app, H1, H2, H3, H4, H5, H6. lia.
Qed.

End ConnectEffect.

(** ** [fill] *)

Lemma fill_check_run pool p w :
  pools w !! pool = Some p ->
  fill_check pool w = Ok (wants_fill p) w [RLock (PoolMu pool); RUnlock (PoolMu pool)].
Proof.
  intros Hp. unfold fill_check, wants_fill.
  rewrite run_emit, (run_get_pool _ _ _ _ Hp).
  destruct (closed p || filling p); [reflexivity|]. cbn [orb negb].
  destruct (_ <=? 0)%Z; reflexivity.
Qed.

Lemma fill_begin_run pool p w :
  pools w !! pool = Some p ->
  fill_begin pool w
  = if wants_fill p
    then Ok (Some (Z.of_nat (slen (conns p)), size p - Z.of_nat (slen (conns p)))%Z)
            (filling_set true pool w) [Lock (PoolMu pool); Unlock (PoolMu pool)]
    else Ok None w [Lock (PoolMu pool); Unlock (PoolMu pool)].
Proof.
  intros Hp. unfold fill_begin, wants_fill, filling_set.
  rewrite run_emit, (run_get_pool _ _ _ _ Hp), Hp.
  destruct (closed p || filling p || _); [reflexivity|]. cbn [negb].
  rewrite (run_modify_pool _ _ _ _ _ Hp). reflexivity.
Qed.

Lemma filling_set_lookup b pool p w :
  pools w !! pool = Some p ->
  pools (filling_set b pool w) !! pool = Some (set_filling b p).
Proof.
  intros Hp. unfold filling_set. rewrite Hp. simpl. eapply lookup_insert_pool; eauto.
Qed.

Lemma filling_set_fields b pool w :
  heap (filling_set b pool w) = heap w /\ ndials (filling_set b pool w) = ndials w.
Proof. unfold filling_set. destruct (pools w !! pool); auto. Qed.

Lemma fillingStopped_filling_set pool p w :
  pools w !! pool = Some p ->
  fillingStopped pool w
  = Ok tt (filling_set false pool w) [Sleep; Lock (PoolMu pool); Unlock (PoolMu pool)].
Proof.
  intros Hp. rewrite (fillingStopped_run _ _ _ Hp). unfold filling_set. rewrite Hp. done.
Qed.

Lemma filling_set_id pool p w :
  pools w !! pool = Some p ->
  filling_set (filling p) pool w = w.
Proof.
  intros Hp. unfold filling_set. rewrite Hp.
  replace (set_filling (filling p) p) with p by (destruct p; reflexivity).
  rewrite list_insert_id by done. destruct w; reflexivity.
Qed.

Lemma filling_set_twice b1 b2 pool w :
  filling_set b2 pool (filling_set b1 pool w) = filling_set b2 pool w.
Proof.
  unfold filling_set. destruct (pools w !! pool) as [p|] eqn:Hp.
  - simpl. rewrite (lookup_insert_pool _ _ _ _ Hp). simpl.
    rewrite list_insert_insert_eq. reflexivity.
  - rewrite Hp. reflexivity.
Qed.

Lemma filling_set_dialed b pool w :
  filling_set b pool (dialed w) = dialed (filling_set b pool w).
Proof. unfold filling_set, dialed. simpl. destruct (pools w !! pool); reflexivity. Qed.

Section Fill.
Variable session_connect : string -> nat -> option error.
Variable conn_UseKeyspace : Conn -> string -> option error.

(** C3: [fill] on a pool that is open, not being filled, empty and of
    positive target size takes the filling flag and then dials one
    connection itself, before anything is started with [go].  If that
    [connect] returns an error (as it does when the dial fails), [fill] runs
    [fillingStopped], starts [handleNodeDown] with [go] and returns: no
    further dial, the pool object as it was, not closed.  If it returns no
    error, [fill] runs [connectMany] for the remaining [size - 1]
    connections, each dialled by a goroutine of its own, then
    [fillingStopped]. *)
Theorem fill_empty_pool_first_dial pool w p :
  pools w !! pool = Some p ->
  closed p = false -> filling p = false ->
  slen (conns p) = 0 -> (0 < size p)%Z ->
  exists err w1 tr1,
    connect session_connect conn_UseKeyspace pool (filling_set true pool w)
    = Ok err w1 tr1 /\
    dial_trace pool 1 0 tr1 /\
    (forall e, session_connect (addr p) (ndials w) = Some e ->
               err = Some e /\ tr1 = [Dial (addr p)]) /\
    match err with
    | Some e =>
        fill session_connect conn_UseKeyspace pool w
        = Ok tt (dialed w)
            ([RLock (PoolMu pool); RUnlock (PoolMu pool);
              Lock (PoolMu pool); Unlock (PoolMu pool)]
             ++ tr1 ++ log_events (addr p) err
             ++ [Sleep; Lock (PoolMu pool); Unlock (PoolMu pool);
                 Go (THandleNodeDown (Peer (host p)) (port p))]) /\
        pools (dialed w) !! pool = Some p
    | None =>
        exists w2 tr2 p2,
          connectMany session_connect conn_UseKeyspace pool (size p - 1) w1
          = Ok tt w2 tr2 /\
          dial_trace pool (Z.to_nat (size p - 1)) (Z.to_nat (size p - 1)) tr2 /\
          fill session_connect conn_UseKeyspace pool w
          = Ok tt (filling_set false pool w2)
              ([RLock (PoolMu pool); RUnlock (PoolMu pool);
                Lock (PoolMu pool); Unlock (PoolMu pool)]
               ++ tr1 ++ tr2
               ++ [Sleep; Lock (PoolMu pool); Unlock (PoolMu pool)]) /\
          pools (filling_set false pool w2) !! pool = Some p2 /\
          closed p2 = false /\ filling p2 = false /\
          (Z.of_nat (slen (conns p2)) <= size p)%Z
    end.
Proof.
  intros Hp Hc Hf Hl Hs.
  assert (Hw : wants_fill p = true).
  { unfold wants_fill. rewrite Hc, Hf, Hl. cbn [orb].
    rewrite (proj2 (Z.leb_gt _ _)) by lia. reflexivity. }
  pose proof (filling_set_lookup true pool p w Hp) as Hp0.
  destruct (connect_effect session_connect conn_UseKeyspace pool _ _ Hp0)
    as (err & w1 & tr1 & Hrun & Haft & Htr & Herr).
  exists err, w1, tr1. split; [exact Hrun|]. split; [exact Htr|].
  split.
  { intros e He. rewrite (connect_run _ _ _ _ _ Hp0) in Hrun.
    destruct (filling_set_fields true pool w) as [_ En]. rewrite En in Hrun.
    cbn [addr set_filling] in Hrun. rewrite He in Hrun.
    injection Hrun as <- <- <-. auto. }
  assert (Hfill : fill session_connect conn_UseKeyspace pool w
                  = prefix [RLock (PoolMu pool); RUnlock (PoolMu pool);
                            Lock (PoolMu pool); Unlock (PoolMu pool)]
                      (fill_work session_connect conn_UseKeyspace pool 0 (size p)
                         (filling_set true pool w))).
  { unfold fill. rewrite (run_bind_Ok _ _ _ _ _ _ (fill_check_run _ _ _ Hp)), Hw.
    unfold bind. rewrite (fill_begin_run _ _ _ Hp), Hw. rewrite Hl.
    rewrite prefix_prefix. rewrite Z.sub_0_r. reflexivity. }
  rewrite Hfill. unfold fill_work. cbn [Z.eqb].
  rewrite (run_bind_Ok _ _ _ _ _ _ Hrun).
  destruct Haft as (p1 & Hp1 & Hcfg & Hc1 & Hf1 & Hoth & Hn1 & Hlen1 & _).
  rewrite (run_bind_Ok _ _ _ _ _ _ (logConnectErr_run _ _ _ _ Hp1)).
  destruct Hcfg as (Hhost & Hport & Haddr & Hsize & Hks).
  cbn [set_filling host port addr size keyspace closed filling conns] in *.
  destruct err as [e|].
  - rewrite (Herr (ex_intro _ e eq_refl)) in *.
    erewrite (run_bind_Ok _ _ _ _ _ _ (fillingStopped_filling_set _ _ _ Hp1)).
    rewrite filling_set_dialed, filling_set_twice.
    rewrite <- Hf at 1. rewrite (filling_set_id _ _ _ Hp).
    erewrite run_get_pool by (simpl; exact Hp).
    unfold go, emit. cbn [prefix]. rewrite Haddr.
    split; [|exact Hp].
    f_equal; rewrite <- ?app_assoc; reflexivity.
  - assert (0 <= size p - 1)%Z as Hnn by lia.
    destruct (connectMany_effect session_connect conn_UseKeyspace pool _ _ _ Hnn Hp1)
      as (w2 & tr2 & Hrun2 & Haft2 & Htr2).
    destruct Haft2 as (p2 & Hp2 & Hcfg2 & Hc2 & Hf2 & Hoth2 & Hn2 & Hlen2 & _).
    exists w2, tr2, (set_filling false p2).
    split; [exact Hrun2|]. split; [exact Htr2|].
    split.
    { rewrite (run_bind_Ok _ _ _ _ _ _ Hrun2).
      rewrite (fillingStopped_filling_set _ _ _ Hp2). cbn [prefix log_events].
      f_equal; rewrite <- ?app_assoc; reflexivity. }
    split; [apply filling_set_lookup; exact Hp2|].
    split; [simpl; congruence|]. split; [reflexivity|].
    cbn [conns set_filling]. lia.
Qed.

End Fill.

Lemma fill_empty_pool_first_dial_witness :
  pools world_alloc_B2 !! 0
  = Some (mkHostConnPool hostB 9042 "B" 2 "" connPolicy (Slice 0 0 2) false false) /\
  fill dial_only_A keyspace_ok 0 world_alloc_B2
  = Ok tt (dialed world_alloc_B2)
      [RLock (PoolMu 0); RUnlock (PoolMu 0); Lock (PoolMu 0); Unlock (PoolMu 0);
       Dial "B"; Sleep; Lock (PoolMu 0); Unlock (PoolMu 0);
       Go (THandleNodeDown "B" 9042)].
Proof.
  split; [reflexivity|].
  destruct (fill_empty_pool_first_dial dial_only_A keyspace_ok 0 world_alloc_B2 _
              eq_refl eq_refl eq_refl eq_refl eq_refl)
    as (err & w1 & tr1 & _ & _ & Hfail & Hmatch).
  destruct (Hfail (OpError "dial") eq_refl) as [-> ->].
  destruct Hmatch as [Hfill _]. exact Hfill.
Defined.

(** [fill] on the empty pool for the reachable ["A"]: the caller dials
    connection 0, one dialer goroutine dials connection 1. *)
Example fill_reachable_host :
  fill dial_only_A keyspace_ok 0 world_alloc_A2
  = Ok tt world_A2
      [RLock (PoolMu 0); RUnlock (PoolMu 0); Lock (PoolMu 0); Unlock (PoolMu 0);
       Dial "A"; Lock (PoolMu 0); SetConns 0 (Slice 1 1 1); Unlock (PoolMu 0);
       Go (TConnect 0);
       Dial "A"; Lock (PoolMu 0); SetConns 0 (Slice 2 2 2); Unlock (PoolMu 0);
       WaitGroupWait;
       Sleep; Lock (PoolMu 0); Unlock (PoolMu 0)].
Proof. reflexivity. Qed.

(** ** Threads and budgets *)

Lemma budgets_app l1 l2 : budgets (l1 ++ l2) = (budgets l1 + budgets l2)%Z.
Proof. induction l1 as [|t l1 IH]; simpl; [reflexivity|]. rewrite IH. lia. Qed.

Lemma actives_app l1 l2 : actives (l1 ++ l2) = actives l1 + actives l2.
Proof. induction l1 as [|t l1 IH]; simpl; [reflexivity|]. rewrite IH. lia. Qed.

Lemma budget_nonneg t : (0 <= budget t)%Z.
Proof. destruct t; simpl; lia. Qed.

Lemma budgets_nonneg ths : (0 <= budgets ths)%Z.
Proof.
  induction ths as [|t ths IH]; simpl; [lia|].
  pose proof (budget_nonneg t). lia.
Qed.

Lemma inactive_budget t : active t = false -> budget t = 0%Z.
Proof. destruct t; simpl; congruence. Qed.

Lemma actives_zero_budgets ths : actives ths = 0 -> budgets ths = 0%Z.
Proof.
  induction ths as [|t ths IH]; simpl; [reflexivity|].
  destruct (active t) eqn:E; [lia|]. intros H.
  rewrite (inactive_budget t E), IH by lia. reflexivity.
Qed.

Lemma spawned_inactive pool tr :
  budgets (spawned pool tr) = 0%Z /\ actives (spawned pool tr) = 0.
Proof.
  induction tr as [|ev tr [IH1 IH2]]; simpl; [auto|].
  destruct ev as [| | | | | | | | | | |t| | | | |]; auto.
  destruct t; auto; case_bool_decide; simpl; auto.
Qed.

(** ** Appending and copying on the heap *)

Lemma slice_ok_valid h a n cp :
  slice_ok h (Slice a n cp) -> 0 < cp -> a < length h.
Proof.
  intros [H1 H2] Hcp. apply array_valid. intros E. rewrite E in H2. simpl in H2. lia.
Qed.

Lemma slice_ok_app h h2 s :
  slice_ok h s -> elems (h ++ h2) s = elems h s /\ slice_ok (h ++ h2) s.
Proof.
  destruct s as [|a n cp]; [auto|]. intros Hok.
  destruct (decide (0 < cp)) as [Hcp|Hcp].
  - pose proof (slice_ok_valid _ _ _ _ Hok Hcp) as Ha.
    simpl. rewrite array_app_l by done. auto.
  - destruct Hok as [H1 H2]. assert (cp = 0) as -> by lia. assert (n = 0) as -> by lia.
    simpl. split; [reflexivity|lia].
Qed.

Lemma append_to_ok h s c :
  slice_ok h s ->
  elems (fst (append_to h s c)) (snd (append_to h s c)) = elems h s ++ [c] /\
  slice_ok (fst (append_to h s c)) (snd (append_to h s c)).
Proof.
  destruct s as [|a n cp]; intros Hok.
  - simpl. rewrite array_app_new. simpl. split; [reflexivity|lia].
  - pose proof Hok as [H1 H2]. unfold append_to.
    destruct (n <? cp) eqn:E.
    + apply Nat.ltb_lt in E.
      assert (a < length h) as Ha by (eapply slice_ok_valid; eauto; lia).
      cbn [fst snd elems slice_ok]. rewrite array_insert_eq by done.
      rewrite length_insert. split; [|lia].
      rewrite insert_take_drop by lia.
      replace (S n) with (length (take n (array h a)) + 1) at 1
        by (rewrite length_take; lia).
      rewrite take_app_add. reflexivity.
    + apply Nat.ltb_ge in E. assert (n = cp) as -> by lia.
      cbn [fst snd elems slice_ok]. rewrite array_app_new.
      split.
      * replace (S cp) with (length (take cp (array h a)) + 1) at 1
          by (rewrite length_take; lia).
        rewrite take_app_add. reflexivity.
      * rewrite length_app, length_take. cbn [length]. rewrite length_replicate. lia.
Qed.

Lemma snapshot_heap_ok h s t :
  slice_ok h s -> slice_ok h t ->
  elems (snapshot_heap h s) t = elems h t /\
  slice_ok (snapshot_heap h s) t /\
  elems (snapshot_heap h s) (snapshot_slice h s) = elems h s.
Proof.
  intros Hs Ht. unfold snapshot_heap.
  destruct (slice_ok_app h [take (slen s) (elems (h ++ [replicate (slen s) None]) s)] t Ht)
    as [E1 E2].
  split; [exact E1|]. split; [exact E2|].
  unfold snapshot_slice. cbn [elems]. rewrite array_app_new.
  destruct (slice_ok_app h [replicate (slen s) None] s Hs) as [E3 _]. rewrite E3.
  rewrite take_idemp. apply take_ge. rewrite (slice_ok_length _ _ Hs). done.
Qed.

(** ** [Pick] and [Size] *)

Lemma hostConnPool_Size_run pool p w :
  pools w !! pool = Some p ->
  hostConnPool_Size pool w
  = Ok (Z.of_nat (slen (conns p))) w [RLock (PoolMu pool); RUnlock (PoolMu pool)].
Proof.
  intros Hp. unfold hostConnPool_Size.
  rewrite run_emit, (run_get_pool _ _ _ _ Hp). reflexivity.
Qed.

Lemma policy_Pick_run cpick pool qry p w :
  pools w !! pool = Some p ->
  policy_Pick cpick pool qry w
  = Ok (cpick (elems (heap w) (pc_conns (policy p))) (pc_picks (policy p)) qry)
      (mkWorld (heap w)
         (<[pool := set_policy (mkPolicy (pc_conns (policy p)) (S (pc_picks (policy p)))) p]>
            (pools w))
         (ndials w))
      [PolicyPick pool qry].
Proof.
  intros Hp. unfold policy_Pick.
  rewrite run_emit, (run_get_pool _ _ _ _ Hp), run_get_world.
  rewrite (run_modify_pool _ _ _ _ _ Hp). reflexivity.
Qed.

Lemma set_policy_id p : set_policy (policy p) p = p.
Proof. destruct p; reflexivity. Qed.

Lemma world_insert_id pool p w :
  pools w !! pool = Some p ->
  mkWorld (heap w) (<[pool := p]> (pools w)) (ndials w) = w.
Proof. intros Hp. rewrite list_insert_id by done. destruct w; reflexivity. Qed.

(** [Pick] changes nothing of a pool but the state of its policy, and starts
    nothing but [fill]. *)
Lemma hostConnPool_Pick_effect cpick pool qry p w :
  pools w !! pool = Some p ->
  exists c pol tr,
    hostConnPool_Pick cpick pool qry w
    = Ok c (mkWorld (heap w) (<[pool := set_policy pol p]> (pools w)) (ndials w)) tr /\
    (closed p = true -> pol = policy p /\ c = None) /\
    (tr = [RLock (PoolMu pool); RUnlock (PoolMu pool)] \/
     tr = [RLock (PoolMu pool); RUnlock (PoolMu pool); Go (TFill pool)] \/
     tr = [RLock (PoolMu pool); RUnlock (PoolMu pool); PolicyPick pool qry] \/
     tr = [RLock (PoolMu pool); RUnlock (PoolMu pool); Go (TFill pool);
           PolicyPick pool qry]).
Proof.
  intros Hp. unfold hostConnPool_Pick.
  rewrite run_emit, (run_get_pool _ _ _ _ Hp).
  destruct (closed p) eqn:Hc.
  { eexists None, (policy p), _. rewrite set_policy_id, (world_insert_id _ _ _ Hp).
    split; [reflexivity|]. auto. }
  rewrite run_emit.
  destruct (Z.of_nat (slen (conns p)) <? size p)%Z.
  - rewrite run_assoc, run_go, run_ret.
    destruct (Z.of_nat (slen (conns p)) =? 0)%Z.
    + eexists None, (policy p), _. rewrite set_policy_id, (world_insert_id _ _ _ Hp).
      split; [reflexivity|]. split; [discriminate|]. auto.
    + rewrite (policy_Pick_run _ _ _ _ _ Hp).
      eexists _, _, _. split; [reflexivity|]. split; [discriminate|]. auto 6.
  - rewrite run_ret. rewrite (policy_Pick_run _ _ _ _ _ Hp).
    eexists _, _, _. split; [reflexivity|]. split; [discriminate|]. auto 6.
Qed.

(** ** Preservation of what the pool holds *)

Lemma conns_kept w w' p p' :
  conns_ok w p -> conns_dialed w p ->
  heap w' = heap w -> ndials w <= ndials w' -> conns p' = conns p ->
  conns_ok w' p' /\ conns_dialed w' p'.
Proof.
  intros Hok Hd Hh Hn Hc. unfold conns_ok, conns_dialed in *.
  rewrite Hh, Hc. split; [exact Hok|].
  intros x Hx. destruct (Hd x Hx) as (k & -> & Hk). exists k. split; [done|lia].
Qed.

Lemma conns_appended w p pool :
  pools w !! pool = Some p ->
  conns_ok w p -> conns_dialed w p ->
  let r := append_to (heap w) (conns p) (Some (ndials w)) in
  let w' := mkWorld (snapshot_heap (fst r) (snd r))
              (<[pool := set_policy (mkPolicy (snapshot_slice (fst r) (snd r))
                                       (pc_picks (policy p)))
                           (set_conns (snd r) p)]> (pools w))
              (S (ndials w)) in
  let p' := set_policy (mkPolicy (snapshot_slice (fst r) (snd r)) (pc_picks (policy p)))
              (set_conns (snd r) p) in
  conns_ok w' p' /\ conns_dialed w' p' /\
  elems (heap w') (conns p') = elems (heap w) (conns p) ++ [Some (ndials w)] /\
  elems (heap w') (pc_conns (policy p')) = elems (heap w') (conns p').
Proof.
  intros Hp [Hok Hnd] Hd r w' p'.
  destruct (append_to_ok (heap w) (conns p) (Some (ndials w)) Hok) as [He Hok'].
  fold r in He, Hok'.
  destruct (snapshot_heap_ok (fst r) (snd r) (snd r) Hok' Hok') as (E1 & E2 & E3).
  assert (Hel : elems (heap w') (conns p') = elems (heap w) (conns p) ++ [Some (ndials w)]).
  { unfold w', p'. cbn [heap conns set_policy set_conns]. rewrite E1. exact He. }
  split; [|split; [|split]].
  - split.
    + unfold w', p'. cbn [heap conns set_policy set_conns]. exact E2.
    + rewrite Hel. apply NoDup_app. split; [exact Hnd|]. split; [|apply NoDup_singleton].
      intros x Hx Hx'. apply list_elem_of_singleton in Hx'. subst x.
      destruct (Hd _ Hx) as (k & [= <-] & Hk). lia.
  - intros x. rewrite Hel. intros Hx. apply elem_of_app in Hx as [Hx|Hx].
    + destruct (Hd _ Hx) as (k & -> & Hk). exists k. split; [done|]. unfold w'. simpl. lia.
    + apply list_elem_of_singleton in Hx. subst x. exists (ndials w). split; [done|].
      unfold w'. simpl. lia.
  - exact Hel.
  - unfold w', p'. cbn [heap conns set_policy set_conns policy pc_conns].
    rewrite E3, E1. reflexivity.
Qed.

Section Invariant.
Variable session_connect : string -> nat -> option error.
Variable conn_UseKeyspace : Conn -> string -> option error.
Variable connPolicy_Pick : list Conn -> nat -> Query -> Conn.

Lemma connect_keeps pool p w :
  pools w !! pool = Some p ->
  conns_ok w p -> conns_dialed w p ->
  exists err w' tr p',
    connect session_connect conn_UseKeyspace pool w = Ok err w' tr /\
    pools w' !! pool = Some p' /\
    conns_ok w' p' /\ conns_dialed w' p' /\
    size p' = size p /\ closed p' = closed p /\ filling p' = filling p /\
    slen (conns p') <= S (slen (conns p)) /\
    (is_Some err -> slen (conns p') = slen (conns p)) /\
    (closed p = true -> conns p' = conns p /\ heap w' = heap w) /\
    addr p' = addr p /\ host p' = host p /\ port p' = port p.
Proof.
  intros Hp Hok Hd. rewrite (connect_run _ _ _ _ _ Hp).
  assert (Hsame : forall err tr,
    exists (err0 : option error) w' (tr0 : list event) p',
      Ok err (dialed w) tr = Ok err0 w' tr0 /\
      pools w' !! pool = Some p' /\
      conns_ok w' p' /\ conns_dialed w' p' /\
      size p' = size p /\ closed p' = closed p /\ filling p' = filling p /\
      slen (conns p') <= S (slen (conns p)) /\
      (is_Some err0 -> slen (conns p') = slen (conns p)) /\
      (closed p = true -> conns p' = conns p /\ heap w' = heap w) /\
      addr p' = addr p /\ host p' = host p /\ port p' = port p).
  { intros err tr. exists err, (dialed w), tr, p. split; [reflexivity|].
    split; [exact Hp|].
    destruct (conns_kept w (dialed w) p p Hok Hd) as [H1 H2]; [done|simpl; lia|done|].
    repeat (split; [first [done|lia]|]). auto. }
  destruct (session_connect (addr p) (ndials w)) as [e|]; [apply Hsame|].
  destruct (useKeyspace_result _ _ _) as [e|]; [apply Hsame|].
  destruct (closed p) eqn:Hc.
  - erewrite connect_add_closed by (simpl; eauto). apply Hsame.
  - erewrite connect_add_open by (simpl; eauto). cbn [prefix].
    destruct (conns_appended w p pool Hp Hok Hd) as (H1 & H2 & H3 & H4).
    eexists _, _, _, _. split; [reflexivity|].
    split; [simpl; eapply lookup_insert_pool; eauto|].
    split; [exact H1|]. split; [exact H2|].
    cbn [size closed filling conns set_policy set_conns addr host port].
    rewrite append_to_slen.
    repeat split; try done; try lia; try (intros [? [=]]).
Qed.

Lemma connect_and_log_keeps pool p w :
  pools w !! pool = Some p ->
  conns_ok w p -> conns_dialed w p ->
  exists w' tr p',
    connect_and_log session_connect conn_UseKeyspace pool w = Ok tt w' tr /\
    pools w' !! pool = Some p' /\
    conns_ok w' p' /\ conns_dialed w' p' /\
    size p' = size p /\ closed p' = closed p /\ filling p' = filling p /\
    slen (conns p') <= S (slen (conns p)) /\
    (closed p = true -> conns p' = conns p /\ heap w' = heap w).
Proof.
  intros Hp Hok Hd.
  destruct (connect_keeps pool p w Hp Hok Hd)
    as (err & w1 & tr1 & p1 & Hrun1 & Hp1 & Hok1 & Hd1 & Hs1 & Hc1 & Hf1 & Hl1 & He1 & Hcl1 & _).
  unfold connect_and_log. rewrite (run_bind_Ok _ _ _ _ _ _ Hrun1).
  rewrite (logConnectErr_run _ _ _ _ Hp1). cbn [prefix].
  eexists _, _, p1. split; [reflexivity|]. auto 10.
Qed.

End Invariant.

(** ** The invariant is kept *)

Lemma drain_run pool w p :
  pools w !! pool = Some p ->
  exists s,
    slen s = 0 /\ scap s = 0 /\ (forall h, elems h s = [] /\ slice_ok h s) /\
    drain pool w
    = Ok tt (mkWorld (heap w)
               (<[pool := set_policy (mkPolicy SliceNil (pc_picks (policy p)))
                            (set_conns s p)]> (pools w))
               (ndials w))
        (Lock (PoolMu pool) :: SetConns pool SliceNil ::
           map ConnClose (elems (heap w) (conns p)) ++ [Unlock (PoolMu pool)]).
Proof.
  intros Hp. unfold drain, policy_SetConns, go_range.
  rewrite run_emit, (run_get_pool _ _ _ _ Hp).
  assert (exists s, go_reslice_0_0 (conns p) = ret s /\ slen s = 0 /\ scap s = 0 /\
                    forall h, elems h s = [] /\ slice_ok h s) as (s & -> & Hl & Hc & He).
  { destruct (conns p); eexists; (split; [reflexivity|]); simpl; repeat split; lia. }
  exists s. split; [done|]. split; [done|]. split; [done|].
  rewrite run_ret, (run_modify_pool _ _ _ _ _ Hp).
  rewrite run_assoc, run_emit.
  erewrite run_modify_pool by (simpl; eapply lookup_insert_pool; eauto).
  simpl. rewrite list_insert_insert_eq.
  unfold bind at 1. simpl. rewrite run_close_all. unfold emit. simpl.
  rewrite ?app_nil_r. reflexivity.
Qed.

Lemma Close_open pool w p :
  pools w !! pool = Some p ->
  closed p = false ->
  hostConnPool_Close pool w
  = Ok tt (mkWorld (heap w) (<[pool := set_closed true p]> (pools w)) (ndials w))
      [Lock (PoolMu pool); Go (TDrain pool); Unlock (PoolMu pool)].
Proof.
  intros Hp Hc. unfold hostConnPool_Close.
  rewrite run_emit, (run_get_pool _ _ _ _ Hp), Hc.
  rewrite (run_modify_pool _ _ _ _ _ Hp), run_go. reflexivity.
Qed.

Lemma pool_inv_thread pool w p l1 t l2 w' p' next tr :
  pool_inv pool (mkConfig w (l1 ++ t :: l2)) ->
  pools w !! pool = Some p ->
  pools w' !! pool = Some p' ->
  conns_ok w' p' -> conns_dialed w' p' ->
  size p' = size p ->
  (Z.of_nat (slen (conns p')) + budgets (option_list next)
   <= Z.of_nat (slen (conns p)) + budget t)%Z ->
  actives (option_list next) <= (if active t then 1 else 0) ->
  (filling p' = false ->
   actives (option_list next) = 0 /\ (filling p = false \/ active t = true)) ->
  pool_inv pool (mkConfig w' (l1 ++ option_list next ++ l2 ++ spawned pool tr)).
Proof.
  intros (p0 & Hp0 & _ & _ & Hb & Ha & Hf) Hp Hp' Hok Hd Hs Hbud Hact Hfil.
  cbn [cw threads] in *. rewrite Hp in Hp0. injection Hp0 as <-.
  rewrite budgets_app in Hb. rewrite actives_app in Ha, Hf. cbn [budgets actives] in *.
  destruct (spawned_inactive pool tr) as [Sb Sa].
  exists p'. cbn [cw threads].
  rewrite !budgets_app, !actives_app, Sb, Sa.
  split; [done|]. split; [done|]. split; [done|].
  split; [lia|]. split; [lia|].
  intros Hf'. destruct (Hfil Hf') as [H1 [H2|H2]].
  - specialize (Hf H2). lia.
  - rewrite H2 in Ha. lia.
Qed.

Lemma pool_inv_call pool w p ths w' p' tr :
  pool_inv pool (mkConfig w ths) ->
  pools w !! pool = Some p ->
  pools w' !! pool = Some p' ->
  conns_ok w' p' -> conns_dialed w' p' ->
  size p' = size p ->
  slen (conns p') <= slen (conns p) ->
  filling p' = filling p ->
  pool_inv pool (mkConfig w' (ths ++ spawned pool tr)).
Proof.
  intros (p0 & Hp0 & _ & _ & Hb & Ha & Hf) Hp Hp' Hok Hd Hs Hl Hfil.
  cbn [cw threads] in *. rewrite Hp in Hp0. injection Hp0 as <-.
  destruct (spawned_inactive pool tr) as [Sb Sa].
  exists p'. cbn [cw threads]. rewrite budgets_app, actives_app, Sb, Sa.
  split; [done|]. split; [done|]. split; [done|].
  split; [lia|]. split; [lia|]. rewrite Hfil. intros H. specialize (Hf H). lia.
Qed.

Lemma pool_inv_take_flag pool w p l1 t l2 w' p' nx tr :
  pool_inv pool (mkConfig w (l1 ++ t :: l2)) ->
  pools w !! pool = Some p ->
  filling p = false ->
  pools w' !! pool = Some p' ->
  conns_ok w' p' -> conns_dialed w' p' ->
  size p' = size p -> filling p' = true ->
  (Z.of_nat (slen (conns p')) + budget nx <= size p)%Z ->
  pool_inv pool (mkConfig w' (l1 ++ option_list (Some nx) ++ l2 ++ spawned pool tr)).
Proof.
  intros (p0 & Hp0 & _ & _ & Hb & Ha & Hf) Hp Hfl Hp' Hok Hd Hs Hfl' Hbud.
  cbn [cw threads] in *. rewrite Hp in Hp0. injection Hp0 as <-.
  specialize (Hf Hfl). pose proof (actives_zero_budgets _ Hf) as Hz.
  rewrite budgets_app in Hz. rewrite actives_app in Hf. cbn [budgets actives] in *.
  destruct (spawned_inactive pool tr) as [Sb Sa].
  pose proof (budgets_nonneg l1). pose proof (budgets_nonneg l2).
  pose proof (budget_nonneg t).
  exists p'. cbn [cw threads option_list].
  rewrite !budgets_app, !actives_app, Sb, Sa. cbv [option_list option_rect]. cbn [budgets actives].
  split; [done|]. split; [done|]. split; [done|].
  split; [lia|]. split; [destruct (active nx); lia|].
  congruence.
Qed.

Lemma wants_fill_true p :
  wants_fill p = true ->
  closed p = false /\ filling p = false /\ (Z.of_nat (slen (conns p)) < size p)%Z.
Proof.
  unfold wants_fill. destruct (closed p), (filling p); cbn [orb negb]; try discriminate.
  destruct (size p - Z.of_nat (slen (conns p)) <=? 0)%Z eqn:E; [discriminate|].
  apply Z.leb_gt in E. intros _. repeat split; lia.
Qed.

Lemma wants_fill_closed p : closed p = true -> wants_fill p = false.
Proof. unfold wants_fill. intros ->. reflexivity. Qed.

Section Steps.
Variable session_connect : string -> nat -> option error.
Variable conn_UseKeyspace : Conn -> string -> option error.
Variable connPolicy_Pick : list Conn -> nat -> Query -> Conn.


Lemma kept_same_conns pool w ths w' ths' p p' :
  pool_inv pool (mkConfig w' ths') ->
  pools w !! pool = Some p ->
  pools w' !! pool = Some p' ->
  size p' = size p ->
  (closed p = true -> closed p' = true /\ heap w' = heap w /\ conns p' = conns p) ->
  kept pool (mkConfig w ths) (mkConfig w' ths').
Proof.
  intros Hinv Hp Hp' Hs Hc. split; [exact Hinv|].
  intros p0 Hp0. cbn [cw] in *. rewrite Hp in Hp0. injection Hp0 as <-.
  exists p'. split; [done|]. split; [done|].
  intros Hcl. destruct (Hc Hcl) as (H1 & H2 & H3). split; [done|]. left.
  unfold pool_conns. rewrite Hp, Hp', H2, H3. reflexivity.
Qed.

Lemma thread_step_kept pool t w l1 l2 next w' tr :
  pool_inv pool (mkConfig w (l1 ++ t :: l2)) ->
  thread_step session_connect conn_UseKeyspace pool t w = Ok next w' tr ->
  kept pool (mkConfig w (l1 ++ t :: l2))
            (mkConfig w' (l1 ++ option_list next ++ l2 ++ spawned pool tr)).
Proof.
  intros Hinv Hrun.
  pose proof Hinv as (p & Hp & Hok & Hd & Hb & Ha & Hf). cbn [cw threads] in *.
  destruct t as [| |fc|n| |]; cbn [thread_step] in Hrun.
  - (* CallFill *)
    rewrite (run_bind_Ok _ _ _ _ _ _ (fill_check_run _ _ _ Hp)) in Hrun.
    injection Hrun as <- <- <-.
    eapply kept_same_conns; [|exact Hp|exact Hp|reflexivity|auto].
    eapply pool_inv_thread; [exact Hinv|exact Hp|exact Hp|exact Hok|exact Hd|reflexivity|..].
    + destruct (wants_fill p); simpl; lia.
    + destruct (wants_fill p); simpl; lia.
    + intros Hf'. split; [destruct (wants_fill p); reflexivity|auto].
  - (* FillChecked *)
    unfold bind in Hrun. rewrite (fill_begin_run _ _ _ Hp) in Hrun.
    destruct (wants_fill p) eqn:Hw.
    + destruct (wants_fill_true _ Hw) as (Hc & Hfl & Hlt).
      pose proof (filling_set_lookup true pool p w Hp) as Hp1.
      destruct (filling_set_fields true pool w) as [Eh En].
      assert (Hkeep : conns_ok (filling_set true pool w) (set_filling true p) /\
                      conns_dialed (filling_set true pool w) (set_filling true p)).
      { eapply conns_kept; eauto. lia. }
      destruct Hkeep as [Hok1 Hd1].
      assert (exists nx trx, next = Some nx /\
                budget nx = (size p - Z.of_nat (slen (conns p)))%Z /\
                w' = filling_set true pool w /\
                tr = [Lock (PoolMu pool); Unlock (PoolMu pool)] ++ trx)
        as (nx & trx & -> & Hbnx & -> & ->).
      { destruct (Z.of_nat (slen (conns p)) =? 0)%Z eqn:E0.
        - cbn in Hrun. injection Hrun as <- <- <-. eexists _, []. repeat split.
          simpl. lia.
        - cbn in Hrun. injection Hrun as <- <- <-.
          eexists _, _. repeat split. simpl. lia. }
      eapply kept_same_conns; [|exact Hp|exact Hp1|reflexivity|congruence].
      eapply pool_inv_take_flag;
        [exact Hinv|exact Hp|exact Hfl|exact Hp1|exact Hok1|exact Hd1|reflexivity
        |reflexivity|].
      cbn [conns set_filling]. lia.
    + injection Hrun as <- <- <-.
      eapply kept_same_conns; [|exact Hp|exact Hp|reflexivity|auto].
      eapply pool_inv_thread; [exact Hinv|exact Hp|exact Hp|exact Hok|exact Hd|reflexivity|..];
        simpl; try lia; auto.
  - (* FillFirst *)
    destruct (connect_keeps session_connect conn_UseKeyspace pool p w Hp Hok Hd)
      as (err & w1 & tr1 & p1 & Hrun1 & Hp1 & Hok1 & Hd1 & Hs1 & Hc1 & Hf1 & Hl1 & He1 & Hcl1 & _).
    rewrite (run_bind_Ok _ _ _ _ _ _ Hrun1) in Hrun.
    rewrite (run_bind_Ok _ _ _ _ _ _ (logConnectErr_run _ _ _ _ Hp1)) in Hrun.
    assert (w' = w1 /\
            next = Some (match err with Some _ => FillFailed
                                   | None => FillMany (Z.to_nat (fc - 1)) end))
      as [-> ->].
    { destruct err; cbn in Hrun; injection Hrun as <- <- <-; auto. }
    eapply kept_same_conns; [|exact Hp|exact Hp1|exact Hs1|].
    2:{ intros Hc. destruct (Hcl1 Hc) as [E1 E2]. split; [congruence|auto]. }
    eapply pool_inv_thread; [exact Hinv|exact Hp|exact Hp1|exact Hok1|exact Hd1|exact Hs1|..].
    + destruct err as [e|]; cbv [option_list option_rect]; cbn [budgets budget].
      * rewrite (He1 (ex_intro _ e eq_refl)). lia.
      * lia.
    + destruct err; simpl; lia.
    + intros Hf'. rewrite Hf1 in Hf'. specialize (Hf Hf').
      rewrite actives_app in Hf. simpl in Hf. lia.
  - (* FillMany *)
    destruct n as [|n].
    + rewrite (run_bind_Ok _ _ _ _ _ _ (fillingStopped_run _ _ _ Hp)) in Hrun.
      cbn in Hrun. injection Hrun as <- <- <-.
      pose proof (lookup_insert_pool _ pool _ (set_filling false p) Hp) as Hp1.
      eapply kept_same_conns; [|exact Hp|exact Hp1|reflexivity|auto].
      assert (Hkeep : conns_ok (mkWorld (heap w) (<[pool:=set_filling false p]> (pools w))
                                  (ndials w)) (set_filling false p) /\
                      conns_dialed (mkWorld (heap w) (<[pool:=set_filling false p]> (pools w))
                                  (ndials w)) (set_filling false p)).
      { eapply conns_kept; eauto. }
      destruct Hkeep as [Hok1 Hd1].
      eapply pool_inv_thread; [exact Hinv|exact Hp|exact Hp1|exact Hok1|exact Hd1|reflexivity|..];
        simpl; try lia; auto.
    + rewrite run_go in Hrun.
      destruct (connect_and_log_keeps session_connect conn_UseKeyspace pool p w Hp Hok Hd)
        as (w1 & tr1 & p1 & Hrun1 & Hp1 & Hok1 & Hd1 & Hs1 & Hc1 & Hf1 & Hl1 & Hcl1).
      rewrite (run_bind_Ok _ _ _ _ _ _ Hrun1) in Hrun.
      cbn in Hrun. injection Hrun as <- <- <-.
      eapply kept_same_conns; [|exact Hp|exact Hp1|exact Hs1|].
      2:{ intros Hc. destruct (Hcl1 Hc) as [E1 E2]. split; [congruence|auto]. }
      eapply pool_inv_thread; [exact Hinv|exact Hp|exact Hp1|exact Hok1|exact Hd1|exact Hs1|..].
      * cbv [option_list option_rect]; cbn [budgets budget]. lia.
      * simpl. lia.
      * intros Hf'. rewrite Hf1 in Hf'. specialize (Hf Hf').
        rewrite actives_app in Hf. simpl in Hf. lia.
  - (* FillFailed *)
    rewrite (run_bind_Ok _ _ _ _ _ _ (fillingStopped_run _ _ _ Hp)) in Hrun.
    pose proof (lookup_insert_pool _ pool _ (set_filling false p) Hp) as Hp1.
    erewrite run_get_pool in Hrun by (simpl; exact Hp1).
    cbn in Hrun. injection Hrun as <- <- <-.
    eapply kept_same_conns; [|exact Hp|exact Hp1|reflexivity|auto].
    assert (Hkeep : conns_ok (mkWorld (heap w) (<[pool:=set_filling false p]> (pools w))
                                (ndials w)) (set_filling false p) /\
                    conns_dialed (mkWorld (heap w) (<[pool:=set_filling false p]> (pools w))
                                (ndials w)) (set_filling false p)).
    { eapply conns_kept; eauto. }
    destruct Hkeep as [Hok1 Hd1].
    eapply pool_inv_thread; [exact Hinv|exact Hp|exact Hp1|exact Hok1|exact Hd1|reflexivity|..];
      simpl; try lia; auto.
  - (* Drain *)
    destruct (drain_run pool w p Hp) as (s & Hs0 & Hc0 & Hem & Hdr).
    rewrite (run_bind_Ok _ _ _ _ _ _ Hdr) in Hrun.
    cbn in Hrun. injection Hrun as <- <- <-.
    pose proof (lookup_insert_pool _ pool _
                  (set_policy (mkPolicy SliceNil (pc_picks (policy p))) (set_conns s p)) Hp)
      as Hp1.
    split.
    + eapply pool_inv_thread; [exact Hinv|exact Hp|exact Hp1|..].
      * split; cbn [heap conns set_policy set_conns]; [apply Hem|].
        rewrite (proj1 (Hem _)). apply NoDup_nil_2.
      * intros x. cbn [heap conns set_policy set_conns]. rewrite (proj1 (Hem _)).
        intros Hx. inversion Hx.
      * reflexivity.
      * cbn [conns set_policy set_conns]. rewrite Hs0. simpl. lia.
      * simpl. lia.
      * simpl. auto.
    + intros p0 Hp0. cbn [cw] in *. rewrite Hp in Hp0. injection Hp0 as <-.
      eexists. split; [exact Hp1|]. split; [reflexivity|].
      intros Hc. split; [exact Hc|]. right.
      unfold pool_conns. cbn [pools heap]. rewrite Hp1.
      cbn [conns set_policy set_conns]. apply Hem.
Qed.

End Steps.

Lemma HandleError_closed_run pool w p conn err :
  pools w !! pool = Some p ->
  closed p = true ->
  HandleError pool conn err true w
  = Ok tt w [Lock (PoolMu pool); Unlock (PoolMu pool)].
Proof.
  intros Hp Hc. unfold HandleError. cbn [negb].
  rewrite run_emit, (run_get_pool _ _ _ _ Hp), Hc. reflexivity.
Qed.

Lemma HandleError_open_run pool w p c err :
  pools w !! pool = Some p ->
  closed p = false ->
  HandleError pool c err true w
  = prefix [Lock (PoolMu pool)]
      (prefix match HandleError_range pool c 0 (elems (heap w) (conns p)) w with
              | Ok _ _ tr => tr | Panics _ tr => tr end
         match HandleError_range pool c 0 (elems (heap w) (conns p)) w with
         | Ok _ w1 _ => Ok tt w1 [Unlock (PoolMu pool)]
         | Panics e _ => Panics e []
         end).
Proof.
  intros Hp Hc. unfold HandleError. cbn [negb].
  rewrite run_emit, (run_get_pool _ _ _ _ Hp), Hc, run_go_range.
  unfold bind. destruct (HandleError_range _ _ _ _ _) as [[] w1 t1|e t1]; simpl.
  - reflexivity.
  - rewrite app_nil_r. reflexivity.
Qed.

Section Calls.
Variable JoinHostPort : string -> Z -> string.
Variable session_connect : string -> nat -> option error.
Variable conn_UseKeyspace : Conn -> string -> option error.
Variable connPolicy_Pick : list Conn -> nat -> Query -> Conn.

Lemma run_call_kept pool c w ths w' tr :
  pool_inv pool (mkConfig w ths) ->
  run_call connPolicy_Pick pool c w = Ok tt w' tr ->
  kept pool (mkConfig w ths) (mkConfig w' (ths ++ spawned pool tr)).
Proof.
  intros Hinv Hrun.
  pose proof Hinv as (p & Hp & Hok & Hd & Hb & Ha & Hf). cbn [cw threads] in *.
  assert (Hsame : forall tr0, kept pool (mkConfig w ths) (mkConfig w (ths ++ spawned pool tr0))).
  { intros tr0. eapply kept_same_conns; [|exact Hp|exact Hp|reflexivity|auto].
    eapply pool_inv_call; eauto. }
  destruct c as [qry| | |conn err b|]; cbn [run_call] in Hrun.
  - (* Pick *)
    destruct (hostConnPool_Pick_effect connPolicy_Pick pool qry p w Hp)
      as (c & pol & tr0 & Hpick & Hcl & _).
    rewrite (run_bind_Ok _ _ _ _ _ _ Hpick) in Hrun. cbn in Hrun.
    injection Hrun as <- <-. rewrite app_nil_r.
    pose proof (lookup_insert_pool _ pool _ (set_policy pol p) Hp) as Hp1.
    assert (Hkeep : conns_ok (mkWorld (heap w) (<[pool:=set_policy pol p]> (pools w))
                                (ndials w)) (set_policy pol p) /\
                    conns_dialed (mkWorld (heap w) (<[pool:=set_policy pol p]> (pools w))
                                (ndials w)) (set_policy pol p)).
    { eapply conns_kept; eauto. }
    destruct Hkeep as [Hok1 Hd1].
    eapply kept_same_conns; [|exact Hp|exact Hp1|reflexivity|auto].
    eapply pool_inv_call; eauto.
  - (* Size *)
    rewrite (run_bind_Ok _ _ _ _ _ _ (hostConnPool_Size_run _ _ _ Hp)) in Hrun.
    cbn in Hrun. injection Hrun as <- <-. apply Hsame.
  - (* Close *)
    destruct (closed p) eqn:Hc.
    + rewrite (Close_closed _ _ _ Hp Hc) in Hrun. injection Hrun as <- <-. apply Hsame.
    + rewrite (Close_open _ _ _ Hp Hc) in Hrun. injection Hrun as <- <-.
      pose proof (lookup_insert_pool _ pool _ (set_closed true p) Hp) as Hp1.
      assert (Hkeep : conns_ok (mkWorld (heap w) (<[pool:=set_closed true p]> (pools w))
                                  (ndials w)) (set_closed true p) /\
                      conns_dialed (mkWorld (heap w) (<[pool:=set_closed true p]> (pools w))
                                  (ndials w)) (set_closed true p)).
      { eapply conns_kept; eauto. }
      destruct Hkeep as [Hok1 Hd1].
      eapply kept_same_conns; [|exact Hp|exact Hp1|reflexivity|auto].
      eapply pool_inv_call; eauto.
  - (* HandleError *)
    destruct b; [|cbn in Hrun; injection Hrun as <- <-; apply Hsame].
    destruct (closed p) eqn:Hc.
    { rewrite (HandleError_closed_run _ _ _ _ _ Hp Hc) in Hrun.
      injection Hrun as <- <-. apply Hsame. }
    destruct (decide (conn ∈ elems (heap w) (conns p))) as [Hin|Hout].
    2:{ rewrite (HandleError_absent _ _ _ _ _ Hp Hout) in Hrun.
        injection Hrun as <- <-. apply Hsame. }
    destruct (index_of_elem _ _ Hin) as [i Hi].
    destruct (index_of_Some _ _ _ Hi) as [Hli _].
    destruct Hok as [Hsl Hnd].
    destruct (conns p) as [|a n cp] eqn:Hs; [inversion Hin|].
    rewrite <- Hs in Hsl, Hnd, Hin, Hi, Hli.
    destruct (HandleError_range_found pool w p conn a n cp i Hp Hs Hsl Hi)
      as (h1 & Hrange & Hlen & He1 & He2 & Hok1).
    rewrite (HandleError_open_run _ _ _ _ _ Hp Hc), Hrange in Hrun.
    cbn in Hrun. injection Hrun as <- <-.
    match goal with |- kept _ _ (mkConfig (mkWorld _ (<[_ := ?q]> _) _) _) =>
      pose proof (lookup_insert_pool _ pool _ q Hp) as Hp1 end.
    eapply kept_same_conns; [|exact Hp|exact Hp1|reflexivity|congruence].
    eapply pool_inv_call; [exact Hinv|exact Hp|exact Hp1|..].
    + split; cbn [heap conns set_policy set_conns]; [exact Hok1|].
      rewrite He1. eapply swap_remove_NoDup; eauto.
    + intros x. cbn [heap conns set_policy set_conns ndials]. rewrite He1. intros Hx.
      apply Hd. unfold conns_dialed in Hd.
      pose proof (swap_remove_perm conn _ i Hli) as Hperm.
      rewrite Hperm. apply elem_of_cons. right. exact Hx.
    + reflexivity.
    + cbn [conns set_policy set_conns slen]. rewrite Hs. simpl. lia.
    + reflexivity.
  - (* fill *)
    cbn in Hrun. injection Hrun as <- <-. apply Hsame.
Qed.

Lemma step_kept pool c c' :
  pool_inv pool c ->
  step session_connect conn_UseKeyspace connPolicy_Pick pool c c' ->
  kept pool c c'.
Proof.
  intros Hinv Hstep. destruct Hstep as [cl w ths w' tr Hrun|t w l1 l2 next w' tr Hrun].
  - eapply run_call_kept; eauto.
  - eapply thread_step_kept; eauto.
Qed.

Lemma initial_inv pool c : initial JoinHostPort pool c -> pool_inv pool c.
Proof.
  intros (w0 & host_ & port_ & size_ & ks & pol & tr & Halloc & Hths).
  destruct c as [w ths]. cbn [cw threads] in *. subst ths.
  unfold alloc_hostConnPool in Halloc.
  unfold bind, go_make in Halloc.
  destruct ((0 <? 0) || (size_ <? 0))%Z eqn:E; [discriminate|].
  cbn in Halloc. injection Halloc as <- <- <-.
  eexists. cbn [cw threads pools].
  split; [apply list_lookup_middle; reflexivity|].
  split; [|split; [|split; [|split]]].
  - split; cbn [heap conns]; [|apply NoDup_nil_2].
    cbn [slice_ok]. rewrite array_app_new, length_replicate. lia.
  - intros x. cbn [heap conns elems]. rewrite take_0. intros Hx. inversion Hx.
  - cbn [conns slen size budgets budget]. lia.
  - simpl. lia.
  - reflexivity.
Qed.

Lemma reachable_inv pool c :
  reachable JoinHostPort session_connect conn_UseKeyspace connPolicy_Pick pool c ->
  pool_inv pool c.
Proof.
  intros (c0 & Hinit & Hsteps). apply initial_inv in Hinit.
  induction Hsteps as [c|c1 c2 c3 Hstep _ IH]; [exact Hinit|].
  apply IH. eapply step_kept; eauto.
Qed.

End Calls.

(** ** The size bound *)

Section SizeBound.
Variable JoinHostPort : string -> Z -> string.
Variable session_connect : string -> nat -> option error.
Variable conn_UseKeyspace : Conn -> string -> option error.
Variable connPolicy_Pick : list Conn -> nat -> Query -> Conn.

Lemma steps_kept pool c c' :
  pool_inv pool c ->
  rtc (step session_connect conn_UseKeyspace connPolicy_Pick pool) c c' ->
  kept pool c c'.
Proof.
  intros Hinv Hsteps. induction Hsteps as [c|c1 c2 c3 Hstep _ IH].
  - split; [exact Hinv|]. intros p Hp. exists p. auto.
  - destruct (step_kept _ _ _ _ _ _ Hinv Hstep) as [Hinv2 Hk12].
    destruct (IH Hinv2) as [Hinv3 Hk23]. split; [exact Hinv3|].
    intros p Hp. destruct (Hk12 p Hp) as (p2 & Hp2 & Hs2 & Hc2).
    destruct (Hk23 p2 Hp2) as (p3 & Hp3 & Hs3 & Hc3).
    exists p3. split; [exact Hp3|]. split; [congruence|].
    intros Hc. destruct (Hc2 Hc) as [Hcl2 Hcs2]. destruct (Hc3 Hcl2) as [Hcl3 Hcs3].
    split; [exact Hcl3|].
    destruct Hcs3 as [E3|E3]; [|auto]. rewrite E3. exact Hcs2.
Qed.

Lemma pool_inv_bound pool c :
  pool_inv pool c ->
  exists p, pools (cw c) !! pool = Some p /\
            (Z.of_nat (slen (conns p)) <= size p)%Z /\
            length (pool_conns (cw c) pool) = slen (conns p).
Proof.
  intros (p & Hp & [Hok _] & _ & Hb & _). exists p. split; [exact Hp|].
  pose proof (budgets_nonneg (threads c)). split; [lia|].
  unfold pool_conns. rewrite Hp. apply slice_ok_length. exact Hok.
Qed.

(** Every pool that is in use was built by [newHostConnPool]; what it holds
    is then a well-formed slice without repetition (the hypothesis of the
    theorem on [HandleError]). *)
Lemma reachable_conns_ok pool c :
  reachable JoinHostPort session_connect conn_UseKeyspace connPolicy_Pick pool c ->
  exists p, pools (cw c) !! pool = Some p /\ conns_ok (cw c) p.
Proof.
  intros Hr. destruct (reachable_inv _ _ _ _ _ _ Hr) as (p & Hp & Hok & _). eauto.
Qed.

(** C1: in every state a pool built by [newHostConnPool] reaches by any
    interleaving of calls of [Pick], [Size], [Close], [HandleError] and
    [fill] with the critical sections of the [fill], [connect] and [drain]
    goroutines, the pool holds at most [size] connections; so it does in
    every later state, where the target size is the same; and once [closed]
    is set it stays set, and the connections held later are those held now
    or none: no connection is added. *)
Theorem pool_never_exceeds_size pool c :
  reachable JoinHostPort session_connect conn_UseKeyspace connPolicy_Pick pool c ->
  exists p,
    pools (cw c) !! pool = Some p /\
    (Z.of_nat (slen (conns p)) <= size p)%Z /\
    length (pool_conns (cw c) pool) = slen (conns p) /\
    forall c',
      rtc (step session_connect conn_UseKeyspace connPolicy_Pick pool) c c' ->
      exists p',
        pools (cw c') !! pool = Some p' /\
        size p' = size p /\
        (Z.of_nat (slen (conns p')) <= size p')%Z /\
        length (pool_conns (cw c') pool) = slen (conns p') /\
        (closed p = true ->
         closed p' = true /\
         (pool_conns (cw c') pool = pool_conns (cw c) pool \/
          pool_conns (cw c') pool = [])).
Proof.
  intros Hr. pose proof (reachable_inv _ _ _ _ _ _ Hr) as Hinv.
  destruct (pool_inv_bound _ _ Hinv) as (p & Hp & Hle & Hlen).
  exists p. split; [exact Hp|]. split; [exact Hle|]. split; [exact Hlen|].
  intros c' Hsteps. destruct (steps_kept _ _ _ Hinv Hsteps) as [Hinv' Hk].
  destruct (Hk p Hp) as (p' & Hp' & Hs' & Hc').
  destruct (pool_inv_bound _ _ Hinv') as (p'' & Hp'' & Hle' & Hlen').
  rewrite Hp' in Hp''. injection Hp'' as <-.
  exists p'. auto.
Qed.

End SizeBound.

(** A run of [newHostConnPool] for the reachable ["A"], as five critical
    sections of its [fill]: the two checks, the first dial, the second dial,
    [fillingStopped]. *)
Lemma run_thread_alone t w next w' tr :
  thread_step dial_only_A keyspace_ok 0 t w = Ok next w' tr ->
  spawned 0 tr = [] ->
  step dial_only_A keyspace_ok pick_first 0
    (mkConfig w [t]) (mkConfig w' (option_list next)).
Proof.
  intros Hrun Hsp.
  pose proof (step_thread dial_only_A keyspace_ok pick_first 0 t w [] [] next w' tr Hrun)
    as Hstep.
  rewrite Hsp in Hstep. cbn [app] in Hstep. rewrite app_nil_r in Hstep. exact Hstep.
Defined.

Lemma reachable_world_A2 :
  reachable join_plain dial_only_A keyspace_ok pick_first 0 (mkConfig world_A2 []).
Proof.
  exists (mkConfig world_alloc_A2 [CallFill]). split.
  - exists empty_world, hostA, 9042%Z, 2%Z, "", connPolicy, []. split; reflexivity.
  - apply (rtc_l _ _ (mkConfig world_alloc_A2 [FillChecked])).
    { apply (run_thread_alone CallFill world_alloc_A2 (Some FillChecked) world_alloc_A2
               [RLock (PoolMu 0); RUnlock (PoolMu 0)]); vm_compute; reflexivity. }
    apply (rtc_l _ _ (mkConfig world_A2_flag [FillFirst 2])).
    { apply (run_thread_alone FillChecked world_alloc_A2 (Some (FillFirst 2)) world_A2_flag
               [Lock (PoolMu 0); Unlock (PoolMu 0)]); vm_compute; reflexivity. }
    apply (rtc_l _ _ (mkConfig world_A2_one [FillMany 1])).
    { apply (run_thread_alone (FillFirst 2) world_A2_flag (Some (FillMany 1)) world_A2_one
               [Dial "A"; Lock (PoolMu 0); SetConns 0 (Slice 1 1 1); Unlock (PoolMu 0)]);
        vm_compute; reflexivity. }
    apply (rtc_l _ _ (mkConfig world_A2_two [FillMany 0])).
    { apply (run_thread_alone (FillMany 1) world_A2_one (Some (FillMany 0)) world_A2_two
               [Go (TConnect 0); Dial "A"; Lock (PoolMu 0); SetConns 0 (Slice 2 2 2);
                Unlock (PoolMu 0)]);
        vm_compute; reflexivity. }
    apply (rtc_l _ _ (mkConfig world_A2 [])).
    { apply (run_thread_alone (FillMany 0) world_A2_two None world_A2
               [Sleep; Lock (PoolMu 0); Unlock (PoolMu 0)]); vm_compute; reflexivity. }
    apply rtc_refl.
Defined.

Lemma pool_never_exceeds_size_witness :
  exists p,
    pools world_A2 !! 0 = Some p /\
    (Z.of_nat (slen (conns p)) <= size p)%Z /\
    length (pool_conns world_A2 0) = slen (conns p) /\
    forall c',
      rtc (step dial_only_A keyspace_ok pick_first 0) (mkConfig world_A2 []) c' ->
      exists p',
        pools (cw c') !! 0 = Some p' /\
        size p' = size p /\
        (Z.of_nat (slen (conns p')) <= size p')%Z /\
        length (pool_conns (cw c') 0) = slen (conns p') /\
        (closed p = true ->
         closed p' = true /\
         (pool_conns (cw c') 0 = pool_conns world_A2 0 \/ pool_conns (cw c') 0 = [])).
Proof.
  apply (pool_never_exceeds_size join_plain dial_only_A keyspace_ok pick_first 0
           (mkConfig world_A2 []) reachable_world_A2).
Defined.

(** ** [policyConnPool.Pick] *)

Lemma consulted_app t1 t2 : consulted (t1 ++ t2) = consulted t1 ++ consulted t2.
Proof.
  induction t1 as [|ev t1 IH]; [reflexivity|].
  destruct ev as [| |[q|]| | | | | | | | | | | | | |]; simpl; rewrite ?IH; reflexivity.
Qed.

Section PolicyPick.
Variable connPolicy_Pick : list Conn -> nat -> Query -> Conn.
Variable hostPolicy_Pick : Query -> list SelectedHost.

Lemma hostConnPool_Pick_consulted pool qry p w :
  pools w !! pool = Some p ->
  exists c w' tr,
    hostConnPool_Pick connPolicy_Pick pool qry w = Ok c w' tr /\
    length (pools w') = length (pools w) /\
    consulted tr = [pool].
Proof.
  intros Hp.
  destruct (hostConnPool_Pick_effect connPolicy_Pick pool qry p w Hp)
    as (c & pol & tr & Hrun & _ & Htr).
  eexists _, _, _. split; [exact Hrun|]. split; [simpl; apply length_insert|].
  destruct Htr as [->|[->|[->| ->]]]; reflexivity.
Qed.

Lemma Pick_loop_spec p qry hosts : forall w,
  tracked_ok w p ->
  (forall h, h ∈ hosts -> Info h <> None) ->
  exists r w' tr asked rest,
    Pick_loop connPolicy_Pick p qry hosts w = Ok r w' tr /\
    Pick_spec connPolicy_Pick p qry hosts w asked r w' /\
    hosts = asked ++ rest /\
    consulted tr = omap (pool_of p) asked /\
    length (pools w') = length (pools w) /\
    match r with
    | (None, None) => rest = []
    | (Some h, Some c) => last asked = Some h /\ is_Some (pool_of p h)
    | _ => False
    end.
Proof.
  induction hosts as [|h hosts IH]; intros w Hok Hinfo.
  - exists (None, None), w, [], [], []. repeat split. constructor.
  - cbn [Pick_loop].
    assert (Hh : Info h <> None) by (apply Hinfo; left).
    assert (Hrest : forall h', h' ∈ hosts -> Info h' <> None)
      by (intros h' Hh'; apply Hinfo; right; exact Hh').
    destruct (Info h) as [info|] eqn:Ei; [|done].
    destruct (hostConnPools p !! Peer info) as [pool|] eqn:Em.
    + assert (Hpo : pool_of p h = Some pool) by (unfold pool_of; rewrite Ei; exact Em).
      pose proof (Hok _ _ Em) as Hlt.
      destruct (lookup_lt_is_Some_2 _ _ Hlt) as [q Hq].
      destruct (hostConnPool_Pick_consulted pool qry q w Hq) as (c & w1 & tr1 & Hrun & Hlen & Hcons).
      rewrite (run_bind_Ok _ _ _ _ _ _ Hrun).
      destruct c as [c|].
      * exists (Some h, Some c), w1, tr1, [h], hosts. unfold ret. cbn [prefix].
        rewrite app_nil_r. split; [reflexivity|].
        split; [eapply Pick_found; eauto|]. split; [reflexivity|].
        split; [simpl; rewrite Hpo; exact Hcons|]. split; [exact Hlen|].
        split; [reflexivity|]. rewrite Hpo. eauto.
      * assert (Hok1 : tracked_ok w1 p).
        { intros a pl Ha. rewrite Hlen. eapply Hok; eauto. }
        destruct (IH w1 Hok1 Hrest) as (r & w' & tr & asked & rest & Hloop & Hspec & Hsplit & Hc & Hl & Hr).
        rewrite Hloop. exists r, w', (tr1 ++ tr), (h :: asked), rest. cbn [prefix].
        split; [reflexivity|].
        split; [eapply Pick_no_conn; eauto|].
        split; [simpl; congruence|].
        split; [rewrite consulted_app, Hcons, Hc; simpl; rewrite Hpo; reflexivity|].
        split; [congruence|].
        destruct r as [[h'|] [c'|]]; try done.
        destruct Hr as [Hr1 Hr2]. split; [|exact Hr2].
        destruct asked; [discriminate|exact Hr1].
    + assert (Hpo : pool_of p h = None) by (unfold pool_of; rewrite Ei; exact Em).
      destruct (IH w Hok Hrest) as (r & w' & tr & asked & rest & Hloop & Hspec & Hsplit & Hc & Hl & Hr).
      rewrite Hloop. exists r, w', tr, (h :: asked), rest.
      split; [reflexivity|].
      split; [eapply Pick_untracked; eauto; congruence|].
      split; [simpl; congruence|].
      split; [simpl; rewrite Hpo; exact Hc|].
      split; [exact Hl|].
      destruct r as [[h'|] [c'|]]; try done.
      destruct Hr as [Hr1 Hr2]. split; [|exact Hr2].
      destruct asked; [discriminate|exact Hr1].
Qed.

(** C7: if every host the iterator yields carries its [Info], [Pick] returns;
    it asks the pools of the candidates in the iterator's order, passing
    over candidates without a tracked pool; it stops at the first candidate
    whose pool yields a connection and returns that host with that
    connection; if the iterator is exhausted before, it returns nil and
    nil. *)
Theorem policyConnPool_Pick_first_yielding p qry w :
  tracked_ok w p ->
  (forall h, h ∈ hostPolicy_Pick qry -> Info h <> None) ->
  exists r w' tr asked rest,
    policyConnPool_Pick connPolicy_Pick hostPolicy_Pick p qry w
    = Ok r w' (HostPolicyPick qry :: RLock PolicyMu :: tr ++ [RUnlock PolicyMu]) /\
    Pick_spec connPolicy_Pick p qry (hostPolicy_Pick qry) w asked r w' /\
    hostPolicy_Pick qry = asked ++ rest /\
    consulted tr = omap (pool_of p) asked /\
    match r with
    | (None, None) => rest = []
    | (Some h, Some c) => last asked = Some h /\ is_Some (pool_of p h)
    | _ => False
    end.
Proof.
  intros Hok Hinfo.
  destruct (Pick_loop_spec p qry (hostPolicy_Pick qry) w Hok Hinfo)
    as (r & w' & tr & asked & rest & Hloop & Hspec & Hsplit & Hc & _ & Hr).
  exists r, w', tr, asked, rest. split; [|auto].
  unfold policyConnPool_Pick. rewrite !run_emit.
  rewrite (run_bind_Ok _ _ _ _ _ _ Hloop). reflexivity.
Qed.

End PolicyPick.

Lemma tracked_ok_pcp_A : tracked_ok world_A2 pcp_A.
Proof.
  intros a pool Ha. unfold pcp_A in Ha. cbn [hostConnPools] in Ha.
  apply lookup_singleton_Some in Ha as [_ <-]. simpl. lia.
Defined.

Lemma policyConnPool_Pick_first_yielding_witness :
  exists r w' tr asked rest,
    policyConnPool_Pick pick_first propose_B_A pcp_A 7 world_A2
    = Ok r w' (HostPolicyPick 7 :: RLock PolicyMu :: tr ++ [RUnlock PolicyMu]) /\
    Pick_spec pick_first pcp_A 7 (propose_B_A 7) world_A2 asked r w' /\
    propose_B_A 7 = asked ++ rest /\
    consulted tr = omap (pool_of pcp_A) asked /\
    match r with
    | (None, None) => rest = []
    | (Some h, Some c) => last asked = Some h /\ is_Some (pool_of pcp_A h)
    | _ => False
    end.
Proof.
  apply (policyConnPool_Pick_first_yielding pick_first propose_B_A pcp_A 7 world_A2
           tracked_ok_pcp_A).
  intros h Hh. apply elem_of_cons in Hh as [->|Hh]; [discriminate|].
  apply elem_of_cons in Hh as [->|Hh]; [discriminate|]. inversion Hh.
Defined.

(** The same call run on the store: ["B"] has no pool and is passed over,
    the pool of ["A"] is full, so its policy is asked and picks
    connection 0. *)
Example Pick_passes_over_untracked_host :
  exists w',
    policyConnPool_Pick pick_first propose_B_A pcp_A 7 world_A2
    = Ok (Some (mkSelectedHost (Some hostA)), Some 0) w'
        [HostPolicyPick 7; RLock PolicyMu; RLock (PoolMu 0); RUnlock (PoolMu 0);
         PolicyPick 0 7; RUnlock PolicyMu].
Proof. eexists. vm_compute. reflexivity. Qed.

(** ** Building a pool for a reachable or an unreachable host *)

Lemma others_untouched_extends pool w w' :
  others_untouched pool w w' -> pools w' !! pool = pools w !! pool -> extends w w'.
Proof.
  intros [H1 H2] H3. split; [lia|]. intros i _.
  destruct (decide (i = pool)) as [->|Hne]; [exact H3|apply H2; exact Hne].
Qed.

Lemma extends_refl w : extends w w.
Proof. split; auto. Qed.

Lemma extends_trans w1 w2 w3 : extends w1 w2 -> extends w2 w3 -> extends w1 w3.
Proof.
  intros [H1 H2] [H3 H4]. split; [lia|]. intros i Hi.
  rewrite H4 by lia. apply H2. exact Hi.
Qed.

Section Reachable.
Variable JoinHostPort : string -> Z -> string.
Variable session_connect : string -> nat -> option error.
Variable conn_UseKeyspace : Conn -> string -> option error.

Lemma connect_reachable pool p w :
  pools w !! pool = Some p ->
  closed p = false ->
  reachable_addr session_connect conn_UseKeyspace (addr p) (keyspace p) ->
  exists w' tr p',
    connect session_connect conn_UseKeyspace pool w = Ok None w' tr /\
    pools w' !! pool = Some p' /\
    same_config p p' /\ closed p' = false /\ filling p' = filling p /\
    others_untouched pool w w' /\
    slen (conns p') = S (slen (conns p)).
Proof.
  intros Hp Hc [Hd Hk]. rewrite (connect_run _ _ _ _ _ Hp), Hd.
  assert (useKeyspace_result conn_UseKeyspace p (Some (ndials w)) = None) as ->.
  { unfold useKeyspace_result. case_bool_decide; [|done]. destruct Hk; [done|auto]. }
  erewrite connect_add_open by (simpl; eauto). cbn [prefix].
  eexists _, _, _. split; [reflexivity|].
  split; [simpl; eapply lookup_insert_pool; eauto|].
  split; [repeat split|]. split; [exact Hc|]. split; [reflexivity|].
  split; [eapply others_untouched_insert; reflexivity|].
  cbn [conns set_policy set_conns heap dialed]. apply append_to_slen.
Qed.

Lemma connectMany_loop_reachable pool n : forall p w,
  pools w !! pool = Some p ->
  closed p = false ->
  reachable_addr session_connect conn_UseKeyspace (addr p) (keyspace p) ->
  exists w' tr p',
    connectMany_loop session_connect conn_UseKeyspace pool n w = Ok tt w' tr /\
    pools w' !! pool = Some p' /\
    same_config p p' /\ closed p' = false /\ filling p' = filling p /\
    others_untouched pool w w' /\
    slen (conns p') = slen (conns p) + n.
Proof.
  induction n as [|n IH]; intros p w Hp Hc Hr.
  - exists w, [], p. split; [reflexivity|]. split; [exact Hp|].
    split; [apply same_config_refl|]. split; [exact Hc|]. split; [reflexivity|].
    split; [apply others_untouched_refl|lia].
  - cbn [connectMany_loop]. rewrite run_go. unfold connect_and_log. rewrite run_assoc.
    destruct (connect_reachable pool p w Hp Hc Hr)
      as (w1 & t1 & p1 & Hrun & Hp1 & Hcfg & Hc1 & Hf1 & Ho1 & Hl1).
    rewrite (run_bind_Ok _ _ _ _ _ _ Hrun).
    rewrite (run_bind_Ok _ _ _ _ _ _ (logConnectErr_run _ _ _ _ Hp1)).
    assert (Hr1 : reachable_addr session_connect conn_UseKeyspace (addr p1) (keyspace p1)).
    { destruct Hcfg as (_ & _ & -> & _ & ->). exact Hr. }
    destruct (IH p1 w1 Hp1 Hc1 Hr1) as (w2 & t2 & p2 & Hrun2 & Hp2 & Hcfg2 & Hc2 & Hf2 & Ho2 & Hl2).
    rewrite Hrun2. cbn [prefix].
    eexists _, _, p2. split; [reflexivity|]. split; [exact Hp2|].
    split; [eapply same_config_trans; eauto|]. split; [exact Hc2|].
    split; [congruence|]. split; [eapply others_untouched_trans; eauto|lia].
Qed.

Lemma connectMany_reachable pool count_ p w :
  (0 <= count_)%Z ->
  pools w !! pool = Some p ->
  closed p = false ->
  reachable_addr session_connect conn_UseKeyspace (addr p) (keyspace p) ->
  exists w' tr p',
    connectMany session_connect conn_UseKeyspace pool count_ w = Ok tt w' tr /\
    pools w' !! pool = Some p' /\
    slen (conns p') = slen (conns p) + Z.to_nat count_.
Proof.
  intros Hn Hp Hc Hr. unfold connectMany.
  destruct (count_ =? 0)%Z eqn:E0.
  - apply Z.eqb_eq in E0. subst. exists w, [], p. split; [reflexivity|].
    split; [exact Hp|]. simpl. lia.
  - destruct (count_ <? 0)%Z eqn:E1; [lia|].
    destruct (connectMany_loop_reachable pool (Z.to_nat count_) p w Hp Hc Hr)
      as (w' & tr & p' & Hrun & Hp' & _ & _ & _ & _ & Hl).
    rewrite (run_bind_Ok _ _ _ _ _ _ Hrun). unfold emit. cbn [prefix].
    eexists _, _, p'. split; [reflexivity|]. auto.
Qed.

Lemma fill_run pool p w :
  pools w !! pool = Some p ->
  fill session_connect conn_UseKeyspace pool w
  = prefix [RLock (PoolMu pool); RUnlock (PoolMu pool)]
      (if wants_fill p
       then prefix [Lock (PoolMu pool); Unlock (PoolMu pool)]
              (fill_work session_connect conn_UseKeyspace pool
                 (Z.of_nat (slen (conns p))) (size p - Z.of_nat (slen (conns p)))
                 (filling_set true pool w))
       else Ok tt w []).
Proof.
  intros Hp. unfold fill.
  rewrite (run_bind_Ok _ _ _ _ _ _ (fill_check_run _ _ _ Hp)).
  destruct (wants_fill p) eqn:Hw; [|reflexivity].
  unfold bind. rewrite (fill_begin_run _ _ _ Hp), Hw. reflexivity.
Qed.

(** [fill] on a pool as [newHostConnPool] has just built it. *)
Lemma fill_fresh pool p w :
  pools w !! pool = Some p ->
  closed p = false -> filling p = false -> slen (conns p) = 0 ->
  (0 <= size p)%Z ->
  exists w' tr p',
    fill session_connect conn_UseKeyspace pool w = Ok tt w' tr /\
    pools w' !! pool = Some p' /\
    same_config p p' /\ closed p' = false /\
    others_untouched pool w w' /\
    (unreachable_addr session_connect (addr p) -> slen (conns p') = 0) /\
    (reachable_addr session_connect conn_UseKeyspace (addr p) (keyspace p) ->
     slen (conns p') = Z.to_nat (size p)).
Proof.
  intros Hp Hc Hf Hl Hs.
  rewrite (fill_run _ _ _ Hp).
  destruct (wants_fill p) eqn:Hw.
  2:{ unfold wants_fill in Hw. rewrite Hc, Hf, Hl in Hw. cbn [orb negb] in Hw.
      apply negb_false_iff, Z.leb_le in Hw.
      exists w, [RLock (PoolMu pool); RUnlock (PoolMu pool)], p.
      split; [reflexivity|]. split; [exact Hp|]. split; [apply same_config_refl|].
      split; [exact Hc|]. split; [apply others_untouched_refl|].
      split; [auto|]. intros _. rewrite Hl. lia. }
  destruct (wants_fill_true _ Hw) as (_ & _ & Hlt). rewrite Hl in Hlt.
  rewrite Hl. change (Z.of_nat 0) with 0%Z. rewrite Z.sub_0_r.
  unfold fill_work. cbn [Z.eqb].
  pose proof (filling_set_lookup true pool p w Hp) as Hp0.
  assert (Ho0 : others_untouched pool w (filling_set true pool w)).
  { unfold filling_set. rewrite Hp. eapply others_untouched_insert. reflexivity. }
  destruct (connect_effect session_connect conn_UseKeyspace pool _ _ Hp0)
    as (err & w1 & tr1 & Hrun & Haft & _ & Herr).
  pose proof Hrun as Hrun'.
  rewrite (run_bind_Ok _ _ _ _ _ _ Hrun).
  destruct Haft as (p1 & Hp1 & Hcfg1 & Hc1 & Hf1 & Ho1 & _ & Hl1 & _).
  rewrite (run_bind_Ok _ _ _ _ _ _ (logConnectErr_run _ _ _ _ Hp1)).
  cbn [closed filling conns set_filling] in *.
  destruct err as [e|].
  - (* the first dial failed *)
    rewrite (run_bind_Ok _ _ _ _ _ _ (fillingStopped_run _ _ _ Hp1)).
    pose proof (lookup_insert_pool _ pool _ (set_filling false p1) Hp1) as Hp2.
    erewrite run_get_pool by (simpl; exact Hp2).
    unfold go, emit. cbn [prefix].
    eexists _, _, _. split; [reflexivity|]. split; [exact Hp2|].
    split; [destruct Hcfg1 as (?&?&?&?&?); repeat split; assumption|].
    split; [simpl; congruence|].
    split.
    { eapply others_untouched_trans; [exact Ho0|].
      eapply others_untouched_trans; [exact Ho1|].
      eapply others_untouched_insert. reflexivity. }
    cbn [conns set_filling].
    rewrite (Herr (ex_intro _ e eq_refl)) in Hp1.
    simpl in Hp1. rewrite Hp0 in Hp1. injection Hp1 as <-.
    cbn [conns set_filling]. split; [auto|].
    intros Hr.
    destruct (connect_reachable pool _ _ Hp0 Hc Hr) as (w9 & t9 & p9 & Hrun9 & _).
    rewrite Hrun9 in Hrun'. discriminate.
  - (* the first dial succeeded *)
    assert (0 <= size p - 1)%Z as Hnn by lia.
    destruct (connectMany_effect session_connect conn_UseKeyspace pool _ _ _ Hnn Hp1)
      as (w2 & tr2 & Hrun2 & Haft2 & _).
    rewrite (run_bind_Ok _ _ _ _ _ _ Hrun2).
    destruct Haft2 as (p2 & Hp2 & Hcfg2 & Hc2 & Hf2 & Ho2 & _ & Hl2 & _).
    rewrite (fillingStopped_run _ _ _ Hp2). cbn [prefix].
    pose proof (lookup_insert_pool _ pool _ (set_filling false p2) Hp2) as Hp3.
    eexists _, _, _. split; [reflexivity|]. split; [exact Hp3|].
    split.
    { destruct Hcfg1 as (?&?&?&?&?), Hcfg2 as (?&?&?&?&?).
      cbn [set_filling host port addr size keyspace] in *.
      repeat split; cbn [set_filling host port addr size keyspace]; congruence. }
    split; [simpl; congruence|].
    split.
    { eapply others_untouched_trans; [exact Ho0|].
      eapply others_untouched_trans; [exact Ho1|].
      eapply others_untouched_trans; [exact Ho2|].
      eapply others_untouched_insert. reflexivity. }
    cbn [conns set_filling]. split.
    + intros Hu. rewrite (connect_run _ _ _ _ _ Hp0) in Hrun'.
      destruct (filling_set_fields true pool w) as [_ En]. rewrite En in Hrun'.
      cbn [addr set_filling] in Hrun'.
      destruct (Hu (ndials w)) as [e He]. rewrite He in Hrun'. discriminate.
    + intros Hr.
      destruct (connect_reachable pool _ _ Hp0 Hc Hr)
        as (w9 & t9 & p9 & Hrun9 & Hp9 & Hcfg9 & Hc9 & _ & _ & Hl9).
      rewrite Hrun9 in Hrun'. injection Hrun' as -> ->.
      rewrite Hp1 in Hp9. injection Hp9 as <-.
      assert (Hr1 : reachable_addr session_connect conn_UseKeyspace (addr p1) (keyspace p1)).
      { destruct Hcfg9 as (_ & _ & -> & _ & ->). exact Hr. }
      destruct (connectMany_reachable pool _ p1 w1 Hnn Hp1 Hc9 Hr1)
        as (w8 & t8 & p8 & Hrun8 & Hp8 & Hl8).
      rewrite Hrun8 in Hrun2. injection Hrun2 as -> ->.
      rewrite Hp2 in Hp8. injection Hp8 as <-.
      rewrite Hl8, Hl9. cbn [conns set_filling]. rewrite Hl. lia.
Qed.

End Reachable.

Section NewPool.
Variable JoinHostPort : string -> Z -> string.
Variable session_connect : string -> nat -> option error.
Variable conn_UseKeyspace : Conn -> string -> option error.

Lemma newHostConnPool_run host_ port_ size_ ks pol w :
  (0 <= size_)%Z ->
  exists w' tr q,
    newHostConnPool JoinHostPort session_connect conn_UseKeyspace
      host_ port_ size_ ks pol w = Ok (length (pools w)) w' tr /\
    extends w w' /\
    length (pools w') = S (length (pools w)) /\
    pools w' !! length (pools w) = Some q /\
    host q = host_ /\ closed q = false /\
    (unreachable_addr session_connect (JoinHostPort (Peer host_) port_) ->
     slen (conns q) = 0) /\
    (reachable_addr session_connect conn_UseKeyspace (JoinHostPort (Peer host_) port_) ks ->
     slen (conns q) = Z.to_nat size_).
Proof.
  intros Hs. unfold newHostConnPool, alloc_hostConnPool.
  rewrite run_assoc.
  unfold bind at 1. unfold go_make.
  destruct ((0 <? 0) || (size_ <? 0))%Z eqn:E; [lia|].
  rewrite prefix_nil. unfold bind at 1. unfold new_pool. cbn [pools heap ndials].
  rewrite prefix_nil.
  set (q0 := mkHostConnPool host_ port_ (JoinHostPort (Peer host_) port_) size_ ks pol
               (Slice (length (heap w)) (Z.to_nat 0) (Z.to_nat size_)) false false).
  set (w1 := mkWorld (heap w ++ [replicate (Z.to_nat size_) None]) (pools w ++ [q0]) (ndials w)).
  assert (Hq0 : pools w1 !! length (pools w) = Some q0).
  { unfold w1. cbn [pools]. apply list_lookup_middle. reflexivity. }
  destruct (fill_fresh session_connect conn_UseKeyspace (length (pools w)) q0 w1 Hq0)
    as (w' & tr & q & Hrun & Hq & Hcfg & Hc & [Hlen Hoth] & Hun & Hre);
    [reflexivity|reflexivity|reflexivity|exact Hs|].
  rewrite (run_bind_Ok _ _ _ _ _ _ Hrun). unfold ret. cbn [prefix]. rewrite app_nil_r.
  exists w', tr, q. split; [reflexivity|].
  assert (Hl1 : length (pools w1) = S (length (pools w))).
  { unfold w1. cbn [pools]. rewrite length_app. simpl. lia. }
  split.
  { split; [lia|]. intros i Hi. rewrite Hoth by lia.
    unfold w1. cbn [pools]. apply lookup_app_l. exact Hi. }
  split; [lia|]. split; [exact Hq|].
  destruct Hcfg as (Hh & _ & Ha & Hsz & Hk).
  split; [exact Hh|]. split; [exact Hc|].
  split; [exact Hun|]. exact Hre.
Qed.

End NewPool.

(** ** The loops of [SetHosts] *)

Lemma elem_of_created_hosts p hosts h :
  h ∈ created_hosts p hosts <->
  h ∈ hosts /\ IsUp h = true /\ hostConnPools p !! Peer h = None.
Proof.
  induction hosts as [|x hosts IH]; simpl.
  - split; [intros H; inversion H|intros [H _]; inversion H].
  - destruct (IsUp x) eqn:Eu; cbn [andb].
    + case_bool_decide as Et; cbn [negb].
      * rewrite IH, elem_of_cons. split.
        -- intros (Hh & Hu & Hn). auto.
        -- intros ([Hx|Hh] & Hu & Hn); [|auto]. subst x.
           rewrite Hn in Et. destruct Et as [? Et]. discriminate.
      * rewrite elem_of_cons, IH, elem_of_cons.
        apply eq_None_not_Some in Et. split.
        -- intros [Hx|(Hh & Hu & Hn)]; [subst x; auto|auto].
        -- intros ([Hx|Hh] & Hu & Hn); [left; exact Hx|right; auto].
    + rewrite IH, elem_of_cons. split.
      * intros (Hh & Hu & Hn). auto.
      * intros ([Hx|Hh] & Hu & Hn); [subst x; congruence|auto].
Qed.

Lemma elem_of_kept_addrs p hosts a :
  a ∈ kept_addrs p hosts <->
  exists h, h ∈ hosts /\ Peer h = a /\ IsUp h = true /\ is_Some (hostConnPools p !! a).
Proof.
  induction hosts as [|x hosts IH]; simpl.
  - split; [intros H; apply elem_of_empty in H; destruct H|].
    intros (h & Hh & _). inversion Hh.
  - destruct (IsUp x) eqn:Eu; cbn [andb].
    + case_bool_decide as Et.
      * rewrite elem_of_union, elem_of_singleton, IH. split.
        -- intros [Ha|(h & Hh & Hrest)].
           ++ subst a. exists x. split; [left|auto].
           ++ exists h. split; [right; exact Hh|exact Hrest].
        -- intros (h & Hh & Hp & Hu & Ht). apply elem_of_cons in Hh as [Hx|Hh].
           ++ subst h. left. symmetry. exact Hp.
           ++ right. exists h. auto.
      * rewrite IH. split.
        -- intros (h & Hh & Hrest). exists h. split; [right; exact Hh|exact Hrest].
        -- intros (h & Hh & Hp & Hu & Ht). apply elem_of_cons in Hh as [Hx|Hh].
           ++ subst h a. contradiction.
           ++ exists h. auto.
    + rewrite IH. split.
      * intros (h & Hh & Hrest). exists h. split; [right; exact Hh|exact Hrest].
      * intros (h & Hh & Hp & Hu & Ht). apply elem_of_cons in Hh as [Hx|Hh].
        -- subst h. congruence.
        -- exists h. auto.
Qed.

Lemma SetHosts_scan_run p hosts : forall R C w,
  SetHosts_scan p hosts R C w
  = Ok (R ∖ kept_addrs p hosts, C ++ created_hosts p hosts) w
      ((fun h => Go (TNewPool h)) <$> created_hosts p hosts).
Proof.
  induction hosts as [|h hosts IH]; intros R C w; cbn [SetHosts_scan kept_addrs created_hosts].
  - rewrite app_nil_r, difference_empty_L. reflexivity.
  - destruct (IsUp h); cbn [negb andb]; [|apply IH].
    case_bool_decide; cbn [negb].
    + rewrite IH, difference_difference_l_L. reflexivity.
    + rewrite run_go, IH. cbn [prefix fmap list_fmap]. rewrite <- app_assoc. reflexivity.
Qed.

Section SetHosts.
Variable JoinHostPort : string -> Z -> string.
Variable session_connect : string -> nat -> option error.
Variable conn_UseKeyspace : Conn -> string -> option error.

Lemma SetHosts_receive_run created : forall p w,
  (0 <= numConns p)%Z ->
  exists p' w' tr,
    SetHosts_receive JoinHostPort session_connect conn_UseKeyspace p created w
    = Ok p' w' tr /\
    pport p' = pport p /\ numConns p' = numConns p /\ pkeyspace p' = pkeyspace p /\
    hostConnPools p' = registered w' (length (pools w)) created (hostConnPools p) /\
    extends w w' /\
    length (pools w') = length (pools w) + length created /\
    forall k h, created !! k = Some h ->
      exists q,
        pools w' !! (length (pools w) + k) = Some q /\
        host q = h /\ closed q = false /\
        (unreachable_addr session_connect (JoinHostPort (Peer h) (pport p)) ->
         slen (conns q) = 0) /\
        (reachable_addr session_connect conn_UseKeyspace
           (JoinHostPort (Peer h) (pport p)) (pkeyspace p) ->
         slen (conns q) = Z.to_nat (numConns p)).
Proof.
  induction created as [|h rest IH]; intros p w Hn.
  - exists p, w, []. split; [reflexivity|]. repeat (split; [reflexivity|]).
    split; [apply extends_refl|]. split; [simpl; lia|]. intros k h' Hk. discriminate.
  - cbn [SetHosts_receive].
    destruct (newHostConnPool_run JoinHostPort session_connect conn_UseKeyspace
                h (pport p) (numConns p) (pkeyspace p) connPolicy w Hn)
      as (w1 & tr1 & q & Hnew & Hext1 & Hlen1 & Hq & Hhost & Hcl & Hun & Hre).
    rewrite (run_bind_Ok _ _ _ _ _ _ Hnew).
    rewrite (run_bind_Ok _ _ _ _ _ _ (hostConnPool_Size_run _ _ _ Hq)).
    rewrite (run_get_pool _ _ _ _ Hq).
    set (p1 := if (0 <? Z.of_nat (slen (conns q)))%Z
               then set_hostConnPools
                      (<[Peer (host q) := length (pools w)]> (hostConnPools p)) p
               else p).
    assert (Hcfg1 : pport p1 = pport p /\ numConns p1 = numConns p /\
                    pkeyspace p1 = pkeyspace p).
    { unfold p1. destruct (0 <? _)%Z; auto. }
    destruct Hcfg1 as (Hpp & Hnc & Hpk).
    assert (Hn1 : (0 <= numConns p1)%Z) by (rewrite Hnc; exact Hn).
    destruct (IH p1 w1 Hn1)
      as (p' & w' & tr & Hrun & Hpp' & Hnc' & Hpk' & Hmap & Hext & Hlen & Hpools).
    rewrite Hrun. cbn [prefix].
    exists p', w', (tr1 ++ [RLock (PoolMu (length (pools w))); RUnlock (PoolMu (length (pools w)))] ++ tr).
    split; [reflexivity|].
    split; [congruence|]. split; [congruence|]. split; [congruence|].
    assert (Hq' : pools w' !! length (pools w) = Some q).
    { destruct Hext as [_ Hsame]. rewrite Hsame by lia. exact Hq. }
    split.
    { rewrite Hmap, Hlen1. cbn [registered]. rewrite Hq'. f_equal.
      unfold p1.
      replace (0 <? slen (conns q)) with (0 <? Z.of_nat (slen (conns q)))%Z.
      - destruct (0 <? _)%Z; reflexivity.
      - destruct (0 <? slen (conns q)) eqn:E.
        + apply Nat.ltb_lt in E. apply Z.ltb_lt. lia.
        + apply Nat.ltb_ge in E. apply Z.ltb_ge. lia. }
    split; [eapply extends_trans; eauto|].
    split; [rewrite Hlen, Hlen1; simpl; lia|].
    intros k h' Hk. destruct k as [|k].
    + injection Hk as <-. exists q. rewrite Nat.add_0_r.
      split; [exact Hq'|]. auto.
    + cbn in Hk. destruct (Hpools k h' Hk) as (q' & Hq1 & Hrest).
      exists q'. rewrite Hlen1 in Hq1.
      replace (length (pools w) + S k) with (S (length (pools w)) + k) by lia.
      split; [exact Hq1|]. rewrite Hpp, Hpk, Hnc in Hrest. exact Hrest.
Qed.

End SetHosts.

Lemma set_closed_id q : closed q = true -> set_closed true q = q.
Proof. destruct q; simpl; intros ->; reflexivity. Qed.

Lemma Close_run pool w q :
  pools w !! pool = Some q ->
  exists w1 tr,
    hostConnPool_Close pool w = Ok tt w1 tr /\
    heap w1 = heap w /\
    pools w1 = <[pool := set_closed true q]> (pools w).
Proof.
  intros Hq. destruct (closed q) eqn:Hc.
  - rewrite (Close_closed _ _ _ Hq Hc). eexists w, _. split; [reflexivity|].
    split; [reflexivity|]. rewrite (set_closed_id _ Hc), list_insert_id by done. reflexivity.
  - rewrite (Close_open _ _ _ Hq Hc). eexists _, _. split; [reflexivity|]. auto.
Qed.

Lemma registered_lookup w created : forall base m a,
  registered w base created m !! a = m !! a \/
  exists k q, k < length created /\
    registered w base created m !! a = Some (base + k) /\
    pools w !! (base + k) = Some q /\ Peer (host q) = a /\ 0 < slen (conns q).
Proof.
  induction created as [|h rest IH]; intros base m a; cbn [registered]; [auto|].
  match goal with |- context [registered w (S base) rest ?m1] =>
    destruct (IH (S base) m1 a) as [E|(k & q & Hk & E & Hq & Hp & Hs)] end.
  - rewrite E. destruct (pools w !! base) as [q|] eqn:Hq; [|auto].
    destruct (0 <? slen (conns q)) eqn:Hs; [|auto].
    destruct (decide (Peer (host q) = a)) as [Ha|Ha].
    + right. exists 0, q. rewrite Nat.add_0_r. subst a.
      rewrite lookup_insert_eq. apply Nat.ltb_lt in Hs.
      split; [simpl; lia|]. auto.
    + left. apply lookup_insert_ne. exact Ha.
  - right. exists (S k), q. replace (base + S k) with (S base + k) by lia.
    split; [simpl; lia|]. auto.
Qed.

Lemma registered_other w created base m a :
  (forall k q, k < length created -> pools w !! (base + k) = Some q ->
               Peer (host q) <> a) ->
  registered w base created m !! a = m !! a.
Proof.
  intros Hno. destruct (registered_lookup w created base m a)
    as [E|(k & q & Hk & _ & Hq & Hp & _)]; [exact E|].
  exfalso. eapply Hno; eauto.
Qed.

Lemma registered_ext w w' created : forall base m,
  (forall k, k < length created -> pools w' !! (base + k) = pools w !! (base + k)) ->
  registered w' base created m = registered w base created m.
Proof.
  induction created as [|h rest IH]; intros base m Hsame; cbn [registered]; [reflexivity|].
  pose proof (Hsame 0) as H0. rewrite Nat.add_0_r in H0. rewrite H0 by (simpl; lia).
  apply IH. intros k Hk.
  replace (S base + k) with (base + S k) by lia. apply Hsame. simpl. lia.
Qed.

Lemma SetHosts_remove_run L : forall p w,
  NoDup L ->
  (forall a, a ∈ L -> is_Some (hostConnPools p !! a)) ->
  tracked_ok w p ->
  exists p' w' tr,
    SetHosts_remove p L w = Ok p' w' tr /\
    pport p' = pport p /\ numConns p' = numConns p /\ pkeyspace p' = pkeyspace p /\
    (forall a, hostConnPools p' !! a
               = if decide (a ∈ L) then None else hostConnPools p !! a) /\
    heap w' = heap w /\
    length (pools w') = length (pools w) /\
    forall i q, pools w !! i = Some q ->
      exists q',
        pools w' !! i = Some q' /\
        conns q' = conns q /\ host q' = host q /\
        (closed q = true -> closed q' = true) /\
        ((exists a, a ∈ L /\ hostConnPools p !! a = Some i) -> closed q' = true) /\
        ((forall a, a ∈ L -> hostConnPools p !! a <> Some i) -> q' = q).
Proof.
  induction L as [|a rest IH]; intros p w Hnd Hin Hok.
  - exists p, w, []. split; [reflexivity|]. do 3 (split; [reflexivity|]).
    split; [intros a; reflexivity|]. split; [reflexivity|]. split; [reflexivity|].
    intros i q Hq. exists q. split; [exact Hq|]. split; [reflexivity|].
    split; [reflexivity|]. split; [intros H; exact H|]. split; [|intros _; reflexivity].
    intros (a & Ha & _). inversion Ha.
  - cbn [SetHosts_remove].
    destruct (Hin a) as [pool Ha]; [left|]. rewrite Ha.
    pose proof (Hok _ _ Ha) as Hlt.
    destruct (lookup_lt_is_Some_2 _ _ Hlt) as [q0 Hq0].
    destruct (Close_run pool w q0 Hq0) as (w1 & tr1 & Hclose & Hheap1 & Hpools1).
    rewrite (run_bind_Ok _ _ _ _ _ _ Hclose).
    apply NoDup_cons in Hnd as [Hna Hnd].
    set (p1 := set_hostConnPools (delete a (hostConnPools p)) p).
    assert (Hin1 : forall a', a' ∈ rest -> is_Some (hostConnPools p1 !! a')).
    { intros a' Ha'. unfold p1. cbn [hostConnPools set_hostConnPools].
      rewrite lookup_delete_ne by (intros ->; contradiction).
      apply Hin. right. exact Ha'. }
    assert (Hok1 : tracked_ok w1 p1).
    { intros a' pl Ha'. unfold p1 in Ha'. cbn [hostConnPools set_hostConnPools] in Ha'.
      rewrite Hpools1, length_insert.
      destruct (decide (a = a')) as [->|Hne].
      - rewrite lookup_delete_eq in Ha'. discriminate.
      - rewrite lookup_delete_ne in Ha' by done. eapply Hok; eauto. }
    destruct (IH p1 w1 Hnd Hin1 Hok1)
      as (p' & w' & tr & Hrun & Hpp & Hnc & Hpk & Hmap & Hheap & Hlen & Hpools).
    rewrite Hrun. cbn [prefix].
    exists p', w', (tr1 ++ tr). split; [reflexivity|].
    split; [exact Hpp|]. split; [exact Hnc|]. split; [exact Hpk|].
    split.
    { intros a0. rewrite Hmap. unfold p1. cbn [hostConnPools set_hostConnPools].
      destruct (decide (a0 = a)) as [->|Hne].
      - rewrite lookup_delete_eq. rewrite (decide_True (P := a ∈ a :: rest)) by left.
        destruct (decide (a ∈ rest)); reflexivity.
      - rewrite lookup_delete_ne by done.
        destruct (decide (a0 ∈ rest)) as [Hr|Hr].
        + rewrite decide_True by (right; exact Hr). reflexivity.
        + rewrite decide_False; [reflexivity|].
          intros H. apply elem_of_cons in H as [H|H]; contradiction. }
    split; [congruence|]. split; [rewrite Hlen, Hpools1, length_insert; reflexivity|].
    intros i q Hq.
    assert (exists q1, pools w1 !! i = Some q1 /\ conns q1 = conns q /\ host q1 = host q /\
              (closed q = true -> closed q1 = true) /\
              (i = pool -> closed q1 = true) /\ (i <> pool -> q1 = q))
      as (q1 & Hq1 & Hc1 & Hh1 & Hm1 & Ht1 & Hu1).
    { rewrite Hpools1. destruct (decide (i = pool)) as [->|Hne].
      - rewrite Hq0 in Hq. injection Hq as ->.
        exists (set_closed true q). rewrite list_lookup_insert_eq by done.
        repeat split; auto; contradiction.
      - exists q. rewrite list_lookup_insert_ne by done. repeat split; auto; contradiction. }
    destruct (Hpools i q1 Hq1) as (q' & Hq' & Hc' & Hh' & Hm' & Ht' & Hu').
    exists q'. split; [exact Hq'|]. split; [congruence|]. split; [congruence|].
    split; [auto|]. split.
    + intros (a' & Ha' & Hai). apply elem_of_cons in Ha' as [->|Ha'].
      * rewrite Ha in Hai. injection Hai as ->. auto.
      * apply Ht'. exists a'. split; [exact Ha'|].
        unfold p1. cbn [hostConnPools set_hostConnPools].
        rewrite lookup_delete_ne by (intros ->; contradiction). exact Hai.
    + intros Hno.
      assert (i <> pool) as Hne.
      { intros ->. apply (Hno a); [left|exact Ha]. }
      rewrite <- (Hu1 Hne). apply Hu'. intros a' Ha' Hai.
      unfold p1 in Hai. cbn [hostConnPools set_hostConnPools] in Hai.
      rewrite lookup_delete_ne in Hai by (intros ->; contradiction).
      apply (Hno a'); [right; exact Ha'|exact Hai].
Qed.

(** ** [SetHosts] *)

Section SetHostsRun.
Variable JoinHostPort : string -> Z -> string.
Variable session_connect : string -> nat -> option error.
Variable conn_UseKeyspace : Conn -> string -> option error.

Lemma SetHosts_run p hosts w :
  tracked_ok w p ->
  (0 <= numConns p)%Z ->
  exists p' w' tr,
    SetHosts JoinHostPort session_connect conn_UseKeyspace p hosts w
    = Ok p' w' (Lock PolicyMu :: tr ++ [HostPolicySetHosts hosts; Unlock PolicyMu]) /\
    pport p' = pport p /\ numConns p' = numConns p /\ pkeyspace p' = pkeyspace p /\
    (forall a,
       hostConnPools p' !! a
       = if decide (a ∈ dom (hostConnPools p) ∖ kept_addrs p hosts) then None
         else registered w' (length (pools w)) (created_hosts p hosts)
                (hostConnPools p) !! a) /\
    length (pools w') = length (pools w) + length (created_hosts p hosts) /\
    tracked_ok w' p' /\
    (forall k h, created_hosts p hosts !! k = Some h ->
       exists q,
         pools w' !! (length (pools w) + k) = Some q /\
         host q = h /\ closed q = false /\
         (unreachable_addr session_connect (JoinHostPort (Peer h) (pport p)) ->
          slen (conns q) = 0) /\
         (reachable_addr session_connect conn_UseKeyspace
            (JoinHostPort (Peer h) (pport p)) (pkeyspace p) ->
          slen (conns q) = Z.to_nat (numConns p))) /\
    (forall i q, pools w !! i = Some q ->
       exists q',
         pools w' !! i = Some q' /\ conns q' = conns q /\
         (closed q = true -> closed q' = true) /\
         ((exists a, a ∈ dom (hostConnPools p) ∖ kept_addrs p hosts /\
                     hostConnPools p !! a = Some i) -> closed q' = true)).
Proof.
  intros Hok Hn. unfold SetHosts. rewrite run_emit.
  rewrite (run_bind_Ok _ _ _ _ _ _ (SetHosts_scan_run p hosts _ [] w)).
  cbn [fst snd app].
  set (m := hostConnPools p). set (created := created_hosts p hosts).
  set (R := dom m ∖ kept_addrs p hosts). set (base := length (pools w)).
  destruct (SetHosts_receive_run JoinHostPort session_connect conn_UseKeyspace created p w Hn)
    as (p1 & w1 & tr1 & Hrecv & Hpp1 & Hnc1 & Hpk1 & Hmap1 & Hext1 & Hlen1 & Hnew1).
  fold m base in Hmap1, Hlen1, Hnew1.
  rewrite (run_bind_Ok _ _ _ _ _ _ Hrecv).
  (* the pools made by the creators are for untracked addresses *)
  assert (Hfresh : forall a, is_Some (m !! a) ->
            forall k q, k < length created -> pools w1 !! (base + k) = Some q ->
                        Peer (host q) <> a).
  { intros a [pl Ha] k q Hk Hq Hp.
    destruct (lookup_lt_is_Some_2 created k Hk) as [h Hh].
    destruct (Hnew1 k h Hh) as (q' & Hq' & Hhost & _).
    rewrite Hq in Hq'. injection Hq' as <-.
    assert (h ∈ created) as Hin by (eapply list_elem_of_lookup_2; eauto).
    apply elem_of_created_hosts in Hin as (_ & _ & Hnone).
    rewrite Hhost in Hp. rewrite Hp in Hnone. unfold m in Ha. congruence. }
  assert (Hold1 : forall a, is_Some (m !! a) -> hostConnPools p1 !! a = m !! a).
  { intros a Ha. rewrite Hmap1. apply registered_other. apply Hfresh. exact Ha. }
  assert (HinR : forall a, a ∈ R -> is_Some (m !! a)).
  { intros a Ha. apply elem_of_difference in Ha as [Ha _]. apply elem_of_dom. exact Ha. }
  assert (HL : forall a, a ∈ elements R -> is_Some (hostConnPools p1 !! a)).
  { intros a Ha. apply elem_of_elements in Ha. rewrite Hold1 by auto. auto. }
  assert (Hok1 : tracked_ok w1 p1).
  { intros a pl Ha. rewrite Hmap1 in Ha.
    destruct (registered_lookup w1 created base m a) as [E|(k & q & Hk & E & _)].
    - rewrite E in Ha. pose proof (Hok _ _ Ha). destruct Hext1 as [Hle _]. fold base in Hle. lia.
    - rewrite E in Ha. injection Ha as <-. lia. }
  destruct (SetHosts_remove_run (elements R) p1 w1 (NoDup_elements R) HL Hok1)
    as (p2 & w2 & tr2 & Hrem & Hpp2 & Hnc2 & Hpk2 & Hmap2 & Hheap2 & Hlen2 & Hpools2).
  rewrite (run_bind_Ok _ _ _ _ _ _ Hrem).
  (* the pools made by the creators are not closed by the third loop *)
  assert (Hnew2 : forall k, k < length created ->
            pools w2 !! (base + k) = pools w1 !! (base + k)).
  { intros k Hk. destruct (lookup_lt_is_Some_2 created k Hk) as [h Hh].
    destruct (Hnew1 k h Hh) as (q & Hq & _).
    destruct (Hpools2 _ _ Hq) as (q' & Hq' & _ & _ & _ & _ & Hsame).
    rewrite Hq', Hq. f_equal. apply Hsame.
    intros a Ha Hai. pose proof (HinR a (proj1 (elem_of_elements R a) Ha)) as [pl Hpl].
    rewrite Hold1 in Hai by eauto. rewrite Hpl in Hai. injection Hai as ->.
    pose proof (Hok _ _ Hpl). fold base in H. lia. }
  unfold emit. cbn [prefix].
  exists p2, w2, (((fun h => Go (TNewPool h)) <$> created) ++ tr1 ++ tr2).
  split.
  { f_equal. cbn [app]. f_equal. rewrite <- !app_assoc. reflexivity. }
  split; [congruence|]. split; [congruence|]. split; [congruence|].
  split.
  { intros a. rewrite Hmap2.
    destruct (decide (a ∈ R)) as [Ha|Ha].
    - rewrite decide_True by (apply elem_of_elements; exact Ha). reflexivity.
    - rewrite decide_False by (rewrite elem_of_elements; exact Ha).
      rewrite Hmap1. symmetry. rewrite (registered_ext w1 w2); [reflexivity|].
      exact Hnew2. }
  split; [rewrite Hlen2; exact Hlen1|].
  split.
  { intros a pl Ha. rewrite Hmap2 in Ha. destruct (decide (a ∈ elements R)); [discriminate|].
    rewrite Hlen2. eapply Hok1; eauto. }
  split.
  { intros k h Hh. destruct (Hnew1 k h Hh) as (q & Hq & Hrest).
    exists q. rewrite Hnew2 by (eapply lookup_lt_Some; eauto). auto. }
  intros i q Hq.
  assert (Hq1 : pools w1 !! i = Some q).
  { destruct Hext1 as [_ Hsame]. rewrite Hsame by (eapply lookup_lt_Some; eauto). exact Hq. }
  destruct (Hpools2 _ _ Hq1) as (q' & Hq' & Hc' & _ & Hm' & Ht' & _).
  exists q'. split; [exact Hq'|]. split; [exact Hc'|]. split; [exact Hm'|].
  intros (a & Ha & Hai). apply Ht'. exists a.
  split; [apply elem_of_elements; exact Ha|]. rewrite Hold1 by eauto. exact Hai.
Qed.

End SetHostsRun.


Section SetHostsResult.
Variable JoinHostPort : string -> Z -> string.
Variable session_connect : string -> nat -> option error.
Variable conn_UseKeyspace : Conn -> string -> option error.


End SetHostsResult.

Lemma tracked_ok_new port_ n ks w : tracked_ok w (newPolicyConnPool port_ n ks).
Proof.
  intros a pool Ha. unfold newPolicyConnPool in Ha. cbn [hostConnPools] in Ha.
  rewrite lookup_empty in Ha. discriminate.
Defined.




(** The same call run on the empty store: two dials to ["A"] succeed, the
    one dial to ["B"] fails, and the map holds the pool of ["A"] only. *)
Example SetHosts_A_reachable_B_not :
  exists p' w' tr,
    SetHosts join_plain dial_only_A keyspace_ok (newPolicyConnPool 9042 2 "")
      [hostA; hostB] empty_world = Ok p' w' tr /\
    map_to_list (hostConnPools p') = [("A", 0)] /\
    pool_conns w' 0 = [Some 0; Some 1] /\
    pool_conns w' 1 = [] /\
    count is_Dial tr = 3 /\
    exists trs, policyConnPool_Size p' w' = Ok 2%Z w' trs.
Proof.
  eexists _, _, _. split; [vm_compute; reflexivity|].
  split; [vm_compute; reflexivity|].
  split; [vm_compute; reflexivity|].
  split; [vm_compute; reflexivity|].
  split; [vm_compute; reflexivity|].
  eexists. vm_compute. reflexivity.
Qed.

(** With ["A"] tracked already, its entry and its pool stay as they are,
    and the unreachable ["B"] gets no entry. *)
Example SetHosts_tracked_A_stays :
  exists p' w' tr,
    SetHosts join_plain dial_only_A keyspace_ok pcp_A [hostA; hostB] world_A2
    = Ok p' w' tr /\
    map_to_list (hostConnPools p') = [("A", 0)] /\
    pool_conns w' 0 = pool_conns world_A2 0 /\
    count is_Dial tr = 1 /\
    exists trs, policyConnPool_Size p' w' = Ok 2%Z w' trs.
Proof.
  eexists _, _, _. split; [vm_compute; reflexivity|].
  split; [vm_compute; reflexivity|].
  split; [vm_compute; reflexivity|].
  split; [vm_compute; reflexivity|].
  eexists. vm_compute. reflexivity.
Qed.


(** ** Which pools get an entry in the map *)

Section Registration.
Variable JoinHostPort : string -> Z -> string.
Variable session_connect : string -> nat -> option error.
Variable conn_UseKeyspace : Conn -> string -> option error.

(** [addHost] of a host that is not tracked: the pool [newHostConnPool]
    returns goes into the map, whatever [fill] has left in it. *)
Lemma addHost_run p h w :
  (0 <= numConns p)%Z ->
  hostConnPools p !! Peer h = None ->
  exists w' tr q,
    addHost JoinHostPort session_connect conn_UseKeyspace p h w
    = Ok (set_hostConnPools (<[Peer h := length (pools w)]> (hostConnPools p)) p) w'
        (Lock PolicyMu :: tr ++ [HostPolicyAddHost h; Unlock PolicyMu]) /\
    extends w w' /\
    pools w' !! length (pools w) = Some q /\
    host q = h /\ closed q = false /\
    (unreachable_addr session_connect (JoinHostPort (Peer h) (Port h)) ->
     slen (conns q) = 0) /\
    (reachable_addr session_connect conn_UseKeyspace
       (JoinHostPort (Peer h) (Port h)) (pkeyspace p) ->
     slen (conns q) = Z.to_nat (numConns p)).
Proof.
  intros Hn Hnone.
  destruct (newHostConnPool_run JoinHostPort session_connect conn_UseKeyspace
              h (Port h) (numConns p) (pkeyspace p) connPolicy w Hn)
    as (w' & tr & q & Hrun & Hext & _ & Hq & Hh & Hc & Hun & Hre).
  exists w', tr, q. split; [|auto 10].
  unfold addHost. rewrite run_emit, Hnone.
  rewrite (run_bind_Ok _ _ _ _ _ _ Hrun). reflexivity.
Qed.

(** [HandleError(c, err, true)] on an open pool that holds [c]: the pool
    has one connection fewer and is still open, a [fill] is started, and no
    other pool object is touched. *)
Lemma HandleError_takes_one pool w q c err :
  pools w !! pool = Some q ->
  closed q = false ->
  conns_ok w q ->
  c ∈ elems (heap w) (conns q) ->
  exists w' tr q',
    HandleError pool c err true w = Ok tt w' tr /\
    length (pools w') = length (pools w) /\
    pools w' !! pool = Some q' /\
    closed q' = false /\
    host q' = host q /\
    Go (TFill pool) ∈ tr /\
    S (slen (conns q')) = slen (conns q) /\
    (forall i, i <> pool -> pools w' !! i = pools w !! i).
Proof.
  intros Hq Hc [Hok _] Hin.
  destruct (index_of_elem _ _ Hin) as [i Hi].
  destruct (conns q) as [|a n cp] eqn:Hs; [inversion Hin|].
  rewrite <- Hs in Hok, Hi.
  destruct (HandleError_range_found pool w q c a n cp i Hq Hs Hok Hi)
    as (h1 & Hrun & _).
  assert (Hpos : 0 < n).
  { destruct n as [|n]; [|lia]. cbn [elems] in Hin. rewrite take_0 in Hin. inversion Hin. }
  eexists _, _, _. split.
  { unfold HandleError. cbn [negb].
    rewrite run_emit, (run_get_pool _ _ _ _ Hq), Hc, run_go_range.
    rewrite Hs in Hrun |- *.
    rewrite (run_bind_Ok _ _ _ _ _ _ Hrun). reflexivity. }
  cbn [pools]. split; [apply length_insert|].
  split; [apply (lookup_insert_pool _ _ _ _ Hq)|].
  split; [exact Hc|]. split; [reflexivity|].
  split.
  { cbn [prefix app]. apply elem_of_cons. right. apply elem_of_cons. right.
    apply elem_of_cons. left. reflexivity. }
  split; [cbn [conns set_policy set_conns slen]; lia|].
  intros j Hj. apply list_lookup_insert_ne. intros E. apply Hj. symmetry. exact E.
Qed.

(** C2, as the code has it by design: [SetHosts] returns, and an entry of
    the map it leaves is either the entry the address had before or a pool
    created by this call that holds at least one connection; and an entry
    stays when its pool loses connections afterwards: [HandleError(c, err,
    true)] takes [c] out of a tracked pool that is open, starts a [fill]
    and leaves every entry of the map pointing to an allocated pool, so
    that after the last connection is gone the map has an entry whose pool
    holds no connection. *)
Theorem SetHosts_registers_connected_pools_entries_stay p w :
  tracked_ok w p ->
  (0 <= numConns p)%Z ->
  (forall hosts, exists p' w' tr,
     SetHosts JoinHostPort session_connect conn_UseKeyspace p hosts w = Ok p' w' tr /\
     forall a pool,
       hostConnPools p' !! a = Some pool ->
       hostConnPools p !! a = Some pool \/
       (length (pools w) <= pool /\
        exists q, pools w' !! pool = Some q /\ Peer (host q) = a /\
                  0 < slen (conns q))) /\
  (forall a pool q c err,
     hostConnPools p !! a = Some pool ->
     pools w !! pool = Some q ->
     closed q = false ->
     conns_ok w q ->
     c ∈ elems (heap w) (conns q) ->
     exists w' tr q',
       HandleError pool c err true w = Ok tt w' tr /\
       tracked_ok w' p /\
       pools w' !! pool = Some q' /\
       closed q' = false /\ host q' = host q /\
       Go (TFill pool) ∈ tr /\
       S (slen (conns q')) = slen (conns q) /\
       (forall i, i <> pool -> pools w' !! i = pools w !! i) /\
       (slen (conns q) = 1 -> ~ no_empty_entry w' p)).
Proof.
  intros Hok Hn. split.
  - intros hosts.
    destruct (SetHosts_run JoinHostPort session_connect conn_UseKeyspace p hosts w Hok Hn)
      as (p' & w' & tr & Hrun & _ & _ & _ & Hmap & _).
    eexists p', w', _. split; [exact Hrun|].
    intros a pool Ha. rewrite Hmap in Ha.
    destruct (decide (a ∈ dom (hostConnPools p) ∖ kept_addrs p hosts)); [discriminate|].
    destruct (registered_lookup w' (created_hosts p hosts) (length (pools w))
                (hostConnPools p) a) as [E|(k & q & _ & E & Hq & Hp & Hpos)].
    + left. rewrite <- E. exact Ha.
    + right. rewrite E in Ha. injection Ha as <-.
      split; [lia|]. exists q. auto.
  - intros a pool q c err Ha Hq Hc Hcok Hin.
    destruct (HandleError_takes_one pool w q c err Hq Hc Hcok Hin)
      as (w' & tr & q' & Hrun & Hlen & Hq' & Hc' & Hh' & Hgo & Hs & Hoth).
    exists w', tr, q'. split; [exact Hrun|].
    split; [intros a0 pool0 Ha0; rewrite Hlen; exact (Hok _ _ Ha0)|].
    split; [exact Hq'|]. split; [exact Hc'|]. split; [exact Hh'|].
    split; [exact Hgo|]. split; [exact Hs|]. split; [exact Hoth|].
    intros H1 Hno. specialize (Hno a pool q' Ha Hq'). lia.
Qed.

End Registration.

Lemma tracked_ok_pcp_A_lost : tracked_ok world_A2_lost pcp_A.
Proof.
  intros a pool Ha. unfold pcp_A in Ha. cbn [hostConnPools] in Ha.
  apply lookup_singleton_Some in Ha as [_ <-]. simpl. lia.
Defined.

Lemma conns_ok_world_A2_lost : conns_ok world_A2_lost pool_A2_lost.
Proof. split; [simpl; lia|]. compute_done. Defined.

(** The pool of ["A"] is tracked and holds one connection: no call of
    [SetHosts] enters a pool without a connection, and [HandleError] for
    that connection leaves the entry of ["A"] with an empty pool. *)
Lemma SetHosts_registers_connected_pools_entries_stay_witness :
  (forall hosts, exists p' w' tr,
     SetHosts join_plain dial_only_A keyspace_ok pcp_A hosts world_A2_lost = Ok p' w' tr /\
     forall a pool,
       hostConnPools p' !! a = Some pool ->
       hostConnPools pcp_A !! a = Some pool \/
       (length (pools world_A2_lost) <= pool /\
        exists q, pools w' !! pool = Some q /\ Peer (host q) = a /\
                  0 < slen (conns q))) /\
  exists w' tr q',
    HandleError 0 (Some 1) (OpError "closed") true world_A2_lost = Ok tt w' tr /\
    hostConnPools pcp_A !! "A" = Some 0 /\
    pools w' !! 0 = Some q' /\
    closed q' = false /\
    slen (conns q') = 0 /\
    Go (TFill 0) ∈ tr /\
    ~ no_empty_entry w' pcp_A.
Proof.
  destruct (SetHosts_registers_connected_pools_entries_stay
              join_plain dial_only_A keyspace_ok pcp_A world_A2_lost
              tracked_ok_pcp_A_lost) as [HS HE]; [simpl; lia|].
  split; [exact HS|].
  destruct (HE "A" 0 pool_A2_lost (Some 1) (OpError "closed") eq_refl eq_refl eq_refl
              conns_ok_world_A2_lost)
    as (w' & tr & q' & Hrun & _ & Hq' & Hc' & _ & Hgo & Hs & _ & Hno).
  { simpl. apply elem_of_cons. left. reflexivity. }
  exists w', tr, q'. split; [exact Hrun|]. split; [reflexivity|].
  split; [exact Hq'|]. split; [exact Hc'|].
  split; [simpl in Hs; lia|]. split; [exact Hgo|]. apply Hno. reflexivity.
Defined.

(** [addHost] does not look at [pool.Size()] as the second loop of
    [SetHosts] does: from the new, empty [policyConnPool], [addHost] of the
    unreachable ["B"] returns with an entry for ["B"] whose pool holds no
    connection. *)
Example addHost_of_unreachable_host :
  no_empty_entry empty_world (newPolicyConnPool 9042 2 "") /\
  exists p' w' tr,
    addHost join_plain dial_only_A keyspace_ok (newPolicyConnPool 9042 2 "") hostB
      empty_world = Ok p' w' tr /\
    hostConnPools p' !! "B" = Some 0 /\
    pool_conns w' 0 = [] /\
    ~ no_empty_entry w' p'.
Proof.
  split.
  - intros a pool q Ha. cbn [newPolicyConnPool hostConnPools] in Ha.
    rewrite lookup_empty in Ha. discriminate.
  - eexists _, _, _. split; [vm_compute; reflexivity|].
    split; [vm_compute; reflexivity|].
    split; [vm_compute; reflexivity|].
    intros H. specialize (H "B" 0 _ eq_refl eq_refl). vm_compute in H. lia.
Qed.

(** C2 as stated fails: a pool that [SetHosts] has entered with two
    connections keeps its entry when [HandleError] takes both away, so the
    map, which had no entry at all to begin with, has an entry whose pool
    holds no connection.  [HandleError] works on the pool alone, and each
    call starts a [fill] to replace what it removed. *)
Lemma tracked_pool_can_lose_all_connections :
  exists p' w1 tr1 w2 tr2 w3 tr3,
    SetHosts join_plain dial_only_A keyspace_ok (newPolicyConnPool 9042 2 "")
      [hostA] empty_world = Ok p' w1 tr1 /\
    hostConnPools p' !! "A" = Some 0 /\
    pool_conns w1 0 = [Some 0; Some 1] /\
    HandleError 0 (Some 0) (OpError "closed") true w1 = Ok tt w2 tr2 /\
    HandleError 0 (Some 1) (OpError "closed") true w2 = Ok tt w3 tr3 /\
    pool_conns w3 0 = [] /\
    count is_Go tr2 = 1 /\ count is_Go tr3 = 1 /\
    ~ no_empty_entry w3 p'.
Proof.
  eexists _, _, _, _, _, _, _.
  split; [vm_compute; reflexivity|].
  split; [vm_compute; reflexivity|].
  split; [vm_compute; reflexivity|].
  split; [vm_compute; reflexivity|].
  split; [vm_compute; reflexivity|].
  split; [vm_compute; reflexivity|].
  split; [vm_compute; reflexivity|].
  split; [vm_compute; reflexivity|].
  intros H. specialize (H "A" 0 _ eq_refl eq_refl). vm_compute in H. lia.
Qed.

(** ** [fill] outside the case of an empty pool *)

Section FillCases.
Variable JoinHostPort : string -> Z -> string.
Variable session_connect : string -> nat -> option error.
Variable conn_UseKeyspace : Conn -> string -> option error.

(** X1: [fill] on a pool that is closed, or that is being filled, or that
    already holds [size] connections or more, returns after its read-locked
    check: nothing is dialled or started, the store is as it was. *)
Theorem fill_returns_after_check pool w p :
  pools w !! pool = Some p ->
  closed p = true \/ filling p = true \/ (size p <= Z.of_nat (slen (conns p)))%Z ->
  fill session_connect conn_UseKeyspace pool w
  = Ok tt w [RLock (PoolMu pool); RUnlock (PoolMu pool)].
Proof.
  intros Hp Hcase. rewrite (fill_run _ _ _ _ _ Hp).
  assert (wants_fill p = false) as ->; [|reflexivity].
  unfold wants_fill. destruct Hcase as [->| [->|Hfull]]; [reflexivity| |].
  - rewrite orb_true_r. reflexivity.
  - assert ((size p - Z.of_nat (slen (conns p)) <=? 0)%Z = true) as ->
      by (apply Z.leb_le; lia).
    rewrite orb_true_r. reflexivity.
Qed.

(** What the dialers of [connectMany] and [fillingStopped] after them make
    of a pool whose filling flag is raised. *)
Lemma fill_rest_effect pool count_ p w :
  (0 <= count_)%Z ->
  pools w !! pool = Some p ->
  exists w' tr p',
    fill_rest session_connect conn_UseKeyspace pool count_ w = Ok tt w' tr /\
    pools w' !! pool = Some p' /\
    same_config p p' /\ closed p' = closed p /\ filling p' = false /\
    others_untouched pool w w' /\
    ndials w' = ndials w + Z.to_nat count_ /\
    count is_Dial tr = Z.to_nat count_ /\
    count is_Go tr = count (is_GoConnect pool) tr /\
    slen (conns p) <= slen (conns p') <= slen (conns p) + Z.to_nat count_ /\
    (closed p = false ->
     reachable_addr session_connect conn_UseKeyspace (addr p) (keyspace p) ->
     slen (conns p') = slen (conns p) + Z.to_nat count_).
Proof.
  intros Hn Hp. unfold fill_rest.
  destruct (connectMany_effect session_connect conn_UseKeyspace pool _ _ _ Hn Hp)
    as (w1 & tr1 & Hrun & (p1 & Hp1 & Hcfg & Hc & Hf & Ho & Hnd & Hl & _) & (Hd & Hg & Hgo)).
  pose proof Hrun as Hrun'.
  rewrite (run_bind_Ok _ _ _ _ _ _ Hrun), (fillingStopped_run _ _ _ Hp1).
  cbn [prefix].
  pose proof (lookup_insert_pool _ pool _ (set_filling false p1) Hp1) as Hp2.
  eexists _, _, _. split; [reflexivity|]. split; [exact Hp2|].
  split; [destruct Hcfg as (?&?&?&?&?); repeat split; assumption|].
  split; [exact Hc|]. split; [reflexivity|].
  split; [eapply others_untouched_trans; [exact Ho|];
          eapply others_untouched_insert; reflexivity|].
  split; [exact Hnd|].
  split; [rewrite count_app, Hd, !count_cons, count_nil; cbn [is_Dial]; lia|].
  split.
  { rewrite !count_app, Hg, Hgo, !count_cons, !count_nil. unfold is_GoConnect.
    rewrite !bool_decide_eq_false_2 by discriminate. reflexivity. }
  split; [exact Hl|].
  intros Hopen Hr.
  destruct (connectMany_reachable session_connect conn_UseKeyspace pool _ p w Hn Hp Hopen Hr)
    as (w8 & t8 & p8 & Hrun8 & Hp8 & Hl8).
  rewrite Hrun8 in Hrun'. injection Hrun' as -> ->.
  rewrite Hp1 in Hp8. injection Hp8 as <-. exact Hl8.
Qed.

(** X2: [fill] on an open pool that nobody is filling and that holds some
    but fewer than [size] connections takes the filling flag and starts one
    goroutine for the missing [size - len(conns)] connections; it dials
    nothing itself.  That goroutine, run on the store [fill] leaves, makes
    exactly that many dials, starts nothing but its dialers (no
    [handleNodeDown], whatever the dials return), lowers the flag, and
    leaves the pool with at most [size] connections: exactly [size] if the
    host is reachable. *)
Theorem fill_nonempty_pool_in_background pool w p :
  pools w !! pool = Some p ->
  closed p = false -> filling p = false ->
  0 < slen (conns p) -> (Z.of_nat (slen (conns p)) < size p)%Z ->
  fill session_connect conn_UseKeyspace pool w
  = Ok tt (filling_set true pool w)
      [RLock (PoolMu pool); RUnlock (PoolMu pool);
       Lock (PoolMu pool); Unlock (PoolMu pool);
       Go (TFillRest pool (size p - Z.of_nat (slen (conns p))))] /\
  exists w' tr p',
    fill_rest session_connect conn_UseKeyspace pool (size p - Z.of_nat (slen (conns p)))
      (filling_set true pool w) = Ok tt w' tr /\
    pools w' !! pool = Some p' /\
    closed p' = false /\ filling p' = false /\ size p' = size p /\
    count is_Dial tr = Z.to_nat (size p) - slen (conns p) /\
    count is_Go tr = count (is_GoConnect pool) tr /\
    slen (conns p) <= slen (conns p') /\
    (Z.of_nat (slen (conns p')) <= size p)%Z /\
    (reachable_addr session_connect conn_UseKeyspace (addr p) (keyspace p) ->
     Z.of_nat (slen (conns p')) = size p).
Proof.
  intros Hp Hc Hf Hpos Hlt. split.
  - rewrite (fill_run _ _ _ _ _ Hp).
    assert (wants_fill p = true) as ->.
    { unfold wants_fill. rewrite Hc, Hf. cbn [orb negb].
      apply negb_true_iff, Z.leb_gt. lia. }
    unfold fill_work.
    assert ((Z.of_nat (slen (conns p)) =? 0)%Z = false) as -> by (apply Z.eqb_neq; lia).
    reflexivity.
  - pose proof (filling_set_lookup true pool p w Hp) as Hp0.
    destruct (fill_rest_effect pool (size p - Z.of_nat (slen (conns p)))%Z _ _
                ltac:(lia) Hp0)
      as (w' & tr & p' & Hrun & Hp' & Hcfg & Hc' & Hf' & _ & _ & Hd & Hg & Hl & Hre).
    cbn [closed conns addr keyspace set_filling] in *.
    exists w', tr, p'. split; [exact Hrun|]. split; [exact Hp'|].
    split; [congruence|]. split; [exact Hf'|].
    split; [destruct Hcfg as (_&_&_&Hs&_); exact Hs|].
    split; [rewrite Hd; lia|]. split; [exact Hg|]. split; [lia|].
    split; [lia|]. intros Hr. rewrite (Hre Hc Hr). lia.
Qed.

End FillCases.

(** ** [newHostConnPool] *)

Section NewPoolResult.
Variable JoinHostPort : string -> Z -> string.
Variable session_connect : string -> nat -> option error.
Variable conn_UseKeyspace : Conn -> string -> option error.

(** [fill] on a pool as [newHostConnPool] has just built it: the dials it
    makes and the flag it leaves. *)
Lemma fill_fresh_settled pool p w :
  pools w !! pool = Some p ->
  closed p = false -> filling p = false -> slen (conns p) = 0 ->
  (0 <= size p)%Z ->
  exists w' tr p',
    fill session_connect conn_UseKeyspace pool w = Ok tt w' tr /\
    pools w' !! pool = Some p' /\
    filling p' = false /\
    ndials w' = ndials w + count is_Dial tr /\
    slen (conns p') <= count is_Dial tr /\
    (Z.of_nat (count is_Dial tr) <= size p)%Z.
Proof.
  intros Hp Hc Hf Hl Hs.
  rewrite (fill_run _ _ _ _ _ Hp).
  destruct (wants_fill p) eqn:Hw.
  2:{ exists w, [RLock (PoolMu pool); RUnlock (PoolMu pool)], p.
      split; [reflexivity|]. split; [exact Hp|]. split; [exact Hf|].
      rewrite !count_cons, count_nil. cbn [is_Dial]. rewrite Hl. lia. }
  destruct (wants_fill_true _ Hw) as (_ & _ & Hlt). rewrite Hl in Hlt.
  rewrite Hl. change (Z.of_nat 0) with 0%Z. rewrite Z.sub_0_r.
  unfold fill_work. cbn [Z.eqb].
  pose proof (filling_set_lookup true pool p w Hp) as Hp0.
  destruct (filling_set_fields true pool w) as [_ Hn0].
  destruct (connect_effect session_connect conn_UseKeyspace pool _ _ Hp0)
    as (err & w1 & tr1 & Hrun & (p1 & Hp1 & _ & _ & _ & _ & Hn1 & Hl1 & _) & (Hd1 & _) & _).
  rewrite (run_bind_Ok _ _ _ _ _ _ Hrun).
  rewrite (run_bind_Ok _ _ _ _ _ _ (logConnectErr_run _ _ _ _ Hp1)).
  cbn [conns set_filling] in Hl1. rewrite Hl in Hl1.
  destruct (dial_trace_log pool (addr p1) err) as (Hdl & _).
  destruct err as [e|].
  - rewrite (run_bind_Ok _ _ _ _ _ _ (fillingStopped_run _ _ _ Hp1)).
    pose proof (lookup_insert_pool _ pool _ (set_filling false p1) Hp1) as Hp2.
    erewrite run_get_pool by (simpl; exact Hp2).
    unfold go, emit. cbn [prefix].
    eexists _, _, _. split; [reflexivity|]. split; [exact Hp2|].
    split; [reflexivity|]. cbn [ndials conns set_filling].
    rewrite ?count_app, ?count_cons, ?count_app, ?count_cons, ?count_nil, Hd1, Hdl.
    cbn [is_Dial]. lia.
  - assert (0 <= size p - 1)%Z as Hnn by lia.
    destruct (connectMany_effect session_connect conn_UseKeyspace pool _ _ _ Hnn Hp1)
      as (w2 & tr2 & Hrun2 & (p2 & Hp2 & _ & _ & _ & _ & Hn2 & Hl2 & _) & (Hd2 & _)).
    rewrite (run_bind_Ok _ _ _ _ _ _ Hrun2).
    rewrite (fillingStopped_run _ _ _ Hp2). cbn [prefix].
    pose proof (lookup_insert_pool _ pool _ (set_filling false p2) Hp2) as Hp3.
    eexists _, _, _. split; [reflexivity|]. split; [exact Hp3|].
    split; [reflexivity|]. cbn [ndials conns set_filling].
    rewrite ?count_app, ?count_cons, ?count_app, ?count_cons, ?count_nil, Hd1, Hd2, ?Hdl.
    cbn [is_Dial]. lia.
Qed.

(** X3: [newHostConnPool] with a negative [size] panics in [make], before
    any object is created or any dial made; with [size] zero it returns a
    new open pool for which [fill] found nothing to do: no connection, no
    dial. *)
Theorem newHostConnPool_size_not_positive host_ port_ size_ ks pol w :
  ((size_ < 0)%Z ->
   newHostConnPool JoinHostPort session_connect conn_UseKeyspace host_ port_ size_ ks pol w
   = Panics MakeOutOfRange []) /\
  (size_ = 0%Z ->
   newHostConnPool JoinHostPort session_connect conn_UseKeyspace host_ port_ size_ ks pol w
   = Ok (length (pools w))
       (mkWorld (heap w ++ [[]])
          (pools w ++ [mkHostConnPool host_ port_ (JoinHostPort (Peer host_) port_) 0 ks pol
                         (Slice (length (heap w)) 0 0) false false])
          (ndials w))
       [RLock (PoolMu (length (pools w))); RUnlock (PoolMu (length (pools w)))]).
Proof.
  split.
  - intros Hneg. unfold newHostConnPool, alloc_hostConnPool, bind, go_make.
    assert ((size_ <? 0)%Z = true) as -> by (apply Z.ltb_lt; lia). reflexivity.
  - intros ->. unfold newHostConnPool, alloc_hostConnPool.
    rewrite run_assoc. unfold bind at 1. unfold go_make. cbn [Z.ltb Z.compare orb].
    rewrite prefix_nil. unfold bind at 1. unfold new_pool. cbn [pools heap ndials].
    rewrite prefix_nil. cbn [Z.to_nat replicate].
    match goal with |- bind _ _ ?w1 = _ =>
      assert (Hfill : fill session_connect conn_UseKeyspace (length (pools w)) w1
                      = Ok tt w1 [RLock (PoolMu (length (pools w)));
                                  RUnlock (PoolMu (length (pools w)))])
    end.
    { erewrite fill_run by (cbn [pools]; apply list_lookup_middle; reflexivity).
      reflexivity. }
    rewrite (run_bind_Ok _ _ _ _ _ _ Hfill). reflexivity.
Qed.

(** X4: for a [size] that is not negative [newHostConnPool] returns a
    pointer to a new object and leaves the objects there were as they were.
    The new pool has the host, port, address, size and keyspace it was
    given; it is open and filling has stopped when the call returns; it
    holds no more connections than dials were made during the call, and
    the dials made are at most [size]. *)
Theorem newHostConnPool_settled host_ port_ size_ ks pol w :
  (0 <= size_)%Z ->
  exists w' tr q,
    newHostConnPool JoinHostPort session_connect conn_UseKeyspace host_ port_ size_ ks pol w
    = Ok (length (pools w)) w' tr /\
    extends w w' /\
    length (pools w') = S (length (pools w)) /\
    pools w' !! length (pools w) = Some q /\
    host q = host_ /\ port q = port_ /\ addr q = JoinHostPort (Peer host_) port_ /\
    size q = size_ /\ keyspace q = ks /\
    closed q = false /\ filling q = false /\
    ndials w' = ndials w + count is_Dial tr /\
    slen (conns q) <= count is_Dial tr /\
    (Z.of_nat (count is_Dial tr) <= size_)%Z.
Proof.
  intros Hs. unfold newHostConnPool, alloc_hostConnPool.
  rewrite run_assoc.
  unfold bind at 1. unfold go_make.
  destruct ((0 <? 0) || (size_ <? 0))%Z eqn:E; [lia|].
  rewrite prefix_nil. unfold bind at 1. unfold new_pool. cbn [pools heap ndials].
  rewrite prefix_nil.
  set (q0 := mkHostConnPool host_ port_ (JoinHostPort (Peer host_) port_) size_ ks pol
               (Slice (length (heap w)) (Z.to_nat 0) (Z.to_nat size_)) false false).
  set (w1 := mkWorld (heap w ++ [replicate (Z.to_nat size_) None]) (pools w ++ [q0]) (ndials w)).
  assert (Hq0 : pools w1 !! length (pools w) = Some q0).
  { unfold w1. cbn [pools]. apply list_lookup_middle. reflexivity. }
  destruct (fill_fresh session_connect conn_UseKeyspace (length (pools w)) q0 w1 Hq0)
    as (w' & tr & q & Hrun & Hq & Hcfg & Hc & [Hlen Hoth] & _);
    [reflexivity|reflexivity|reflexivity|exact Hs|].
  destruct (fill_fresh_settled (length (pools w)) q0 w1 Hq0)
    as (w'' & tr' & q' & Hrun' & Hq' & Hf & Hnd & Hle & Hds);
    [reflexivity|reflexivity|reflexivity|exact Hs|].
  rewrite Hrun in Hrun'. injection Hrun' as <- <-.
  rewrite Hq in Hq'. injection Hq' as <-.
  rewrite (run_bind_Ok _ _ _ _ _ _ Hrun). unfold ret. cbn [prefix]. rewrite app_nil_r.
  exists w', tr, q. split; [reflexivity|].
  assert (Hl1 : length (pools w1) = S (length (pools w))).
  { unfold w1. cbn [pools]. rewrite length_app. simpl. lia. }
  split.
  { split; [lia|]. intros i Hi. rewrite Hoth by lia.
    unfold w1. cbn [pools]. apply lookup_app_l. exact Hi. }
  split; [lia|]. split; [exact Hq|].
  destruct Hcfg as (Hh & Hpt & Ha & Hsz & Hk).
  repeat (split; [assumption|]). exact Hds.
Qed.

End NewPoolResult.

Lemma fill_returns_after_check_witness :
  fill dial_only_A keyspace_ok 0 world_A2
  = Ok tt world_A2 [RLock (PoolMu 0); RUnlock (PoolMu 0)].
Proof.
  apply (fill_returns_after_check dial_only_A keyspace_ok 0 world_A2 pool_A2 eq_refl).
  right. right. simpl. lia.
Defined.

Lemma fill_nonempty_pool_in_background_witness :
  fill dial_only_A keyspace_ok 0 world_A2_lost
  = Ok tt (filling_set true 0 world_A2_lost)
      [RLock (PoolMu 0); RUnlock (PoolMu 0); Lock (PoolMu 0); Unlock (PoolMu 0);
       Go (TFillRest 0 1)] /\
  exists w' tr p',
    fill_rest dial_only_A keyspace_ok 0 1 (filling_set true 0 world_A2_lost) = Ok tt w' tr /\
    pools w' !! 0 = Some p' /\
    closed p' = false /\ filling p' = false /\ size p' = 2%Z /\
    count is_Dial tr = 1 /\
    count is_Go tr = count (is_GoConnect 0) tr /\
    1 <= slen (conns p') /\
    (Z.of_nat (slen (conns p')) <= 2)%Z /\
    (reachable_addr dial_only_A keyspace_ok "A" "" -> Z.of_nat (slen (conns p')) = 2%Z).
Proof.
  apply (fill_nonempty_pool_in_background dial_only_A keyspace_ok 0 world_A2_lost
           pool_A2_lost eq_refl eq_refl eq_refl); simpl; lia.
Defined.

Lemma newHostConnPool_settled_witness :
  exists w' tr q,
    newHostConnPool join_plain dial_only_A keyspace_ok hostA 9042 2 "" connPolicy empty_world
    = Ok 0 w' tr /\
    extends empty_world w' /\
    length (pools w') = 1 /\
    pools w' !! 0 = Some q /\
    host q = hostA /\ port q = 9042%Z /\ addr q = "A" /\
    size q = 2%Z /\ keyspace q = "" /\
    closed q = false /\ filling q = false /\
    ndials w' = count is_Dial tr /\
    slen (conns q) <= count is_Dial tr /\
    (Z.of_nat (count is_Dial tr) <= 2)%Z.
Proof.
  apply (newHostConnPool_settled join_plain dial_only_A keyspace_ok hostA 9042 2 ""
           connPolicy empty_world).
  lia.
Defined.

(** ** What [connect] does with the connection it dials *)

Section ConnectFate.
Variable session_connect : string -> nat -> option error.
Variable conn_UseKeyspace : Conn -> string -> option error.

(** X5: [connect] makes one dial.  If the dial fails, its error is
    returned and the pool is as it was.  A connection that was dialled is
    either appended to [conns], and the policy then holds a copy of the new
    [conns], or it is closed, once, and [conns] is as it was: closed
    because [UseKeyspace] failed, whose error is returned, or because the
    pool is closed, in which case [connect] returns no error. *)
Theorem connect_appends_or_closes pool w p :
  pools w !! pool = Some p ->
  conns_ok w p -> conns_dialed w p ->
  exists err w' tr,
    connect session_connect conn_UseKeyspace pool w = Ok err w' tr /\
    ndials w' = S (ndials w) /\
    count is_Dial tr = 1 /\
    (forall e, session_connect (addr p) (ndials w) = Some e ->
       err = Some e /\ w' = dialed w /\ count is_ConnClose tr = 0) /\
    (session_connect (addr p) (ndials w) = None ->
     (forall e, useKeyspace_result conn_UseKeyspace p (Some (ndials w)) = Some e ->
        err = Some e /\ w' = dialed w /\
        filter (fun ev => is_ConnClose ev = true) tr = [ConnClose (Some (ndials w))]) /\
     (useKeyspace_result conn_UseKeyspace p (Some (ndials w)) = None ->
      closed p = true ->
        err = None /\ w' = dialed w /\
        filter (fun ev => is_ConnClose ev = true) tr = [ConnClose (Some (ndials w))]) /\
     (useKeyspace_result conn_UseKeyspace p (Some (ndials w)) = None ->
      closed p = false ->
        err = None /\
        pool_conns w' pool = pool_conns w pool ++ [Some (ndials w)] /\
        policy_conns w' pool = pool_conns w' pool /\
        count is_ConnClose tr = 0)).
Proof.
  intros Hp Hok Hd. rewrite (connect_run _ _ _ _ _ Hp).
  destruct (session_connect (addr p) (ndials w)) as [e|] eqn:Hdial.
  { eexists _, _, _. split; [reflexivity|]. split; [reflexivity|].
    split; [reflexivity|]. split; [|discriminate].
    intros e' [= <-]. auto. }
  assert (Hku : forall t, count is_Dial ((Dial (addr p) :: useKeyspace_events p (Some (ndials w))) ++ t)
                          = 1 + count is_Dial t).
  { intros t. rewrite count_app, count_cons.
    destruct (dial_trace_useKeyspace pool p (Some (ndials w))) as (-> & _). reflexivity. }
  assert (Hkc : forall t, filter (fun ev => is_ConnClose ev = true)
                            ((Dial (addr p) :: useKeyspace_events p (Some (ndials w))) ++ t)
                          = filter (fun ev => is_ConnClose ev = true) t).
  { intros t. unfold useKeyspace_events. case_bool_decide; reflexivity. }
  destruct (useKeyspace_result conn_UseKeyspace p (Some (ndials w))) as [e|] eqn:Hks.
  { cbn [prefix]. eexists _, _, _. split; [reflexivity|]. split; [reflexivity|].
    split; [rewrite Hku; reflexivity|]. split; [discriminate|]. intros _.
    split; [|split; discriminate].
    intros e' [= <-]. rewrite Hkc. auto. }
  destruct (closed p) eqn:Hc.
  - erewrite connect_add_closed by (simpl; eauto). cbn [prefix].
    eexists _, _, _. split; [reflexivity|]. split; [reflexivity|].
    split; [rewrite Hku; reflexivity|]. split; [discriminate|]. intros _.
    split; [discriminate|]. split; [|discriminate].
    intros _ _. rewrite Hkc. auto.
  - erewrite connect_add_open by (simpl; eauto). cbn [prefix].
    destruct (conns_appended w p pool Hp Hok Hd) as (_ & _ & H3 & H4).
    cbv zeta in H3, H4.
    eexists _, _, _. split; [reflexivity|]. split; [reflexivity|].
    split; [rewrite Hku; reflexivity|]. split; [discriminate|]. intros _.
    split; [discriminate|]. split; [discriminate|].
    intros _ _. split; [reflexivity|].
    unfold pool_conns, policy_conns. cbn [pools dialed heap ndials].
    rewrite (lookup_insert_pool _ _ _ _ Hp), Hp.
    split; [exact H3|]. split; [exact H4|].
    unfold count. rewrite Hkc. reflexivity.
Qed.

End ConnectFate.

Lemma conns_ok_world_A2 : conns_ok world_A2 pool_A2.
Proof. split; [simpl; lia|]. compute_done. Defined.

Lemma conns_dialed_world_A2 : conns_dialed world_A2 pool_A2.
Proof.
  intros x Hx. simpl in Hx.
  apply elem_of_cons in Hx as [->|Hx]; [exists 0; split; [done|simpl; lia]|].
  apply list_elem_of_singleton in Hx as ->. exists 1. split; [done|simpl; lia].
Defined.

Lemma connect_appends_or_closes_witness :
  exists err w' tr,
    connect dial_only_A keyspace_ok 0 world_A2 = Ok err w' tr /\
    ndials w' = 3 /\ count is_Dial tr = 1 /\
    err = None /\ pool_conns w' 0 = [Some 0; Some 1; Some 2] /\
    policy_conns w' 0 = pool_conns w' 0 /\ count is_ConnClose tr = 0.
Proof.
  destruct (connect_appends_or_closes dial_only_A keyspace_ok 0 world_A2 pool_A2 eq_refl
              conns_ok_world_A2 conns_dialed_world_A2)
    as (err & w' & tr & Hrun & Hn & Hd & _ & H).
  destruct (H eq_refl) as (_ & _ & Hopen).
  destruct (Hopen eq_refl eq_refl) as (He & Hc & Hs & Hz).
  exists err, w', tr. auto 10.
Defined.

(** ** [hostConnPool.Pick] on a pool that holds connections *)

Section PickOpen.
Variable connPolicy_Pick : list Conn -> nat -> Query -> Conn.

Lemma hostConnPool_Pick_open_run pool qry p w :
  pools w !! pool = Some p ->
  closed p = false ->
  hostConnPool_Pick connPolicy_Pick pool qry w
  = if (Z.of_nat (slen (conns p)) <? size p)%Z && (Z.of_nat (slen (conns p)) =? 0)%Z
    then Ok None w [RLock (PoolMu pool); RUnlock (PoolMu pool); Go (TFill pool)]
    else Ok (connPolicy_Pick (policy_conns w pool) (pc_picks (policy p)) qry)
            (mkWorld (heap w)
               (<[pool := set_policy (mkPolicy (pc_conns (policy p))
                                        (S (pc_picks (policy p)))) p]> (pools w))
               (ndials w))
            ([RLock (PoolMu pool); RUnlock (PoolMu pool)]
             ++ (if (Z.of_nat (slen (conns p)) <? size p)%Z then [Go (TFill pool)] else [])
             ++ [PolicyPick pool qry]).
Proof.
  intros Hp Hc. unfold hostConnPool_Pick, policy_conns.
  rewrite run_emit, (run_get_pool _ _ _ _ Hp), Hc, run_emit, Hp.
  destruct (Z.of_nat (slen (conns p)) <? size p)%Z.
  - rewrite run_assoc, run_go, run_ret.
    destruct (Z.of_nat (slen (conns p)) =? 0)%Z; [reflexivity|].
    rewrite (policy_Pick_run _ _ _ _ _ Hp). reflexivity.
  - rewrite run_ret. rewrite (policy_Pick_run _ _ _ _ _ Hp). reflexivity.
Qed.

(** X6: on an open pool that holds a connection, [Pick] returns what the
    connection selection policy picks among the connections it was last
    given; it starts a [fill] first if the pool is below its target size.
    The policy has served one more pick; the connections, the flags and
    the heap are as they were. *)
Theorem hostConnPool_Pick_asks_policy pool qry w p :
  pools w !! pool = Some p ->
  closed p = false ->
  0 < slen (conns p) ->
  exists w',
    hostConnPool_Pick connPolicy_Pick pool qry w
    = Ok (connPolicy_Pick (policy_conns w pool) (pc_picks (policy p)) qry) w'
        ([RLock (PoolMu pool); RUnlock (PoolMu pool)]
         ++ (if (Z.of_nat (slen (conns p)) <? size p)%Z then [Go (TFill pool)] else [])
         ++ [PolicyPick pool qry]) /\
    pools w' !! pool
    = Some (set_policy (mkPolicy (pc_conns (policy p)) (S (pc_picks (policy p)))) p) /\
    heap w' = heap w /\ ndials w' = ndials w /\
    pool_conns w' pool = pool_conns w pool /\
    policy_conns w' pool = policy_conns w pool /\
    others_untouched pool w w'.
Proof.
  intros Hp Hc Hpos. rewrite (hostConnPool_Pick_open_run _ _ _ _ Hp Hc).
  assert ((Z.of_nat (slen (conns p)) =? 0)%Z = false) as -> by (apply Z.eqb_neq; lia).
  rewrite andb_false_r.
  eexists. split; [reflexivity|].
  pose proof (lookup_insert_pool _ pool _
                (set_policy (mkPolicy (pc_conns (policy p)) (S (pc_picks (policy p)))) p) Hp)
    as Hp'.
  split; [exact Hp'|]. split; [reflexivity|]. split; [reflexivity|].
  unfold pool_conns, policy_conns. cbn [pools heap]. rewrite Hp', Hp.
  split; [reflexivity|]. split; [reflexivity|].
  eapply others_untouched_insert. reflexivity.
Qed.

End PickOpen.

Lemma hostConnPool_Pick_asks_policy_witness :
  exists w',
    hostConnPool_Pick pick_first 0 7 world_A2_lost
    = Ok (Some 1) w'
        [RLock (PoolMu 0); RUnlock (PoolMu 0); Go (TFill 0); PolicyPick 0 7] /\
    pools w' !! 0
    = Some (set_policy (mkPolicy (Slice 3 1 1) 1) pool_A2_lost) /\
    heap w' = heap world_A2_lost /\ ndials w' = 2 /\
    pool_conns w' 0 = [Some 1] /\
    policy_conns w' 0 = [Some 1] /\
    others_untouched 0 world_A2_lost w'.
Proof.
  apply (hostConnPool_Pick_asks_policy pick_first 0 7 world_A2_lost pool_A2_lost
           eq_refl eq_refl).
  simpl. lia.
Defined.

(** ** [HandleError] calls that change nothing *)

(** X7: [HandleError] with [closed] false returns at once, without taking
    the lock; with [closed] true, for a connection that an open pool does
    not hold, it takes and releases the lock and does nothing else: the
    store is as it was, the policy is given nothing, no [fill] is started. *)
Theorem HandleError_leaves_pool pool w p conn err :
  pools w !! pool = Some p ->
  HandleError pool conn err false w = Ok tt w [] /\
  (conn ∉ pool_conns w pool ->
   HandleError pool conn err true w
   = Ok tt w [Lock (PoolMu pool); Unlock (PoolMu pool)]).
Proof.
  intros Hp. split; [reflexivity|].
  unfold pool_conns. rewrite Hp. intros Hnot.
  destruct (closed p) eqn:Hc.
  - apply (HandleError_closed_run _ _ _ _ _ Hp Hc).
  - apply (HandleError_absent _ _ _ _ _ Hp Hnot).
Qed.

Lemma HandleError_leaves_pool_witness :
  HandleError 0 (Some 5) (OpError "read") false world_A2 = Ok tt world_A2 [] /\
  HandleError 0 (Some 5) (OpError "read") true world_A2
  = Ok tt world_A2 [Lock (PoolMu 0); Unlock (PoolMu 0)].
Proof.
  destruct (HandleError_leaves_pool 0 world_A2 pool_A2 (Some 5) (OpError "read") eq_refl)
    as [H1 H2].
  split; [exact H1|]. apply H2. simpl. intros H.
  apply elem_of_cons in H as [H|H]; [discriminate|].
  apply elem_of_cons in H as [H|H]; [discriminate|]. inversion H.
Defined.

(** ** [Close] and the [drain] it starts *)

Lemma reslice_0_0_twice s : reslice_0_0 (reslice_0_0 s) = reslice_0_0 s.
Proof. destruct s; reflexivity. Qed.

Lemma elems_reslice_0_0 h s : elems h (reslice_0_0 s) = [].
Proof. destruct s; reflexivity. Qed.

Lemma drain_run_exact pool w p :
  pools w !! pool = Some p ->
  drain pool w
  = Ok tt (mkWorld (heap w)
             (<[pool := set_policy (mkPolicy SliceNil (pc_picks (policy p)))
                          (set_conns (reslice_0_0 (conns p)) p)]> (pools w))
             (ndials w))
      (Lock (PoolMu pool) :: SetConns pool SliceNil ::
         map ConnClose (elems (heap w) (conns p)) ++ [Unlock (PoolMu pool)]).
Proof.
  intros Hp. unfold drain, policy_SetConns, go_range.
  rewrite run_emit, (run_get_pool _ _ _ _ Hp).
  assert (go_reslice_0_0 (conns p) = ret (reslice_0_0 (conns p))) as ->
    by (destruct (conns p); reflexivity).
  rewrite run_ret, (run_modify_pool _ _ _ _ _ Hp).
  rewrite run_assoc, run_emit.
  erewrite run_modify_pool by (simpl; eapply lookup_insert_pool; eauto).
  simpl. rewrite list_insert_insert_eq.
  unfold bind at 1. simpl. rewrite run_close_all. unfold emit. simpl.
  rewrite ?app_nil_r. reflexivity.
Qed.

(** X8: [Close] on an open pool raises [closed] and starts one [drain].
    That [drain], run on the store [Close] leaves, closes the connections
    the pool held, each once and in order, under the lock, gives the policy
    nil, and leaves the pool closed and empty; the heap and the other pools
    are as before [Close].  On the store so reached a further [drain]
    closes nothing and a further [Close] starts nothing: both leave the
    store as it is. *)
Theorem Close_then_drain pool w p :
  pools w !! pool = Some p ->
  closed p = false ->
  exists w1 w2 p2,
    hostConnPool_Close pool w
    = Ok tt w1 [Lock (PoolMu pool); Go (TDrain pool); Unlock (PoolMu pool)] /\
    drain pool w1
    = Ok tt w2 (Lock (PoolMu pool) :: SetConns pool SliceNil ::
                  map ConnClose (pool_conns w pool) ++ [Unlock (PoolMu pool)]) /\
    pools w2 !! pool = Some p2 /\
    closed p2 = true /\ filling p2 = filling p /\ size p2 = size p /\
    pool_conns w2 pool = [] /\ pc_conns (policy p2) = SliceNil /\
    heap w2 = heap w /\ ndials w2 = ndials w /\ others_untouched pool w w2 /\
    drain pool w2
    = Ok tt w2 [Lock (PoolMu pool); SetConns pool SliceNil; Unlock (PoolMu pool)] /\
    hostConnPool_Close pool w2 = Ok tt w2 [Lock (PoolMu pool); Unlock (PoolMu pool)].
Proof.
  intros Hp Hc.
  set (p1 := set_closed true p).
  set (w1 := mkWorld (heap w) (<[pool := p1]> (pools w)) (ndials w)).
  assert (Hp1 : pools w1 !! pool = Some p1) by (eapply lookup_insert_pool; eauto).
  set (p2 := set_policy (mkPolicy SliceNil (pc_picks (policy p1)))
               (set_conns (reslice_0_0 (conns p1)) p1)).
  set (w2 := mkWorld (heap w1) (<[pool := p2]> (pools w1)) (ndials w1)).
  assert (Hp2 : pools w2 !! pool = Some p2) by (eapply lookup_insert_pool; eauto).
  exists w1, w2, p2.
  split; [apply (Close_open _ _ _ Hp Hc)|].
  split.
  { rewrite (drain_run_exact _ _ _ Hp1). unfold pool_conns. rewrite Hp. reflexivity. }
  split; [exact Hp2|]. split; [reflexivity|]. split; [reflexivity|].
  split; [reflexivity|].
  split; [unfold pool_conns; rewrite Hp2; apply elems_reslice_0_0|].
  split; [reflexivity|]. split; [reflexivity|]. split; [reflexivity|].
  split.
  { apply (others_untouched_trans pool w w1 w2);
      eapply others_untouched_insert; reflexivity. }
  split.
  - rewrite (drain_run_exact _ _ _ Hp2).
    replace (set_policy (mkPolicy SliceNil (pc_picks (policy p2)))
               (set_conns (reslice_0_0 (conns p2)) p2)) with p2
      by (unfold p2; cbn [set_policy set_conns conns policy pc_picks host port addr size
                            keyspace closed filling];
          rewrite reslice_0_0_twice; reflexivity).
    rewrite list_insert_id by exact Hp2.
    replace (elems (heap w2) (conns p2)) with (@nil Conn)
      by (symmetry; apply elems_reslice_0_0).
    destruct w2; reflexivity.
  - apply (Close_closed _ _ _ Hp2). reflexivity.
Qed.

Lemma Close_then_drain_witness :
  exists w1 w2 p2,
    hostConnPool_Close 0 world_A2
    = Ok tt w1 [Lock (PoolMu 0); Go (TDrain 0); Unlock (PoolMu 0)] /\
    drain 0 w1
    = Ok tt w2 [Lock (PoolMu 0); SetConns 0 SliceNil; ConnClose (Some 0);
                ConnClose (Some 1); Unlock (PoolMu 0)] /\
    pools w2 !! 0 = Some p2 /\
    closed p2 = true /\ filling p2 = false /\ size p2 = 2%Z /\
    pool_conns w2 0 = [] /\ pc_conns (policy p2) = SliceNil /\
    heap w2 = heap world_A2 /\ ndials w2 = 2 /\ others_untouched 0 world_A2 w2 /\
    drain 0 w2 = Ok tt w2 [Lock (PoolMu 0); SetConns 0 SliceNil; Unlock (PoolMu 0)] /\
    hostConnPool_Close 0 w2 = Ok tt w2 [Lock (PoolMu 0); Unlock (PoolMu 0)].
Proof.
  apply (Close_then_drain 0 world_A2 pool_A2 eq_refl eq_refl).
Defined.

(** ** [connectMany] *)

Section ConnectMany.
Variable session_connect : string -> nat -> option error.
Variable conn_UseKeyspace : Conn -> string -> option error.

(** X9: [connectMany(0)] returns at once; a negative count panics in
    [wg.Add] before anything is started; a positive count starts that many
    dialers, each of which makes one dial, and then waits for them.
    Nothing else is started.  The pool has at most [count] connections
    more, none more if it is closed, and its flags are as they were. *)
Theorem connectMany_counts pool count_ w p :
  pools w !! pool = Some p ->
  (count_ = 0%Z ->
   connectMany session_connect conn_UseKeyspace pool count_ w = Ok tt w []) /\
  ((count_ < 0)%Z ->
   connectMany session_connect conn_UseKeyspace pool count_ w
   = Panics NegativeWaitGroup []) /\
  ((0 < count_)%Z ->
   exists w' tr p',
     connectMany session_connect conn_UseKeyspace pool count_ w
     = Ok tt w' (tr ++ [WaitGroupWait]) /\
     count is_Dial tr = Z.to_nat count_ /\
     count (is_GoConnect pool) tr = Z.to_nat count_ /\
     count is_Go tr = Z.to_nat count_ /\
     ndials w' = ndials w + Z.to_nat count_ /\
     pools w' !! pool = Some p' /\
     closed p' = closed p /\ filling p' = filling p /\ size p' = size p /\
     slen (conns p) <= slen (conns p') <= slen (conns p) + Z.to_nat count_ /\
     (closed p = true -> pool_conns w' pool = pool_conns w pool)).
Proof.
  intros Hp. unfold connectMany. split; [|split].
  - intros ->. reflexivity.
  - intros Hneg.
    assert ((count_ =? 0)%Z = false) as -> by (apply Z.eqb_neq; lia).
    assert ((count_ <? 0)%Z = true) as -> by (apply Z.ltb_lt; lia). reflexivity.
  - intros Hpos.
    assert ((count_ =? 0)%Z = false) as -> by (apply Z.eqb_neq; lia).
    assert ((count_ <? 0)%Z = false) as -> by (apply Z.ltb_ge; lia).
    destruct (connectMany_loop_effect session_connect conn_UseKeyspace pool
                (Z.to_nat count_) p w Hp)
      as (w' & tr & Hrun & (p' & Hp' & Hcfg & Hc & Hf & _ & Hn & Hl & Hcl) & (Hd & Hg & Hgo)).
    rewrite (run_bind_Ok _ _ _ _ _ _ Hrun). unfold emit. cbn [prefix].
    exists w', tr, p'. split; [reflexivity|].
    repeat (split; [first [assumption | apply Hcfg]|]).
    intros Hclosed. destruct (Hcl Hclosed) as [E1 E2].
    unfold pool_conns. rewrite Hp', Hp, E1, E2. reflexivity.
Qed.

End ConnectMany.

Lemma connectMany_counts_witness :
  exists w' tr p',
    connectMany dial_only_A keyspace_ok 0 2 world_A2_closed
    = Ok tt w' (tr ++ [WaitGroupWait]) /\
    count is_Dial tr = 2 /\
    count (is_GoConnect 0) tr = 2 /\
    count is_Go tr = 2 /\
    ndials w' = 4 /\
    pools w' !! 0 = Some p' /\
    closed p' = true /\ filling p' = false /\ size p' = 2%Z /\
    pool_conns w' 0 = [Some 0; Some 1].
Proof.
  destruct (connectMany_counts dial_only_A keyspace_ok 0 2 world_A2_closed
              (set_closed true pool_A2) eq_refl) as (_ & _ & H).
  destruct H as (w' & tr & p' & H1 & H2 & H3 & H4 & H5 & H6 & H7 & H8 & H9 & _ & H10);
    [lia|].
  exists w', tr, p'. repeat (split; [assumption|]). apply H10. reflexivity.
Defined.

(** ** More of what holds in every state of a pool *)

Section Reached.
Variable JoinHostPort : string -> Z -> string.
Variable session_connect : string -> nat -> option error.
Variable conn_UseKeyspace : Conn -> string -> option error.
Variable connPolicy_Pick : list Conn -> nat -> Query -> Conn.

(** X10: in every state a pool reaches, at most one goroutine is between
    taking the filling flag in [fill] and lowering it in [fillingStopped],
    and none is when [filling] is false; the connections held and the dials
    that goroutine may still make are together at most [size]. *)
Theorem one_fill_at_a_time pool c :
  reachable JoinHostPort session_connect conn_UseKeyspace connPolicy_Pick pool c ->
  exists p,
    pools (cw c) !! pool = Some p /\
    actives (threads c) <= 1 /\
    (filling p = false -> actives (threads c) = 0) /\
    (Z.of_nat (slen (conns p)) + budgets (threads c) <= size p)%Z.
Proof.
  intros Hr. destruct (reachable_inv _ _ _ _ _ _ Hr) as (p & Hp & _ & _ & Hb & Ha & Hf).
  exists p. auto.
Qed.

(** X11: in every state a pool reaches, [conns] lies within its backing
    array, holds no connection twice and holds no nil: each of its
    connections is the one returned by a dial already made. *)
Theorem pool_conns_distinct_and_dialed pool c :
  reachable JoinHostPort session_connect conn_UseKeyspace connPolicy_Pick pool c ->
  exists p,
    pools (cw c) !! pool = Some p /\
    slice_ok (heap (cw c)) (conns p) /\
    NoDup (pool_conns (cw c) pool) /\
    (None ∉ pool_conns (cw c) pool) /\
    forall x, x ∈ pool_conns (cw c) pool -> exists k, x = Some k /\ k < ndials (cw c).
Proof.
  intros Hr. destruct (reachable_inv _ _ _ _ _ _ Hr) as (p & Hp & [Hok Hnd] & Hd & _).
  exists p. unfold pool_conns. rewrite Hp.
  split; [reflexivity|]. split; [exact Hok|]. split; [exact Hnd|].
  split; [|exact Hd].
  intros Hnil. destruct (Hd _ Hnil) as (k & Hk & _). discriminate.
Qed.

End Reached.

(** The same run of [fill], stopped after the first dial. *)
Lemma reachable_world_A2_one :
  reachable join_plain dial_only_A keyspace_ok pick_first 0
    (mkConfig world_A2_one [FillMany 1]).
Proof.
  exists (mkConfig world_alloc_A2 [CallFill]). split.
  - exists empty_world, hostA, 9042%Z, 2%Z, "", connPolicy, []. split; reflexivity.
  - apply (rtc_l _ _ (mkConfig world_alloc_A2 [FillChecked])).
    { apply (run_thread_alone CallFill world_alloc_A2 (Some FillChecked) world_alloc_A2
               [RLock (PoolMu 0); RUnlock (PoolMu 0)]); vm_compute; reflexivity. }
    apply (rtc_l _ _ (mkConfig world_A2_flag [FillFirst 2])).
    { apply (run_thread_alone FillChecked world_alloc_A2 (Some (FillFirst 2)) world_A2_flag
               [Lock (PoolMu 0); Unlock (PoolMu 0)]); vm_compute; reflexivity. }
    apply (rtc_l _ _ (mkConfig world_A2_one [FillMany 1])).
    { apply (run_thread_alone (FillFirst 2) world_A2_flag (Some (FillMany 1)) world_A2_one
               [Dial "A"; Lock (PoolMu 0); SetConns 0 (Slice 1 1 1); Unlock (PoolMu 0)]);
        vm_compute; reflexivity. }
    apply rtc_refl.
Defined.

Lemma one_fill_at_a_time_witness :
  exists p,
    pools world_A2_one !! 0 = Some p /\
    actives [FillMany 1] <= 1 /\
    (filling p = false -> actives [FillMany 1] = 0) /\
    (Z.of_nat (slen (conns p)) + budgets [FillMany 1] <= size p)%Z.
Proof.
  apply (one_fill_at_a_time join_plain dial_only_A keyspace_ok pick_first 0
           (mkConfig world_A2_one [FillMany 1]) reachable_world_A2_one).
Defined.

Lemma pool_conns_distinct_and_dialed_witness :
  exists p,
    pools world_A2 !! 0 = Some p /\
    slice_ok (heap world_A2) (conns p) /\
    NoDup (pool_conns world_A2 0) /\
    (None ∉ pool_conns world_A2 0) /\
    forall x, x ∈ pool_conns world_A2 0 -> exists k, x = Some k /\ k < 2.
Proof.
  apply (pool_conns_distinct_and_dialed join_plain dial_only_A keyspace_ok pick_first 0
           (mkConfig world_A2 []) reachable_world_A2).
Defined.

(** ** The policy sees the connections of the pool *)

Lemma in_sync_same pool w w' p p' :
  pools w !! pool = Some p ->
  pools w' !! pool = Some p' ->
  heap w' = heap w ->
  conns p' = conns p ->
  pc_conns (policy p') = pc_conns (policy p) ->
  in_sync pool w -> in_sync pool w'.
Proof.
  unfold in_sync, policy_conns, pool_conns. intros -> -> -> -> ->. done.
Qed.

Lemma in_sync_insert pool w p p' :
  pools w !! pool = Some p ->
  conns p' = conns p ->
  pc_conns (policy p') = pc_conns (policy p) ->
  in_sync pool w ->
  in_sync pool (mkWorld (heap w) (<[pool := p']> (pools w)) (ndials w)).
Proof.
  intros Hp Hc Hpc. eapply in_sync_same; [exact Hp| |reflexivity|exact Hc|exact Hpc].
  simpl. eapply lookup_insert_pool; eauto.
Qed.

Section Sync.
Variable session_connect : string -> nat -> option error.
Variable conn_UseKeyspace : Conn -> string -> option error.
Variable connPolicy_Pick : list Conn -> nat -> Query -> Conn.

Lemma connect_sync pool p w err w' tr :
  pools w !! pool = Some p ->
  conns_ok w p -> conns_dialed w p ->
  in_sync pool w ->
  connect session_connect conn_UseKeyspace pool w = Ok err w' tr ->
  in_sync pool w'.
Proof.
  intros Hp Hok Hd Hsync. rewrite (connect_run _ _ _ _ _ Hp).
  assert (Hsame : in_sync pool (dialed w)).
  { eapply in_sync_same; [exact Hp|exact Hp|reflexivity..|exact Hsync]. }
  destruct (session_connect (addr p) (ndials w)) as [e|]; [intros [= <- <- <-]; exact Hsame|].
  destruct (useKeyspace_result _ _ _) as [e|];
    [cbn [prefix]; intros [= <- <- <-]; exact Hsame|].
  destruct (closed p) eqn:Hc.
  - erewrite connect_add_closed by (simpl; eauto). cbn [prefix].
    intros [= <- <- <-]. exact Hsame.
  - erewrite connect_add_open by (simpl; eauto). cbn [prefix].
    intros [= <- <- <-].
    destruct (conns_appended w p pool Hp Hok Hd) as (_ & _ & _ & H4). cbv zeta in H4.
    unfold in_sync, policy_conns, pool_conns. cbn [pools dialed heap ndials].
    rewrite (lookup_insert_pool _ _ _ _ Hp). exact H4.
Qed.

Lemma connect_and_log_sync pool p w w' tr :
  pools w !! pool = Some p ->
  conns_ok w p -> conns_dialed w p ->
  in_sync pool w ->
  connect_and_log session_connect conn_UseKeyspace pool w = Ok tt w' tr ->
  in_sync pool w'.
Proof.
  intros Hp Hok Hd Hsync Hrun.
  destruct (connect_keeps session_connect conn_UseKeyspace pool p w Hp Hok Hd)
    as (err & w1 & tr1 & p1 & Hrun1 & Hp1 & _).
  unfold connect_and_log in Hrun. rewrite (run_bind_Ok _ _ _ _ _ _ Hrun1) in Hrun.
  rewrite (logConnectErr_run _ _ _ _ Hp1) in Hrun. cbn [prefix] in Hrun.
  injection Hrun as <- _.
  exact (connect_sync pool p w err w1 tr1 Hp Hok Hd Hsync Hrun1).
Qed.

Lemma thread_step_sync pool t p w next w' tr :
  pools w !! pool = Some p ->
  conns_ok w p -> conns_dialed w p ->
  in_sync pool w ->
  thread_step session_connect conn_UseKeyspace pool t w = Ok next w' tr ->
  in_sync pool w'.
Proof.
  intros Hp Hok Hd Hsync Hrun.
  destruct t as [| |fc|n| |]; cbn [thread_step] in Hrun.
  - rewrite (run_bind_Ok _ _ _ _ _ _ (fill_check_run _ _ _ Hp)) in Hrun.
    injection Hrun as _ <- _. exact Hsync.
  - unfold bind in Hrun. rewrite (fill_begin_run _ _ _ Hp) in Hrun.
    destruct (wants_fill p).
    + assert (w' = filling_set true pool w) as ->.
      { destruct (Z.of_nat (slen (conns p)) =? 0)%Z; cbn in Hrun;
          injection Hrun as _ <- _; reflexivity. }
      unfold filling_set. rewrite Hp. eapply in_sync_insert; eauto.
    + injection Hrun as _ <- _. exact Hsync.
  - destruct (connect_keeps session_connect conn_UseKeyspace pool p w Hp Hok Hd)
      as (err & w1 & tr1 & p1 & Hrun1 & Hp1 & _).
    rewrite (run_bind_Ok _ _ _ _ _ _ Hrun1) in Hrun.
    rewrite (run_bind_Ok _ _ _ _ _ _ (logConnectErr_run _ _ _ _ Hp1)) in Hrun.
    assert (w' = w1) as -> by (destruct err; cbn in Hrun; injection Hrun as _ <- _; reflexivity).
    exact (connect_sync pool p w err w1 tr1 Hp Hok Hd Hsync Hrun1).
  - destruct n as [|n].
    + rewrite (run_bind_Ok _ _ _ _ _ _ (fillingStopped_run _ _ _ Hp)) in Hrun.
      cbn in Hrun. injection Hrun as _ <- _. eapply in_sync_insert; eauto.
    + rewrite run_go in Hrun.
      destruct (connect_and_log_keeps session_connect conn_UseKeyspace pool p w Hp Hok Hd)
        as (w1 & tr1 & p1 & Hrun1 & _).
      rewrite (run_bind_Ok _ _ _ _ _ _ Hrun1) in Hrun.
      cbn in Hrun. injection Hrun as _ <- _.
      exact (connect_and_log_sync pool p w w1 tr1 Hp Hok Hd Hsync Hrun1).
  - rewrite (run_bind_Ok _ _ _ _ _ _ (fillingStopped_run _ _ _ Hp)) in Hrun.
    pose proof (lookup_insert_pool _ pool _ (set_filling false p) Hp) as Hp1.
    erewrite run_get_pool in Hrun by (simpl; exact Hp1).
    cbn in Hrun. injection Hrun as _ <- _. eapply in_sync_insert; eauto.
  - rewrite (run_bind_Ok _ _ _ _ _ _ (drain_run_exact _ _ _ Hp)) in Hrun.
    cbn in Hrun. injection Hrun as _ <- _.
    unfold in_sync, policy_conns, pool_conns. cbn [pools heap].
    rewrite (lookup_insert_pool _ _ _ _ Hp).
    cbn [policy conns set_policy set_conns pc_conns elems].
    rewrite elems_reslice_0_0. reflexivity.
Qed.

Lemma run_call_sync pool c p w w' tr :
  pools w !! pool = Some p ->
  conns_ok w p ->
  in_sync pool w ->
  run_call connPolicy_Pick pool c w = Ok tt w' tr ->
  in_sync pool w'.
Proof.
  intros Hp [Hok Hnd] Hsync Hrun.
  destruct c as [qry| | |conn err b|]; cbn [run_call] in Hrun.
  - destruct (hostConnPool_Pick_effect connPolicy_Pick pool qry p w Hp)
      as (c & pol & tr0 & Hpick & Hcl & _).
    destruct (closed p) eqn:Hc.
    + destruct (Hcl eq_refl) as [-> ->].
      rewrite (run_bind_Ok _ _ _ _ _ _ Hpick) in Hrun. cbn in Hrun.
      injection Hrun as <- _. eapply in_sync_insert; eauto.
    + clear Hpick. unfold bind in Hrun.
      rewrite (hostConnPool_Pick_open_run _ _ _ _ _ Hp Hc) in Hrun.
      destruct (_ && _); cbn in Hrun; injection Hrun as <- _;
        [exact Hsync|eapply in_sync_insert; eauto].
  - rewrite (run_bind_Ok _ _ _ _ _ _ (hostConnPool_Size_run _ _ _ Hp)) in Hrun.
    cbn in Hrun. injection Hrun as <- _. exact Hsync.
  - destruct (Close_run pool w p Hp) as (w1 & tr1 & Hcl & Hh & Hps).
    rewrite Hcl in Hrun. injection Hrun as <- _.
    eapply in_sync_same; [exact Hp| |exact Hh| | |exact Hsync].
    + rewrite Hps. eapply lookup_insert_pool; eauto.
    + reflexivity.
    + reflexivity.
  - destruct b; [|cbn in Hrun; injection Hrun as <- _; exact Hsync].
    destruct (closed p) eqn:Hc.
    { rewrite (HandleError_closed_run _ _ _ _ _ Hp Hc) in Hrun.
      injection Hrun as <- _. exact Hsync. }
    destruct (decide (conn ∈ elems (heap w) (conns p))) as [Hin|Hnot].
    2:{ rewrite (HandleError_absent _ _ _ _ _ Hp Hnot) in Hrun.
        injection Hrun as <- _. exact Hsync. }
    destruct (index_of_elem _ _ Hin) as [i Hi].
    destruct (conns p) as [|a n cp] eqn:Hs; [inversion Hin|].
    rewrite <- Hs in Hok, Hi.
    destruct (HandleError_range_found pool w p conn a n cp i Hp Hs Hok Hi)
      as (h1 & Hrange & _ & He1 & He2 & _).
    rewrite (HandleError_open_run _ _ _ _ _ Hp Hc), Hrange in Hrun.
    cbn in Hrun. injection Hrun as <- _.
    unfold in_sync, policy_conns, pool_conns. cbn [pools heap].
    rewrite (lookup_insert_pool _ _ _ _ Hp).
    cbn [policy conns set_policy set_conns pc_conns]. rewrite He1, He2. reflexivity.
  - cbn in Hrun. injection Hrun as <- _. exact Hsync.
Qed.

Lemma step_sync pool c c' :
  pool_inv pool c ->
  in_sync pool (cw c) ->
  step session_connect conn_UseKeyspace connPolicy_Pick pool c c' ->
  in_sync pool (cw c').
Proof.
  intros (p & Hp & Hok & Hd & _) Hsync Hstep.
  destruct Hstep as [cl w ths w' tr Hrun|t w l1 l2 next w' tr Hrun]; cbn [cw] in *.
  - eapply run_call_sync; eauto.
  - eapply thread_step_sync; eauto.
Qed.

End Sync.

Section SyncReached.
Variable JoinHostPort : string -> Z -> string.
Variable session_connect : string -> nat -> option error.
Variable conn_UseKeyspace : Conn -> string -> option error.
Variable connPolicy_Pick : list Conn -> nat -> Query -> Conn.

(** X12: if the policy given to [newHostConnPool] holds no connection, then
    in every state the pool reaches the policy holds exactly the
    connections of the pool, in the order of [conns]: every critical
    section that changes [conns] hands the policy a copy of the new
    [conns] before it releases the lock. *)
Theorem policy_holds_pool_conns pool c0 c :
  initial JoinHostPort pool c0 ->
  policy_conns (cw c0) pool = [] ->
  rtc (step session_connect conn_UseKeyspace connPolicy_Pick pool) c0 c ->
  policy_conns (cw c) pool = pool_conns (cw c) pool.
Proof.
  intros Hinit Hnil Hsteps.
  assert (Hsync0 : in_sync pool (cw c0)).
  { unfold in_sync. rewrite Hnil.
    destruct Hinit as (w0 & host_ & port_ & size_ & ks & pol & tr & Halloc & _).
    unfold alloc_hostConnPool, bind, go_make in Halloc.
    destruct ((0 <? 0) || (size_ <? 0))%Z; [discriminate|].
    cbn in Halloc. injection Halloc as <- <- _.
    unfold pool_conns. cbn [pools heap].
    rewrite list_lookup_middle by reflexivity. reflexivity. }
  pose proof (initial_inv JoinHostPort pool c0 Hinit) as Hinv0.
  clear Hinit Hnil.
  induction Hsteps as [c|c1 c2 c3 Hstep _ IH]; [exact Hsync0|].
  apply IH.
  - eapply step_sync; eauto.
  - eapply step_kept; eauto.
Qed.

End SyncReached.

Lemma initial_world_alloc_A2 :
  initial join_plain 0 (mkConfig world_alloc_A2 [CallFill]).
Proof.
  exists empty_world, hostA, 9042%Z, 2%Z, "", connPolicy, []. split; reflexivity.
Defined.

Lemma steps_world_A2 :
  rtc (step dial_only_A keyspace_ok pick_first 0)
    (mkConfig world_alloc_A2 [CallFill]) (mkConfig world_A2 []).
Proof.
  apply (rtc_l _ _ (mkConfig world_alloc_A2 [FillChecked])).
  { apply (run_thread_alone CallFill world_alloc_A2 (Some FillChecked) world_alloc_A2
             [RLock (PoolMu 0); RUnlock (PoolMu 0)]); vm_compute; reflexivity. }
  apply (rtc_l _ _ (mkConfig world_A2_flag [FillFirst 2])).
  { apply (run_thread_alone FillChecked world_alloc_A2 (Some (FillFirst 2)) world_A2_flag
             [Lock (PoolMu 0); Unlock (PoolMu 0)]); vm_compute; reflexivity. }
  apply (rtc_l _ _ (mkConfig world_A2_one [FillMany 1])).
  { apply (run_thread_alone (FillFirst 2) world_A2_flag (Some (FillMany 1)) world_A2_one
             [Dial "A"; Lock (PoolMu 0); SetConns 0 (Slice 1 1 1); Unlock (PoolMu 0)]);
      vm_compute; reflexivity. }
  apply (rtc_l _ _ (mkConfig world_A2_two [FillMany 0])).
  { apply (run_thread_alone (FillMany 1) world_A2_one (Some (FillMany 0)) world_A2_two
             [Go (TConnect 0); Dial "A"; Lock (PoolMu 0); SetConns 0 (Slice 2 2 2);
              Unlock (PoolMu 0)]);
      vm_compute; reflexivity. }
  apply (rtc_l _ _ (mkConfig world_A2 [])).
  { apply (run_thread_alone (FillMany 0) world_A2_two None world_A2
             [Sleep; Lock (PoolMu 0); Unlock (PoolMu 0)]); vm_compute; reflexivity. }
  apply rtc_refl.
Defined.

Lemma policy_holds_pool_conns_witness :
  policy_conns world_A2 0 = pool_conns world_A2 0.
Proof.
  apply (policy_holds_pool_conns join_plain dial_only_A keyspace_ok pick_first 0
           (mkConfig world_alloc_A2 [CallFill]) (mkConfig world_A2 [])
           initial_world_alloc_A2 eq_refl steps_world_A2).
Defined.

(** ** [policyConnPool.Size] *)

Lemma Size_loop_run entries : forall count_ w,
  (forall e, e ∈ entries -> e.2 < length (pools w)) ->
  Size_loop entries count_ w
  = Ok (count_ + foldr (fun e acc => pool_len w e.2 + acc) 0 entries)%Z w
      (size_events entries).
Proof.
  induction entries as [|[a pool] rest IH]; intros count_ w Hok.
  - cbn. rewrite Z.add_0_r. reflexivity.
  - cbn [Size_loop].
    destruct (lookup_lt_is_Some_2 (pools w) pool) as [q Hq].
    { apply (Hok (a, pool)). apply elem_of_cons. auto. }
    rewrite (run_bind_Ok _ _ _ _ _ _ (hostConnPool_Size_run _ _ _ Hq)).
    rewrite IH by (intros e He; apply Hok; apply elem_of_cons; auto).
    cbn [prefix foldr snd]. unfold pool_len at 2. rewrite Hq.
    f_equal. lia.
Qed.

Lemma total_conns_foldr w m :
  total_conns w m = foldr (fun e acc => pool_len w e.2 + acc)%Z 0%Z (map_to_list m).
Proof.
  unfold total_conns. rewrite map_fold_foldr.
  induction (map_to_list m) as [|[a pool] l IH]; [reflexivity|].
  cbn [foldr uncurry snd]. rewrite IH. reflexivity.
Qed.

(** X13: [policyConnPool.Size] returns the connections of all tracked pools
    together and leaves the store as it is; it takes the read lock of the
    policyConnPool and, inside it, that of every tracked pool once.  The
    total is zero for the empty map, and an entry under a new address adds
    the connections of its pool. *)
Theorem policyConnPool_Size_total p w :
  tracked_ok w p ->
  policyConnPool_Size p w
  = Ok (total_conns w (hostConnPools p)) w
      (RLock PolicyMu :: size_events (map_to_list (hostConnPools p)) ++ [RUnlock PolicyMu]) /\
  total_conns w ∅ = 0%Z /\
  (forall a pool, hostConnPools p !! a = None ->
     total_conns w (<[a := pool]> (hostConnPools p))
     = (pool_len w pool + total_conns w (hostConnPools p))%Z).
Proof.
  intros Hok. split; [|split].
  - unfold policyConnPool_Size. rewrite run_emit.
    erewrite run_bind_Ok.
    2:{ apply Size_loop_run. intros [a pool] He. apply elem_of_map_to_list in He.
        exact (Hok _ _ He). }
    rewrite run_emit, total_conns_foldr. cbn [prefix ret]. rewrite Z.add_0_l.
    rewrite app_nil_r. reflexivity.
  - reflexivity.
  - intros a pool Hnone. unfold total_conns.
    rewrite (map_fold_insert_L (fun _ pl acc => (pool_len w pl + acc)%Z) 0%Z a pool
               (hostConnPools p)); [reflexivity| |exact Hnone].
    intros. lia.
Qed.

Lemma policyConnPool_Size_total_witness :
  policyConnPool_Size pcp_A world_A2
  = Ok (total_conns world_A2 (hostConnPools pcp_A)) world_A2
      (RLock PolicyMu :: size_events (map_to_list (hostConnPools pcp_A))
         ++ [RUnlock PolicyMu]) /\
  total_conns world_A2 ∅ = 0%Z /\
  (forall a pool, hostConnPools pcp_A !! a = None ->
     total_conns world_A2 (<[a := pool]> (hostConnPools pcp_A))
     = (pool_len world_A2 pool + total_conns world_A2 (hostConnPools pcp_A))%Z).
Proof.
  apply (policyConnPool_Size_total pcp_A world_A2 tracked_ok_pcp_A).
Defined.

(** The same call evaluated: one pool of two connections. *)
Example policyConnPool_Size_of_pcp_A :
  policyConnPool_Size pcp_A world_A2
  = Ok 2%Z world_A2
      [RLock PolicyMu; RLock (PoolMu 0); RUnlock (PoolMu 0); RUnlock PolicyMu].
Proof. vm_compute. reflexivity. Qed.

(** ** [policyConnPool.Close] and [removeHost] *)

Lemma Close_run_exact pool w q :
  pools w !! pool = Some q ->
  hostConnPool_Close pool w
  = Ok tt (mkWorld (heap w) (<[pool := set_closed true q]> (pools w)) (ndials w))
      (close_events pool q).
Proof.
  intros Hq. unfold close_events. destruct (closed q) eqn:Hc.
  - rewrite (Close_closed _ _ _ Hq Hc), set_closed_id by exact Hc.
    rewrite list_insert_id by exact Hq. destruct w; reflexivity.
  - apply (Close_open _ _ _ Hq Hc).
Qed.

Lemma close_events_counts pool q i :
  count is_ConnClose (close_events pool q) = 0 /\
  count is_Dial (close_events pool q) = 0 /\
  count (is_GoDrain i) (close_events pool q)
  = if bool_decide (i = pool) && negb (closed q) then 1 else 0.
Proof.
  unfold close_events. destruct (closed q).
  - rewrite andb_false_r. repeat split.
  - rewrite andb_true_r. split; [reflexivity|]. split; [reflexivity|].
    rewrite !count_cons, count_nil. unfold is_GoDrain.
    rewrite (bool_decide_eq_false_2 (Lock _ = _)) by discriminate.
    rewrite (bool_decide_eq_false_2 (Unlock _ = _)) by discriminate.
    destruct (decide (i = pool)) as [->|Hne].
    + rewrite !bool_decide_eq_true_2 by reflexivity. reflexivity.
    + rewrite !bool_decide_eq_false_2 by congruence. reflexivity.
Qed.

Lemma Close_loop_run L : forall p w,
  (forall e, e ∈ L -> e.2 < length (pools w)) ->
  exists p' w' tr,
    Close_loop p L w = Ok p' w' tr /\
    pport p' = pport p /\ numConns p' = numConns p /\ pkeyspace p' = pkeyspace p /\
    (forall a, hostConnPools p' !! a
               = if bool_decide (a ∈ L.*1) then None else hostConnPools p !! a) /\
    heap w' = heap w /\ ndials w' = ndials w /\
    length (pools w') = length (pools w) /\
    (forall i q, pools w !! i = Some q ->
       pools w' !! i = Some (if bool_decide (i ∈ L.*2) then set_closed true q else q)) /\
    count is_ConnClose tr = 0 /\ count is_Dial tr = 0 /\
    (forall i q, pools w !! i = Some q ->
       count (is_GoDrain i) tr
       = if bool_decide (i ∈ L.*2) && negb (closed q) then 1 else 0).
Proof.
  induction L as [|[a pool] rest IH]; intros p w Hok.
  - exists p, w, []. split_and!; try reflexivity.
    intros i q Hq. exact Hq.
  - cbn [Close_loop].
    destruct (lookup_lt_is_Some_2 (pools w) pool) as [q0 Hq0].
    { apply (Hok (a, pool)). apply elem_of_cons. auto. }
    rewrite (run_bind_Ok _ _ _ _ _ _ (Close_run_exact _ _ _ Hq0)).
    set (w1 := mkWorld (heap w) (<[pool := set_closed true q0]> (pools w)) (ndials w)).
    destruct (IH (set_hostConnPools (delete a (hostConnPools p)) p) w1)
      as (p' & w' & tr & Hrun & Hpp & Hnc & Hks & Hmap & Hh & Hn & Hlen & Hps & Hcc & Hcd & Hgo).
    { intros e He. unfold w1. cbn [pools]. rewrite length_insert.
      apply Hok. apply elem_of_cons. auto. }
    rewrite Hrun. cbn [prefix].
    exists p', w', (close_events pool q0 ++ tr). split; [reflexivity|].
    split; [exact Hpp|]. split; [exact Hnc|]. split; [exact Hks|].
    split.
    { intros a'. rewrite Hmap. cbn [hostConnPools set_hostConnPools fmap list_fmap fst].
      destruct (decide (a' = a)) as [->|Hne].
      - rewrite (bool_decide_eq_true_2 (a ∈ a :: _)) by (apply elem_of_cons; auto).
        case_bool_decide; [reflexivity|apply lookup_delete_eq].
      - rewrite lookup_delete_ne by congruence.
        case_bool_decide as E1; case_bool_decide as E2; try reflexivity.
        + exfalso. apply E2. apply elem_of_cons. auto.
        + exfalso. apply elem_of_cons in E2 as [E2|E2]; [congruence|auto]. }
    split; [exact Hh|]. split; [exact Hn|].
    split; [rewrite Hlen; unfold w1; cbn [pools]; apply length_insert|].
    destruct (close_events_counts pool q0 0) as (Hc1 & Hc2 & _).
    split.
    { intros i q Hq. cbn [fmap list_fmap snd].
      destruct (decide (i = pool)) as [->|Hne].
      - rewrite Hq0 in Hq. injection Hq as <-.
        rewrite (Hps pool (set_closed true q0))
          by (unfold w1; cbn [pools]; eapply lookup_insert_pool; eauto).
        rewrite (bool_decide_eq_true_2 (pool ∈ pool :: _)) by (apply elem_of_cons; auto).
        case_bool_decide; reflexivity.
      - rewrite (Hps i q) by (unfold w1; cbn [pools]; rewrite list_lookup_insert_ne by done;
                              exact Hq).
        case_bool_decide as E1; case_bool_decide as E2; try reflexivity.
        + exfalso. apply E2. apply elem_of_cons. auto.
        + exfalso. apply elem_of_cons in E2 as [E2|E2]; [congruence|auto]. }
    split; [rewrite count_app, Hc1, Hcc; reflexivity|].
    split; [rewrite count_app, Hc2, Hcd; reflexivity|].
    intros i q Hq. rewrite count_app. cbn [fmap list_fmap snd].
    destruct (close_events_counts pool q0 i) as (_ & _ & ->).
    destruct (decide (i = pool)) as [->|Hne].
    + rewrite Hq0 in Hq. injection Hq as <-.
      rewrite (Hgo pool (set_closed true q0))
        by (unfold w1; cbn [pools]; eapply lookup_insert_pool; eauto).
      rewrite bool_decide_eq_true_2 by reflexivity.
      rewrite (bool_decide_eq_true_2 (pool ∈ pool :: _)) by (apply elem_of_cons; auto).
      cbn [closed set_closed negb]. rewrite andb_false_r. cbn [andb]. lia.
    + rewrite (Hgo i q) by (unfold w1; cbn [pools]; rewrite list_lookup_insert_ne by done;
                            exact Hq).
      rewrite (bool_decide_eq_false_2 (i = pool)) by exact Hne. cbn [andb].
      case_bool_decide as E1; case_bool_decide as E2; try reflexivity.
      * exfalso. apply E2. apply elem_of_cons. auto.
      * exfalso. apply elem_of_cons in E2 as [E2|E2]; [congruence|auto].
Qed.

Lemma elem_of_map_to_list_snd (m : gmap string ptr) i :
  i ∈ (map_to_list m).*2 <-> tracked m i.
Proof.
  rewrite list_elem_of_fmap. split.
  - intros ([a pool] & -> & He). apply elem_of_map_to_list in He. exists a. exact He.
  - intros [a Ha]. exists (a, i). split; [reflexivity|]. apply elem_of_map_to_list. exact Ha.
Qed.

Lemma elem_of_map_to_list_fst (m : gmap string ptr) a :
  a ∈ (map_to_list m).*1 <-> is_Some (m !! a).
Proof.
  rewrite list_elem_of_fmap. split.
  - intros ([a' pool] & -> & He). apply elem_of_map_to_list in He. eauto.
  - intros [pool Ha]. exists (a, pool). split; [reflexivity|].
    apply elem_of_map_to_list. exact Ha.
Qed.

(** X14: [policyConnPool.Close] empties the map and sets [closed] on every
    pool it tracked; no other pool object and no connection slice changes.
    [Close] closes no connection and makes no dial itself: under the lock
    of the policyConnPool, after [hostPolicy.SetHosts(nil)], it starts one
    [drain] for each tracked pool that was open, and none for any other. *)
Theorem policyConnPool_Close_closes_all p w :
  tracked_ok w p ->
  exists p' w' tr,
    policyConnPool_Close p w
    = Ok p' w' (Lock PolicyMu :: HostPolicySetHosts [] :: tr ++ [Unlock PolicyMu]) /\
    hostConnPools p' = ∅ /\
    pport p' = pport p /\ numConns p' = numConns p /\ pkeyspace p' = pkeyspace p /\
    heap w' = heap w /\ ndials w' = ndials w /\
    length (pools w') = length (pools w) /\
    (forall i q, pools w !! i = Some q ->
       (tracked (hostConnPools p) i ->
        pools w' !! i = Some (set_closed true q) /\
        count (is_GoDrain i) tr = if closed q then 0 else 1) /\
       (~ tracked (hostConnPools p) i ->
        pools w' !! i = Some q /\ count (is_GoDrain i) tr = 0)) /\
    count is_ConnClose tr = 0 /\ count is_Dial tr = 0.
Proof.
  intros Hok. unfold policyConnPool_Close. rewrite !run_emit.
  destruct (Close_loop_run (map_to_list (hostConnPools p)) p w)
    as (p' & w' & tr & Hrun & Hpp & Hnc & Hks & Hmap & Hh & Hn & Hlen & Hps & Hcc & Hcd & Hgo).
  { intros [a pool] He. apply elem_of_map_to_list in He. exact (Hok _ _ He). }
  rewrite (run_bind_Ok _ _ _ _ _ _ Hrun), run_emit. cbn [prefix ret].
  rewrite app_nil_r.
  exists p', w', tr. split; [reflexivity|].
  split.
  { apply map_eq. intros a. rewrite Hmap, lookup_empty.
    case_bool_decide as E; [reflexivity|].
    rewrite elem_of_map_to_list_fst in E.
    destruct (hostConnPools p !! a) eqn:Ha; [exfalso; eauto|reflexivity]. }
  repeat (split; [assumption|]).
  split; [|auto].
  intros i q Hq. rewrite (Hps i q Hq), (Hgo i q Hq). split.
  - intros Ht. apply elem_of_map_to_list_snd in Ht.
    rewrite bool_decide_eq_true_2 by exact Ht. cbn [andb].
    split; [reflexivity|]. destruct (closed q); reflexivity.
  - intros Ht. rewrite <- elem_of_map_to_list_snd in Ht.
    rewrite bool_decide_eq_false_2 by exact Ht. auto.
Qed.

Lemma tracked_pcp_A : tracked (hostConnPools pcp_A) 0.
Proof. exists "A". apply lookup_singleton_eq. Defined.

Lemma policyConnPool_Close_closes_all_witness :
  exists p' w' tr,
    policyConnPool_Close pcp_A world_A2
    = Ok p' w' (Lock PolicyMu :: HostPolicySetHosts [] :: tr ++ [Unlock PolicyMu]) /\
    hostConnPools p' = ∅ /\
    heap w' = heap world_A2 /\ ndials w' = 2 /\ length (pools w') = 1 /\
    pools w' !! 0 = Some (set_closed true pool_A2) /\
    count (is_GoDrain 0) tr = 1 /\
    count is_ConnClose tr = 0 /\ count is_Dial tr = 0.
Proof.
  destruct (policyConnPool_Close_closes_all pcp_A world_A2 tracked_ok_pcp_A)
    as (p' & w' & tr & Hrun & Hm & _ & _ & _ & Hh & Hn & Hl & Hps & Hcc & Hcd).
  destruct (Hps 0 pool_A2 eq_refl) as [Ht _].
  destruct (Ht tracked_pcp_A) as [Hp0 Hg].
  exists p', w', tr. auto 10.
Defined.

(** [removeHost]. *)
Lemma removeHost_run p a w :
  tracked_ok w p ->
  removeHost p a w
  = match hostConnPools p !! a with
    | None => Ok p w [HostPolicyRemoveHost a; Lock PolicyMu; Unlock PolicyMu]
    | Some pool =>
        match pools w !! pool with
        | Some q =>
            Ok (set_hostConnPools (delete a (hostConnPools p)) p)
               (mkWorld (heap w) (<[pool := set_closed true q]> (pools w)) (ndials w))
               (HostPolicyRemoveHost a :: Lock PolicyMu :: Unlock PolicyMu
                  :: close_events pool q)
        | None => Panics NilDereference
                    [HostPolicyRemoveHost a; Lock PolicyMu; Unlock PolicyMu;
                     Lock (PoolMu pool)]
        end
    end.
Proof.
  intros Hok. unfold removeHost. rewrite !run_emit.
  destruct (hostConnPools p !! a) as [pool|] eqn:Ha; [|reflexivity].
  destruct (lookup_lt_is_Some_2 (pools w) pool (Hok _ _ Ha)) as [q Hq].
  rewrite Hq, run_emit, (run_bind_Ok _ _ _ _ _ _ (Close_run_exact _ _ _ Hq)).
  cbn [prefix ret]. rewrite app_nil_r. reflexivity.
Qed.

(** X15: [removeHost], and [hostDown] which is the same call, tells the
    host policy first and then deletes the entry of the address.  If the
    address was tracked, its pool gets [closed] set, after the lock of the
    policyConnPool has been released, and a [drain] is started if the pool
    was open; no other entry and no other pool object changes.  If the
    address was not tracked, map and store are as they were. *)
Theorem removeHost_evicts_and_closes p a w :
  tracked_ok w p ->
  exists p' w' tr,
    removeHost p a w
    = Ok p' w' (HostPolicyRemoveHost a :: Lock PolicyMu :: Unlock PolicyMu :: tr) /\
    hostDown p a w = removeHost p a w /\
    hostConnPools p' = delete a (hostConnPools p) /\
    pport p' = pport p /\ numConns p' = numConns p /\ pkeyspace p' = pkeyspace p /\
    tracked_ok w' p' /\
    match hostConnPools p !! a with
    | None => p' = p /\ w' = w /\ tr = []
    | Some pool =>
        exists q,
          pools w !! pool = Some q /\
          w' = mkWorld (heap w) (<[pool := set_closed true q]> (pools w)) (ndials w) /\
          tr = close_events pool q
    end.
Proof.
  intros Hok. unfold hostDown. rewrite (removeHost_run p a w Hok).
  destruct (hostConnPools p !! a) as [pool|] eqn:Ha.
  - destruct (lookup_lt_is_Some_2 (pools w) pool (Hok _ _ Ha)) as [q Hq]. rewrite Hq.
    eexists _, _, _. split; [reflexivity|]. split; [reflexivity|].
    split; [reflexivity|]. do 3 (split; [reflexivity|]).
    split; [|eauto].
    intros b pl Hb. cbn [hostConnPools set_hostConnPools pools] in *.
    rewrite length_insert. apply lookup_delete_Some in Hb as [_ Hb]. eapply Hok; eauto.
  - eexists _, _, _. split; [reflexivity|]. split; [reflexivity|].
    split; [symmetry; apply delete_id; exact Ha|]. do 3 (split; [reflexivity|]).
    split; [exact Hok|]. auto.
Qed.

Lemma removeHost_evicts_and_closes_witness :
  exists p' w' tr,
    removeHost pcp_A "A" world_A2
    = Ok p' w' (HostPolicyRemoveHost "A" :: Lock PolicyMu :: Unlock PolicyMu :: tr) /\
    hostDown pcp_A "A" world_A2 = removeHost pcp_A "A" world_A2 /\
    hostConnPools p' = delete "A" (hostConnPools pcp_A) /\
    pport p' = 9042%Z /\ numConns p' = 2%Z /\ pkeyspace p' = "" /\
    tracked_ok w' p' /\
    match hostConnPools pcp_A !! "A" with
    | None => p' = pcp_A /\ w' = world_A2 /\ tr = []
    | Some pool =>
        exists q,
          pools world_A2 !! pool = Some q /\
          w' = mkWorld (heap world_A2) (<[pool := set_closed true q]> (pools world_A2))
                 (ndials world_A2) /\
          tr = close_events pool q
    end.
Proof.
  apply (removeHost_evicts_and_closes pcp_A "A" world_A2 tracked_ok_pcp_A).
Defined.

(** The same call evaluated. *)
Example removeHost_of_tracked_A :
  removeHost pcp_A "A" world_A2
  = Ok (mkPolicyConnPool 9042 2 "" ∅) world_A2_closed
      [HostPolicyRemoveHost "A"; Lock PolicyMu; Unlock PolicyMu;
       Lock (PoolMu 0); Go (TDrain 0); Unlock (PoolMu 0)].
Proof. vm_compute. reflexivity. Qed.

(** ** [addHost] composed with itself and with [removeHost] *)

Section AddRemove.
Variable JoinHostPort : string -> Z -> string.
Variable session_connect : string -> nat -> option error.
Variable conn_UseKeyspace : Conn -> string -> option error.

(** X16: after [addHost] of a host that was not tracked, a second
    [addHost] (or [hostUp]) of that host creates no pool, makes no dial,
    leaves the map and the store as the first call left them and does not
    tell the host policy again: under the lock it only starts a [fill] of
    the pool the first call created. *)
Theorem addHost_twice p h w :
  (0 <= numConns p)%Z ->
  hostConnPools p !! Peer h = None ->
  exists p1 w1 tr1,
    addHost JoinHostPort session_connect conn_UseKeyspace p h w = Ok p1 w1 tr1 /\
    hostConnPools p1 !! Peer h = Some (length (pools w)) /\
    length (pools w1) = S (length (pools w)) /\
    addHost JoinHostPort session_connect conn_UseKeyspace p1 h w1
    = Ok p1 w1 [Lock PolicyMu; Go (TFill (length (pools w))); Unlock PolicyMu] /\
    hostUp JoinHostPort session_connect conn_UseKeyspace p1 h w1
    = Ok p1 w1 [Lock PolicyMu; Go (TFill (length (pools w))); Unlock PolicyMu].
Proof.
  intros Hn Hnone.
  destruct (addHost_run JoinHostPort session_connect conn_UseKeyspace p h w Hn Hnone)
    as (w1 & tr & q & Hrun & [Hle Hsame] & Hq & _).
  eexists _, w1, _. split; [exact Hrun|].
  cbn [hostConnPools set_hostConnPools].
  split; [apply lookup_insert_eq|].
  assert (Hlen : length (pools w1) = S (length (pools w))).
  { destruct (newHostConnPool_run JoinHostPort session_connect conn_UseKeyspace
                h (Port h) (numConns p) (pkeyspace p) connPolicy w Hn)
      as (w1' & tr' & q' & Hrun' & _ & Hlen & _).
    unfold addHost in Hrun. rewrite run_emit, Hnone in Hrun.
    rewrite (run_bind_Ok _ _ _ _ _ _ Hrun') in Hrun. cbn in Hrun.
    injection Hrun as <- _. exact Hlen. }
  split; [exact Hlen|].
  assert (Hsecond : addHost JoinHostPort session_connect conn_UseKeyspace
            (set_hostConnPools (<[Peer h := length (pools w)]> (hostConnPools p)) p) h w1
          = Ok (set_hostConnPools (<[Peer h := length (pools w)]> (hostConnPools p)) p) w1
              [Lock PolicyMu; Go (TFill (length (pools w))); Unlock PolicyMu]).
  { unfold addHost. rewrite run_emit. cbn [hostConnPools set_hostConnPools].
    rewrite lookup_insert_eq. reflexivity. }
  split; exact Hsecond.
Qed.

(** X17: [addHost] of a host that is not tracked followed by [removeHost]
    of its address gives back the policyConnPool there was: the same map
    and configuration.  The pool made in between stays in the store,
    closed; the pool objects there were before are untouched. *)
Theorem addHost_then_removeHost p h w :
  tracked_ok w p ->
  (0 <= numConns p)%Z ->
  hostConnPools p !! Peer h = None ->
  exists p1 w1 tr1 w2 tr2 q,
    addHost JoinHostPort session_connect conn_UseKeyspace p h w = Ok p1 w1 tr1 /\
    removeHost p1 (Peer h) w1 = Ok p w2 tr2 /\
    extends w w2 /\
    length (pools w2) = S (length (pools w)) /\
    pools w2 !! length (pools w) = Some q /\
    host q = h /\ closed q = true /\
    heap w2 = heap w1 /\ ndials w2 = ndials w1.
Proof.
  intros Hok Hn Hnone.
  destruct (addHost_run JoinHostPort session_connect conn_UseKeyspace p h w Hn Hnone)
    as (w1 & tr & q & Hrun & [Hle Hsame] & Hq & Hh & _).
  assert (Hlen : length (pools w1) = S (length (pools w))).
  { destruct (newHostConnPool_run JoinHostPort session_connect conn_UseKeyspace
                h (Port h) (numConns p) (pkeyspace p) connPolicy w Hn)
      as (w1' & tr' & q' & Hrun' & _ & Hlen & _).
    pose proof Hrun as Hrun2.
    unfold addHost in Hrun2. rewrite run_emit, Hnone in Hrun2.
    rewrite (run_bind_Ok _ _ _ _ _ _ Hrun') in Hrun2. cbn in Hrun2.
    injection Hrun2 as <- _. exact Hlen. }
  set (p1 := set_hostConnPools (<[Peer h := length (pools w)]> (hostConnPools p)) p).
  assert (Hok1 : tracked_ok w1 p1).
  { intros a pl Ha. unfold p1 in Ha. cbn [hostConnPools set_hostConnPools] in Ha.
    apply lookup_insert_Some in Ha as [[_ <-]|[_ Ha]]; [lia|].
    pose proof (Hok _ _ Ha). lia. }
  eexists p1, w1, _, _, _, (set_closed true q). split; [exact Hrun|].
  rewrite (removeHost_run p1 (Peer h) w1 Hok1).
  unfold p1 at 1. cbn [hostConnPools set_hostConnPools].
  rewrite lookup_insert_eq, Hq.
  split.
  { f_equal. unfold p1, set_hostConnPools. cbn [hostConnPools pport numConns pkeyspace].
    rewrite delete_insert_id by exact Hnone. destruct p; reflexivity. }
  cbn [pools heap ndials].
  split.
  { unfold extends. cbn [pools]. split; [rewrite length_insert; lia|]. intros i Hi.
    rewrite list_lookup_insert_ne by lia. apply Hsame. exact Hi. }
  split; [rewrite length_insert; exact Hlen|].
  split; [eapply lookup_insert_pool; eauto|].
  split; [exact Hh|]. auto.
Qed.

End AddRemove.

Lemma addHost_twice_witness :
  exists p1 w1 tr1,
    addHost join_plain dial_only_A keyspace_ok (newPolicyConnPool 9042 2 "") hostA empty_world
    = Ok p1 w1 tr1 /\
    hostConnPools p1 !! "A" = Some 0 /\
    length (pools w1) = 1 /\
    addHost join_plain dial_only_A keyspace_ok p1 hostA w1
    = Ok p1 w1 [Lock PolicyMu; Go (TFill 0); Unlock PolicyMu] /\
    hostUp join_plain dial_only_A keyspace_ok p1 hostA w1
    = Ok p1 w1 [Lock PolicyMu; Go (TFill 0); Unlock PolicyMu].
Proof.
  apply (addHost_twice join_plain dial_only_A keyspace_ok (newPolicyConnPool 9042 2 "")
           hostA empty_world).
  - simpl. lia.
  - apply lookup_empty.
Defined.

Lemma addHost_then_removeHost_witness :
  exists p1 w1 tr1 w2 tr2 q,
    addHost join_plain dial_only_A keyspace_ok (newPolicyConnPool 9042 2 "") hostA empty_world
    = Ok p1 w1 tr1 /\
    removeHost p1 "A" w1 = Ok (newPolicyConnPool 9042 2 "") w2 tr2 /\
    extends empty_world w2 /\
    length (pools w2) = 1 /\
    pools w2 !! 0 = Some q /\
    host q = hostA /\ closed q = true /\
    heap w2 = heap w1 /\ ndials w2 = ndials w1.
Proof.
  apply (addHost_then_removeHost join_plain dial_only_A keyspace_ok
           (newPolicyConnPool 9042 2 "") hostA empty_world
           (tracked_ok_new 9042 2 "" empty_world)).
  - simpl. lia.
  - apply lookup_empty.
Defined.

(** ** What [SetHosts] leaves alone *)

Section SetHostsKeeps.
Variable JoinHostPort : string -> Z -> string.
Variable session_connect : string -> nat -> option error.
Variable conn_UseKeyspace : Conn -> string -> option error.

(** A pool object there was before [SetHosts] is as it was afterwards,
    unless it is the pool of an address that [SetHosts] removes. *)
Lemma SetHosts_untouched p hosts w :
  tracked_ok w p ->
  (0 <= numConns p)%Z ->
  exists p' w' tr,
    SetHosts JoinHostPort session_connect conn_UseKeyspace p hosts w = Ok p' w' tr /\
    forall i q, pools w !! i = Some q ->
      (forall a, a ∈ dom (hostConnPools p) ∖ kept_addrs p hosts ->
                 hostConnPools p !! a <> Some i) ->
      pools w' !! i = Some q.
Proof.
  intros Hok Hn. unfold SetHosts. rewrite run_emit.
  rewrite (run_bind_Ok _ _ _ _ _ _ (SetHosts_scan_run p hosts _ [] w)).
  cbn [fst snd app].
  set (m := hostConnPools p). set (created := created_hosts p hosts).
  set (R := dom m ∖ kept_addrs p hosts). set (base := length (pools w)).
  destruct (SetHosts_receive_run JoinHostPort session_connect conn_UseKeyspace created p w Hn)
    as (p1 & w1 & tr1 & Hrecv & Hpp1 & Hnc1 & Hpk1 & Hmap1 & Hext1 & Hlen1 & Hnew1).
  fold m base in Hmap1, Hlen1, Hnew1.
  rewrite (run_bind_Ok _ _ _ _ _ _ Hrecv).
  assert (Hfresh : forall a, is_Some (m !! a) ->
            forall k q, k < length created -> pools w1 !! (base + k) = Some q ->
                        Peer (host q) <> a).
  { intros a [pl Ha] k q Hk Hq Hp.
    destruct (lookup_lt_is_Some_2 created k Hk) as [h Hh].
    destruct (Hnew1 k h Hh) as (q' & Hq' & Hhost & _).
    rewrite Hq in Hq'. injection Hq' as <-.
    assert (h ∈ created) as Hin by (eapply list_elem_of_lookup_2; eauto).
    apply elem_of_created_hosts in Hin as (_ & _ & Hnone).
    rewrite Hhost in Hp. rewrite Hp in Hnone. unfold m in Ha. congruence. }
  assert (Hold1 : forall a, is_Some (m !! a) -> hostConnPools p1 !! a = m !! a).
  { intros a Ha. rewrite Hmap1. apply registered_other. apply Hfresh. exact Ha. }
  assert (HinR : forall a, a ∈ R -> is_Some (m !! a)).
  { intros a Ha. apply elem_of_difference in Ha as [Ha _]. apply elem_of_dom. exact Ha. }
  assert (HL : forall a, a ∈ elements R -> is_Some (hostConnPools p1 !! a)).
  { intros a Ha. apply elem_of_elements in Ha. rewrite Hold1 by auto. auto. }
  assert (Hok1 : tracked_ok w1 p1).
  { intros a pl Ha. rewrite Hmap1 in Ha.
    destruct (registered_lookup w1 created base m a) as [E|(k & q & Hk & E & _)].
    - rewrite E in Ha. pose proof (Hok _ _ Ha). destruct Hext1 as [Hle _]. fold base in Hle. lia.
    - rewrite E in Ha. injection Ha as <-. lia. }
  destruct (SetHosts_remove_run (elements R) p1 w1 (NoDup_elements R) HL Hok1)
    as (p2 & w2 & tr2 & Hrem & _ & _ & _ & _ & _ & _ & Hpools2).
  rewrite (run_bind_Ok _ _ _ _ _ _ Hrem).
  unfold emit. cbn [prefix].
  eexists p2, w2, _. split; [reflexivity|].
  intros i q Hq Hnot.
  assert (Hq1 : pools w1 !! i = Some q).
  { destruct Hext1 as [_ Hsame]. rewrite Hsame by (eapply lookup_lt_Some; eauto). exact Hq. }
  destruct (Hpools2 _ _ Hq1) as (q' & Hq' & _ & _ & _ & _ & Hsame).
  rewrite Hq'. f_equal. apply Hsame.
  intros a Ha. apply elem_of_elements in Ha.
  rewrite Hold1 by auto. apply Hnot. exact Ha.
Qed.

(** X18: a host that is tracked and that the new list has as up keeps its
    entry in [SetHosts], and [SetHosts] does nothing to its pool: no dial
    to it, no [fill], no [Close]; the pool object is as it was, provided
    its pool is not also the pool of an address that is removed (no two
    addresses share a pool when every entry was made by [SetHosts] or
    [addHost]). *)
Theorem SetHosts_keeps_up_hosts p hosts w :
  tracked_ok w p ->
  (0 <= numConns p)%Z ->
  exists p' w' tr,
    SetHosts JoinHostPort session_connect conn_UseKeyspace p hosts w = Ok p' w' tr /\
    forall h pool q,
      h ∈ hosts -> IsUp h = true ->
      hostConnPools p !! Peer h = Some pool ->
      pools w !! pool = Some q ->
      hostConnPools p' !! Peer h = Some pool /\
      ((forall a, hostConnPools p !! a = Some pool -> a = Peer h) ->
       pools w' !! pool = Some q).
Proof.
  intros Hok Hn.
  destruct (SetHosts_run JoinHostPort session_connect conn_UseKeyspace p hosts w Hok Hn)
    as (p' & w' & tr & Hrun & _ & _ & _ & Hmap & _ & _ & Hnew & _).
  destruct (SetHosts_untouched p hosts w Hok Hn) as (p2 & w2 & tr2 & Hrun2 & Hsame).
  rewrite Hrun in Hrun2. injection Hrun2 as <- <- _.
  eexists p', w', _. split; [exact Hrun|].
  intros h pool q Hh Hup Hpool Hq.
  assert (Hkept : Peer h ∈ kept_addrs p hosts).
  { apply elem_of_kept_addrs. exists h. split; [exact Hh|]. split; [reflexivity|].
    split; [exact Hup|]. eauto. }
  split.
  - rewrite Hmap. rewrite decide_False by (intros Hin; apply elem_of_difference in Hin; tauto).
    rewrite <- Hpool. apply registered_other.
    intros k q0 Hk Hq0 Hpeer.
    destruct (lookup_lt_is_Some_2 _ k Hk) as [h0 Hh0].
    destruct (Hnew k h0 Hh0) as (q1 & Hq1 & Hhost & _).
    rewrite Hq0 in Hq1. injection Hq1 as <-.
    assert (h0 ∈ created_hosts p hosts) as Hin by (eapply list_elem_of_lookup_2; eauto).
    apply elem_of_created_hosts in Hin as (_ & _ & Hnone).
    rewrite Hhost in Hpeer. rewrite Hpeer, Hpool in Hnone. discriminate.
  - intros Hinj. apply (Hsame pool q Hq).
    intros a Ha Hai. apply Hinj in Hai. subst a.
    apply elem_of_difference in Ha. tauto.
Qed.

End SetHostsKeeps.

Lemma SetHosts_keeps_up_hosts_witness :
  exists p' w' tr,
    SetHosts join_plain dial_only_A keyspace_ok pcp_A [hostA; hostB] world_A2
    = Ok p' w' tr /\
    hostConnPools p' !! "A" = Some 0 /\
    pools w' !! 0 = Some pool_A2.
Proof.
  destruct (SetHosts_keeps_up_hosts join_plain dial_only_A keyspace_ok pcp_A
              [hostA; hostB] world_A2 tracked_ok_pcp_A)
    as (p' & w' & tr & Hrun & Hkeep); [simpl; lia|].
  destruct (Hkeep hostA 0 pool_A2) as [Hentry Hpool].
  - apply elem_of_cons. left. reflexivity.
  - reflexivity.
  - apply lookup_singleton_eq.
  - reflexivity.
  - exists p', w', tr. split; [exact Hrun|]. split; [exact Hentry|].
    apply Hpool. intros a Ha. unfold pcp_A in Ha. cbn [hostConnPools] in Ha.
    apply lookup_singleton_Some in Ha as [<- _]. reflexivity.
Defined.

(** ** [SetHosts] with no host *)

(** The entries the third loop of [SetHosts] visits for the addresses [L]. *)
Lemma SetHosts_remove_as_Close_loop L : forall p w,
  NoDup L ->
  (forall a, a ∈ L -> is_Some (hostConnPools p !! a)) ->
  SetHosts_remove p L w
  = Close_loop p (omap (fun a => pair a <$> hostConnPools p !! a) L) w.
Proof.
  induction L as [|a rest IH]; intros p w Hnd Hall; [reflexivity|].
  apply NoDup_cons in Hnd as [Hnotin Hnd].
  destruct (Hall a) as [pool Ha]; [apply elem_of_cons; auto|].
  cbn [SetHosts_remove omap list_omap]. rewrite Ha. cbn [fmap option_fmap option_map Close_loop].
  unfold bind. destruct (hostConnPool_Close pool w) as [[] w1 t1|e t1]; [|reflexivity].
  f_equal. rewrite IH.
  - f_equal. apply list_omap_ext. apply Forall2_same_length_lookup_2; [reflexivity|].
    intros i b c Hb Hc. rewrite Hb in Hc. injection Hc as <-.
    cbn [hostConnPools set_hostConnPools].
    rewrite lookup_delete_ne; [reflexivity|].
    intros <-. apply Hnotin. eapply list_elem_of_lookup_2; eauto.
  - exact Hnd.
  - intros b Hb. cbn [hostConnPools set_hostConnPools].
    rewrite lookup_delete_ne by (intros <-; auto).
    apply Hall. apply elem_of_cons. auto.
Qed.

Lemma elem_of_entries (m : gmap string ptr) (L : list string) a pool :
  (a, pool) ∈ omap (fun a => pair a <$> m !! a) L <-> a ∈ L /\ m !! a = Some pool.
Proof.
  rewrite list_elem_of_omap. split.
  - intros (b & Hb & Hm). destruct (m !! b) as [pl|] eqn:E; [|discriminate].
    injection Hm as <- <-. auto.
  - intros [Ha Hm]. exists a. rewrite Hm. auto.
Qed.

Lemma world_eq w1 w2 :
  heap w1 = heap w2 -> pools w1 = pools w2 -> ndials w1 = ndials w2 -> w1 = w2.
Proof. destruct w1, w2. simpl. congruence. Qed.

Lemma policyConnPool_eq p1 p2 :
  pport p1 = pport p2 -> numConns p1 = numConns p2 -> pkeyspace p1 = pkeyspace p2 ->
  hostConnPools p1 = hostConnPools p2 -> p1 = p2.
Proof. destruct p1, p2. simpl. congruence. Qed.

Section SetHostsNil.
Variable JoinHostPort : string -> Z -> string.
Variable session_connect : string -> nat -> option error.
Variable conn_UseKeyspace : Conn -> string -> option error.

(** X19: [SetHosts] with an empty list creates no pool and makes no dial;
    it removes every entry and closes every tracked pool, and so returns
    the same policyConnPool and leaves the same store as
    [policyConnPool.Close]: the map is empty, the heap and the dial counter
    are as they were.  The two differ in what they tell the host policy
    and when. *)
Theorem SetHosts_nil_as_Close p w :
  tracked_ok w p ->
  exists p' w' tr1 tr2,
    SetHosts JoinHostPort session_connect conn_UseKeyspace p [] w
    = Ok p' w' (Lock PolicyMu :: tr1 ++ [HostPolicySetHosts []; Unlock PolicyMu]) /\
    policyConnPool_Close p w
    = Ok p' w' (Lock PolicyMu :: HostPolicySetHosts [] :: tr2 ++ [Unlock PolicyMu]) /\
    hostConnPools p' = ∅ /\
    heap w' = heap w /\ ndials w' = ndials w /\
    length (pools w') = length (pools w) /\
    count is_Dial tr1 = 0 /\ count is_ConnClose tr1 = 0 /\
    (forall i q, pools w !! i = Some q -> tracked (hostConnPools p) i ->
       pools w' !! i = Some (set_closed true q)).
Proof.
  intros Hok.
  set (m := hostConnPools p).
  set (L := elements (dom m)).
  set (E := omap (fun a => pair a <$> m !! a) L).
  assert (HE : forall a pool, (a, pool) ∈ E <-> m !! a = Some pool).
  { intros a pool. unfold E. rewrite elem_of_entries. split; [tauto|].
    intros Ha. split; [|exact Ha]. apply elem_of_elements, elem_of_dom. eauto. }
  assert (HE1 : forall a, a ∈ E.*1 <-> is_Some (m !! a)).
  { intros a. rewrite list_elem_of_fmap. split.
    - intros ([a' pool] & -> & He). apply HE in He. eauto.
    - intros [pool Ha]. exists (a, pool). split; [reflexivity|]. apply HE. exact Ha. }
  assert (HE2 : forall i, i ∈ E.*2 <-> tracked m i).
  { intros i. rewrite list_elem_of_fmap. split.
    - intros ([a pool] & -> & He). apply HE in He. exists a. exact He.
    - intros [a Ha]. exists (a, i). split; [reflexivity|]. apply HE. exact Ha. }
  destruct (Close_loop_run E p w)
    as (p1 & w1 & tr1 & Hrun1 & Hpp1 & Hnc1 & Hks1 & Hmap1 & Hh1 & Hn1 & Hlen1 & Hps1
        & Hcc1 & Hcd1 & _).
  { intros [a pool] He. apply HE in He. exact (Hok _ _ He). }
  destruct (Close_loop_run (map_to_list m) p w)
    as (p2 & w2 & tr2 & Hrun2 & Hpp2 & Hnc2 & Hks2 & Hmap2 & Hh2 & Hn2 & Hlen2 & Hps2 & _).
  { intros [a pool] He. apply elem_of_map_to_list in He. exact (Hok _ _ He). }
  assert (Hp12 : p2 = p1).
  { apply policyConnPool_eq; try congruence.
    apply map_eq. intros a. rewrite Hmap1, Hmap2.
    destruct (m !! a) as [pool|] eqn:Ha.
    - rewrite !bool_decide_eq_true_2; [reflexivity|apply HE1; eauto|].
      apply elem_of_map_to_list_fst. eauto.
    - fold m. rewrite Ha. repeat case_bool_decide; reflexivity. }
  assert (Hw12 : w2 = w1).
  { apply world_eq; try congruence.
    apply list_eq. intros i.
    destruct (pools w !! i) as [q|] eqn:Hq.
    - rewrite (Hps1 i q Hq), (Hps2 i q Hq). f_equal.
      destruct (decide (i ∈ E.*2)) as [Ht|Ht]; rewrite HE2 in Ht.
      + rewrite !bool_decide_eq_true_2; [reflexivity|apply HE2; exact Ht|].
        apply elem_of_map_to_list_snd. exact Ht.
      + rewrite !bool_decide_eq_false_2; [reflexivity|rewrite HE2; exact Ht|].
        rewrite elem_of_map_to_list_snd. exact Ht.
    - apply lookup_ge_None in Hq.
      rewrite !(proj2 (lookup_ge_None _ _)) by lia. reflexivity. }
  subst p2 w2.
  exists p1, w1, tr1, tr2. split.
  { unfold SetHosts. rewrite run_emit.
    cbn [SetHosts_scan]. rewrite run_ret. cbn beta. cbn [fst snd SetHosts_receive].
    rewrite run_ret. cbn beta.
    assert (Hrem : SetHosts_remove p L w = Ok p1 w1 tr1).
    { rewrite SetHosts_remove_as_Close_loop; [exact Hrun1|apply NoDup_elements|].
      intros a Ha. apply elem_of_elements, elem_of_dom in Ha. exact Ha. }
    fold m L. rewrite (run_bind_Ok _ _ _ _ _ _ Hrem).
    rewrite !run_emit. cbn [prefix ret]. rewrite app_nil_r. reflexivity. }
  split.
  { unfold policyConnPool_Close. rewrite !run_emit. fold m.
    rewrite (run_bind_Ok _ _ _ _ _ _ Hrun2), run_emit. cbn [prefix ret].
    rewrite app_nil_r. reflexivity. }
  split.
  { apply map_eq. intros a. rewrite Hmap1, lookup_empty.
    case_bool_decide as Ein; [reflexivity|]. rewrite HE1 in Ein.
    fold m. destruct (m !! a); [exfalso; eauto|reflexivity]. }
  repeat (split; [assumption|]).
  intros i q Hq Ht. rewrite (Hps1 i q Hq).
  rewrite bool_decide_eq_true_2 by (apply HE2; exact Ht). reflexivity.
Qed.

End SetHostsNil.

Lemma SetHosts_nil_as_Close_witness :
  exists p' w' tr1 tr2,
    SetHosts join_plain dial_only_A keyspace_ok pcp_A [] world_A2
    = Ok p' w' (Lock PolicyMu :: tr1 ++ [HostPolicySetHosts []; Unlock PolicyMu]) /\
    policyConnPool_Close pcp_A world_A2
    = Ok p' w' (Lock PolicyMu :: HostPolicySetHosts [] :: tr2 ++ [Unlock PolicyMu]) /\
    hostConnPools p' = ∅ /\
    heap w' = heap world_A2 /\ ndials w' = 2 /\
    length (pools w') = 1 /\
    count is_Dial tr1 = 0 /\ count is_ConnClose tr1 = 0 /\
    pools w' !! 0 = Some (set_closed true pool_A2).
Proof.
  destruct (SetHosts_nil_as_Close join_plain dial_only_A keyspace_ok pcp_A world_A2
              tracked_ok_pcp_A)
    as (p' & w' & tr1 & tr2 & H1 & H2 & H3 & H4 & H5 & H6 & H7 & H8 & H9).
  exists p', w', tr1, tr2. repeat (split; [assumption|]).
  apply (H9 0 pool_A2 eq_refl tracked_pcp_A).
Defined.

(** ** [policyConnPool.Pick] and a host without information *)

Section PickPanics.
Variable connPolicy_Pick : list Conn -> nat -> Query -> Conn.
Variable hostPolicy_Pick : Query -> list SelectedHost.

Lemma Pick_loop_app p qry rest pre : forall w w1 tr,
  Pick_loop connPolicy_Pick p qry pre w = Ok (None, None) w1 tr ->
  Pick_loop connPolicy_Pick p qry (pre ++ rest) w
  = prefix tr (Pick_loop connPolicy_Pick p qry rest w1).
Proof.
  induction pre as [|h0 pre IH]; intros w w1 tr Hpre.
  - cbn in Hpre. injection Hpre as <- <-. rewrite prefix_nil. reflexivity.
  - cbn [app Pick_loop] in *.
    destruct (Info h0) as [info|]; [|discriminate].
    destruct (hostConnPools p !! Peer info) as [pool|]; [|apply IH; exact Hpre].
    unfold bind in *.
    destruct (hostConnPool_Pick connPolicy_Pick pool qry w) as [c w2 t2|e t2];
      [|discriminate].
    destruct c as [c|].
    + cbn in Hpre. discriminate.
    + destruct (Pick_loop connPolicy_Pick p qry pre w2) as [r w3 t3|e t3] eqn:Hrest;
        [|discriminate].
      cbn [prefix] in Hpre. injection Hpre as -> -> <-.
      rewrite (IH w2 w1 t3 Hrest), prefix_prefix. reflexivity.
Qed.

(** X20: if the host iterator yields a host without information before any
    host has yielded a connection, [policyConnPool.Pick] panics; the pools
    of the hosts before it have been asked, and the read lock of the
    policyConnPool is released by the deferred unlock as the panic
    unwinds. *)
Theorem policyConnPool_Pick_no_info_panics p qry w pre h rest w1 tr :
  hostPolicy_Pick qry = pre ++ h :: rest ->
  Info h = None ->
  Pick_loop connPolicy_Pick p qry pre w = Ok (None, None) w1 tr ->
  policyConnPool_Pick connPolicy_Pick hostPolicy_Pick p qry w
  = Panics NoHostInfo (HostPolicyPick qry :: RLock PolicyMu :: tr ++ [RUnlock PolicyMu]).
Proof.
  intros Hhosts Hinfo Hpre. unfold policyConnPool_Pick. rewrite !run_emit, Hhosts.
  unfold bind at 1. rewrite (Pick_loop_app _ _ _ _ _ _ _ Hpre).
  cbn [Pick_loop]. rewrite Hinfo. reflexivity.
Qed.

End PickPanics.

Lemma policyConnPool_Pick_no_info_panics_witness :
  policyConnPool_Pick pick_first propose_B_none_A pcp_A 7 world_A2
  = Panics NoHostInfo [HostPolicyPick 7; RLock PolicyMu; RUnlock PolicyMu].
Proof.
  apply (policyConnPool_Pick_no_info_panics pick_first propose_B_none_A pcp_A 7 world_A2
           [mkSelectedHost (Some hostB)] (mkSelectedHost None)
           [mkSelectedHost (Some hostA)] world_A2 []); reflexivity.
Defined.

(** ** [setupTLSConfig] *)

Section TLSFacts.
Variable CertPool : Type.
Variable Certificate : Type.
Variable NewCertPool : CertPool.
Variable ReadFile : string -> list Byte.byte + string.
Variable AppendCertsFromPEM : CertPool -> list Byte.byte -> CertPool * bool.
Variable LoadX509KeyPair : string -> string -> Certificate + string.

Local Abbreviation setupTLS := (setupTLSConfig NewCertPool ReadFile AppendCertsFromPEM LoadX509KeyPair).
Local Abbreviation setupCA := (setup_ca NewCertPool ReadFile AppendCertsFromPEM).
Local Abbreviation setupKP := (setup_keypair LoadX509KeyPair).

(** What the first step leaves of the options. *)
Lemma setup_ca_fields (opts : SslOptions CertPool Certificate) :
  Certificates (Config (setupCA opts).1) = Certificates (Config opts) /\
  InsecureSkipVerify (Config (setupCA opts).1) = InsecureSkipVerify (Config opts) /\
  CertPath (setupCA opts).1 = CertPath opts /\ KeyPath (setupCA opts).1 = KeyPath opts /\
  CaPath (setupCA opts).1 = CaPath opts /\
  EnableHostVerification (setupCA opts).1 = EnableHostVerification opts /\
  (CaPath opts = "" -> setupCA opts = (opts, None)) /\
  (CaPath opts <> "" -> is_Some (RootCAs (Config (setupCA opts).1))).
Proof.
  unfold setup_ca. case_bool_decide as Hca.
  - cbn [CaPath set_RootCAs set_Config].
    destruct (ReadFile (CaPath opts)) as [pem|e]; [destruct (snd _)|];
      cbn [fst Config Certificates InsecureSkipVerify CertPath KeyPath CaPath
             EnableHostVerification RootCAs set_RootCAs set_Config];
      repeat split; try reflexivity; try (intros; congruence); eauto.
  - repeat split; try reflexivity. intros Hne. contradiction.
Qed.

Lemma setup_keypair_fields (opts : SslOptions CertPool Certificate) :
  RootCAs (Config (setupKP opts).1) = RootCAs (Config opts) /\
  InsecureSkipVerify (Config (setupKP opts).1) = InsecureSkipVerify (Config opts) /\
  CertPath (setupKP opts).1 = CertPath opts /\ KeyPath (setupKP opts).1 = KeyPath opts /\
  CaPath (setupKP opts).1 = CaPath opts /\
  EnableHostVerification (setupKP opts).1 = EnableHostVerification opts /\
  (is_Some (setupKP opts).2 -> (setupKP opts).1 = opts).
Proof.
  unfold setup_keypair. case_bool_decide as Hkp.
  - destruct (LoadX509KeyPair _ _) as [c|e]; cbn; repeat split; try reflexivity.
    intros [? [=]].
  - repeat split; try reflexivity.
Qed.

(** X21: a successful [setupTLSConfig] sets [InsecureSkipVerify] to the
    negation of [EnableHostVerification], whatever the caller had put
    there; a failed one leaves it as it was.  The paths and
    [EnableHostVerification] are never changed. *)
Theorem setupTLSConfig_host_verification (opts : SslOptions CertPool Certificate) :
  ((setupTLS opts).2 = None ->
   InsecureSkipVerify (Config (setupTLS opts).1) = negb (EnableHostVerification opts)) /\
  (is_Some (setupTLS opts).2 ->
   InsecureSkipVerify (Config (setupTLS opts).1) = InsecureSkipVerify (Config opts)) /\
  CertPath (setupTLS opts).1 = CertPath opts /\
  KeyPath (setupTLS opts).1 = KeyPath opts /\
  CaPath (setupTLS opts).1 = CaPath opts /\
  EnableHostVerification (setupTLS opts).1 = EnableHostVerification opts.
Proof.
  unfold setupTLSConfig.
  destruct (setup_ca_fields opts) as (Hc1 & Hi1 & Hp1 & Hk1 & Ha1 & He1 & _).
  destruct (setupCA opts) as [o1 [e1|]]; cbn [fst snd] in *.
  { split; [discriminate|]. auto 10. }
  destruct (setup_keypair_fields o1) as (Hr2 & Hi2 & Hp2 & Hk2 & Ha2 & He2 & _).
  destruct (setupKP o1) as [o2 [e2|]]; cbn [fst snd] in *.
  { split; [discriminate|]. repeat split; congruence. }
  cbn [set_InsecureSkipVerify set_Config Config InsecureSkipVerify CertPath KeyPath CaPath
         EnableHostVerification].
  split; [intros _; congruence|]. split; [intros [? [=]]|].
  repeat split; congruence.
Qed.

(** X22: [setupTLSConfig] succeeds exactly when the CA file, if a path is
    given, can be read and a certificate is parsed from it, and the key
    pair, if a certificate path or a key path is given, can be loaded (it
    is loaded when only one of the two paths is given).  With no path at
    all it succeeds without reading anything and changes only
    [InsecureSkipVerify]. *)
Theorem setupTLSConfig_succeeds_iff (opts : SslOptions CertPool Certificate) :
  ((setupTLS opts).2 = None <->
   (CaPath opts = "" \/
    exists pem, ReadFile (CaPath opts) = inl pem /\
      snd (AppendCertsFromPEM (default NewCertPool (RootCAs (Config opts))) pem) = true) /\
   ((CertPath opts = "" /\ KeyPath opts = "") \/
    exists c, LoadX509KeyPair (CertPath opts) (KeyPath opts) = inl c)) /\
  (CaPath opts = "" -> CertPath opts = "" -> KeyPath opts = "" ->
   setupTLS opts = (set_InsecureSkipVerify (negb (EnableHostVerification opts)) opts, None)).
Proof.
  split.
  - unfold setupTLSConfig.
    destruct (setup_ca_fields opts) as (_ & _ & Hp1 & Hk1 & _).
    assert (Hca : (setupCA opts).2 = None <->
              (CaPath opts = "" \/
               exists pem, ReadFile (CaPath opts) = inl pem /\
                 snd (AppendCertsFromPEM (default NewCertPool (RootCAs (Config opts))) pem)
                 = true)).
    { unfold setup_ca. case_bool_decide as Hne.
      - cbn [CaPath set_RootCAs set_Config].
        assert (match RootCAs (Config opts) with Some pool => pool | None => NewCertPool end
                = default NewCertPool (RootCAs (Config opts))) as ->
          by (destruct (RootCAs (Config opts)); reflexivity).
        destruct (ReadFile (CaPath opts)) as [pem|e].
        + destruct (AppendCertsFromPEM _ pem) as [pool' ok] eqn:Happ. cbn [fst snd].
          destruct ok; cbn [snd]; (split; [try discriminate|]).
          * intros _. right. exists pem. rewrite Happ. auto.
          * reflexivity.
          * intros [?|(pem' & [= <-] & Hok')]; [contradiction|].
            rewrite Happ in Hok'. discriminate.
        + cbn [snd]. split; [discriminate|].
          intros [?|(pem' & [=] & _)]. contradiction.
      - cbn [snd]. split; [|reflexivity]. intros _. left.
        destruct (decide (CaPath opts = "")); [assumption|contradiction]. }
    assert (Hkp : forall o : SslOptions CertPool Certificate, CertPath o = CertPath opts -> KeyPath o = KeyPath opts ->
              ((setupKP o).2 = None <->
               ((CertPath opts = "" /\ KeyPath opts = "") \/
                exists c, LoadX509KeyPair (CertPath opts) (KeyPath opts) = inl c))).
    { intros o Hcp Hkp. unfold setup_keypair. rewrite Hcp, Hkp.
      case_bool_decide as Hne.
      - destruct (LoadX509KeyPair _ _) as [c|e]; cbn [snd].
        + split; eauto.
        + split; [discriminate|]. intros [[? ?]|[c [=]]]. tauto.
      - cbn [snd]. split; [|reflexivity]. intros _. left.
        destruct (decide (CertPath opts = "")), (decide (KeyPath opts = "")); tauto. }
    specialize (Hkp (setupCA opts).1 Hp1 Hk1).
    destruct (setupCA opts) as [o1 [e1|]]; cbn [fst snd] in *.
    { split; [discriminate|]. intros [H _]. apply Hca in H. discriminate. }
    destruct (setupKP o1) as [o2 [e2|]]; cbn [fst snd] in *.
    { split; [discriminate|]. intros [_ H]. apply Hkp in H. discriminate. }
    split; [|reflexivity]. intros _. split; [apply Hca|apply Hkp]; reflexivity.
  - intros Hca Hcp Hkp. unfold setupTLSConfig, setup_ca.
    rewrite bool_decide_eq_false_2 by (intros H; apply H; exact Hca).
    unfold setup_keypair.
    rewrite bool_decide_eq_false_2 by (intros [H|H]; apply H; assumption).
    reflexivity.
Qed.

(** X23: a failed [setupTLSConfig] leaves [Certificates] as they were, but
    not always the whole object: if a CA path is given, [RootCAs] is not
    nil afterwards, even when it was nil before and the call failed; if
    no CA path is given, a failed call changes nothing. *)
Theorem setupTLSConfig_failure_leaves (opts : SslOptions CertPool Certificate) e :
  (setupTLS opts).2 = Some e ->
  Certificates (Config (setupTLS opts).1) = Certificates (Config opts) /\
  (CaPath opts = "" -> (setupTLS opts).1 = opts) /\
  (CaPath opts <> "" -> is_Some (RootCAs (Config (setupTLS opts).1))).
Proof.
  unfold setupTLSConfig.
  destruct (setup_ca_fields opts) as (Hc1 & _ & _ & _ & _ & _ & Hno & Hsome).
  destruct (setupCA opts) as [o1 [e1|]] eqn:Hca; cbn [fst snd] in *.
  { intros _. split; [exact Hc1|]. split; [|exact Hsome].
    intros Hempty. specialize (Hno Hempty). congruence. }
  destruct (setup_keypair_fields o1) as (Hr2 & _ & _ & _ & _ & _ & Hid).
  destruct (setupKP o1) as [o2 [e2|]]; cbn [fst snd] in *; [|discriminate].
  intros _. rewrite (Hid (ex_intro _ e2 eq_refl)).
  split; [exact Hc1|]. split; [|exact Hsome].
  intros Hempty. specialize (Hno Hempty). congruence.
Qed.

(** One successful call with a key pair to load. *)
Lemma setupTLSConfig_step (opts : SslOptions CertPool Certificate) c :
  (CertPath opts <> "" \/ KeyPath opts <> "") ->
  LoadX509KeyPair (CertPath opts) (KeyPath opts) = inl c ->
  (CaPath opts = "" \/
   exists pem, ReadFile (CaPath opts) = inl pem /\
               forall pool, snd (AppendCertsFromPEM pool pem) = true) ->
  (setupTLS opts).2 = None /\
  Certificates (Config (setupTLS opts).1) = Certificates (Config opts) ++ [c] /\
  CertPath (setupTLS opts).1 = CertPath opts /\
  KeyPath (setupTLS opts).1 = KeyPath opts /\
  CaPath (setupTLS opts).1 = CaPath opts.
Proof.
  intros Hpaths Hload Hca. unfold setupTLSConfig.
  destruct (setup_ca_fields opts) as (Hc1 & _ & Hp1 & Hk1 & Ha1 & _).
  assert (Hok : (setupCA opts).2 = None).
  { unfold setup_ca. case_bool_decide as Hne; [|reflexivity].
    destruct Hca as [Hca|(pem & Hread & Happ)]; [contradiction|].
    cbn [CaPath set_RootCAs set_Config]. rewrite Hread, Happ. reflexivity. }
  destruct (setupCA opts) as [o1 e1]; cbn [fst snd] in *. subst e1.
  unfold setup_keypair. rewrite Hp1, Hk1, Hload.
  rewrite bool_decide_eq_true_2 by exact Hpaths.
  cbn [fst snd set_InsecureSkipVerify set_Certificates set_Config Config Certificates
         CertPath KeyPath CaPath].
  rewrite Hc1. auto.
Qed.

(** X24: [setupTLSConfig] is not idempotent: when a certificate path or a
    key path is given, every successful call appends the key pair it loads
    to [Certificates] again, so [n] calls on the same options leave [n]
    copies behind what was there. *)
Theorem setupTLSConfig_certificates_accumulate (opts : SslOptions CertPool Certificate) c n :
  (CertPath opts <> "" \/ KeyPath opts <> "") ->
  LoadX509KeyPair (CertPath opts) (KeyPath opts) = inl c ->
  (CaPath opts = "" \/
   exists pem, ReadFile (CaPath opts) = inl pem /\
               forall pool, snd (AppendCertsFromPEM pool pem) = true) ->
  (setupTLSConfig_times NewCertPool ReadFile AppendCertsFromPEM LoadX509KeyPair n opts).2
  = None /\
  Certificates
    (Config (setupTLSConfig_times NewCertPool ReadFile AppendCertsFromPEM LoadX509KeyPair
               n opts).1)
  = Certificates (Config opts) ++ replicate n c.
Proof.
  revert opts. induction n as [|n IH]; intros opts Hpaths Hload Hca.
  - cbn. rewrite app_nil_r. auto.
  - cbn [setupTLSConfig_times].
    destruct (setupTLSConfig_step opts c Hpaths Hload Hca) as (Hnone & Hcerts & Hp & Hk & Ha).
    destruct (setupTLS opts) as [o1 e1]; cbn [fst snd] in *. subst e1.
    destruct (IH o1) as [Herr Hcs].
    + rewrite Hp, Hk. exact Hpaths.
    + rewrite Hp, Hk. exact Hload.
    + rewrite Ha. exact Hca.
    + split; [exact Herr|]. rewrite Hcs, Hcerts, <- app_assoc. reflexivity.
Qed.

End TLSFacts.

Lemma setupTLSConfig_failure_leaves_witness :
  RootCAs (Config ssl_missing_ca) = None /\
  Certificates (Config (setupTLSConfig [] read_ca_only append_root load_client_pair
                          ssl_missing_ca).1) = [] /\
  is_Some (RootCAs (Config (setupTLSConfig [] read_ca_only append_root load_client_pair
                              ssl_missing_ca).1)).
Proof.
  split; [reflexivity|].
  destruct (setupTLSConfig_failure_leaves (list string) string [] read_ca_only append_root
              load_client_pair ssl_missing_ca
              "connectionpool: unable to open CA certs: no such file" eq_refl)
    as (Hc & _ & Hr).
  split; [exact Hc|]. apply Hr. discriminate.
Defined.

Lemma setupTLSConfig_certificates_accumulate_witness :
  (setupTLSConfig_times [] read_ca_only append_root load_client_pair 3 ssl_client).2 = None /\
  Certificates (Config (setupTLSConfig_times [] read_ca_only append_root load_client_pair
                          3 ssl_client).1)
  = ["client"; "client"; "client"].
Proof.
  apply (setupTLSConfig_certificates_accumulate (list string) string [] read_ca_only
           append_root load_client_pair ssl_client "client" 3).
  - left. discriminate.
  - reflexivity.
  - right. exists [Byte.x2d]. split; [reflexivity|]. intros pool. reflexivity.
Defined.

(** The calls evaluated: with no path nothing is read and only
    [InsecureSkipVerify] changes; with all paths the CA pool gets the root
    certificate and the client certificate is appended. *)
Example setupTLSConfig_runs :
  setupTLSConfig [] read_ca_only append_root load_client_pair ssl_plain
  = (mkSslOptions (mkTlsConfig None [] false) "" "" "" true, None) /\
  setupTLSConfig [] read_ca_only append_root load_client_pair ssl_client
  = (mkSslOptions (mkTlsConfig (Some ["root"]) ["client"] true)
       "cert.pem" "key.pem" "ca.pem" false, None).
Proof. split; reflexivity. Qed.

(** ** The intermediate CA paths of the PKI backend *)

(** The entries that the [switch format] of [pathGenerateIntermediate]
    leaves in the response. *)
Lemma generate_data_keys (base64_EncodeToString : list Byte.byte -> string) format exported parsedBundle csrb d :
  pki.generate_data base64_EncodeToString format exported parsedBundle csrb = Some d ->
  (is_Some (d !! "private_key") <-> exported = true /\ (format = "pem" \/ format = "der")) /\
  (is_Some (d !! "private_key_type") <->
   exported = true /\ (format = "pem" \/ format = "der")) /\
  (is_Some (d !! "csr") <-> format = "pem" \/ format = "der").
Proof.
  unfold pki.generate_data.
  assert (Hyes : forall (x : string) P, P -> is_Some (Some x) <-> P).
  { intros x P HP. split; [intros _; exact HP|intros _; eauto]. }
  assert (Hno : forall P, ~ P -> is_Some (@None string) <-> P).
  { intros P HP. split; [intros [? [=]]|intros H; destruct (HP H)]. }
  case_bool_decide as Hpem; [|case_bool_decide as Hder].
  - subst format. destruct exported; intros [= <-]; split_and!;
      repeat (rewrite lookup_insert_eq || (rewrite lookup_insert_ne by discriminate)
              || rewrite lookup_empty);
      first [apply Hyes; auto | apply Hno; intros [[=] _]].
  - subst format. destruct parsedBundle as [pb|]; [|discriminate].
    destruct exported; intros [= <-]; split_and!;
      repeat (rewrite lookup_insert_eq || (rewrite lookup_insert_ne by discriminate)
              || rewrite lookup_empty);
      first [apply Hyes; auto | apply Hno; intros [[=] _]].
  - intros [= <-]. split_and!; rewrite lookup_empty; apply Hno; tauto.
Qed.

Section PkiFacts.
Variable Storage : Type.
Variable Storage_Get : Storage -> string -> option pki.StorageEntry + pki.error.
Variable Storage_Put : Storage -> pki.StorageEntry -> Storage * option pki.error.
Variable X509 : Type.
Variable PublicKey_t : Type.
Variable Signer : Type.
Variable roleEntry : Type.
Variable FieldData : Type.
Variable BundleRest : Type.
Variable zeroRest : BundleRest.
Variable PublicKey : X509 -> PublicKey_t.
Variable IsCA : X509 -> bool.
Variable Public : Signer -> PublicKey_t.
Variable ParsePEMBundle : string -> pki.ParsedCertBundle X509 Signer + pki.error.
Variable DecodeJSON : pki.StorageEntry -> pki.CertBundle BundleRest + pki.error.
Variable ToParsedCertBundle :
  pki.CertBundle BundleRest -> pki.ParsedCertBundle X509 Signer + pki.error.
Variable ComparePublicKeys : PublicKey_t -> PublicKey_t -> bool + pki.error.
Variable ToCertBundle :
  pki.ParsedCertBundle X509 Signer -> pki.CertBundle BundleRest + pki.error.
Variable StorageEntryJSON : string -> pki.CertBundle BundleRest -> pki.StorageEntry + pki.error.
Variable buildCRL : Storage -> Storage * option pki.error.
Variable getGenerationParams : FieldData -> bool * string * roleEntry * option pki.Response.
Variable generateIntermediateCSR :
  Storage -> roleEntry -> FieldData -> option pki.ParsedCSRBundle * option pki.error.
Variable ToCSRBundle : option pki.ParsedCSRBundle -> pki.CSRBundle + pki.error.
Variable base64_EncodeToString : list Byte.byte -> string.

Local Abbreviation setSigned :=
  (pki.pathSetSignedIntermediate Storage Storage_Get Storage_Put X509 PublicKey_t Signer
     BundleRest PublicKey IsCA Public ParsePEMBundle DecodeJSON ToParsedCertBundle
     ComparePublicKeys ToCertBundle StorageEntryJSON buildCRL).
Local Abbreviation setSignedCheck :=
  (pki.set_signed_check Storage Storage_Get Storage_Put X509 PublicKey_t Signer
     BundleRest PublicKey IsCA Public DecodeJSON ToParsedCertBundle
     ComparePublicKeys ToCertBundle StorageEntryJSON buildCRL).
Local Abbreviation setSignedStore :=
  (pki.set_signed_store Storage Storage_Put X509 Signer BundleRest ToCertBundle
     StorageEntryJSON buildCRL).
Local Abbreviation generate :=
  (pki.pathGenerateIntermediate Storage Storage_Put roleEntry FieldData BundleRest zeroRest
     StorageEntryJSON getGenerationParams generateIntermediateCSR ToCSRBundle
     base64_EncodeToString).
Local Abbreviation generateStore :=
  (pki.generate_store Storage Storage_Put BundleRest zeroRest StorageEntryJSON ToCSRBundle
     base64_EncodeToString).

(** The writes of [pathSetSignedIntermediate] return no response. *)
Lemma set_signed_store_no_response s b resp err :
  (setSignedStore s b).2 <> pki.Returns (Some resp) err.
Proof.
  unfold pki.set_signed_store.
  destruct (ToCertBundle b) as [cb|e]; [|discriminate].
  destruct (StorageEntryJSON _ cb) as [entry|e]; [|discriminate].
  destruct (Storage_Put s entry) as [s1 [e|]]; [discriminate|].
  destruct (Storage_Put s1 _) as [s2 [e|]]; discriminate.
Qed.

Local Abbreviation validated :=
  (pki.validated Storage Storage_Get X509 PublicKey_t Signer BundleRest PublicKey IsCA Public
     ParsePEMBundle DecodeJSON ToParsedCertBundle ComparePublicKeys).

Lemma setSigned_cases s cert :
  (exists r e, setSigned s cert = (s, pki.Returns r e) /\
     ((exists msg, r = Some (pki.ErrorResponse msg) /\ e = None) \/
      (r = None /\ is_Some e))) \/
  (exists b, validated s cert b /\ setSigned s cert = setSignedStore s b).
Proof.
  assert (Hresp : forall msg,
    exists r e, (s, pki.Returns (Some (pki.ErrorResponse msg)) None)
                = (s, pki.Returns r e) /\
     ((exists msg, r = Some (pki.ErrorResponse msg) /\ e = None) \/
      (r = None /\ is_Some e))).
  { intros msg. eexists _, _. split; [reflexivity|]. left. eauto. }
  assert (Herr : forall err,
    exists r e, (s, pki.Returns None (Some err)) = (s, pki.Returns r e) /\
     ((exists msg, r = Some (pki.ErrorResponse msg) /\ e = None) \/
      (r = None /\ is_Some e))).
  { intros err. eexists _, _. split; [reflexivity|]. right. eauto. }
  unfold pki.pathSetSignedIntermediate.
  case_bool_decide as Hcert; [left; apply Hresp|].
  destruct (ParsePEMBundle cert) as [bundle|e] eqn:Hparse.
  2:{ left. destruct e; [apply Hresp|apply Herr|apply Hresp]. }
  destruct (pki.Certificate X509 Signer (pki.move_issuing_ca X509 Signer bundle))
    as [certificate|] eqn:Hc; [|left; apply Hresp].
  unfold pki.set_signed_check.
  destruct (Storage_Get s "config/ca_bundle") as [[entry|]|e] eqn:Hget;
    [|left; apply Hresp|left; apply Herr].
  destruct (DecodeJSON entry) as [cb|e] eqn:Hdec; [|left; apply Herr].
  case_bool_decide as Hkey; [left; apply Hresp|].
  destruct (ToParsedCertBundle cb) as [parsedCB|e] eqn:Hpcb; [|left; apply Herr].
  destruct (pki.PrivateKey X509 Signer parsedCB) as [key|] eqn:Hpk; [|left; apply Herr].
  destruct (ComparePublicKeys (Public key) (PublicKey certificate)) as [[|]|e] eqn:Hcmp;
    [|left; apply Hresp|left; apply Hresp].
  destruct (IsCA certificate) eqn:Hca; cbn [negb]; [|left; apply Hresp].
  right. eexists. split; [|reflexivity].
  exists bundle, certificate, entry, cb, parsedCB, key.
  cbn [pki.CertificateBytes pki.PrivateKey].
  repeat split; try assumption; try reflexivity.
  - intros H. apply Hkey. left. exact H.
  - intros H. apply Hkey. right. exact H.
Qed.

(** X25: [pathSetSignedIntermediate] never panics and never returns
    anything but an error response, and whenever it returns a response it
    has not written to the storage.  If the storage it leaves differs from
    the one it was given, then the certificate was parsed (a lone CA
    certificate taken from [IssuingCA]), it is marked as a CA, and its
    public key matches the private key stored under ["config/ca_bundle"],
    which was found with a key and a key type and could be parsed. *)
Theorem pathSetSignedIntermediate_writes_only_validated s cert :
  (forall resp err, (setSigned s cert).2 = pki.Returns (Some resp) err ->
     (setSigned s cert).1 = s /\ err = None /\ exists msg, resp = pki.ErrorResponse msg) /\
  ((setSigned s cert).1 <> s -> exists b, validated s cert b) /\
  (setSigned s cert).2 <> pki.PanicsNil.
Proof.
  destruct (setSigned_cases s cert) as [(r & e & Hrun & Hcase)|(b & Hval & Hrun)];
    rewrite Hrun; cbn [fst snd].
  - split; [|split; [intros Hne; contradiction|discriminate]].
    intros resp err [= -> ->]. split; [reflexivity|].
    destruct Hcase as [(msg & [= ->] & ->)|[[=] _]]. eauto.
  - split.
    { intros resp err H. exfalso. eapply set_signed_store_no_response; eauto. }
    split; [eauto|].
    unfold pki.set_signed_store.
    destruct (ToCertBundle b) as [cb|e]; [|discriminate].
    destruct (StorageEntryJSON _ cb) as [entry|e]; [|discriminate].
    destruct (Storage_Put s entry) as [s1 [e|]]; [discriminate|].
    destruct (Storage_Put s1 _) as [s2 [e|]]; discriminate.
Qed.

(** X26: when [pathSetSignedIntermediate] succeeds, returning neither a
    response nor an error, all its checks have passed and the storage has
    received, in this order, the entry made from the bundle under
    ["config/ca_bundle"], the bytes of the certificate alone under ["ca"],
    and what [buildCRL] writes. *)
Theorem pathSetSignedIntermediate_success s cert s' :
  setSigned s cert = (s', pki.Returns None None) ->
  exists b cb entry s1 s2,
    validated s cert b /\
    ToCertBundle b = inl cb /\
    StorageEntryJSON "config/ca_bundle" cb = inl entry /\
    Storage_Put s entry = (s1, None) /\
    Storage_Put s1 (pki.mkStorageEntry "ca" (pki.CertificateBytes X509 Signer b))
    = (s2, None) /\
    buildCRL s2 = (s', None).
Proof.
  destruct (setSigned_cases s cert) as [(r & e & Hrun & Hcase)|(b & Hval & Hrun)];
    rewrite Hrun.
  - intros [= <- -> ->]. destruct Hcase as [(msg & [=] & _)|[_ [? [=]]]].
  - unfold pki.set_signed_store.
    destruct (ToCertBundle b) as [cb|e] eqn:Hcb; [|discriminate].
    destruct (StorageEntryJSON _ cb) as [entry|e] eqn:Hentry; [|discriminate].
    destruct (Storage_Put s entry) as [s1 [e|]] eqn:Hput1; [discriminate|].
    destruct (Storage_Put s1 _) as [s2 [e|]] eqn:Hput2; [discriminate|].
    destruct (buildCRL s2) as [s3 e3] eqn:Hcrl. cbn [fst snd].
    intros [= <- ->]. exists b, cb, entry, s1, s2. auto 10.
Qed.

(** X27: when [pathGenerateIntermediate] answers with data, the response
    has the entries ["private_key"] and ["private_key_type"] exactly when
    [exported] is set and the format is ["pem"] or ["der"], and the entry
    ["csr"] exactly for these two formats (for any other format the data
    is empty); whatever [exported] and the format are, the private key and
    its type, and nothing else, have been put into the storage under
    ["config/ca_bundle"]. *)
Theorem pathGenerateIntermediate_private_key s data exported format role d s' :
  getGenerationParams data = (exported, format, role, None) ->
  generate s data = (s', pki.Returns (Some (pki.DataResponse d)) None) ->
  (is_Some (d !! "private_key") <-> exported = true /\ (format = "pem" \/ format = "der")) /\
  (is_Some (d !! "private_key_type") <->
   exported = true /\ (format = "pem" \/ format = "der")) /\
  (is_Some (d !! "csr") <-> format = "pem" \/ format = "der") /\
  exists parsedBundle csrb entry,
    ToCSRBundle parsedBundle = inl csrb /\
    StorageEntryJSON "config/ca_bundle"
      (pki.mkCertBundle BundleRest (pki.csrb_PrivateKey csrb) (pki.csrb_PrivateKeyType csrb)
         zeroRest) = inl entry /\
    Storage_Put s entry = (s', None).
Proof.
  intros Hparams. unfold pki.pathGenerateIntermediate. rewrite Hparams.
  assert (Hstore : forall parsedBundle,
    generateStore s format exported parsedBundle
    = (s', pki.Returns (Some (pki.DataResponse d)) None) ->
    (is_Some (d !! "private_key") <-> exported = true /\ (format = "pem" \/ format = "der")) /\
    (is_Some (d !! "private_key_type") <->
     exported = true /\ (format = "pem" \/ format = "der")) /\
    (is_Some (d !! "csr") <-> format = "pem" \/ format = "der") /\
    exists parsedBundle csrb entry,
      ToCSRBundle parsedBundle = inl csrb /\
      StorageEntryJSON "config/ca_bundle"
        (pki.mkCertBundle BundleRest (pki.csrb_PrivateKey csrb)
           (pki.csrb_PrivateKeyType csrb) zeroRest) = inl entry /\
      Storage_Put s entry = (s', None)).
  { intros parsedBundle. unfold pki.generate_store.
    destruct (ToCSRBundle parsedBundle) as [csrb|e] eqn:Hcsrb; [|discriminate].
    destruct (pki.generate_data _ _ _ _ _) as [d0|] eqn:Hdata; [|discriminate].
    destruct (StorageEntryJSON _ _) as [entry|e] eqn:Hentry; [|discriminate].
    destruct (Storage_Put s entry) as [s1 [e|]] eqn:Hput; [discriminate|].
    intros [= <- <-].
    destruct (generate_data_keys _ _ _ _ _ _ Hdata) as (H1 & H2 & H3).
    split; [exact H1|]. split; [exact H2|]. split; [exact H3|].
    exists parsedBundle, csrb, entry. auto. }
  destruct (generateIntermediateCSR s role data) as [parsedBundle [[msg|msg|msg]|]];
    try discriminate; apply Hstore.
Qed.

End PkiFacts.

(** With the key of public key 7 in the storage, the CA certificate for
    that key is accepted: the bundle, the certificate and the CRL are
    written, in this order. *)
Lemma pathSetSignedIntermediate_success_witness :
  pki_inmem.pathSetSignedIntermediate pki_inmem.with_key "ca-7"
  = (pki.mkStorageEntry "crl" []
       :: pki.mkStorageEntry "ca" (String.list_byte_of_string "ca-7")
       :: pki.mkStorageEntry "config/ca_bundle" (String.list_byte_of_string "1234567")
       :: pki_inmem.with_key,
     pki.Returns None None) /\
  exists b cb entry s1 s2,
    pki_inmem.validated pki_inmem.with_key "ca-7" b /\
    pki_inmem.ToCertBundle b = inl cb /\
    pki_inmem.StorageEntryJSON "config/ca_bundle" cb = inl entry /\
    pki_inmem.Storage_Put pki_inmem.with_key entry = (s1, None) /\
    pki_inmem.Storage_Put s1
      (pki.mkStorageEntry "ca" (pki.CertificateBytes pki_inmem.X509 nat b)) = (s2, None) /\
    pki_inmem.buildCRL s2
    = (pki.mkStorageEntry "crl" []
         :: pki.mkStorageEntry "ca" (String.list_byte_of_string "ca-7")
         :: pki.mkStorageEntry "config/ca_bundle" (String.list_byte_of_string "1234567")
         :: pki_inmem.with_key, None).
Proof.
  assert (Hrun : pki_inmem.pathSetSignedIntermediate pki_inmem.with_key "ca-7"
    = (pki.mkStorageEntry "crl" []
         :: pki.mkStorageEntry "ca" (String.list_byte_of_string "ca-7")
         :: pki.mkStorageEntry "config/ca_bundle" (String.list_byte_of_string "1234567")
         :: pki_inmem.with_key,
       pki.Returns None None)) by (vm_compute; reflexivity).
  split; [exact Hrun|].
  exact (pathSetSignedIntermediate_success _ _ _ _ _ _ _ _ _ _ _ _ _ _ _ _ _ _ _ _ Hrun).
Defined.

(** The leaf certificate for the same key is refused and nothing is
    written; so is any certificate when no key is stored. *)
Example pathSetSignedIntermediate_refuses :
  pki_inmem.pathSetSignedIntermediate pki_inmem.with_key "leaf-7"
  = (pki_inmem.with_key,
     pki.Returns (Some (pki.ErrorResponse
       "the given certificate is not marked for CA use and cannot be used with this backend"))
       None) /\
  pki_inmem.pathSetSignedIntermediate [] "ca-7"
  = ([], pki.Returns (Some (pki.ErrorResponse
            "could not find any existing entry with a private key")) None).
Proof. split; vm_compute; reflexivity. Qed.

(** A request for an exported key in DER form: the response has the
    three entries, and the key is stored. *)
Lemma pathGenerateIntermediate_private_key_witness :
  pki_inmem.pathGenerateIntermediate [] (true, "der")
  = (pki_inmem.with_key,
     pki.Returns (Some (pki.DataResponse pki_inmem.exported_der)) None) /\
  is_Some (pki_inmem.exported_der !! "private_key") /\
  is_Some (pki_inmem.exported_der !! "csr").
Proof.
  assert (Hrun : pki_inmem.pathGenerateIntermediate [] (true, "der")
    = (pki_inmem.with_key,
       pki.Returns (Some (pki.DataResponse pki_inmem.exported_der)) None))
    by reflexivity.
  split; [exact Hrun|].
  destruct (pathGenerateIntermediate_private_key _ _ _ _ _ _ _ _ _ _ _
              [] (true, "der") true "der" tt pki_inmem.exported_der pki_inmem.with_key
              eq_refl Hrun)
    as (H1 & _ & H3 & _).
  split; [apply H1|apply H3]; auto.
Defined.

(** Without [exported], the key is stored all the same and the response
    does not have it. *)
Example pathGenerateIntermediate_not_exported :
  pki_inmem.pathGenerateIntermediate [] (false, "pem")
  = (pki_inmem.with_key,
     pki.Returns (Some (pki.DataResponse (<["csr" := "csr-7"]> ∅))) None).
Proof. reflexivity. Qed.

(** ** Revoking PostgreSQL credentials *)

Section PostgresFacts.
Variable DB : Type.
Variable Stmt : Type.
Variable Prepare : DB -> string -> DB * (Stmt + string).
Variable Query : DB -> Stmt -> DB * (postgresql.Rows + string).
Variable Exec : DB -> Stmt -> DB * option string.
Variable Stmt_Close : DB -> Stmt -> DB.
Variable Rows_Close : DB -> DB.
Variable QuoteIdentifier : string -> string.

Import postgresql.

Local Abbreviation revoke_loop := (postgresql.revoke_loop DB Stmt Prepare Exec).
Local Abbreviation drop_role :=
  (postgresql.drop_role DB Stmt Prepare Exec Stmt_Close QuoteIdentifier).
Local Abbreviation revoke_and_drop :=
  (postgresql.revoke_and_drop DB Stmt Prepare Exec Stmt_Close QuoteIdentifier).
Local Abbreviation query_and_revoke :=
  (postgresql.query_and_revoke DB Stmt Prepare Query Exec Stmt_Close Rows_Close
     QuoteIdentifier).
Local Abbreviation revoke_user :=
  (postgresql.revoke_user DB Stmt Prepare Query Exec Stmt_Close Rows_Close QuoteIdentifier).
Local Abbreviation secretCredsRevoke :=
  (postgresql.secretCredsRevoke DB Stmt Prepare Query Exec Stmt_Close Rows_Close
     QuoteIdentifier).
Local Abbreviation revocationStmts := (postgresql.revocationStmts QuoteIdentifier).
Local Abbreviation drop_query := (postgresql.drop_query QuoteIdentifier).
Local Abbreviation event := (postgresql.event Stmt).

Lemma prepared_app (a b : list event) : prepared (a ++ b) = prepared a ++ prepared b.
Proof. unfold prepared. apply omap_app. Qed.

Lemma failures_app (a b : list event) : failures (a ++ b) = failures a ++ failures b.
Proof. unfold failures. apply omap_app. Qed.

Lemma opened_app (a b : list event) : opened (a ++ b) = opened a + opened b.
Proof. unfold opened. rewrite List.filter_app, length_app. reflexivity. Qed.

Lemma closed_app (a b : list event) : closed (a ++ b) = closed a + closed b.
Proof. unfold closed. rewrite List.filter_app, length_app. reflexivity. Qed.

Lemma prepared_cons (ev : event) tr :
  prepared (ev :: tr)
  = match ev with EvPrepare q _ => q :: prepared tr | _ => prepared tr end.
Proof. destruct ev; reflexivity. Qed.

Lemma failures_cons (ev : event) tr :
  failures (ev :: tr)
  = match event_err ev with Some e => e :: failures tr | None => failures tr end.
Proof. unfold failures. cbn. destruct (event_err ev); reflexivity. Qed.

Lemma opened_cons (ev : event) tr :
  opened (ev :: tr) = (if is_opened ev then 1 else 0) + opened tr.
Proof. unfold opened. cbn. destruct (is_opened ev); reflexivity. Qed.

Lemma closed_cons (ev : event) tr :
  closed (ev :: tr) = (if is_closed ev then 1 else 0) + closed tr.
Proof. unfold closed. cbn. destruct (is_closed ev); reflexivity. Qed.

Ltac calls_simpl :=
  cbn [fst snd];
  rewrite ?prepared_cons, ?failures_cons, ?opened_cons, ?closed_cons;
  cbn [event_err is_opened is_closed length].

(** The loop prepares every query, in order, whatever fails; it closes
    nothing; the error it leaves is the last one that a call returned. *)
Lemma revoke_loop_calls queries : forall db lastStmtError,
  let r := revoke_loop queries db lastStmtError in
  prepared r.1.2 = queries /\
  closed r.1.2 = 0 /\
  r.2 = match last (failures r.1.2) with
        | Some e => Some e
        | None => lastStmtError
        end /\
  opened r.1.2 <= length queries /\
  (failures r.1.2 = [] -> opened r.1.2 = length queries).
Proof.
  induction queries as [|q qs IH]; intros db l; cbn zeta; cbn [postgresql.revoke_loop].
  - cbn. split_and!; auto.
  - destruct (Prepare db q) as [db1 [stmt|err]].
    + destruct (Exec db1 stmt) as [db2 e].
      specialize (IH db2 (match e with Some err => Some err | None => l end)).
      cbn zeta in IH.
      destruct (revoke_loop qs db2 _) as [[db' tr] l'].
      cbn [fst snd] in IH. destruct IH as (Hp & Hc & Hl & Ho & Hall).
      calls_simpl. split_and!.
      * rewrite Hp. reflexivity.
      * exact Hc.
      * rewrite Hl. destruct e as [err|].
        -- rewrite last_cons. destruct (last (failures tr)); reflexivity.
        -- reflexivity.
      * lia.
      * destruct e as [err|]; [discriminate|].
        intros Hf. rewrite (Hall Hf). reflexivity.
    + specialize (IH db1 (Some err)). cbn zeta in IH.
      destruct (revoke_loop qs db1 _) as [[db' tr] l'].
      cbn [fst snd] in IH. destruct IH as (Hp & Hc & Hl & Ho & Hall).
      calls_simpl. split_and!.
      * rewrite Hp. reflexivity.
      * exact Hc.
      * rewrite Hl. rewrite last_cons. destruct (last (failures tr)); reflexivity.
      * lia.
      * discriminate.
Qed.

Lemma last_None_nil {A} (l : list A) : last l = None -> l = [].
Proof. destruct l as [|a l] using rev_ind; [reflexivity|]. rewrite last_snoc. discriminate. Qed.

(** What [drop_role] calls and returns. *)
Lemma drop_role_calls username db :
  let r := drop_role username db in
  prepared r.1.2 = [drop_query username] /\
  opened r.1.2 = closed r.1.2 /\
  closed r.1.2 <= 1 /\
  (r.2 = (None, None) <-> failures r.1.2 = []) /\
  (failures r.1.2 = [] -> opened r.1.2 = 1).
Proof.
  unfold postgresql.drop_role.
  destruct (Prepare db _) as [db1 [stmt|err]]; cbn.
  - destruct (Exec db1 stmt) as [db2 [err|]]; cbn;
      split_and!; try reflexivity; try lia; try discriminate;
      split; discriminate || reflexivity.
  - split_and!; try reflexivity; try lia; try discriminate.
    split; discriminate.
Qed.

(** The calls of [revoke_and_drop], in its three cases. *)
Lemma revoke_and_drop_calls username rows db :
  let r := revoke_and_drop username rows db in
  let loop := (revoke_loop (revocationStmts username rows) db None).1.2 in
  exists final,
    r.1.2 = loop ++ final /\
    ((rows_Err rows = None /\ failures loop = [] /\
      prepared final = [drop_query username]) \/
     ((rows_Err rows <> None \/ failures loop <> []) /\ prepared final = [] /\
      failures (loop ++ final) <> [])) /\
    opened final = closed final /\
    closed final <= 1 /\
    (r.2 = (None, None) <-> failures (loop ++ final) = []) /\
    (failures (loop ++ final) = [] -> opened final = 1).
Proof.
  unfold postgresql.revoke_and_drop. cbn zeta.
  pose proof (revoke_loop_calls (revocationStmts username rows) db None) as Hloop.
  cbn zeta in Hloop.
  destruct (revoke_loop _ db None) as [[db1 tr] l]. cbn [fst snd] in Hloop |- *.
  destruct Hloop as (Hp & Hc & Hl & _).
  destruct (rows_Err rows) as [e|].
  - assert (Hne : failures (tr ++ [EvRowsErr (Some e); EvRowsErr (Some e)]) <> []).
    { rewrite failures_app. intros H. apply app_eq_nil in H as [_ [=]]. }
    eexists. split; [reflexivity|]. split_and!.
    + right. split_and!; [left; discriminate|reflexivity|exact Hne].
    + reflexivity.
    + cbn. lia.
    + split; [discriminate|]. intros H. destruct (Hne H).
    + intros H. destruct (Hne H).
  - destruct l as [e|].
    + assert (Hnl : failures tr <> []).
      { intros Hf. rewrite Hf in Hl. discriminate. }
      assert (Hne : failures (tr ++ [EvRowsErr None]) <> []).
      { rewrite failures_app. intros H. apply app_eq_nil in H as [H _]. destruct (Hnl H). }
      eexists. split; [reflexivity|]. split_and!.
      * right. split_and!; [right; exact Hnl|reflexivity|exact Hne].
      * reflexivity.
      * cbn. lia.
      * split; [discriminate|]. intros H. destruct (Hne H).
      * intros H. destruct (Hne H).
    + pose proof (drop_role_calls username db1) as Hdrop. cbn zeta in Hdrop.
      destruct (drop_role username db1) as [[db2 tr'] out]. cbn [fst snd] in Hdrop |- *.
      destruct Hdrop as (Hdp & Hdo & Hdc & Hdout & Hdall).
      assert (Hf : failures tr = []).
      { apply last_None_nil. destruct (last (failures tr)); [discriminate|reflexivity]. }
      exists (EvRowsErr None :: tr'). split; [reflexivity|].
      rewrite failures_app, Hf. calls_simpl. split_and!.
      * left. split_and!; [reflexivity|reflexivity|exact Hdp].
      * exact Hdo.
      * exact Hdc.
      * exact Hdout.
      * exact Hdall.
Qed.

(** The calls of [secretCredsRevoke] once the rows are there. *)
Lemma secretCredsRevoke_calls d raw db db1 stmt db2 rows :
  d !! "username" = Some raw ->
  Prepare db (select_query (username_of raw)) = (db1, inl stmt) ->
  Query db1 stmt = (db2, inl rows) ->
  let r := secretCredsRevoke d (inl db) in
  let loop := (revoke_loop (revocationStmts (username_of raw) rows) db2 None).1.2 in
  exists final,
    r.1.2 = EvPrepare (select_query (username_of raw)) None :: EvQuery stmt None
              :: loop ++ final ++ [EvRowsClose; EvStmtClose stmt] /\
    ((rows_Err rows = None /\ failures loop = [] /\
      prepared final = [drop_query (username_of raw)]) \/
     ((rows_Err rows <> None \/ failures loop <> []) /\ prepared final = [] /\
      failures (loop ++ final) <> [])) /\
    opened final = closed final /\
    closed final <= 1 /\
    (r.2 = (None, None) <-> failures (loop ++ final) = []) /\
    (failures (loop ++ final) = [] -> opened final = 1).
Proof.
  intros Hd Hprep Hquery.
  unfold postgresql.secretCredsRevoke, postgresql.revoke_user. rewrite Hd. cbn zeta.
  rewrite Hprep.
  unfold postgresql.query_and_revoke. rewrite Hquery.
  pose proof (revoke_and_drop_calls (username_of raw) rows db2) as Hrd. cbn zeta in Hrd.
  destruct (revoke_and_drop (username_of raw) rows db2) as [[db3 tr] out].
  cbn [fst snd] in Hrd |- *. destruct Hrd as (final & Htr & Hcase & Ho & Hc & Hout & Hall).
  exists final. split; [|auto].
  rewrite Htr. cbn [app]. rewrite <- !app_assoc. reflexivity.
Qed.

(** X28: once the SELECT has given its rows, [secretCredsRevoke]
    prepares one REVOKE for every row that scanned, in the order of the
    rows and whatever fails on the way; a row that does not scan is
    skipped and nothing is said.  The DROP ROLE is prepared after them
    exactly when [rows.Err()] is nil and no call for a REVOKE returned an
    error; nothing else is prepared. *)
Theorem secretCredsRevoke_revokes_then_drops d raw db db1 stmt db2 rows :
  d !! "username" = Some raw ->
  Prepare db (select_query (username_of raw)) = (db1, inl stmt) ->
  Query db1 stmt = (db2, inl rows) ->
  let loop := (revoke_loop (revocationStmts (username_of raw) rows) db2 None).1.2 in
  prepared loop = revocationStmts (username_of raw) rows /\
  ((rows_Err rows = None /\ failures loop = [] /\
    prepared (secretCredsRevoke d (inl db)).1.2
    = select_query (username_of raw) :: revocationStmts (username_of raw) rows
        ++ [drop_query (username_of raw)]) \/
   ((rows_Err rows <> None \/ failures loop <> []) /\
    prepared (secretCredsRevoke d (inl db)).1.2
    = select_query (username_of raw) :: revocationStmts (username_of raw) rows)).
Proof.
  intros Hd Hprep Hquery loop.
  destruct (secretCredsRevoke_calls d raw db db1 stmt db2 rows Hd Hprep Hquery)
    as (final & Htr & Hcase & _).
  destruct (revoke_loop_calls (revocationStmts (username_of raw) rows) db2 None)
    as (Hp & _).
  fold loop in Htr, Hcase, Hp.
  split; [exact Hp|].
  rewrite Htr, !prepared_cons, !prepared_app, Hp.
  destruct Hcase as [(Hr & Hf & Hfin)|(Hno & Hfin & _)]; rewrite Hfin.
  - left. split_and!; [exact Hr|exact Hf|reflexivity].
  - right. split; [exact Hno|]. cbn [app]. rewrite !prepared_cons.
    change (prepared (@nil event)) with (@nil string). rewrite app_nil_r. reflexivity.
Qed.

(** X29: with a user name and a connection, [secretCredsRevoke] returns
    [(nil, nil)] exactly when every call it made to the database returned
    no error, [rows.Err()] included; it then has prepared the DROP ROLE
    last.  What [Scan] returns does not count. *)
Theorem secretCredsRevoke_success_iff d raw db :
  d !! "username" = Some raw ->
  ((secretCredsRevoke d (inl db)).2 = (None, None)
   <-> failures (secretCredsRevoke d (inl db)).1.2 = []) /\
  ((secretCredsRevoke d (inl db)).2 = (None, None) ->
   last (prepared (secretCredsRevoke d (inl db)).1.2) = Some (drop_query (username_of raw))).
Proof.
  intros Hd.
  destruct (Prepare db (select_query (username_of raw))) as [db1 [stmt|err]] eqn:Hprep.
  - destruct (Query db1 stmt) as [db2 [rows|err]] eqn:Hquery.
    + destruct (secretCredsRevoke_calls d raw db db1 stmt db2 rows Hd Hprep Hquery)
        as (final & Htr & Hcase & _ & _ & Hout & _).
      rewrite Htr. split.
      * rewrite Hout, !failures_cons. cbn [event_err].
        rewrite !failures_app. cbn. rewrite !app_nil_r. reflexivity.
      * intros Hok. apply Hout in Hok.
        destruct Hcase as [(_ & _ & Hp)|(_ & _ & Hno)]; [|destruct (Hno Hok)].
        rewrite !prepared_cons, !prepared_app, Hp.
        rewrite !last_cons, last_app. reflexivity.
    + unfold postgresql.secretCredsRevoke, postgresql.revoke_user. rewrite Hd, Hprep.
      unfold postgresql.query_and_revoke. rewrite Hquery. cbn.
      split; [split; discriminate|discriminate].
  - unfold postgresql.secretCredsRevoke, postgresql.revoke_user. rewrite Hd, Hprep. cbn.
    split; [split; discriminate|discriminate].
Qed.

(** X30: the statements that [secretCredsRevoke] prepares for the REVOKE
    queries are never closed: the loop closes nothing, the whole call
    closes at most two statements (the SELECT's and the DROP ROLE's), and
    the statements prepared and not closed are those the loop prepared.
    When the call succeeds it has prepared two statements and one for
    every row that scanned, and closed two. *)
Theorem secretCredsRevoke_leaves_statements_open d raw db db1 stmt db2 rows :
  d !! "username" = Some raw ->
  Prepare db (select_query (username_of raw)) = (db1, inl stmt) ->
  Query db1 stmt = (db2, inl rows) ->
  let loop := (revoke_loop (revocationStmts (username_of raw) rows) db2 None).1.2 in
  closed loop = 0 /\
  closed (secretCredsRevoke d (inl db)).1.2 <= 2 /\
  opened (secretCredsRevoke d (inl db)).1.2
  = closed (secretCredsRevoke d (inl db)).1.2 + opened loop /\
  ((secretCredsRevoke d (inl db)).2 = (None, None) ->
   opened (secretCredsRevoke d (inl db)).1.2
   = 2 + length (revocationStmts (username_of raw) rows) /\
   closed (secretCredsRevoke d (inl db)).1.2 = 2).
Proof.
  intros Hd Hprep Hquery loop.
  destruct (secretCredsRevoke_calls d raw db db1 stmt db2 rows Hd Hprep Hquery)
    as (final & Htr & _ & Ho & Hc & Hout & Hall).
  destruct (revoke_loop_calls (revocationStmts (username_of raw) rows) db2 None)
    as (_ & Hcl & _ & _ & Hlall).
  fold loop in Htr, Hout, Hall, Hcl, Hlall.
  assert (Hopened : opened (secretCredsRevoke d (inl db)).1.2
                    = 1 + opened loop + opened final).
  { rewrite Htr, !opened_cons, !opened_app, !opened_cons. cbn [is_opened].
    change (opened (@nil event)) with 0. lia. }
  assert (Hclosed : closed (secretCredsRevoke d (inl db)).1.2 = closed final + 1).
  { rewrite Htr, !closed_cons, !closed_app, !closed_cons, Hcl. cbn [is_closed].
    change (closed (@nil event)) with 0. lia. }
  split_and!; [exact Hcl|lia|lia|].
  intros Hok. apply Hout in Hok. specialize (Hall Hok).
  rewrite failures_app in Hok. apply app_eq_nil in Hok as [Hl _].
  specialize (Hlall Hl). lia.
Qed.

End PostgresFacts.

(** Nothing fails: the REVOKEs of the two rows that scanned, then the
    DROP ROLE. *)
Lemma secretCredsRevoke_revokes_then_drops_witness :
  postgresql.prepared (postgresql_inmem.secretCredsRevoke "" postgresql_inmem.bob (inl [])).1.2
  = [postgresql_inmem.select_bob; postgresql_inmem.revoke_bob "public";
     postgresql_inmem.revoke_bob "app"; postgresql_inmem.drop_bob].
Proof.
  destruct (secretCredsRevoke_revokes_then_drops postgresql_inmem.DB string
              postgresql_inmem.Prepare postgresql_inmem.Query (postgresql_inmem.Exec "")
              postgresql_inmem.Stmt_Close postgresql_inmem.Rows_Close
              postgresql_inmem.QuoteIdentifier
              postgresql_inmem.bob (postgresql.VString "bob") [] []
              postgresql_inmem.select_bob [] postgresql_inmem.bob_rows
              eq_refl eq_refl eq_refl)
    as [_ [(_ & _ & H)|([H|H] & _)]].
  - exact H.
  - destruct (H eq_refl).
  - destruct (H eq_refl).
Defined.

(** The REVOKE for the first schema fails: the one for the second is
    executed all the same, and the role is not dropped. *)
Example secretCredsRevoke_goes_on :
  postgresql_inmem.secretCredsRevoke (postgresql_inmem.revoke_bob "public")
    postgresql_inmem.bob (inl [])
  = (Some [postgresql_inmem.revoke_bob "app"],
     [postgresql.EvPrepare postgresql_inmem.select_bob None;
      postgresql.EvQuery postgresql_inmem.select_bob None;
      postgresql.EvPrepare (postgresql_inmem.revoke_bob "public") None;
      postgresql.EvExec (postgresql_inmem.revoke_bob "public") (Some "permission denied");
      postgresql.EvPrepare (postgresql_inmem.revoke_bob "app") None;
      postgresql.EvExec (postgresql_inmem.revoke_bob "app") None;
      postgresql.EvRowsErr None;
      postgresql.EvRowsClose;
      postgresql.EvStmtClose postgresql_inmem.select_bob],
     (Some (postgresql.ErrorResponse
              "could not perform all revocation statements: permission denied"), None)).
Proof. vm_compute. reflexivity. Qed.

(** The call succeeds although a row did not scan. *)
Lemma secretCredsRevoke_success_iff_witness :
  (postgresql_inmem.secretCredsRevoke "" postgresql_inmem.bob (inl [])).2 = (None, None) /\
  postgresql.failures
    (postgresql_inmem.secretCredsRevoke "" postgresql_inmem.bob (inl [])).1.2 = [] /\
  last (postgresql.prepared
          (postgresql_inmem.secretCredsRevoke "" postgresql_inmem.bob (inl [])).1.2)
  = Some postgresql_inmem.drop_bob.
Proof.
  assert (Hok : (postgresql_inmem.secretCredsRevoke "" postgresql_inmem.bob (inl [])).2
                = (None, None)) by (vm_compute; reflexivity).
  destruct (secretCredsRevoke_success_iff postgresql_inmem.DB string
              postgresql_inmem.Prepare postgresql_inmem.Query (postgresql_inmem.Exec "")
              postgresql_inmem.Stmt_Close postgresql_inmem.Rows_Close
              postgresql_inmem.QuoteIdentifier
              postgresql_inmem.bob (postgresql.VString "bob") [] eq_refl)
    as [[H1 _] H2].
  split; [exact Hok|]. split; [exact (H1 Hok)|exact (H2 Hok)].
Defined.

(** Four statements prepared, two closed. *)
Lemma secretCredsRevoke_leaves_statements_open_witness :
  postgresql.opened
    (postgresql_inmem.secretCredsRevoke "" postgresql_inmem.bob (inl [])).1.2 = 4 /\
  postgresql.closed
    (postgresql_inmem.secretCredsRevoke "" postgresql_inmem.bob (inl [])).1.2 = 2.
Proof.
  assert (Hok : (postgresql_inmem.secretCredsRevoke "" postgresql_inmem.bob (inl [])).2
                = (None, None)) by (vm_compute; reflexivity).
  destruct (secretCredsRevoke_leaves_statements_open postgresql_inmem.DB string
              postgresql_inmem.Prepare postgresql_inmem.Query (postgresql_inmem.Exec "")
              postgresql_inmem.Stmt_Close postgresql_inmem.Rows_Close
              postgresql_inmem.QuoteIdentifier
              postgresql_inmem.bob (postgresql.VString "bob") [] []
              postgresql_inmem.select_bob [] postgresql_inmem.bob_rows
              eq_refl eq_refl eq_refl)
    as (_ & _ & _ & H).
  exact (H Hok).
Defined.
